(** * Dialogue engine: lexer, parser, compiler, bytecode encoder and VM

    A shallow embedding of the TypeScript sources ([lexer.ts], [parser.ts],
    [compiler.ts], [bytecode.ts], [vm.ts]) and the properties of the
    specification that were checked against it.

    Conventions.
    - A JavaScript string is a [string]: a sequence of code units, here the
      8-bit ones.
    - A byte buffer ([ArrayBuffer], [Uint8Array], [DataView]) is a
      [list byte]; reads outside of the buffer raise [RangeError].
    - A JavaScript array keeps its order: the last element of [stack] is
      the top of the value stack.
    - Code that throws returns [Throw] with the state as the exception
      left it. *)

From Stdlib Require Import ZArith List Ascii String Lia Bool.
From Stdlib.Strings Require Import Byte.
From stdpp Require Import base option list gmap strings.

Local Open Scope Z_scope.

(** ** bytecode.ts *)

Module Bytecode.

(** The [type] tags of [IROp]. *)
Inductive IROpType :=
| ReadStr | SetCharacter | ShowDialogue | EvaluateScript | Concatenate
| ReadVariable | SetVariableName | Jump | EndOfScript | SetVariable
| Prompt | MoveRegReg | SubRegReg | PickOption.

Definition IROpType_eqb (a b : IROpType) : bool :=
  match a, b with
  | ReadStr, ReadStr | SetCharacter, SetCharacter
  | ShowDialogue, ShowDialogue | EvaluateScript, EvaluateScript
  | Concatenate, Concatenate | ReadVariable, ReadVariable
  | SetVariableName, SetVariableName | Jump, Jump
  | EndOfScript, EndOfScript | SetVariable, SetVariable
  | Prompt, Prompt | MoveRegReg, MoveRegReg | SubRegReg, SubRegReg
  | PickOption, PickOption => true
  | _, _ => false
  end.

(** [IR = IROp | LabelIR]; the constructors carry the fields of the
    interfaces of the same name. *)
Inductive IR :=
| ReadStrOp (string_ : Z)
| SetCharacterOp (character : Z)
| ShowDialogueOp (enclosed : option ascii)
| EvaluateScriptOp
| ConcatenateOp
| ReadVariableOp (variable : Z)
| SetVariableNameOp (variable : Z)
| JumpOp (target : Z)
| LabelIR (target : Z)
| EndOfScriptOp
| SetVariableOp (variable : Z)
| PromptOp
| MoveRegRegOp (from to : Z)
| SubRegRegOp (into registerLeft registerRight : Z)
| PickOptionOp (register : Z).

Definition OPCODE_MAP (op : IROpType) : Z :=
  match op with
  | ReadStr => 0
  | SetCharacter => 1
  | ShowDialogue => 2
  | EvaluateScript => 3
  | Concatenate => 4
  | ReadVariable => 5
  | SetVariableName => 6
  | Jump => 7
  | EndOfScript => 8
  | SetVariable => 9
  | Prompt => 10
  | MoveRegReg => 11
  | SubRegReg => 12
  | PickOption => 13
  end.

(** [Object.entries(OPCODE_MAP)], in the order of the literal. *)
Definition OPCODE_MAP_entries : list (IROpType * Z) :=
  map (fun op => (op, OPCODE_MAP op))
    [ReadStr; SetCharacter; ShowDialogue; EvaluateScript; Concatenate;
     ReadVariable; SetVariableName; Jump; EndOfScript; SetVariable;
     Prompt; MoveRegReg; SubRegReg; PickOption].

(** [Object.fromEntries] of the swapped entries: a later entry with the
    same key would win; a key that is absent reads [undefined]. *)
Definition OPCODE_TO_IROp (opcode : Z) : option IROpType :=
  fst <$> last (filter (fun e => snd e = opcode) OPCODE_MAP_entries).

End Bytecode.

Import Bytecode.

(** ** Byte buffers and [DataView] *)

Module DataView.

Definition byteZ (b : byte) : Z := Z.of_N (Byte.to_N b).

(** The byte a typed-array store keeps of a number: its value modulo 256. *)
Definition byteOf (z : Z) : byte :=
  default x00 (Byte.of_N (Z.to_N (z mod 256))).

(** [view.getUint8(offset)] for an integer offset. *)
Definition getUint8 (view : list byte) (offset : Z) : option Z :=
  if offset <? 0 then None else byteZ <$> view !! Z.to_nat offset.

(** [view.getUint32(offset, true)]: little endian. *)
Definition getUint32 (view : list byte) (offset : Z) : option Z :=
  if offset <? 0 then None else
  match drop (Z.to_nat offset) view with
  | b0 :: b1 :: b2 :: b3 :: _ =>
      Some (byteZ b0 + 256 * byteZ b1 + 65536 * byteZ b2 + 16777216 * byteZ b3)
  | _ => None
  end.

(** The four bytes [setUint32(_, value, true)] stores. *)
Definition bytes32 (value : Z) : list byte :=
  [byteOf value; byteOf (value / 256); byteOf (value / 65536);
   byteOf (value / 16777216)].

(** [view.setUint32(offset, value, true)]. *)
Definition setUint32 (view : list byte) (offset value : Z) : option (list byte) :=
  if (offset <? 0) || (Z.of_nat (length view) <? offset + 4) then None
  else Some (take (Z.to_nat offset) view ++ bytes32 value
             ++ drop (Z.to_nat offset + 4) view).

End DataView.

Import DataView.

(** ** The text codec of the platform

    [TextEncoder] and [TextDecoder] are parameters of the encoder and of the
    machine. This instance of them is UTF-8 on the code units a [string]
    holds (the code points below 256); it is used to run the definitions on
    examples. *)

Module Utf8.

Definition encodeUnit (c : ascii) : list byte :=
  let n := Z.of_N (N_of_ascii c) in
  if n <? 128 then [byteOf n]
  else [byteOf (192 + n / 64); byteOf (128 + n mod 64)].

Fixpoint encode (s : string) : list byte :=
  match s with
  | EmptyString => []
  | String c s' => encodeUnit c ++ encode s'
  end.

Definition unit (n : Z) : ascii := ascii_of_N (Z.to_N n).

(** A sequence that is not the encoding of a code point below 256 decodes
    to U+FFFD, which a [string] cannot hold and is written [?] here. *)
Fixpoint decode (bytes : list byte) : string :=
  match bytes with
  | [] => EmptyString
  | b :: bytes' =>
      let n := byteZ b in
      if n <? 128 then String (unit n) (decode bytes')
      else
        match bytes' with
        | b' :: bytes'' =>
            let m := byteZ b' in
            if ((n =? 194) || (n =? 195)) && (128 <=? m) && (m <? 192)
            then String (unit ((n - 192) * 64 + (m - 128))) (decode bytes'')
            else String "?" (decode bytes')
        | [] => String "?" EmptyString
        end
  end.

End Utf8.

(** ** vm.ts *)

Module VM.

(** What a slot of the register file holds: the registers are JavaScript
    numbers, always integers here; a slot that was never written reads
    [undefined], and arithmetic on it gives [NaN]. *)
Inductive jsnum := Num (z : Z) | NaN | Undefined.

Definition jsAdd (n : jsnum) (k : Z) : jsnum :=
  match n with Num z => Num (z + k) | _ => NaN end.

Definition jsSub (a b : jsnum) : jsnum :=
  match a, b with Num x, Num y => Num (x - y) | _, _ => NaN end.

(** [ToIndex]: the offset argument of the [DataView] getters. *)
Definition toIndex (n : jsnum) : option Z :=
  match n with
  | Num z => if z <? 0 then None else Some z
  | _ => Some 0
  end.

(** [n & 1]. *)
Definition jsLowBit (n : jsnum) : Z :=
  match n with Num z => Z.land z 1 | _ => 0 end.

(** [i < n] for an integer [i]. *)
Definition jsLess (i : Z) (n : jsnum) : bool :=
  match n with Num z => i <? z | _ => false end.

Record VMState := mkVMState {
  stack : list (option string);
  reg : gmap Z jsnum;
  nextVariableId : Z;
  variableFromName : gmap string Z;
  variableValues : gmap Z string;
  character : Z;
  view : list byte
}.

Inductive Event :=
| ConsoleLog (line : string)
| ConsoleLogOptions (opts : list (string * string))
| ConsoleWarn (line : string)
| PromptMessage (message : string).

(** The machine together with its host: the replies [prompt] will return
    ([None] is a cancelled prompt, as is the end of the input) and what was
    printed so far, oldest first. *)
Record World := mkWorld {
  vm : VMState;
  replies : list (option string);
  console : list Event
}.

Inductive Error :=
| StackUnderflow
| OddOptionLength
| PromptCancelled
| InvalidOption
| UnknownOpcode (opcode : Z)
| RangeError
| ScriptError.

Inductive Outcome (A : Type) :=
| Ok (a : A) (w : World)
| Throw (e : Error) (w : World).
Arguments Ok {A} a w.
Arguments Throw {A} e w.

Definition M (A : Type) : Type := World -> Outcome A.

Definition ret {A} (a : A) : M A := fun w => Ok a w.

Definition bind {A B} (m : M A) (k : A -> M B) : M B :=
  fun w => match m w with Ok a w' => k a w' | Throw e w' => Throw e w' end.

Definition throw {A} (e : Error) : M A := fun w => Throw e w.

Notation "'let*' x ':=' m 'in' k" := (bind m (fun x => k))
  (at level 10, x name, m at level 100, k at level 200).
Notation "m ';;' k" := (bind m (fun _ => k))
  (at level 100, k at level 200, right associativity).

Definition get : M VMState := fun w => Ok (vm w) w.

Definition modify (f : VMState -> VMState) : M unit :=
  fun w => Ok tt (mkWorld (f (vm w)) (replies w) (console w)).

Definition emit (e : Event) : M unit :=
  fun w => Ok tt (mkWorld (vm w) (replies w) (console w ++ [e])).

(** [prompt(message)]. *)
Definition prompt (message : string) : M (option string) :=
  fun w =>
    let w' := mkWorld (vm w) (tail (replies w)) (console w ++ [PromptMessage message]) in
    match replies w with
    | r :: _ => Ok r w'
    | [] => Ok None w'
    end.

Definition set_stack (s : list (option string)) (st : VMState) : VMState :=
  mkVMState s (reg st) (nextVariableId st) (variableFromName st)
    (variableValues st) (character st) (view st).

Definition set_reg (r : gmap Z jsnum) (st : VMState) : VMState :=
  mkVMState (stack st) r (nextVariableId st) (variableFromName st)
    (variableValues st) (character st) (view st).

Definition set_character (c : Z) (st : VMState) : VMState :=
  mkVMState (stack st) (reg st) (nextVariableId st) (variableFromName st)
    (variableValues st) c (view st).

Definition set_variableValues (v : gmap Z string) (st : VMState) : VMState :=
  mkVMState (stack st) (reg st) (nextVariableId st) (variableFromName st)
    v (character st) (view st).

Definition set_variableName (name : string) (st : VMState) : VMState :=
  mkVMState (stack st) (reg st) (nextVariableId st + 1)
    (<[name := nextVariableId st]> (variableFromName st))
    (variableValues st) (character st) (view st).

(** [state.reg[i]]. *)
Definition getReg (i : Z) (st : VMState) : jsnum :=
  default Undefined (reg st !! i).

(** [state.reg[i] = n]. *)
Definition setReg (i : Z) (n : jsnum) : M unit :=
  modify (fun st => set_reg (<[i := n]> (reg st)) st).

Definition liftRange {A} (o : option A) : M A :=
  match o with Some a => ret a | None => throw RangeError end.

Definition read32 : M Z :=
  let* st := get in
  let* off := liftRange (toIndex (getReg 0 st)) in
  let* op := liftRange (getUint32 (view st) off) in
  setReg 0 (jsAdd (getReg 0 st) 4);;
  ret op.

Definition read8 : M Z :=
  let* st := get in
  let* off := liftRange (toIndex (getReg 0 st)) in
  let* op := liftRange (getUint8 (view st) off) in
  setReg 0 (jsAdd (getReg 0 st) 1);;
  ret op.

(** The loop of [readStr] over the bytes from [offset] on: it stops at the
    first zero byte, and reading past the end of the buffer raises. *)
Fixpoint readStrBytes (rest : list byte) : option (list byte) :=
  match rest with
  | [] => None
  | b :: rest' =>
      if (byteZ b =? 0) then Some []
      else cons b <$> readStrBytes rest'
  end.

(** [array.pop()]: the last element, [undefined] on an empty array. *)
Definition arrayPop {A} (l : list (option A)) : option A * list (option A) :=
  match reverse l with
  | [] => (None, [])
  | x :: r => (x, reverse r)
  end.

Definition stackPush (value : string) : M unit :=
  modify (fun st => set_stack (stack st ++ [Some value]) st);;
  let* st := get in
  setReg 1 (jsAdd (getReg 1 st) 1).

Definition stackPop : M (option string) :=
  let* st := get in
  setReg 1 (jsAdd (getReg 1 st) (-1));;
  let* st := get in
  let '(top, rest) := arrayPop (stack st) in
  modify (set_stack rest);;
  ret top.

(** [!value] of a popped value: [undefined] and the empty string are falsy. *)
Definition falsy (v : option string) : bool :=
  match v with
  | None => true
  | Some s => if decide (s = "") then true else false
  end.

(** A popped value inside a template literal. *)
Definition templateString (v : option string) : string :=
  default "undefined" v.

(** A popped value as [Array.prototype.join] prints it. *)
Definition joinString (v : option string) : string :=
  default "" v.

(** [state.stack.length = n]. *)
Definition setStackLength (n : jsnum) : M unit :=
  match n with
  | Num z =>
      if (z <? 0) || (4294967296 <=? z) then throw RangeError
      else modify (fun st =>
        let len := Z.to_nat z in
        set_stack (take len (stack st) ++ replicate (len - length (stack st))%nat None) st)
  | _ => throw RangeError
  end.

(** [opts.set(key, value)] keeps the place of a key that is there. *)
Fixpoint mapSet (opts : list (string * string)) (key value : string)
  : list (string * string) :=
  match opts with
  | [] => [(key, value)]
  | (k, v) :: opts' =>
      if decide (k = key) then (k, value) :: opts'
      else (k, v) :: mapSet opts' key value
  end.

Fixpoint mapGet (opts : list (string * string)) (key : string) : option string :=
  match opts with
  | [] => None
  | (k, v) :: opts' => if decide (k = key) then Some v else mapGet opts' key
  end.

(** [keys.join(', ')]. *)
Fixpoint joinKeys (keys : list string) : string :=
  match keys with
  | [] => ""
  | [k] => k
  | k :: keys' => k +:+ ", " +:+ joinKeys keys'
  end.

Section Run.

(** [new TextDecoder().decode], of the platform. *)
Variable decode : list byte -> string.

(** [new Function('vm', `return (${script})`)({getVariable}).toString()]:
    the evaluator of the platform, given the script and [getVariable];
    [None] when it throws. *)
Variable evaluate : string -> (string -> string) -> option string.

Definition readStr (offset : Z) : M string :=
  let* st := get in
  if offset <? 0 then throw RangeError else
  let* bytes := liftRange (readStrBytes (drop (Z.to_nat offset) (view st))) in
  ret (decode bytes).

Definition getVariable (st : VMState) (name : string) : string :=
  match variableFromName st !! name with
  | Some id => default "" (variableValues st !! id)
  | None => ""
  end.

(** The [for] loop of [PickOption], [i] running in steps of two; the
    counter cannot pass [oplen] in more rounds than there are units. *)
Fixpoint pickLoop (rounds : nat) (i : Z) (oplen : jsnum)
  (opts : list (string * string)) : M (list (string * string)) :=
  if jsLess i oplen then
    match rounds with
    | O => ret opts
    | S rounds' =>
        let* key := stackPop in
        let* value := stackPop in
        match key, value with
        | Some k, Some v =>
            if falsy key || falsy value then throw StackUnderflow
            else pickLoop rounds' (i + 2) oplen (mapSet opts k v)
        | _, _ => throw StackUnderflow
        end
    end
  else ret opts.

Definition pickRounds (oplen : jsnum) : nat :=
  match oplen with Num z => Z.to_nat z | _ => O end.

(** The [switch] of [run] on the instruction whose opcode was read: [None]
    when it ends in [break], [Some b] when it ends in [return b]. *)
Definition execute (opcode : Z) : M (option bool) :=
  match OPCODE_TO_IROp opcode with
  | Some Jump =>
      let* target := read32 in
      setReg 0 (Num target);;
      ret None
  | Some EndOfScript =>
      let* st := get in
      (if (0 <? length (stack st))%nat
       then emit (ConsoleWarn "WARN: Script ended with non-empty stack")
       else ret tt);;
      ret (Some true)
  | Some ReadStr =>
      let* offset := read32 in
      let* s := readStr offset in
      stackPush s;;
      ret None
  | Some SetCharacter =>
      let* c := read32 in
      modify (set_character c);;
      ret None
  | Some Concatenate =>
      let* st := get in
      if (length (stack st) <? 2)%nat then throw StackUnderflow else
      let* b := stackPop in
      let* a := stackPop in
      stackPush (joinString a +:+ joinString b);;
      ret None
  | Some ShowDialogue =>
      read32;;
      let* st := get in
      if (length (stack st) <? 1)%nat then throw StackUnderflow else
      let* speaker := readStr (character st) in
      let* text := stackPop in
      emit (ConsoleLog ("<< " +:+ speaker +:+ String "010" (templateString text +:+ String "010" "")));;
      ret (Some false)
  | Some EvaluateScript =>
      let* script := stackPop in
      match script with
      | Some src =>
          if falsy script then throw StackUnderflow else
          let* st := get in
          match evaluate src (getVariable st) with
          | Some r => stackPush r;; ret None
          | None => throw ScriptError
          end
      | None => throw StackUnderflow
      end
  | Some ReadVariable =>
      let* id := read32 in
      let* st := get in
      stackPush (default "" (variableValues st !! id));;
      ret None
  | Some SetVariableName =>
      let* offset := read32 in
      let* name := readStr offset in
      modify (set_variableName name);;
      ret None
  | Some SetVariable =>
      let* value := stackPop in
      match value with
      | Some v =>
          if falsy value then throw StackUnderflow else
          let* id := read32 in
          modify (fun st => set_variableValues (<[id := v]> (variableValues st)) st);;
          ret None
      | None => throw StackUnderflow
      end
  | Some Prompt =>
      let* promptMessage := stackPop in
      match promptMessage with
      | Some msg =>
          if falsy promptMessage then throw StackUnderflow else
          let* value := prompt (">> " +:+ msg) in
          match value with
          | None => throw PromptCancelled
          | Some v => stackPush v;; emit (ConsoleLog "");; ret None
          end
      | None => throw StackUnderflow
      end
  | Some MoveRegReg =>
      let* r := read8 in
      let* src := read8 in
      let* st := get in
      setReg r (getReg src st);;
      (if r =? 1 then
         let* st := get in setStackLength (getReg 1 st)
       else ret tt);;
      ret None
  | Some SubRegReg =>
      let* into := read8 in
      let* left := read8 in
      let* st := get in
      let l := getReg left st in
      let* right := read8 in
      let* st := get in
      setReg into (jsSub l (getReg right st));;
      ret None
  | Some PickOption =>
      let* r := read8 in
      let* st := get in
      let oplen := getReg r st in
      if negb (jsLowBit oplen =? 0) then throw OddOptionLength else
      let* opts := pickLoop (pickRounds oplen) 0 oplen [] in
      emit (ConsoleLogOptions opts);;
      let* value := prompt (">> Pick an option: " +:+ joinKeys (map fst opts) +:+ ":") in
      match value with
      | None => throw PromptCancelled
      | Some v =>
          match mapGet opts v with
          | None => throw InvalidOption
          | Some result =>
              if falsy (Some result) then throw InvalidOption else
              stackPush v;; emit (ConsoleLog "");; ret None
          end
      end
  | None => throw (UnknownOpcode opcode)
  end.

(** One round of the [while (true)] loop of [run]. *)
Definition step : M (option bool) :=
  let* opcode := read32 in
  execute opcode.

(** [run]: the loop, cut after [fuel] instructions ([None]: not yet
    returned). *)
Fixpoint run (fuel : nat) (w : World) : option (Outcome bool) :=
  match fuel with
  | O => None
  | S fuel' =>
      match step w with
      | Ok None w' => run fuel' w'
      | Ok (Some b) w' => Some (Ok b w')
      | Throw e w' => Some (Throw e w')
      end
  end.

End Run.

Definition createVM (bc : list byte) : VMState :=
  mkVMState [] (list_to_map [(0, Num 0); (1, Num 0); (2, Num 0); (3, Num 0); (4, Num 0)])
    0 ∅ ∅ 0 bc.

End VM.

(** ** lexer.ts *)

Module Lexer.

Record ScriptCursor := mkCursor { line : nat; column : nat; index : nat }.

(** [cursorStack] in the order of the array: [push] and [pop] work at the
    end, [shift] at the front. *)
Record LexerState := mkLexer {
  input : string;
  cursorStack : list ScriptCursor
}.

Definition Range : Type := ScriptCursor * ScriptCursor.

Inductive Token :=
| Word (text : string) (range : Range)
| Whitespace (text : string) (range : Range)
| NewLine (range : Range)
| EnclosedTextIndicator (enclosure : ascii) (range : Range)
| SpecialCharacter (character : ascii) (range : Range)
| ScriptEnd (range : Range)
| Variable_ (name : string) (range : Range).

Definition tokenRange (token : Token) : Range :=
  match token with
  | Word _ r | Whitespace _ r | NewLine r | EnclosedTextIndicator _ r
  | SpecialCharacter _ r | ScriptEnd r | Variable_ _ r => r
  end.

Definition newline : ascii := "010"%char.

Definition STRING_ENCLOSURES : list ascii :=
  ["'"; "034"; "`"; "{"; "}"]%char.

Definition SPECIAL_CHARACTERS : list ascii :=
  ["*"; "_"; "@"; ":"; "\"; "="; "<"; "?"]%char.

Definition WHITESPACE_CHARS : list ascii :=
  [" "; "009"; "013"]%char.

Definition TEXT_TERMINATORS : list ascii :=
  WHITESPACE_CHARS ++ STRING_ENCLOSURES ++ SPECIAL_CHARACTERS ++ [newline].

Definition has (set : list ascii) (c : ascii) : bool :=
  existsb (Ascii.eqb c) set.

(** [/[a-zA-Z0-9]/.test(c)] for one character. *)
Definition alphaNumeric (c : ascii) : bool :=
  let n := nat_of_ascii c in
  ((97 <=? n) && (n <=? 122) || (65 <=? n) && (n <=? 90)
   || (48 <=? n) && (n <=? 57))%nat.

(** The cursor on top of the stack; the source reads a field of
    [undefined], which raises, when the stack is empty ([None]). *)
Definition currentCursor (lexer : LexerState) : option ScriptCursor :=
  last (cursorStack lexer).

(** [input.charAt(index)]: [None] is the empty string past the end. *)
Definition currentChar (lexer : LexerState) : option (option ascii) :=
  cursor ← currentCursor lexer;
  Some (String.get (index cursor) (input lexer)).

Definition setTop (cursor : ScriptCursor) (lexer : LexerState) : LexerState :=
  mkLexer (input lexer) (removelast (cursorStack lexer) ++ [cursor]).

Definition advanceCursor (lexer : LexerState) : option LexerState :=
  cursor ← currentCursor lexer;
  c ← currentChar lexer;
  let isNewline := bool_decide (c = Some newline) in
  Some (setTop
          (if isNewline
           then mkCursor (S (line cursor)) 0 (S (index cursor))
           else mkCursor (line cursor) (S (column cursor)) (S (index cursor)))
          lexer).

Definition isEOF (lexer : LexerState) : option bool :=
  cursor ← currentCursor lexer;
  Some (String.length (input lexer) <=? index cursor)%nat.

Definition cloneAndPushCursor (lexer : LexerState) : option LexerState :=
  cursor ← currentCursor lexer;
  Some (mkLexer (input lexer) (cursorStack lexer ++ [cursor])).

(** [lexer.cursorStack.shift()!], with the lexer it leaves. *)
Definition shiftCursor (lexer : LexerState) : option (ScriptCursor * LexerState) :=
  match cursorStack lexer with
  | [] => None
  | start :: rest => Some (start, mkLexer (input lexer) rest)
  end.

(** The loop [while (!isEOF(lexer) && test(currentChar(lexer)))] that
    collects the characters it passes. Every round moves the cursor by one
    character, so it makes no more rounds than the input has characters. *)
Fixpoint readWhile (test : ascii -> bool) (rounds : nat) (text : string)
    (lexer : LexerState) : option (string * LexerState) :=
  eof ← isEOF lexer;
  c ← currentChar lexer;
  match rounds, c with
  | S rounds', Some c =>
      if negb eof && test c then
        lexer ← advanceCursor lexer;
        readWhile test rounds' (text +:+ String c EmptyString) lexer
      else Some (text, lexer)
  | _, _ => Some (text, lexer)
  end.

(** [const end = currentCursor(lexer); const start = cursorStack.shift()!]. *)
Definition closeToken (lexer : LexerState) : option (Range * LexerState) :=
  end_ ← currentCursor lexer;
  '(start, lexer) ← shiftCursor lexer;
  Some ((start, end_), lexer).

Definition readWhitespace (lexer : LexerState) : option (Token * LexerState) :=
  lexer ← cloneAndPushCursor lexer;
  '(whitespace, lexer) ←
     readWhile (has WHITESPACE_CHARS) (String.length (input lexer)) "" lexer;
  '(range, lexer) ← closeToken lexer;
  Some (Whitespace whitespace range, lexer).

Definition readNewline (lexer : LexerState) : option (Token * LexerState) :=
  lexer ← cloneAndPushCursor lexer;
  lexer ← advanceCursor lexer;
  '(range, lexer) ← closeToken lexer;
  Some (NewLine range, lexer).

Definition readEnclosedTextIndicator (lexer : LexerState)
  : option (Token * LexerState) :=
  lexer ← cloneAndPushCursor lexer;
  enclosure ← currentChar lexer;
  lexer ← advanceCursor lexer;
  '(range, lexer) ← closeToken lexer;
  Some (EnclosedTextIndicator (default "000"%char enclosure) range, lexer).

Definition readSpecialCharacter (lexer : LexerState)
  : option (Token * LexerState) :=
  lexer ← cloneAndPushCursor lexer;
  character ← currentChar lexer;
  lexer ← advanceCursor lexer;
  '(range, lexer) ← closeToken lexer;
  Some (SpecialCharacter (default "000"%char character) range, lexer).

Definition readWord (lexer : LexerState) : option (Token * LexerState) :=
  lexer ← cloneAndPushCursor lexer;
  '(text, lexer) ←
     readWhile (fun c => negb (has TEXT_TERMINATORS c))
       (String.length (input lexer)) "" lexer;
  '(range, lexer) ← closeToken lexer;
  Some (Word text range, lexer).

Definition readVariable (lexer : LexerState) : option (Token * LexerState) :=
  lexer ← cloneAndPushCursor lexer;
  lexer ← advanceCursor lexer;
  '(name, lexer) ←
     readWhile alphaNumeric (String.length (input lexer)) "" lexer;
  '(range, lexer) ← closeToken lexer;
  Some (Variable_ name range, lexer).

Definition getNextToken (lexer : LexerState) : option (Token * LexerState) :=
  current ← currentChar lexer;
  eof ← isEOF lexer;
  if (eof : bool) then
    cursor ← currentCursor lexer;
    Some (ScriptEnd (cursor, cursor), lexer)
  else
    match current with
    | None => readWord lexer
    | Some c =>
        if has WHITESPACE_CHARS c then readWhitespace lexer
        else if Ascii.eqb c newline then readNewline lexer
        else if has STRING_ENCLOSURES c then readEnclosedTextIndicator lexer
        else if has SPECIAL_CHARACTERS c then readSpecialCharacter lexer
        else if Ascii.eqb c "$" then readVariable lexer
        else readWord lexer
    end.

Definition createLexer (input : string) : LexerState :=
  mkLexer input [mkCursor 1 1 0].

(** [IteratorResult<Token, undefined>]. *)
Inductive IteratorResult :=
| Yielded (value : Token)
| Done.

(** [result.value]. *)
Definition value (result : IteratorResult) : option Token :=
  match result with Yielded token => Some token | Done => None end.

(** The generator of [tokenGenerator] over its lexer: [finished] once the
    [ScriptEnd] token was yielded (the next resumption leaves the loop) or
    an exception went through it. *)
Record Generator := mkGenerator {
  lexer : LexerState;
  finished : bool
}.

(** The object [lex] returns: its generator and what it closes over. *)
Record Lex := mkLex {
  gen : Generator;
  peaked : IteratorResult;
  current : IteratorResult;
  stackCurrent : list IteratorResult
}.

(** [gen.next()]; [None] in the first component when it raises. *)
Definition genNext (g : Generator) : option IteratorResult * Generator :=
  if finished g then (Some Done, g)
  else
    match getNextToken (lexer g) with
    | None => (None, mkGenerator (lexer g) true)
    | Some (token, lexer') =>
        (Some (Yielded token),
         mkGenerator lexer'
           match token with ScriptEnd _ => true | _ => false end)
    end.

(** An operation of the object either returns, or raises with the object
    as the exception left it. *)
Inductive Completion (A : Type) :=
| Returns (a : A) (l : Lex)
| Raises (l : Lex).
Arguments Returns {A} a l.
Arguments Raises {A} l.

Definition next (l : Lex) : Completion IteratorResult :=
  let l := mkLex (gen l) (peaked l) (peaked l) (stackCurrent l) in
  match genNext (gen l) with
  | (Some result, g) => Returns (current l) (mkLex g result (current l) (stackCurrent l))
  | (None, g) => Raises (mkLex g (peaked l) (current l) (stackCurrent l))
  end.

Definition peek (l : Lex) : IteratorResult := peaked l.

Definition lexIsEOF (l : Lex) : option bool := isEOF (lexer (gen l)).

Definition pushCurrent (l : Lex) : Completion unit :=
  match cloneAndPushCursor (lexer (gen l)) with
  | None => Raises l
  | Some lexer' =>
      Returns tt (mkLex (mkGenerator lexer' (finished (gen l))) (peaked l)
                    (current l) (stackCurrent l ++ [peaked l; current l]))
  end.

(** [popCurrent()]. Without two saved results the source leaves [undefined]
    in [current] and [peaked], and the next use of either raises; here the
    call itself does. *)
Definition popCurrent (l : Lex) : Completion unit :=
  let lexer' := mkLexer (input (lexer (gen l)))
                  (removelast (cursorStack (lexer (gen l)))) in
  let g := mkGenerator lexer' (finished (gen l)) in
  match reverse (stackCurrent l) with
  | current' :: peaked' :: rest =>
      Returns tt (mkLex g peaked' current' (reverse rest))
  | _ => Raises (mkLex g (peaked l) (current l) [])
  end.

Definition shiftLast (l : Lex) : Completion unit :=
  let lexer' := mkLexer (input (lexer (gen l)))
                  (tail (cursorStack (lexer (gen l)))) in
  Returns tt (mkLex (mkGenerator lexer' (finished (gen l))) (peaked l)
                (current l) (removelast (removelast (stackCurrent l)))).

(** [lex(input)]. The first cursor is there, so the first [gen.next()]
    returns. *)
Definition lex (input : string) : Lex :=
  let '(result, g) := genNext (mkGenerator (createLexer input) false) in
  let peaked := default Done result in
  mkLex g peaked peaked [].

End Lexer.

(** ** parser.ts: the syntax tree *)

Module AST.

(** [TextNodeChild = TextNode | StringNode | ExpressionNode | ScriptNode]. *)
#[warnings="-register-all"] Inductive TextNodeChild :=
| Text (contents : list TextNodeChild) (enclosed : option ascii)
| String_ (contents : string)
| Expression (key : string)
| Script (contents : list TextNodeChild).

(** A [TextNode] where the source asks for one and no other child. *)
Inductive TextNode :=
| mkTextNode (contents : list TextNodeChild) (enclosed : option ascii).

Definition textContents (node : TextNode) : list TextNodeChild :=
  let '(mkTextNode contents _) := node in contents.

Definition textEnclosed (node : TextNode) : option ascii :=
  let '(mkTextNode _ enclosed) := node in enclosed.

Inductive ChoiceValueNode :=
| ChoiceValue (prompt : TextNode) (key : string).

Inductive AssignmentChoiceNode :=
| AssignmentChoice (value : ChoiceValueNode).

(** The members of [DocumentNode.contents]. *)
Inductive StatementNode :=
| Dialogue (speaker : option string) (contents : TextNode)
| Assignment (key : string) (value : TextNode) (isPrompt : bool)
| AssignmentSelect (key : string) (options : list AssignmentChoiceNode).

Inductive DocumentNode :=
| Document (contents : list StatementNode).

End AST.

(** ** parser.ts *)

Module Parser.
Import Lexer AST.

(** What a call can raise: a [ParseError] with its message and cursors, the
    [Error('Unimplemented')] of the guarded options, or the [TypeError] of
    the lexer without a cursor. *)
Inductive Failure :=
| ParseError (message : string) (cursorStack : list ScriptCursor)
| Unimplemented
| TypeError.

(** The loops of the parser run on fuel, one unit a round; [OutOfFuel] is
    no result of the source. *)
Inductive Result (A : Type) :=
| Parsed (a : A) (l : Lex)
| Failed (f : Failure) (l : Lex)
| OutOfFuel.
Arguments Parsed {A} a l.
Arguments Failed {A} f l.
Arguments OutOfFuel {A}.

Definition P (A : Type) : Type := Lex -> Result A.

Definition ret {A} (a : A) : P A := fun l => Parsed a l.

Definition bind {A B} (m : P A) (k : A -> P B) : P B :=
  fun l =>
    match m l with
    | Parsed a l' => k a l'
    | Failed f l' => Failed f l'
    | OutOfFuel => OutOfFuel
    end.

Definition fail {A} (f : Failure) : P A := fun l => Failed f l.

Definition outOfFuel {A} : P A := fun _ => OutOfFuel.

Notation "'let*' x ':=' m 'in' k" := (bind m (fun x => k))
  (at level 10, x name, m at level 100, k at level 200).
Notation "m ';;' k" := (bind m (fun _ => k))
  (at level 100, k at level 200, right associativity).

Definition typeName (token : Token) : string :=
  match token with
  | Word _ _ => "Word"
  | Whitespace _ _ => "Whitespace"
  | NewLine _ => "NewLine"
  | EnclosedTextIndicator _ _ => "EnclosedTextIndicator"
  | SpecialCharacter _ _ => "SpecialCharacter"
  | ScriptEnd _ => "ScriptEnd"
  | Variable_ _ _ => "Variable"
  end.

Definition unexpectedToken {A} (token : Token) : P A :=
  fail (ParseError ("Unexpected token " +:+ typeName token)
          [fst (tokenRange token); snd (tokenRange token)]).

Definition unexpectedEnd {A} : P A :=
  fail (ParseError "Unexpected end of script" []).

Definition ofCompletion {A} (c : Completion A) : Result A :=
  match c with
  | Returns a l => Parsed a l
  | Raises l => Failed TypeError l
  end.

Definition lexNext : P IteratorResult := fun l => ofCompletion (next l).
Definition lexPeek : P IteratorResult := fun l => Parsed (peek l) l.
Definition lexCurrent : P IteratorResult := fun l => Parsed (current l) l.
Definition lexPushCurrent : P unit := fun l => ofCompletion (pushCurrent l).
Definition lexPopCurrent : P unit := fun l => ofCompletion (popCurrent l).
Definition lexShiftLast : P unit := fun l => ofCompletion (shiftLast l).

Definition lexAtEOF : P bool :=
  fun l =>
    match lexIsEOF l with
    | Some eof => Parsed eof l
    | None => Failed TypeError l
    end.

Definition isWhitespace (token : Token) : bool :=
  match token with Whitespace _ _ => true | _ => false end.

Definition isNewLine (token : Token) : bool :=
  match token with NewLine _ => true | _ => false end.

Fixpoint skipWhitespace (fuel : nat) (includeNewline : bool) : P Token :=
  match fuel with
  | O => outOfFuel
  | S fuel' =>
      let* result := lexNext in
      match value result with
      | None => unexpectedEnd
      | Some token =>
          if negb (isWhitespace token)
             && (negb includeNewline || negb (isNewLine token))
          then ret token
          else skipWhitespace fuel' includeNewline
      end
  end.

(** The [while] loop of [parseString]. *)
Fixpoint parseStringLoop (fuel : nat) (currentToken : option Token)
    (contents : string) : P TextNodeChild :=
  match currentToken with
  | Some (Word text _) | Some (Whitespace text _) =>
      match fuel with
      | O => outOfFuel
      | S fuel' =>
          let* result := lexNext in
          parseStringLoop fuel' (value result) (contents +:+ text)
      end
  | _ => ret (String_ contents)
  end.

Definition parseString (fuel : nat) (firstToken : Token) : P TextNodeChild :=
  match firstToken with
  | Word _ _ => parseStringLoop fuel (Some firstToken) ""
  | _ => unexpectedToken firstToken
  end.

Definition single (c : ascii) : string := String c EmptyString.

Definition parseEscapedCharacter (firstToken : Token) : P TextNodeChild :=
  match firstToken with
  | SpecialCharacter character _ =>
      let* peaked := lexPeek in
      match peaked with
      | Done => unexpectedEnd
      | Yielded (SpecialCharacter c _) =>
          lexNext;; lexNext;; ret (String_ (single c))
      | Yielded (NewLine _) =>
          lexNext;; lexNext;; ret (String_ (single newline))
      | Yielded (EnclosedTextIndicator enclosure _) =>
          lexNext;; lexNext;; ret (String_ (single enclosure))
      | Yielded _ =>
          lexNext;; ret (String_ (single character))
      end
  | _ => unexpectedToken firstToken
  end.

Definition parseExpression (firstToken : Token) : P TextNodeChild :=
  match firstToken with
  | Variable_ name _ => lexNext;; ret (Expression name)
  | _ => unexpectedToken firstToken
  end.

(** [pushChild] of [parseTextNodeChildren]: a string after a string is
    added to it. *)
Definition pushChild (children : list TextNodeChild) (child : TextNodeChild)
  : list TextNodeChild :=
  match child, last children with
  | String_ contents, Some (String_ lastContents) =>
      removelast children ++ [String_ (lastContents +:+ contents)]
  | _, _ => children ++ [child]
  end.

Definition isQuote (enclosure : ascii) : bool :=
  Ascii.eqb enclosure "034" || Ascii.eqb enclosure "'".

(** [enclosure === marker] for a marker that may be [undefined]. *)
Definition sameEnclosure (enclosure : ascii) (marker : option ascii) : bool :=
  match marker with
  | Some m => Ascii.eqb enclosure m
  | None => false
  end.

Section EnclosedTextNode.

(** [parseTextNodeChildren], which [parseEnclosedTextNode] calls and which
    calls it. *)
Variable parseTextNodeChildren :
  option Token -> option ascii -> option ascii -> nat -> P (list TextNodeChild).

Definition parseEnclosedTextNodeWith (firstToken : Token)
    (disallowTextString : bool) : P TextNodeChild :=
  match firstToken with
  | EnclosedTextIndicator enclosure _ =>
      if disallowTextString && isQuote enclosure then
        lexNext;; ret (String_ (single enclosure))
      else
        let enclosedEnd :=
          if Ascii.eqb enclosure "{" then "}"%char else enclosure in
        if Ascii.eqb enclosure "{" then
          let* result := lexNext in
          let* contents :=
            parseTextNodeChildren (value result) (Some enclosedEnd)
              (Some "{"%char) 0%nat in
          ret (Script contents)
        else
          let* result := lexNext in
          let* contents :=
            parseTextNodeChildren (value result) (Some enclosedEnd) None 0%nat in
          ret (Text contents (Some enclosure))
  | _ => unexpectedToken firstToken
  end.

End EnclosedTextNode.

(** Whether the [while] of [parseTextNodeChildren] goes on with the token. *)
Definition inText (enclosedEnd : option ascii) (token : Token) : bool :=
  match token with
  | ScriptEnd _ => false
  | NewLine _ => match enclosedEnd with Some _ => true | None => false end
  | _ => true
  end.

(** The [while] loop of [parseTextNodeChildren], a round for a unit of
    fuel; the calls of [parseTextNodeChildren] from inside it start the loop
    again on what is left of the fuel. *)
Fixpoint parseChildrenLoop (fuel : nat) (enclosedEnd : option ascii)
    (ignoreEnclosureStart : option ascii) (ignoreEnclosureEndCount : nat)
    (children : list TextNodeChild) (currentToken : option Token)
  : P (list TextNodeChild) :=
  match currentToken with
  | None => ret children
  | Some token =>
      if negb (inText enclosedEnd token) then ret children else
      match fuel with
      | O => outOfFuel
      | S fuel' =>
          let continue count children currentToken :=
            parseChildrenLoop fuel' enclosedEnd ignoreEnclosureStart count
              children currentToken in
          let nested firstToken enclosedEnd ignoreEnclosureStart count :=
            match firstToken with
            | None => unexpectedEnd
            | Some _ =>
                parseChildrenLoop fuel' enclosedEnd ignoreEnclosureStart
                  count [] firstToken
            end in
          match token with
          | Word _ _ =>
              let* child := parseString fuel' token in
              let* result := lexCurrent in
              continue ignoreEnclosureEndCount (pushChild children child)
                (value result)
          | SpecialCharacter character _ =>
              if Ascii.eqb character "\" then
                let* child := parseEscapedCharacter token in
                let* result := lexCurrent in
                continue ignoreEnclosureEndCount (pushChild children child)
                  (value result)
              else
                let* result := lexNext in
                continue ignoreEnclosureEndCount
                  (pushChild children (String_ (single character)))
                  (value result)
          | EnclosedTextIndicator enclosure _ =>
              if sameEnclosure enclosure enclosedEnd then
                match ignoreEnclosureEndCount with
                | S count =>
                    let* result := lexNext in
                    continue count
                      (pushChild children (String_ (single enclosure)))
                      (value result)
                | O => lexNext;; ret children
                end
              else if sameEnclosure enclosure ignoreEnclosureStart then
                let* result := lexNext in
                continue (S ignoreEnclosureEndCount)
                  (pushChild children (String_ (single enclosure)))
                  (value result)
              else
                let* child := parseEnclosedTextNodeWith nested token true in
                let* result := lexCurrent in
                continue ignoreEnclosureEndCount (pushChild children child)
                  (value result)
          | Whitespace text _ =>
              let* result := lexNext in
              continue ignoreEnclosureEndCount
                (pushChild children (String_ text)) (value result)
          | Variable_ _ _ =>
              let* child := parseExpression token in
              let* result := lexCurrent in
              continue ignoreEnclosureEndCount (pushChild children child)
                (value result)
          | NewLine _ =>
              let* result := lexNext in
              continue ignoreEnclosureEndCount
                (pushChild children (String_ (single newline)))
                (value result)
          | ScriptEnd _ => ret children
          end
      end
  end.

Definition parseTextNodeChildren (fuel : nat) (firstToken : option Token)
    (enclosedEnd ignoreEnclosureStart : option ascii)
    (ignoreEnclosureEndCount : nat) : P (list TextNodeChild) :=
  match firstToken with
  | None => unexpectedEnd
  | Some _ =>
      parseChildrenLoop fuel enclosedEnd ignoreEnclosureStart
        ignoreEnclosureEndCount [] firstToken
  end.

Definition parseEnclosedTextNode (fuel : nat) (firstToken : Token)
    (disallowTextString : bool) : P TextNodeChild :=
  parseEnclosedTextNodeWith (parseTextNodeChildren fuel) firstToken
    disallowTextString.

Definition parseTextNode (fuel : nat) (firstToken : Token) : P TextNode :=
  match firstToken with
  | Word _ _ | SpecialCharacter _ _ | Variable_ _ _ =>
      let* contents := parseTextNodeChildren fuel (Some firstToken) None None 0%nat in
      ret (mkTextNode contents None)
  | NewLine _ => ret (mkTextNode [] None)
  | EnclosedTextIndicator _ _ =>
      let* child := parseEnclosedTextNode fuel firstToken false in
      ret (mkTextNode [child] None)
  | ScriptEnd _ => ret (mkTextNode [] None)
  | Whitespace _ _ => unexpectedToken firstToken
  end.

(** The speaker of [parseDialogue]: the text of a word that a colon
    follows. *)
Definition speakerOf (firstToken : Token) (peaked : IteratorResult)
  : option string :=
  match firstToken, peaked with
  | Word text _, Yielded (SpecialCharacter character _) =>
      if Ascii.eqb character ":" then Some text else None
  | _, _ => None
  end.

(** [if (speaker)]: the empty text counts as no speaker. *)
Definition truthy (speaker : option string) : bool :=
  match speaker with
  | Some text => negb (bool_decide (text = ""))
  | None => false
  end.

Definition parseDialogue (fuel : nat) (firstToken : Token) : P StatementNode :=
  match firstToken with
  | Word _ _ | Variable_ _ _ =>
      let* peaked := lexPeek in
      let speaker := speakerOf firstToken peaked in
      (if truthy speaker then lexNext;; ret tt else ret tt);;
      let* token :=
        if truthy speaker then skipWhitespace fuel false else ret firstToken in
      let* contents := parseTextNode fuel token in
      ret (Dialogue speaker contents)
  | _ => unexpectedToken firstToken
  end.

(** The special character that makes a variable the start of an
    assignment. *)
Definition assigns (token : Token) : bool :=
  match token with
  | SpecialCharacter character _ =>
      Ascii.eqb character "?" || Ascii.eqb character "<"
      || Ascii.eqb character "="
  | _ => false
  end.

Definition isCharacter (token : Token) (c : ascii) : bool :=
  match token with
  | SpecialCharacter character _ => Ascii.eqb character c
  | _ => false
  end.

(** The [while (!lex.isEOF())] loop over the options of a select. *)
Fixpoint parseOptions (fuel : nat) (options : list AssignmentChoiceNode)
  : P (list AssignmentChoiceNode) :=
  match fuel with
  | O => outOfFuel
  | S fuel' =>
      let* eof := lexAtEOF in
      if (eof : bool) then ret options else
      let* current := skipWhitespace fuel' true in
      match current with
      | Word text _ =>
          if bool_decide (text = "if") then fail Unimplemented else
          lexNext;;
          let* next := skipWhitespace fuel' true in
          match next with
          | EnclosedTextIndicator enclosure _ =>
              if isQuote enclosure then
                let* prompt := parseEnclosedTextNode fuel' next false in
                match prompt with
                | Text contents enclosed =>
                    let options :=
                      options ++ [AssignmentChoice
                                    (ChoiceValue (mkTextNode contents enclosed) text)] in
                    let* nextLine := skipWhitespace fuel' false in
                    if isCharacter nextLine "?" then parseOptions fuel' options
                    else ret options
                | String_ _ =>
                    fail (ParseError "Unexpected node String"
                            [fst (tokenRange next); snd (tokenRange next)])
                | Expression _ =>
                    fail (ParseError "Unexpected node Expression"
                            [fst (tokenRange next); snd (tokenRange next)])
                | Script _ =>
                    fail (ParseError "Unexpected node Script"
                            [fst (tokenRange next); snd (tokenRange next)])
                end
              else unexpectedToken next
          | _ => unexpectedToken next
          end
      | _ => unexpectedToken current
      end
  end.

Definition parsePossibleAssignment (fuel : nat) (firstToken : Token)
  : P StatementNode :=
  match firstToken with
  | Variable_ key _ =>
      lexPushCurrent;;
      let* nextToken := skipWhitespace fuel true in
      if negb (assigns nextToken) then
        lexPopCurrent;;
        parseDialogue fuel firstToken
      else
        lexShiftLast;;
        lexNext;;
        if isCharacter nextToken "?" then
          let* options := parseOptions fuel [] in
          ret (AssignmentSelect key options)
        else
          let* token := skipWhitespace fuel false in
          let* value := parseTextNode fuel token in
          ret (Assignment key value (isCharacter nextToken "<"))
  | _ => unexpectedToken firstToken
  end.

(** The [while (!lex.isEOF())] loop of [parse]. *)
Fixpoint parseStatements (fuel : nat) (documentContents : list StatementNode)
  : P (list StatementNode) :=
  match fuel with
  | O => outOfFuel
  | S fuel' =>
      let* eof := lexAtEOF in
      if (eof : bool) then ret documentContents else
      let* token := skipWhitespace fuel' true in
      match token with
      | ScriptEnd _ => ret documentContents
      | Variable_ _ _ =>
          let* node := parsePossibleAssignment fuel' token in
          parseStatements fuel' (documentContents ++ [node])
      | _ =>
          let* node := parseDialogue fuel' token in
          parseStatements fuel' (documentContents ++ [node])
      end
  end.

Definition parse (fuel : nat) : P DocumentNode :=
  let* documentContents := parseStatements fuel [] in
  ret (Document documentContents).

End Parser.

(** ** compiler.ts *)

Module Compiler.
Import AST.

(** A [Map<string, number>]: its entries in the order of insertion. *)
Definition NameMap := list (string * Z).

Fixpoint mapGet (m : NameMap) (name : string) : option Z :=
  match m with
  | [] => None
  | (k, v) :: m' => if decide (k = name) then Some v else mapGet m' name
  end.

Fixpoint mapSet (m : NameMap) (name : string) (id : Z) : NameMap :=
  match m with
  | [] => [(name, id)]
  | (k, v) :: m' =>
      if decide (k = name) then (k, id) :: m' else (k, v) :: mapSet m' name id
  end.

Record CompilerState := mkCompilerState {
  characterIdNext : Z;
  characters : NameMap;
  stringIdNext : Z;
  strings : NameMap;
  variableIdNext : Z;
  variables : NameMap
}.

Definition createCompiler : CompilerState :=
  mkCompilerState 0 [] 0 [] 0 [].

Definition getCharacterId (state : CompilerState) (name : string)
  : Z * CompilerState :=
  match mapGet (characters state) name with
  | Some existing => (existing, state)
  | None =>
      let id := characterIdNext state in
      (id, mkCompilerState (id + 1) (mapSet (characters state) name id)
             (stringIdNext state) (strings state)
             (variableIdNext state) (variables state))
  end.

Definition getStringId (state : CompilerState) (text : string)
  : Z * CompilerState :=
  match mapGet (strings state) text with
  | Some existing => (existing, state)
  | None =>
      let id := stringIdNext state in
      (id, mkCompilerState (characterIdNext state) (characters state)
             (id + 1) (mapSet (strings state) text id)
             (variableIdNext state) (variables state))
  end.

Definition getVariableId (state : CompilerState) (name : string)
  : Z * CompilerState :=
  match mapGet (variables state) name with
  | Some existing => (existing, state)
  | None =>
      let id := variableIdNext state in
      (id, mkCompilerState (characterIdNext state) (characters state)
             (stringIdNext state) (strings state)
             (id + 1) (mapSet (variables state) name id))
  end.

(** [compileTextNodeChild], with the loop of [compileTextNode] over the
    children of a nested node inside it; [compileScript] is the [Script]
    case. *)
Fixpoint compileTextNodeChild (child : TextNodeChild) (state : CompilerState)
  : list IR * CompilerState :=
  let compileChildren :=
    fix loop (children : list TextNodeChild) (isFirstNode : bool)
             (state : CompilerState) : list IR * CompilerState :=
      match children with
      | [] => ([], state)
      | child :: children' =>
          let '(ir, state) := compileTextNodeChild child state in
          let '(rest, state) := loop children' false state in
          (ir ++ (if isFirstNode then [] else [ConcatenateOp]) ++ rest, state)
      end in
  match child with
  | Script contents =>
      let '(ir, state) := compileChildren contents true state in
      (ir ++ [EvaluateScriptOp], state)
  | Expression key =>
      let '(id, state) := getVariableId state key in
      ([ReadVariableOp id], state)
  | String_ contents =>
      let '(id, state) := getStringId state contents in
      ([ReadStrOp id], state)
  | Text contents _ => compileChildren contents true state
  end.

(** The [for] loop of [compileTextNode]. *)
Fixpoint compileChildren (children : list TextNodeChild) (isFirstNode : bool)
    (state : CompilerState) : list IR * CompilerState :=
  match children with
  | [] => ([], state)
  | child :: children' =>
      let '(ir, state) := compileTextNodeChild child state in
      let '(rest, state) := compileChildren children' false state in
      (ir ++ (if isFirstNode then [] else [ConcatenateOp]) ++ rest, state)
  end.

Definition compileTextNode (node : TextNode) (state : CompilerState)
  : list IR * CompilerState :=
  compileChildren (textContents node) true state.

Definition compileScript (contents : list TextNodeChild) (state : CompilerState)
  : list IR * CompilerState :=
  let '(ir, state) := compileChildren contents true state in
  (ir ++ [EvaluateScriptOp], state).

(** [dialogue.speaker ? ... : undefined]: the empty name counts as none. *)
Definition truthy (s : option string) : option string :=
  match s with
  | Some name => if decide (name = "") then None else Some name
  | None => None
  end.

Definition compileDialogue (speaker : option string) (contents : TextNode)
    (state : CompilerState) : list IR * CompilerState :=
  let '(head, state) :=
    match truthy speaker with
    | Some name =>
        let '(characterId, state) := getCharacterId state name in
        ([SetCharacterOp characterId], state)
    | None => ([], state)
    end in
  let '(body, state) := compileTextNode contents state in
  (head ++ body ++ [ShowDialogueOp (textEnclosed contents)], state).

Definition compileAssignment (key : string) (value : TextNode) (isPrompt : bool)
    (state : CompilerState) : list IR * CompilerState :=
  let '(body, state) := compileTextNode value state in
  let '(id, state) := getVariableId state key in
  (body ++ (if isPrompt then [PromptOp] else []) ++ [SetVariableOp id], state).

Definition compileChoiceValue (value : ChoiceValueNode) (state : CompilerState)
  : list IR * CompilerState :=
  let '(ChoiceValue prompt key) := value in
  let '(ir, state) := compileTextNode prompt state in
  let '(id, state) := getStringId state key in
  (ir ++ [ReadStrOp id], state).

(** The [for] loop of [compileAssignmentSelect] over the options. *)
Fixpoint compileOptions (options : list AssignmentChoiceNode)
    (state : CompilerState) : list IR * CompilerState :=
  match options with
  | [] => ([], state)
  | AssignmentChoice value :: options' =>
      let '(ir, state) := compileChoiceValue value state in
      let '(rest, state) := compileOptions options' state in
      (ir ++ rest, state)
  end.

Definition compileAssignmentSelect (key : string)
    (options : list AssignmentChoiceNode) (state : CompilerState)
  : list IR * CompilerState :=
  let '(body, state) := compileOptions options state in
  let '(id, state) := getVariableId state key in
  ([MoveRegRegOp 1 3] ++ body
     ++ [SubRegRegOp 3 1 3; PickOptionOp 3; SetVariableOp id], state).

Definition compileStatement (node : StatementNode) (state : CompilerState)
  : list IR * CompilerState :=
  match node with
  | Dialogue speaker contents => compileDialogue speaker contents state
  | Assignment key value isPrompt => compileAssignment key value isPrompt state
  | AssignmentSelect key options => compileAssignmentSelect key options state
  end.

Fixpoint compileStatements (nodes : list StatementNode) (state : CompilerState)
  : list IR * CompilerState :=
  match nodes with
  | [] => ([], state)
  | node :: nodes' =>
      let '(ir, state) := compileStatement node state in
      let '(rest, state) := compileStatements nodes' state in
      (ir ++ rest, state)
  end.

Definition compileIR (document : DocumentNode) (state : CompilerState)
  : list IR * CompilerState :=
  let '(Document contents) := document in
  let '(ir, state) := compileStatements contents state in
  ([LabelIR 0] ++ ir ++ [EndOfScriptOp], state).

(** *** The bytecode encoder *)

Definition operandOp (op : IROpType) (operands : list Z) : list byte :=
  bytes32 (OPCODE_MAP op) ++ concat (map bytes32 operands).

Definition operandOp8 (op : IROpType) (operands : list Z) : list byte :=
  bytes32 (OPCODE_MAP op) ++ map byteOf operands.

(** The variables of [compileBytecode] during its first pass. [current] is
    the length of what was pushed. *)
Record Encoder := mkEncoder {
  bytecode : list byte;
  labelSubstitutions : list (Z * Z);
  stringSubstitutions : list (Z * Z);
  variableSubstitutions : list (Z * Z);
  characterSubstitutions : list (Z * Z);
  labels : gmap Z Z;
  stringLabels : gmap Z Z;
  variableLabels : gmap Z Z;
  characterLabels : gmap Z Z
}.

Definition current (e : Encoder) : Z := Z.of_nat (length (bytecode e)).

Definition pushBytecode (bc : list byte) (e : Encoder) : Encoder :=
  mkEncoder (bytecode e ++ bc) (labelSubstitutions e) (stringSubstitutions e)
    (variableSubstitutions e) (characterSubstitutions e)
    (labels e) (stringLabels e) (variableLabels e) (characterLabels e).

Definition pushLabelSubstitution (id : Z) (e : Encoder) : Encoder :=
  mkEncoder (bytecode e) (labelSubstitutions e ++ [(id, current e - 4)])
    (stringSubstitutions e) (variableSubstitutions e) (characterSubstitutions e)
    (labels e) (stringLabels e) (variableLabels e) (characterLabels e).

Definition pushStringSubstitution (id : Z) (e : Encoder) : Encoder :=
  mkEncoder (bytecode e) (labelSubstitutions e)
    (stringSubstitutions e ++ [(id, current e - 4)])
    (variableSubstitutions e) (characterSubstitutions e)
    (labels e) (stringLabels e) (variableLabels e) (characterLabels e).

Definition pushVariableSubstitution (id : Z) (e : Encoder) : Encoder :=
  mkEncoder (bytecode e) (labelSubstitutions e) (stringSubstitutions e)
    (variableSubstitutions e ++ [(id, current e - 4)])
    (characterSubstitutions e)
    (labels e) (stringLabels e) (variableLabels e) (characterLabels e).

Definition pushCharacterSubstitution (id : Z) (e : Encoder) : Encoder :=
  mkEncoder (bytecode e) (labelSubstitutions e) (stringSubstitutions e)
    (variableSubstitutions e)
    (characterSubstitutions e ++ [(id, current e - 4)])
    (labels e) (stringLabels e) (variableLabels e) (characterLabels e).

Definition setLabel (id : Z) (e : Encoder) : Encoder :=
  mkEncoder (bytecode e) (labelSubstitutions e) (stringSubstitutions e)
    (variableSubstitutions e) (characterSubstitutions e)
    (<[id := current e]> (labels e)) (stringLabels e) (variableLabels e)
    (characterLabels e).

Definition setStringLabel (id : Z) (e : Encoder) : Encoder :=
  mkEncoder (bytecode e) (labelSubstitutions e) (stringSubstitutions e)
    (variableSubstitutions e) (characterSubstitutions e)
    (labels e) (<[id := current e]> (stringLabels e)) (variableLabels e)
    (characterLabels e).

Definition setVariableLabel (id : Z) (e : Encoder) : Encoder :=
  mkEncoder (bytecode e) (labelSubstitutions e) (stringSubstitutions e)
    (variableSubstitutions e) (characterSubstitutions e)
    (labels e) (stringLabels e) (<[id := current e]> (variableLabels e))
    (characterLabels e).

Definition setCharacterLabel (id : Z) (e : Encoder) : Encoder :=
  mkEncoder (bytecode e) (labelSubstitutions e) (stringSubstitutions e)
    (variableSubstitutions e) (characterSubstitutions e)
    (labels e) (stringLabels e) (variableLabels e)
    (<[id := current e]> (characterLabels e)).

Definition emptyEncoder : Encoder :=
  mkEncoder [] [] [] [] [] ∅ ∅ ∅ ∅.

(** [entries.sort((a, b) => a[1] - b[1])]: by id, entries with the same id
    in the order they had. *)
Fixpoint insertById (entry : string * Z) (sorted : list (string * Z))
  : list (string * Z) :=
  match sorted with
  | [] => [entry]
  | e :: sorted' =>
      if snd e <? snd entry then e :: insertById entry sorted'
      else entry :: e :: sorted'
  end.

Definition sortById (entries : list (string * Z)) : list (string * Z) :=
  foldr insertById [] entries.

(** One round of the [switch] over the operations. *)
Definition encodeOp (irOp : IR) (e : Encoder) : Encoder :=
  match irOp with
  | LabelIR target => setLabel target e
  | ReadStrOp id =>
      pushStringSubstitution id (pushBytecode (operandOp ReadStr [id]) e)
  | SetCharacterOp id =>
      pushCharacterSubstitution id (pushBytecode (operandOp SetCharacter [id]) e)
  | ShowDialogueOp enclosed =>
      pushBytecode
        (operandOp ShowDialogue [match enclosed with Some _ => 1 | None => 0 end]) e
  | EvaluateScriptOp => pushBytecode (operandOp EvaluateScript []) e
  | ConcatenateOp => pushBytecode (operandOp Concatenate []) e
  | ReadVariableOp id => pushBytecode (operandOp ReadVariable [id]) e
  | JumpOp target =>
      pushLabelSubstitution target (pushBytecode (operandOp Jump [target]) e)
  | SetVariableNameOp id =>
      pushVariableSubstitution id
        (pushBytecode (operandOp SetVariableName [id]) e)
  | EndOfScriptOp => pushBytecode (operandOp EndOfScript []) e
  | SetVariableOp id => pushBytecode (operandOp SetVariable [id]) e
  | PromptOp => pushBytecode (operandOp Prompt []) e
  | MoveRegRegOp from to => pushBytecode (operandOp8 MoveRegReg [to; from]) e
  | SubRegRegOp into registerLeft registerRight =>
      pushBytecode (operandOp8 SubRegReg [into; registerLeft; registerRight]) e
  | PickOptionOp register => pushBytecode (operandOp8 PickOption [register]) e
  end.

Inductive SymbolKind := LabelSym | StringSym | VariableSym | CharacterSym.

#[global] Instance SymbolKind_eq_dec : EqDecision SymbolKind.
Proof. solve_decision. Defined.

Inductive EncodeResult :=
| Encoded (buffer : list byte)
| NotFound (kind : SymbolKind) (id : Z)
| BufferRangeError.

(** One of the four substitution loops of the second pass. *)
Fixpoint substitute (kind : SymbolKind) (substitutions : list (Z * Z))
    (table : gmap Z Z) (buffer : list byte) : EncodeResult :=
  match substitutions with
  | [] => Encoded buffer
  | (id, label) :: substitutions' =>
      match table !! id with
      | None => NotFound kind id
      | Some target =>
          match setUint32 buffer label target with
          | None => BufferRangeError
          | Some buffer' => substitute kind substitutions' table buffer'
          end
      end
  end.

Definition andThen (r : EncodeResult) (k : list byte -> EncodeResult)
  : EncodeResult :=
  match r with Encoded buffer => k buffer | _ => r end.

Section Encode.

(** [new TextEncoder().encode], of the platform. *)
Variable encode : string -> list byte.

Definition stringData (str : string) : list byte := encode str.

(** The first pass: the header, the symbol table and the code. *)
Definition layout (ir : list IR) (state : CompilerState) : Encoder :=
  let orderedVariables := sortById (variables state) in
  let e := emptyEncoder in
  let e := foldl (fun e entry =>
             pushVariableSubstitution (snd entry)
               (pushBytecode (operandOp SetVariableName [0]) e))
             e orderedVariables in
  let e := pushLabelSubstitution 0 (pushBytecode (operandOp Jump [0]) e) in
  let e := foldl (fun e entry =>
             pushBytecode [x00]
               (pushBytecode (stringData (fst entry))
                  (setVariableLabel (snd entry) e)))
             e orderedVariables in
  let e := foldl (fun e entry =>
             pushBytecode [x00]
               (pushBytecode (stringData (fst entry))
                  (setStringLabel (snd entry) e)))
             e (strings state) in
  let e := foldl (fun e entry =>
             pushBytecode [x00]
               (pushBytecode (stringData (fst entry))
                  (setCharacterLabel (snd entry) e)))
             e (characters state) in
  foldl (fun e irOp => encodeOp irOp e) e ir.

(** The second pass over the buffer of the first. *)
Definition resolve (e : Encoder) : EncodeResult :=
  andThen (substitute LabelSym (labelSubstitutions e) (labels e) (bytecode e))
    (fun buffer =>
  andThen (substitute StringSym (stringSubstitutions e) (stringLabels e) buffer)
    (fun buffer =>
  andThen (substitute VariableSym (variableSubstitutions e) (variableLabels e) buffer)
    (fun buffer =>
  substitute CharacterSym (characterSubstitutions e) (characterLabels e) buffer))).

Definition compileBytecode (ir : list IR) (state : CompilerState)
  : EncodeResult :=
  resolve (layout ir state).

End Encode.

End Compiler.

(** * Properties *)

Module LexerProps.
Import Lexer.

(** The lexer with [top] as its current cursor, above the cursors [below]. *)
Definition onTop (lexer : LexerState) (below : list ScriptCursor)
    (top : ScriptCursor) : Prop :=
  cursorStack lexer = below ++ [top].

Lemma currentCursor_onTop lexer below top :
  onTop lexer below top -> currentCursor lexer = Some top.
Proof. unfold onTop, currentCursor. intros ->. apply last_snoc. Qed.

Lemma isEOF_onTop lexer below top :
  onTop lexer below top ->
  isEOF lexer = Some (String.length (input lexer) <=? index top)%nat.
Proof.
  intros H. unfold isEOF. by rewrite (currentCursor_onTop _ _ _ H).
Qed.

Lemma currentChar_onTop lexer below top :
  onTop lexer below top ->
  currentChar lexer = Some (String.get (index top) (input lexer)).
Proof.
  intros H. unfold currentChar. by rewrite (currentCursor_onTop _ _ _ H).
Qed.

Lemma cloneAndPushCursor_onTop lexer below top :
  onTop lexer below top ->
  exists lexer', cloneAndPushCursor lexer = Some lexer'
    /\ input lexer' = input lexer
    /\ onTop lexer' (below ++ [top]) top.
Proof.
  intros H. unfold cloneAndPushCursor. rewrite (currentCursor_onTop _ _ _ H).
  eexists. split; [reflexivity|]. split; [reflexivity|].
  unfold onTop in *. simpl. by rewrite H.
Qed.

Lemma advanceCursor_onTop lexer below top :
  onTop lexer below top ->
  exists lexer' top', advanceCursor lexer = Some lexer'
    /\ input lexer' = input lexer
    /\ onTop lexer' below top'
    /\ index top' = S (index top).
Proof.
  intros H. unfold advanceCursor.
  rewrite (currentCursor_onTop _ _ _ H), (currentChar_onTop _ _ _ H). simpl.
  eexists _, _. split; [reflexivity|]. split; [reflexivity|].
  split.
  - unfold onTop in *. simpl. rewrite H, removelast_last. reflexivity.
  - by destruct (bool_decide _).
Qed.

Lemma get_None_length (s : string) (n : nat) :
  String.get n s = None <-> (String.length s <= n)%nat.
Proof.
  revert n. induction s as [|c s IH]; intros [|n]; simpl;
    rewrite ?IH; split; intros; try done; try lia.
Qed.

(** The loop returns, leaves the cursors below the top alone and does not
    move the top back nor past the end of the input. *)
Lemma readWhile_onTop test rounds text lexer below top :
  onTop lexer below top ->
  exists text' lexer' top',
    readWhile test rounds text lexer = Some (text', lexer')
    /\ input lexer' = input lexer
    /\ onTop lexer' below top'
    /\ (index top <= index top')%nat
    /\ (index top' <= Nat.max (index top) (String.length (input lexer)))%nat.
Proof.
  revert text lexer top. induction rounds as [|rounds IH];
    intros text lexer top H; simpl;
    rewrite (isEOF_onTop _ _ _ H), (currentChar_onTop _ _ _ H); simpl.
  - exists text, lexer, top. repeat split; [done|lia..].
  - destruct (String.get (index top) (input lexer)) as [c|] eqn:Ec;
      [|exists text, lexer, top; repeat split; [done|lia..]].
    destruct (negb _ && test c) eqn:Et;
      [|exists text, lexer, top; repeat split; [done|lia..]].
    destruct (advanceCursor_onTop _ _ _ H) as (lexer1 & top1 & -> & Hi & H1 & Hidx).
    simpl.
    destruct (IH (text +:+ String c EmptyString) lexer1 top1 H1)
      as (text' & lexer' & top' & -> & Hi' & H' & Hle & Hmax).
    exists text', lexer', top'. split; [done|]. split; [congruence|].
    split; [done|]. split; [lia|].
    assert (index top < String.length (input lexer))%nat.
    { destruct (Nat.lt_ge_cases (index top) (String.length (input lexer)))
        as [?|Hge]; [done|].
      apply get_None_length in Hge. congruence. }
    rewrite Hi in Hmax. lia.
Qed.

(** The rounds that the input has characters are enough: the loop ends at
    the end of the input or in front of a character that fails the test,
    as the loop of the source does. *)
Lemma readWhile_stops test rounds text lexer below top :
  onTop lexer below top ->
  (String.length (input lexer) - index top <= rounds)%nat ->
  exists text' lexer',
    readWhile test rounds text lexer = Some (text', lexer')
    /\ (isEOF lexer' = Some true
        \/ exists c, currentChar lexer' = Some (Some c) /\ test c = false).
Proof.
  revert text lexer top. induction rounds as [|rounds IH];
    intros text lexer top H Hrounds; simpl;
    rewrite (isEOF_onTop _ _ _ H), (currentChar_onTop _ _ _ H); simpl.
  - exists text, lexer. split; [done|]. left.
    rewrite (isEOF_onTop _ _ _ H). f_equal. apply Nat.leb_le. lia.
  - destruct (String.get (index top) (input lexer)) as [c|] eqn:Ec.
    + destruct (String.length (input lexer) <=? index top)%nat eqn:Eeof; simpl.
      { exists text, lexer. split; [done|]. left.
        by rewrite (isEOF_onTop _ _ _ H), Eeof. }
      destruct (test c) eqn:Et.
      * destruct (advanceCursor_onTop _ _ _ H)
          as (lexer1 & top1 & -> & Hi & H1 & Hidx).
        simpl. apply (IH _ lexer1 top1 H1). rewrite Hi, Hidx. lia.
      * exists text, lexer. split; [done|]. right. exists c.
        by rewrite (currentChar_onTop _ _ _ H), Ec.
    + exists text, lexer. split; [done|]. left.
      rewrite (isEOF_onTop _ _ _ H). f_equal. apply Nat.leb_le.
      by apply get_None_length.
Qed.

Lemma closeToken_onTop lexer bottom below top :
  onTop lexer (bottom :: below) top ->
  closeToken lexer = Some ((bottom, top), mkLexer (input lexer) (below ++ [top])).
Proof.
  intros H. unfold closeToken. rewrite (currentCursor_onTop _ _ _ H).
  unfold shiftCursor, onTop in *. rewrite H. reflexivity.
Qed.

(** The cursors a token read from [below ++ [top]] leaves, the top being
    [top'] afterwards: the oldest cursor is gone. *)
Definition shifted (below : list ScriptCursor) (top top' : ScriptCursor)
  : list ScriptCursor :=
  tail (below ++ [top]) ++ [top'].

Lemma shifted_length below top top' :
  length (shifted below top top') = length (below ++ [top]).
Proof. unfold shifted. destruct below; simpl; rewrite ?length_app; simpl; lia. Qed.

Lemma closeToken_pushed lexer below top top' :
  onTop lexer (below ++ [top]) top' ->
  closeToken lexer
  = Some ((default top (head (below ++ [top])), top'),
          mkLexer (input lexer) (shifted below top top')).
Proof.
  intros H. unfold shifted.
  destruct below as [|bottom below]; simpl in *.
  - exact (closeToken_onTop lexer top [] top' H).
  - exact (closeToken_onTop lexer bottom (below ++ [top]) top' H).
Qed.

Lemma readWhile_first test rounds text lexer below top c :
  onTop lexer below top ->
  String.get (index top) (input lexer) = Some c -> test c = true ->
  exists text' lexer' top',
    readWhile test (S rounds) text lexer = Some (text', lexer')
    /\ input lexer' = input lexer
    /\ onTop lexer' below top'
    /\ (index top < index top')%nat
    /\ (index top' <= String.length (input lexer))%nat.
Proof.
  intros H Hc Ht. simpl.
  rewrite (isEOF_onTop _ _ _ H), (currentChar_onTop _ _ _ H), Hc. simpl.
  assert (index top < String.length (input lexer))%nat as Hlt.
  { destruct (Nat.lt_ge_cases (index top) (String.length (input lexer)))
      as [?|Hge]; [done|].
    apply get_None_length in Hge. congruence. }
  destruct (Nat.leb_spec (String.length (input lexer)) (index top)); [lia|].
  rewrite Ht. simpl.
  destruct (advanceCursor_onTop _ _ _ H) as (lexer1 & top1 & -> & Hi & H1 & Hidx).
  simpl.
  destruct (readWhile_onTop test rounds (text +:+ String c EmptyString)
              lexer1 below top1 H1)
    as (text' & lexer' & top' & -> & Hi' & H' & Hle & Hmax).
  exists text', lexer', top'. split; [done|]. split; [congruence|].
  split; [done|]. rewrite Hi in Hmax. lia.
Qed.

Lemma has_app (s1 s2 : list ascii) (c : ascii) :
  has (s1 ++ s2) c = has s1 c || has s2 c.
Proof. apply existsb_app. Qed.

Definition startOf (below : list ScriptCursor) (top : ScriptCursor)
  : ScriptCursor :=
  default top (head (below ++ [top])).

Section ReadToken.
Variables (lexer : LexerState) (below : list ScriptCursor) (top : ScriptCursor)
  (c : ascii).
Hypothesis Htop : onTop lexer below top.
Hypothesis Hchar : String.get (index top) (input lexer) = Some c.

Lemma index_in_input : (index top < String.length (input lexer))%nat.
Proof.
  destruct (Nat.lt_ge_cases (index top) (String.length (input lexer)))
    as [?|Hge]; [done|].
  apply get_None_length in Hge. congruence.
Qed.

(** A token that is a run of characters: [readWhitespace], [readWord]. *)
Lemma readRun_onTop (test : ascii -> bool) :
  test c = true ->
  exists text top',
    (lexer ← cloneAndPushCursor lexer;
     '(text, lexer) ← readWhile test (String.length (input lexer)) "" lexer;
     '(range, lexer) ← closeToken lexer;
     Some (text, range, lexer))
    = Some (text, (startOf below top, top'),
            mkLexer (input lexer) (shifted below top top'))
    /\ (index top < index top' <= String.length (input lexer))%nat.
Proof.
  intros Ht. pose proof index_in_input as Hlt.
  destruct (cloneAndPushCursor_onTop _ _ _ Htop) as (lexer1 & -> & Hi1 & H1).
  cbn [mbind option_bind]. rewrite Hi1.
  destruct (String.length (input lexer)) as [|rounds] eqn:El; [lia|].
  destruct (readWhile_first test rounds "" lexer1 _ _ c H1
              ltac:(by rewrite Hi1) Ht)
    as (text & lexer2 & top' & -> & Hi2 & H2 & Hlt2 & Hle2).
  cbn [mbind option_bind]. rewrite (closeToken_pushed _ _ _ _ H2).
  cbn [mbind option_bind].
  exists text, top'. split; [by rewrite Hi2, Hi1|]. rewrite Hi1, El in Hle2. lia.
Qed.

(** A token of one character: [readNewline], [readEnclosedTextIndicator],
    [readSpecialCharacter]. *)
Lemma readOne_onTop :
  exists lexer1 lexer2 top',
    cloneAndPushCursor lexer = Some lexer1
    /\ currentChar lexer1 = Some (Some c)
    /\ advanceCursor lexer1 = Some lexer2
    /\ closeToken lexer2
       = Some ((startOf below top, top'),
               mkLexer (input lexer) (shifted below top top'))
    /\ index top' = S (index top).
Proof.
  destruct (cloneAndPushCursor_onTop _ _ _ Htop) as (lexer1 & Hc & Hi1 & H1).
  destruct (advanceCursor_onTop _ _ _ H1) as (lexer2 & top' & Ha & Hi2 & H2 & Hidx).
  exists lexer1, lexer2, top'. split; [done|]. split.
  { by rewrite (currentChar_onTop _ _ _ H1), Hi1, Hchar. }
  split; [done|]. split; [|done].
  rewrite (closeToken_pushed _ _ _ _ H2). by rewrite Hi2, Hi1.
Qed.

Lemma readVariable_onTop :
  exists name top',
    readVariable lexer
    = Some (Variable_ name (startOf below top, top'),
            mkLexer (input lexer) (shifted below top top'))
    /\ (index top < index top' <= String.length (input lexer))%nat.
Proof.
  pose proof index_in_input as Hlt. unfold readVariable.
  destruct (cloneAndPushCursor_onTop _ _ _ Htop) as (lexer1 & -> & Hi1 & H1).
  cbn [mbind option_bind].
  destruct (advanceCursor_onTop _ _ _ H1) as (lexer2 & top1 & -> & Hi2 & H2 & Hidx).
  cbn [mbind option_bind].
  destruct (readWhile_onTop alphaNumeric (String.length (input lexer2)) ""
              lexer2 _ _ H2)
    as (name & lexer3 & top' & -> & Hi3 & H3 & Hle & Hmax).
  cbn [mbind option_bind]. rewrite (closeToken_pushed _ _ _ _ H3).
  cbn [mbind option_bind].
  exists name, top'. split; [by rewrite Hi3, Hi2, Hi1|].
  rewrite Hi2, Hi1 in Hmax. lia.
Qed.

End ReadToken.

(** What [getNextToken] does with a cursor on the stack: at the end of the
    input it returns [ScriptEnd] and leaves the lexer alone; before the end
    it returns another token, drops the oldest cursor and moves the top
    forward, not past the end. *)
Lemma getNextToken_onTop lexer below top :
  onTop lexer below top ->
  ((String.length (input lexer) <= index top)%nat
   /\ getNextToken lexer = Some (ScriptEnd (top, top), lexer))
  \/ ((index top < String.length (input lexer))%nat
      /\ exists token top',
           getNextToken lexer
           = Some (token, mkLexer (input lexer) (shifted below top top'))
           /\ (forall r, token <> ScriptEnd r)
           /\ (index top < index top' <= String.length (input lexer))%nat).
Proof.
  intros H. unfold getNextToken.
  rewrite (currentChar_onTop _ _ _ H), (isEOF_onTop _ _ _ H).
  cbn [mbind option_bind].
  destruct (Nat.leb_spec (String.length (input lexer)) (index top)) as [Heof|Hlt].
  { left. rewrite (currentCursor_onTop _ _ _ H). done. }
  right. split; [done|].
  destruct (String.get (index top) (input lexer)) as [c|] eqn:Ec;
    [|apply get_None_length in Ec; lia].
  destruct (has WHITESPACE_CHARS c) eqn:Ews.
  { destruct (readRun_onTop _ _ _ c H Ec _ Ews) as (text & top' & Hr & Hb).
    exists (Whitespace text (startOf below top, top')), top'.
    split; [|done]. unfold readWhitespace.
    destruct (cloneAndPushCursor lexer) as [l1|]; [|discriminate].
    cbn [mbind option_bind] in *.
    destruct (readWhile _ _ _ _) as [[t l2]|]; [|discriminate].
    cbn [mbind option_bind] in *.
    destruct (closeToken l2) as [[r l3]|]; [|discriminate].
    cbn [mbind option_bind] in *. by injection Hr as -> -> ->. }
  destruct (readOne_onTop _ _ _ c H Ec)
    as (lexer1 & lexer2 & top1 & Hc1 & Hc2 & Hc3 & Hc4 & Hidx).
  destruct (Ascii.eqb c newline) eqn:Enl.
  { exists (NewLine (startOf below top, top1)), top1.
    split; [|split; [done|lia]]. unfold readNewline.
    rewrite Hc1. cbn [mbind option_bind]. rewrite Hc3.
    cbn [mbind option_bind]. by rewrite Hc4. }
  destruct (has STRING_ENCLOSURES c) eqn:Eenc.
  { exists (EnclosedTextIndicator c (startOf below top, top1)), top1.
    split; [|split; [done|lia]]. unfold readEnclosedTextIndicator.
    rewrite Hc1. cbn [mbind option_bind]. rewrite Hc2.
    cbn [mbind option_bind]. rewrite Hc3.
    cbn [mbind option_bind]. by rewrite Hc4. }
  destruct (has SPECIAL_CHARACTERS c) eqn:Esp.
  { exists (SpecialCharacter c (startOf below top, top1)), top1.
    split; [|split; [done|lia]]. unfold readSpecialCharacter.
    rewrite Hc1. cbn [mbind option_bind]. rewrite Hc2.
    cbn [mbind option_bind]. rewrite Hc3.
    cbn [mbind option_bind]. by rewrite Hc4. }
  destruct (Ascii.eqb c "$") eqn:Evar.
  { destruct (readVariable_onTop _ _ _ c H Ec) as (name & top' & -> & Hb).
    exists (Variable_ name (startOf below top, top')), top'. done. }
  assert (negb (has TEXT_TERMINATORS c) = true) as Hword.
  { unfold TEXT_TERMINATORS. rewrite !has_app, Ews, Eenc, Esp. simpl.
    unfold has. simpl. rewrite Enl. reflexivity. }
  destruct (readRun_onTop _ _ _ c H Ec
              (fun c => negb (has TEXT_TERMINATORS c)) Hword)
    as (text & top' & Hr & Hb).
  exists (Word text (startOf below top, top')), top'.
  split; [|done]. unfold readWord.
  destruct (cloneAndPushCursor lexer) as [l1|]; [|discriminate].
  cbn [mbind option_bind] in *.
  destruct (readWhile _ _ _ _) as [[t l2]|]; [|discriminate].
  cbn [mbind option_bind] in *.
  destruct (closeToken l2) as [[r l3]|]; [|discriminate].
  cbn [mbind option_bind] in *. by injection Hr as -> -> ->.
Qed.

(** *** The token stream *)

(** The results of [n] calls of [next()], first call first, and the object
    they leave; [None] if one of them raises. *)
Fixpoint nexts (n : nat) (l : Lex) : option (list IteratorResult * Lex) :=
  match n with
  | O => Some ([], l)
  | S n' =>
      match next l with
      | Returns result l' =>
          '(results, l'') ← nexts n' l'; Some (result :: results, l'')
      | Raises _ => None
      end
  end.

Definition isScriptEnd (result : IteratorResult) : bool :=
  match result with Yielded (ScriptEnd _) => true | _ => false end.

Definition isDone (result : IteratorResult) : bool :=
  match result with Done => true | _ => false end.

(** The lexer of the object has a current cursor. *)
Definition hasCursor (g : Generator) : Prop :=
  exists below top, onTop (lexer g) below top.

Lemma genNext_finished (g : Generator) :
  finished g = true -> genNext g = (Some Done, g).
Proof. unfold genNext. by intros ->. Qed.

Lemma genNext_running (g : Generator) :
  hasCursor g -> finished g = false ->
  exists token g',
    genNext g = (Some (Yielded token), g')
    /\ hasCursor g'
    /\ input (lexer g') = input (lexer g)
    /\ finished g' = isScriptEnd (Yielded token).
Proof.
  intros (below & top & H) Hf. unfold genNext. rewrite Hf.
  destruct (getNextToken_onTop _ _ _ H)
    as [[_ ->]|(_ & token & top' & -> & Hne & _)].
  - exists (ScriptEnd (top, top)). eexists. split; [reflexivity|].
    split; [by exists below, top|done].
  - exists token. eexists. split; [reflexivity|]. split; [|split; [done|]].
    + exists (tail (below ++ [top])), top'. reflexivity.
    + simpl. by destruct token.
Qed.

(** What holds of the object between calls of [next()]: once [ScriptEnd]
    or the exhausted result is the one peeked at, the generator has
    finished. *)
Definition streaming (l : Lex) : Prop :=
  hasCursor (gen l)
  /\ (isScriptEnd (peaked l) || isDone (peaked l) = true ->
      finished (gen l) = true).

Lemma lex_streaming (input : string) : streaming (lex input).
Proof.
  unfold lex.
  destruct (genNext_running (mkGenerator (createLexer input) false))
    as (token & g' & -> & Hc & _ & Hf); [|done|].
  { exists [], (mkCursor 1 1 0). reflexivity. }
  simpl. split; [done|]. simpl in *. rewrite Hf.
  destruct token; simpl; done.
Qed.

Lemma next_streaming (l : Lex) :
  streaming l ->
  exists l', next l = Returns (peaked l) l' /\ streaming l'
    /\ (isScriptEnd (peaked l) || isDone (peaked l) = true ->
        peaked l' = Done).
Proof.
  intros [Hc Hend]. unfold next. simpl.
  destruct (finished (gen l)) eqn:Hf.
  - rewrite (genNext_finished _ Hf). eexists. split; [reflexivity|].
    split; [|done]. split; done.
  - destruct (genNext_running _ Hc Hf) as (token & g' & -> & Hc' & _ & Hf').
    eexists. split; [reflexivity|]. split.
    + split; [done|]. simpl. rewrite Hf'. simpl.
      destruct token; simpl; done.
    + intros He. apply Hend in He. congruence.
Qed.

Lemma nexts_exhausted (n : nat) (l : Lex) :
  streaming l -> peaked l = Done ->
  exists l', nexts n l = Some (replicate n Done, l').
Proof.
  revert l. induction n as [|n IH]; intros l Hs Hp; simpl; [eauto|].
  destruct (next_streaming l Hs) as (l1 & -> & Hs1 & Hp1).
  destruct (IH l1 Hs1) as (l' & ->); [apply Hp1; by rewrite Hp|].
  simpl. rewrite Hp. eauto.
Qed.

(** C5, as the generator has it: [next()] never raises on the object
    [lex] returns, and once it has returned [ScriptEnd] every later call
    returns the exhausted result, whose value is [undefined]. *)
Theorem after_ScriptEnd_exhausted (input : string) (n : nat) :
  exists results l,
    nexts n (lex input) = Some (results, l)
    /\ forall i j r,
         results !! i = Some (Yielded (ScriptEnd r)) ->
         (i < j < n)%nat ->
         results !! j = Some Done.
Proof.
  pose proof (lex_streaming input) as Hs. revert Hs.
  generalize (lex input) as l. induction n as [|n IH]; intros l Hs; simpl.
  - exists [], l. split; [done|]. intros; lia.
  - destruct (next_streaming l Hs) as (l1 & -> & Hs1 & Hp1).
    destruct (IH l1 Hs1) as (results & l' & Hn & Hafter). rewrite Hn. simpl.
    exists (peaked l :: results), l'. split; [done|].
    intros i j r Hi Hij. destruct j as [|j]; [lia|]. simpl.
    destruct i as [|i]; simpl in Hi.
    + injection Hi as Hi. rewrite Hi in Hp1.
      destruct (nexts_exhausted n l1 Hs1 (Hp1 eq_refl)) as (l'' & Hn').
      rewrite Hn' in Hn. injection Hn as <- _.
      apply lookup_replicate. split; [done|lia].
    + apply (Hafter i j r Hi). lia.
Qed.

(** C5, as stated, fails: on the empty input the first [next()] returns
    [ScriptEnd] and the second the exhausted result. *)
Lemma ScriptEnd_is_not_repeated :
  exists r l1 l2,
    next (lex "") = Returns (Yielded (ScriptEnd r)) l1
    /\ next l1 = Returns Done l2.
Proof. eexists _, _, _. split; reflexivity. Qed.

(** *** Snapshots *)

(** [pushCurrent()], two calls of [next()], [popCurrent()]. *)
Definition lookTwoAhead (l : Lex) : option Lex :=
  match pushCurrent l with
  | Returns _ l1 =>
      '(_, l3) ← nexts 2 l1;
      match popCurrent l3 with
      | Returns _ l4 => Some l4
      | Raises _ => None
      end
  | Raises _ => None
  end.

(** The tokens without their ranges. *)
Definition kind (result : IteratorResult) : string :=
  match result with
  | Done => "done"
  | Yielded (Word text _) => "Word " +:+ text
  | Yielded (Whitespace text _) => "Whitespace"
  | Yielded (NewLine _) => "NewLine"
  | Yielded (EnclosedTextIndicator c _) => "EnclosedTextIndicator"
  | Yielded (SpecialCharacter c _) => "SpecialCharacter"
  | Yielded (ScriptEnd _) => "ScriptEnd"
  | Yielded (Variable_ name _) => "Variable " +:+ name
  end.

(** C2: on the input [a b c], two calls of [next()] between [pushCurrent()]
    and [popCurrent()] change what the calls after them return: the
    whitespace after [a] is skipped. *)
Theorem popCurrent_loses_a_token :
  (fmap (map kind ∘ fst) (nexts 4 (lex "a b c"))
   = Some ["Word a"; "Whitespace"; "Word b"; "Whitespace"])
  /\ (fmap (map kind ∘ fst) (lookTwoAhead (lex "a b c") ≫= nexts 4)
      = Some ["Word a"; "Word b"; "Whitespace"; "Word c"]).
Proof. split; vm_compute; reflexivity. Qed.

End LexerProps.

Module ParserProps.
Import Lexer AST Parser LexerProps.

(** *** How much of the input is left *)

Definition inputOf (l : Lex) : string := input (lexer (gen l)).

(** A bound on the tokens the generator can still yield. *)
Definition tokensLeft (g : Generator) : nat :=
  if finished g then O
  else match currentCursor (lexer g) with
       | Some top => S (String.length (input (lexer g)) - index top)
       | None => O
       end.

(** A bound on the tokens [next()] can still return. *)
Definition left (l : Lex) : nat :=
  (if isDone (peaked l) then 0 else 1) + tokensLeft (gen l).

Lemma left_bound (l : Lex) : (left l <= String.length (inputOf l) + 2)%nat.
Proof.
  unfold left, tokensLeft, inputOf.
  destruct (isDone (peaked l)), (finished (gen l)),
    (currentCursor (lexer (gen l))); lia.
Qed.

Lemma onTop_exists (lexer : LexerState) (top : ScriptCursor) :
  currentCursor lexer = Some top ->
  onTop lexer (removelast (cursorStack lexer)) top.
Proof.
  unfold currentCursor, onTop. intros H.
  destruct (cursorStack lexer) as [|c s] using rev_ind; [discriminate|].
  rewrite last_snoc in H. injection H as ->. by rewrite removelast_last.
Qed.

Lemma currentCursor_shifted (input : string) below top top' :
  currentCursor (mkLexer input (shifted below top top')) = Some top'.
Proof. unfold currentCursor, shifted. simpl. apply last_snoc. Qed.

Lemma genNext_left (g g' : Generator) (result : IteratorResult) :
  genNext g = (Some result, g') ->
  input (lexer g') = input (lexer g)
  /\ ((if isDone result then 0 else 1) + tokensLeft g' <= tokensLeft g)%nat.
Proof.
  unfold genNext, tokensLeft. destruct (finished g) eqn:Hf.
  { intros [= <- <-]. rewrite Hf. simpl. done. }
  destruct (getNextToken (lexer g)) as [[token lexer']|] eqn:Hg; [|discriminate].
  intros [= <- <-]. simpl.
  assert (exists top, currentCursor (lexer g) = Some top) as [top Htop].
  { unfold getNextToken, currentChar in Hg.
    destruct (currentCursor (lexer g)); [eauto|discriminate]. }
  rewrite Htop.
  destruct (getNextToken_onTop _ _ _ (onTop_exists _ _ Htop))
    as [[_ Hg']|(Hlt & token' & top' & Hg' & Hne & Hidx)];
    rewrite Hg' in Hg; injection Hg as <- <-.
  - split; [done|]. simpl. lia.
  - split; [done|]. simpl. rewrite currentCursor_shifted.
    destruct token'; lia.
Qed.

(** [next()] returns what was peeked at; it does not add to what is left,
    and takes from it when it returns a token. *)
Lemma next_left (l l' : Lex) (result : IteratorResult) :
  next l = Returns result l' ->
  result = peaked l /\ current l' = result /\ inputOf l' = inputOf l
  /\ (left l' <= left l)%nat
  /\ (isDone result = false -> (left l' < left l)%nat).
Proof.
  unfold next. simpl.
  destruct (genNext (gen l)) as [[r|] g] eqn:Hg; [|discriminate].
  intros [= <- <-]. apply genNext_left in Hg as [Hi Hl].
  unfold left, inputOf. simpl. repeat split; [done|..].
  - destruct (isDone (peaked l)), (isDone r); lia.
  - intros ->. destruct (isDone r); lia.
Qed.

(** A parser that returns or raises on [l], and leaves no more than [l]
    had. *)
Definition settles {A} (m : P A) (l : Lex) : Prop :=
  m l <> OutOfFuel
  /\ forall a l', m l = Parsed a l' ->
       inputOf l' = inputOf l /\ (left l' <= left l)%nat.

(** A parser that, besides, leaves less than [l] had or has seen the end
    of the tokens. *)
Definition consumes {A} (m : P A) (l : Lex) : Prop :=
  m l <> OutOfFuel
  /\ forall a l', m l = Parsed a l' ->
       inputOf l' = inputOf l /\ (left l' <= left l)%nat
       /\ ((left l' < left l)%nat \/ current l' = Done).

Lemma consumes_settles {A} (m : P A) (l : Lex) : consumes m l -> settles m l.
Proof.
  intros [H1 H2]. split; [done|]. intros a l' H.
  destruct (H2 a l' H) as (? & ? & _). done.
Qed.

Lemma settles_ret {A} (a : A) (l : Lex) : settles (ret a) l.
Proof. split; [done|]. by intros a' l' [= _ <-]. Qed.

Lemma settles_fail {A} (f : Failure) (l : Lex) : settles (@fail A f) l.
Proof. split; [done|]. intros a' l' [=]. Qed.

Lemma settles_bind {A B} (m : P A) (k : A -> P B) (l : Lex) :
  settles m l ->
  (forall a l', m l = Parsed a l' -> settles (k a) l') ->
  settles (bind m k) l.
Proof.
  intros [H1 H2] Hk. unfold settles, bind.
  destruct (m l) as [a l1|f l1|] eqn:E; [|done..].
  destruct (H2 a l1 eq_refl) as [Hi Hl].
  destruct (Hk a l1 eq_refl) as [K1 K2]. split; [done|].
  intros b l' Hb. destruct (K2 b l' Hb) as [Hi' Hl']. split; [congruence|lia].
Qed.

Lemma lexNext_consumes (l : Lex) : consumes lexNext l.
Proof.
  unfold consumes, lexNext.
  destruct (next l) as [r l1|l1] eqn:E; simpl; split; try done.
  intros a l' [= <- <-].
  destruct (next_left _ _ _ E) as (Hr & Hc & Hi & Hl & Hlt).
  split; [done|]. split; [done|].
  destruct (isDone r) eqn:Hd; [right|left; by apply Hlt].
  destruct r; [discriminate|done].
Qed.

Lemma lexNext_Parsed (l l' : Lex) (result : IteratorResult) :
  lexNext l = Parsed result l' ->
  current l' = result /\ inputOf l' = inputOf l /\ (left l' <= left l)%nat
  /\ (forall token, result = Yielded token -> (left l' < left l)%nat).
Proof.
  unfold lexNext. destruct (next l) as [r l1|l1] eqn:E; [|discriminate].
  intros [= <- <-]. destruct (next_left _ _ _ E) as (Hr & Hc & Hi & Hl & Hlt).
  repeat split; try done. intros token ->. by apply Hlt.
Qed.

Lemma consumes_bind_r {A B} (m : P A) (k : A -> P B) (l : Lex) :
  settles m l ->
  (forall a l', m l = Parsed a l' -> consumes (k a) l') ->
  consumes (bind m k) l.
Proof.
  intros [H1 H2] Hk. unfold consumes, bind.
  destruct (m l) as [a l1|f l1|] eqn:E; [|done..].
  destruct (H2 a l1 eq_refl) as [Hi Hl].
  destruct (Hk a l1 eq_refl) as [K1 K2]. split; [done|].
  intros b l' Hb. destruct (K2 b l' Hb) as (Hi' & Hl' & Hc).
  split; [congruence|]. split; [lia|]. destruct Hc; [left; lia|by right].
Qed.

Lemma consumes_ret {A B} (m : P A) (f : A -> B) (l : Lex) :
  consumes m l -> consumes (bind m (fun a => ret (f a))) l.
Proof.
  intros [H1 H2]. unfold consumes, bind, ret.
  destruct (m l) as [a l1|e l1|] eqn:E; [|done..]. split; [done|].
  intros b l' [= _ <-]. exact (H2 a l1 eq_refl).
Qed.

Lemma lexNext_ret_consumes {B} (b : B) (l : Lex) :
  consumes (lexNext;; ret b) l.
Proof. apply (consumes_ret lexNext (fun _ => b)), lexNext_consumes. Qed.

Lemma lexNext_settles (l : Lex) : settles lexNext l.
Proof. apply consumes_settles, lexNext_consumes. Qed.

Lemma consumes_fail {A} (f : Failure) (l : Lex) : consumes (@fail A f) l.
Proof. split; [done|]. intros a' l' [=]. Qed.

(** *** The loops return on enough fuel *)

Lemma skipWhitespace_left (fuel : nat) (includeNewline : bool) (l : Lex) :
  (left l < fuel)%nat ->
  skipWhitespace fuel includeNewline l <> OutOfFuel
  /\ forall token l', skipWhitespace fuel includeNewline l = Parsed token l' ->
       inputOf l' = inputOf l /\ (left l' < left l)%nat
       /\ current l' = Yielded token.
Proof.
  revert l. induction fuel as [|fuel IH]; intros l Hfuel; [lia|].
  simpl. unfold bind.
  destruct (lexNext l) as [r l1|f l1|] eqn:E; [|done|].
  2:{ unfold lexNext in E. destruct (next l); discriminate. }
  destruct (lexNext_Parsed _ _ _ E) as (Hc & Hi & Hl & Hlt).
  destruct r as [token|]; simpl; [|done].
  specialize (Hlt token eq_refl).
  destruct (negb (isWhitespace token) && _).
  - split; [done|]. intros t l' [= <- <-]. done.
  - destruct (IH l1 ltac:(lia)) as [H1 H2]. split; [done|].
    intros t l' Hp. destruct (H2 t l' Hp) as (Hi' & Hl' & Hc').
    split; [congruence|]. split; [lia|done].
Qed.

Lemma skipWhitespace_settles (fuel : nat) (includeNewline : bool) (l : Lex) :
  (left l < fuel)%nat -> settles (skipWhitespace fuel includeNewline) l.
Proof.
  intros Hf. destruct (skipWhitespace_left fuel includeNewline l Hf) as [H1 H2].
  split; [done|]. intros t l' Hp. destruct (H2 t l' Hp) as (? & ? & _).
  split; [done|lia].
Qed.

Definition isText (currentToken : option Token) : bool :=
  match currentToken with
  | Some (Word _ _) | Some (Whitespace _ _) => true
  | _ => false
  end.

Lemma parseStringLoop_left (fuel : nat) (currentToken : option Token)
    (contents : string) (l : Lex) :
  (left l < fuel)%nat ->
  parseStringLoop fuel currentToken contents l <> OutOfFuel
  /\ forall child l',
       parseStringLoop fuel currentToken contents l = Parsed child l' ->
       inputOf l' = inputOf l /\ (left l' <= left l)%nat
       /\ (isText currentToken = true ->
           (left l' < left l)%nat \/ current l' = Done).
Proof.
  revert currentToken contents l.
  induction fuel as [|fuel IH]; intros currentToken contents l Hfuel; [lia|].
  assert (forall text,
            (let* result := lexNext in
             parseStringLoop fuel (value result) (contents +:+ text)) l
            <> OutOfFuel
            /\ forall child l',
                 (let* result := lexNext in
                  parseStringLoop fuel (value result) (contents +:+ text)) l
                 = Parsed child l' ->
                 inputOf l' = inputOf l /\ (left l' <= left l)%nat
                 /\ ((left l' < left l)%nat \/ current l' = Done)) as Hround.
  { intros text. unfold bind.
    destruct (lexNext l) as [r l1|f l1|] eqn:E; [|done|].
    2:{ unfold lexNext in E. destruct (next l); discriminate. }
    destruct (lexNext_Parsed _ _ _ E) as (Hc & Hi & Hl & Hlt).
    destruct r as [token|].
    - specialize (Hlt token eq_refl).
      destruct (IH (Some token) (contents +:+ text) l1 ltac:(lia)) as [H1 H2].
      split; [done|]. intros child l' Hp.
      destruct (H2 child l' Hp) as (Hi' & Hl' & _).
      split; [congruence|]. split; [lia|]. left. lia.
    - simpl. destruct fuel; simpl; (split; [done|]);
        intros child l' [= _ <-]; (split; [done|]); (split; [done|]);
        by right. }
  destruct currentToken as [[text r|text r|r|e r|c r|r|n r]|]; simpl;
    try (split; [done|]; intros child l' [= _ <-]; repeat split; done).
  - destruct (Hround text) as [H1 H2]. split; [done|].
    intros child l' Hp. destruct (H2 child l' Hp) as (? & ? & ?). done.
  - destruct (Hround text) as [H1 H2]. split; [done|].
    intros child l' Hp. destruct (H2 child l' Hp) as (? & ? & ?). done.
Qed.

Lemma parseString_consumes (fuel : nat) (firstToken : Token) (l : Lex) :
  (left l < fuel)%nat -> consumes (parseString fuel firstToken) l.
Proof.
  intros Hf. unfold parseString.
  destruct firstToken; try apply consumes_fail.
  destruct (parseStringLoop_left fuel (Some (Word text range)) "" l Hf)
    as [H1 H2].
  split; [done|]. intros child l' Hp.
  destruct (H2 child l' Hp) as (? & ? & Hc). repeat split; try done.
  by apply Hc.
Qed.

Lemma parseEscapedCharacter_consumes (firstToken : Token) (l : Lex) :
  consumes (parseEscapedCharacter firstToken) l.
Proof.
  unfold parseEscapedCharacter.
  destruct firstToken; try apply consumes_fail.
  apply consumes_bind_r; [by split; [|intros ? ? [= _ <-]]|].
  intros peaked l' [= <- <-].
  destruct (peek l) as [[]|]; try apply consumes_fail;
    try apply lexNext_ret_consumes;
    (apply consumes_bind_r; [apply lexNext_settles|]; intros;
     apply lexNext_ret_consumes).
Qed.

Lemma parseExpression_consumes (firstToken : Token) (l : Lex) :
  consumes (parseExpression firstToken) l.
Proof.
  unfold parseExpression. destruct firstToken; try apply consumes_fail.
  apply lexNext_ret_consumes.
Qed.

Lemma parseEnclosedTextNodeWith_consumes
    (rec : option Token -> option ascii -> option ascii -> nat
           -> P (list TextNodeChild))
    (firstToken : Token) (disallowTextString : bool) (l : Lex) :
  (forall enclosedEnd start count l1, rec None enclosedEnd start count l1
     = Failed (ParseError "Unexpected end of script" []) l1) ->
  (forall first enclosedEnd start count l1,
     (left l1 < left l)%nat -> settles (rec first enclosedEnd start count) l1) ->
  consumes (parseEnclosedTextNodeWith rec firstToken disallowTextString) l.
Proof.
  intros Hnone Hrec. unfold parseEnclosedTextNodeWith.
  destruct firstToken; try apply consumes_fail.
  destruct (disallowTextString && isQuote enclosure);
    [apply lexNext_ret_consumes|].
  assert (forall start (wrap : list TextNodeChild -> TextNodeChild) enclosedEnd,
            consumes
              (let* result := lexNext in
               let* contents := rec (value result) enclosedEnd start 0%nat in
               ret (wrap contents)) l) as Hbody.
  { intros start wrap enclosedEnd. unfold consumes, bind.
    destruct (lexNext l) as [r l1|f l1|] eqn:E; [|done|].
    2:{ unfold lexNext in E. destruct (next l); discriminate. }
    destruct (lexNext_Parsed _ _ _ E) as (Hc & Hi & Hl & Hlt).
    destruct r as [token|]; simpl; [|by rewrite Hnone].
    specialize (Hlt token eq_refl).
    destruct (Hrec (Some token) enclosedEnd start 0%nat l1 Hlt) as [H1 H2].
    destruct (rec (Some token) enclosedEnd start 0%nat l1)
      as [contents l2|f l2|]; [|done..].
    split; [done|]. intros a l' [= _ <-].
    destruct (H2 contents l2 eq_refl) as [Hi' Hl'].
    split; [congruence|]. split; [lia|]. left. lia. }
  destruct (Ascii.eqb enclosure "{"); apply Hbody.
Qed.

Lemma lexCurrent_Parsed (l l' : Lex) (result : IteratorResult) :
  lexCurrent l = Parsed result l' -> l' = l /\ result = current l.
Proof. by intros [= <- <-]. Qed.

Lemma parseChildrenLoop_None (fuel : nat) (enclosedEnd start : option ascii)
    (count : nat) (children : list TextNodeChild) :
  parseChildrenLoop fuel enclosedEnd start count children None = ret children.
Proof. by destruct fuel. Qed.

(** The loop of [parseTextNodeChildren] returns or raises when its fuel
    is more than the tokens that are left. *)
Lemma parseChildrenLoop_settles (fuel : nat) (enclosedEnd start : option ascii)
    (count : nat) (children : list TextNodeChild)
    (currentToken : option Token) (l : Lex) :
  (left l + 1 < fuel)%nat ->
  settles (parseChildrenLoop fuel enclosedEnd start count children currentToken) l.
Proof.
  revert enclosedEnd start count children currentToken l.
  induction fuel as [|fuel IH];
    intros enclosedEnd start count children currentToken l Hfuel; [lia|].
  destruct currentToken as [token|]; [|apply settles_ret].
  cbn [parseChildrenLoop].
  destruct (negb (inText enclosedEnd token)); [apply settles_ret|].
  (* the rounds that follow a call of [next()] *)
  assert (forall count' children',
            settles
              (let* result := lexNext in
               parseChildrenLoop fuel enclosedEnd start count' children'
                 (value result)) l) as Hnext.
  { intros count' children'.
    apply settles_bind; [apply lexNext_settles|].
    intros r l1 E. destruct (lexNext_Parsed _ _ _ E) as (_ & _ & _ & Hlt).
    destruct r as [t|]; [|simpl; rewrite parseChildrenLoop_None; apply settles_ret].
    apply IH. specialize (Hlt t eq_refl). lia. }
  (* the rounds that follow a child parsed by a call that consumes *)
  assert (forall (m : P TextNodeChild), consumes m l ->
            settles
              (let* child := m in
               let* result := lexCurrent in
               parseChildrenLoop fuel enclosedEnd start count
                 (pushChild children child) (value result)) l) as Hchild.
  { intros m [H1 H2]. apply settles_bind.
    - split; [done|]. intros a l' Ha. destruct (H2 a l' Ha) as (? & ? & _). done.
    - intros child l1 E. destruct (H2 child l1 E) as (_ & _ & Hc).
      apply settles_bind; [by split; [|intros ? ? [= _ <-]]|].
      intros r l2 [-> ->]%lexCurrent_Parsed.
      destruct Hc as [Hlt| ->];
        [|simpl; rewrite parseChildrenLoop_None; apply settles_ret].
      apply IH. lia. }
  destruct token as [text r|text r|r|e r|c r|r|n r].
  - apply Hchild, parseString_consumes. lia.
  - apply Hnext.
  - apply Hnext.
  - destruct (sameEnclosure e enclosedEnd).
    { destruct count as [|count]; [|apply Hnext].
      apply settles_bind; [apply lexNext_settles|]. intros. apply settles_ret. }
    destruct (sameEnclosure e start); [apply Hnext|].
    apply Hchild, parseEnclosedTextNodeWith_consumes.
    + reflexivity.
    + intros [first|] enclosedEnd' start' count' l1 Hl1; [|apply settles_fail].
      apply IH. lia.
  - destruct (Ascii.eqb c "\"); [|apply Hnext].
    apply Hchild, parseEscapedCharacter_consumes.
  - apply settles_ret.
  - apply Hchild, parseExpression_consumes.
Qed.

Lemma parseTextNodeChildren_settles (fuel : nat) (firstToken : option Token)
    (enclosedEnd start : option ascii) (count : nat) (l : Lex) :
  (left l + 1 < fuel)%nat ->
  settles (parseTextNodeChildren fuel firstToken enclosedEnd start count) l.
Proof.
  intros Hf. unfold parseTextNodeChildren.
  destruct firstToken; [by apply parseChildrenLoop_settles|apply settles_fail].
Qed.

Lemma parseEnclosedTextNode_settles (fuel : nat) (firstToken : Token)
    (disallowTextString : bool) (l : Lex) :
  (left l + 1 < fuel)%nat ->
  settles (parseEnclosedTextNode fuel firstToken disallowTextString) l.
Proof.
  intros Hf. apply consumes_settles, parseEnclosedTextNodeWith_consumes.
  - reflexivity.
  - intros. apply parseTextNodeChildren_settles. lia.
Qed.

Lemma parseTextNode_settles (fuel : nat) (firstToken : Token) (l : Lex) :
  (left l + 1 < fuel)%nat -> settles (parseTextNode fuel firstToken) l.
Proof.
  intros Hf. unfold parseTextNode.
  destruct firstToken; try apply settles_ret; try apply settles_fail;
    try (apply settles_bind; [by apply parseTextNodeChildren_settles|];
         intros; apply settles_ret).
  apply settles_bind; [by apply parseEnclosedTextNode_settles|].
  intros; apply settles_ret.
Qed.

Lemma parseDialogue_settles (fuel : nat) (firstToken : Token) (l : Lex) :
  (left l + 1 < fuel)%nat -> settles (parseDialogue fuel firstToken) l.
Proof.
  intros Hf. unfold parseDialogue.
  assert (settles
            (let* peaked := lexPeek in
             let speaker := speakerOf firstToken peaked in
             (if truthy speaker then lexNext;; ret tt else ret tt);;
             let* token :=
               if truthy speaker then skipWhitespace fuel false
               else ret firstToken in
             let* contents := parseTextNode fuel token in
             ret (Dialogue speaker contents)) l) as H.
  { apply settles_bind; [by split; [|intros ? ? [= _ <-]]|].
    intros peaked l0 [= <- <-].
    apply settles_bind.
    { destruct (truthy _); [|apply settles_ret].
      apply consumes_settles, lexNext_ret_consumes. }
    intros [] l1 E1.
    assert (left l1 <= left l)%nat as Hl1.
    { destruct (truthy _); [|by injection E1 as <-].
      pose proof (lexNext_ret_consumes tt l) as [_ Hc].
      destruct (Hc tt l1 E1) as (_ & ? & _). done. }
    apply settles_bind.
    { destruct (truthy _); [|apply settles_ret].
      apply skipWhitespace_settles. lia. }
    intros token l2 E2.
    assert (left l2 <= left l1)%nat as Hl2.
    { destruct (truthy _); [|by injection E2 as _ <-].
      destruct (skipWhitespace_settles fuel false l1 ltac:(lia)) as [_ Hs].
      destruct (Hs token l2 E2). done. }
    apply settles_bind; [apply parseTextNode_settles; lia|].
    intros; apply settles_ret. }
  destruct firstToken; try apply settles_fail; exact H.
Qed.

Lemma lexAtEOF_settles (l : Lex) : settles lexAtEOF l.
Proof.
  unfold settles, lexAtEOF. destruct (lexIsEOF l); [|done].
  split; [done|]. by intros a l' [= _ <-].
Qed.

Lemma parseOptions_settles (fuel : nat) (options : list AssignmentChoiceNode)
    (l : Lex) :
  (left l + 2 < fuel)%nat -> settles (parseOptions fuel options) l.
Proof.
  revert options l. induction fuel as [|fuel IH]; intros options l Hf; [lia|].
  cbn [parseOptions].
  apply settles_bind; [apply lexAtEOF_settles|].
  intros eof l0 E0.
  assert (l0 = l) as ->.
  { unfold lexAtEOF in E0. destruct (lexIsEOF l); [|discriminate].
    by injection E0 as _ <-. }
  destruct eof; [apply settles_ret|].
  apply settles_bind; [apply skipWhitespace_settles; lia|].
  intros current l1 E1.
  destruct (skipWhitespace_left fuel true l ltac:(lia)) as [_ H1].
  destruct (H1 _ _ E1) as (_ & Hl1 & _).
  destruct current; try apply settles_fail.
  destruct (bool_decide (text = "if")); [apply settles_fail|].
  apply settles_bind; [apply lexNext_settles|].
  intros r2 l2 E2. destruct (lexNext_Parsed _ _ _ E2) as (_ & _ & Hl2 & _).
  apply settles_bind; [apply skipWhitespace_settles; lia|].
  intros next l3 E3.
  destruct (skipWhitespace_left fuel true l2 ltac:(lia)) as [_ H3].
  destruct (H3 _ _ E3) as (_ & Hl3 & _).
  destruct next; try apply settles_fail.
  destruct (isQuote enclosure); [|apply settles_fail].
  apply settles_bind; [apply parseEnclosedTextNode_settles; lia|].
  intros prompt l4 E4.
  destruct (parseEnclosedTextNode_settles fuel
              (EnclosedTextIndicator enclosure range0) false l3 ltac:(lia))
    as [_ H4].
  destruct (H4 _ _ E4) as (_ & Hl4).
  destruct prompt; try apply settles_fail.
  apply settles_bind; [apply skipWhitespace_settles; lia|].
  intros nextLine l5 E5.
  destruct (skipWhitespace_left fuel false l4 ltac:(lia)) as [_ H5].
  destruct (H5 _ _ E5) as (_ & Hl5 & _).
  destruct (isCharacter nextLine "?"); [|apply settles_ret].
  apply IH. lia.
Qed.

(** A parser that returns or raises on [l] and keeps the input. *)
Definition returns {A} (m : P A) (l : Lex) : Prop :=
  m l <> OutOfFuel
  /\ forall a l', m l = Parsed a l' -> inputOf l' = inputOf l.

Lemma settles_returns {A} (m : P A) (l : Lex) : settles m l -> returns m l.
Proof.
  intros [H1 H2]. split; [done|]. intros a l' H. by destruct (H2 a l' H).
Qed.

Lemma returns_bind {A B} (m : P A) (k : A -> P B) (l : Lex) :
  returns m l ->
  (forall a l', m l = Parsed a l' -> inputOf l' = inputOf l -> returns (k a) l') ->
  returns (bind m k) l.
Proof.
  intros [H1 H2] Hk. unfold returns, bind.
  destruct (m l) as [a l1|f l1|] eqn:E; [|done..].
  pose proof (H2 a l1 eq_refl) as Hi.
  destruct (Hk a l1 eq_refl Hi) as [K1 K2]. split; [done|].
  intros b l' Hb. transitivity (inputOf l1); [exact (K2 b l' Hb)|exact Hi].
Qed.

Lemma returns_ofCompletion {A} (op : Lex -> Completion A) (l : Lex) :
  (forall a l', op l = Returns a l' -> inputOf l' = inputOf l) ->
  returns (fun l => ofCompletion (op l)) l.
Proof.
  intros H. unfold returns. destruct (op l) as [a l1|l1] eqn:E; simpl;
    (split; [done|]); [|done].
  intros a' l' [= <- <-]. exact (H _ _ eq_refl).
Qed.

Lemma lexPushCurrent_returns (l : Lex) : returns lexPushCurrent l.
Proof.
  apply (returns_ofCompletion pushCurrent). unfold pushCurrent, cloneAndPushCursor.
  destruct (currentCursor (lexer (gen l))); simpl; [|done].
  by intros a l' [= _ <-].
Qed.

Lemma lexPopCurrent_returns (l : Lex) : returns lexPopCurrent l.
Proof.
  apply (returns_ofCompletion popCurrent). unfold popCurrent.
  destruct (reverse (stackCurrent l)) as [|c [|p rest]]; try done.
  by intros a l' [= _ <-].
Qed.

Lemma lexShiftLast_returns (l : Lex) : returns lexShiftLast l.
Proof.
  apply (returns_ofCompletion shiftLast). unfold shiftLast.
  by intros a l' [= _ <-].
Qed.

(** Fuel for a statement: more than the tokens any lexer over the input
    can have left. *)
Definition enough (l : Lex) : nat := String.length (inputOf l) + 5.

Lemma enough_left (l l' : Lex) (fuel : nat) :
  (enough l <= fuel)%nat -> inputOf l' = inputOf l -> (left l' + 2 < fuel)%nat.
Proof.
  unfold enough. intros Hf Hi. pose proof (left_bound l') as Hb.
  rewrite Hi in Hb. lia.
Qed.

(** [parsePossibleAssignment] returns a node or raises. *)
Lemma parsePossibleAssignment_returns (fuel : nat) (firstToken : Token)
    (l : Lex) :
  (enough l <= fuel)%nat ->
  returns (parsePossibleAssignment fuel firstToken) l.
Proof.
  intros Hf. unfold parsePossibleAssignment.
  destruct firstToken; try (split; [done|]; intros ? ? [=]).
  apply returns_bind; [apply lexPushCurrent_returns|]. intros [] l1 _ Hi1.
  pose proof (enough_left l l1 fuel Hf Hi1).
  apply returns_bind;
    [apply settles_returns, skipWhitespace_settles; lia|].
  intros nextToken l2 _ Hi2. rewrite Hi1 in Hi2.
  destruct (negb (assigns nextToken)).
  - apply returns_bind; [apply lexPopCurrent_returns|]. intros [] l3 _ Hi3.
    rewrite Hi2 in Hi3. pose proof (enough_left l l3 fuel Hf Hi3).
    apply settles_returns, parseDialogue_settles. lia.
  - apply returns_bind; [apply lexShiftLast_returns|]. intros [] l3 _ Hi3.
    rewrite Hi2 in Hi3.
    apply returns_bind; [apply settles_returns, lexNext_settles|].
    intros r4 l4 _ Hi4. rewrite Hi3 in Hi4.
    pose proof (enough_left l l4 fuel Hf Hi4).
    destruct (isCharacter nextToken "?").
    + apply returns_bind;
        [apply settles_returns, parseOptions_settles; lia|].
      intros. split; [done|]. by intros ? ? [= _ <-].
    + apply returns_bind;
        [apply settles_returns, skipWhitespace_settles; lia|].
      intros token l5 _ Hi5. rewrite Hi4 in Hi5.
      pose proof (enough_left l l5 fuel Hf Hi5).
      apply returns_bind;
        [apply settles_returns, parseTextNode_settles; lia|].
      intros. split; [done|]. by intros ? ? [= _ <-].
Qed.

(** *** A variable at the start of a statement *)

Lemma bind_Parsed {A B} (m : P A) (k : A -> P B) (l l' : Lex) (b : B) :
  bind m k l = Parsed b l' ->
  exists a l1, m l = Parsed a l1 /\ k a l1 = Parsed b l'.
Proof.
  unfold bind. destruct (m l) as [a l1|f l1|]; [eauto|discriminate..].
Qed.

Section FirstChild.
Variable key : string.

(** The children start with the expression of [key]. *)
Definition startsWithKey (children : list TextNodeChild) : Prop :=
  exists rest, children = Expression key :: rest.

Lemma pushChild_startsWithKey (children : list TextNodeChild)
    (child : TextNodeChild) :
  startsWithKey children -> startsWithKey (pushChild children child).
Proof.
  intros [rest ->]. unfold pushChild.
  destruct child; try (by eexists).
  destruct rest as [|c rest] using rev_ind; [by eexists|].
  rewrite app_comm_cons, last_snoc.
  destruct c; try (by eexists).
  rewrite removelast_last. by eexists.
Qed.

(** A parser of children whose result starts with the expression. *)
Definition keepsKey (m : P (list TextNodeChild)) : Prop :=
  forall l children l', m l = Parsed children l' -> startsWithKey children.

Lemma keepsKey_bind {A} (m : P A) (k : A -> P (list TextNodeChild)) :
  (forall a, keepsKey (k a)) -> keepsKey (bind m k).
Proof.
  intros Hk l children l'. unfold bind.
  destruct (m l) as [a l1|f l1|]; [|discriminate..]. apply Hk.
Qed.

Lemma keepsKey_ret (children : list TextNodeChild) :
  startsWithKey children -> keepsKey (ret children).
Proof. intros H l cs l' [= <- _]. exact H. Qed.

Lemma parseChildrenLoop_keepsKey (fuel : nat) (enclosedEnd start : option ascii)
    (count : nat) (children : list TextNodeChild)
    (currentToken : option Token) :
  startsWithKey children ->
  keepsKey (parseChildrenLoop fuel enclosedEnd start count children currentToken).
Proof.
  revert count children currentToken.
  induction fuel as [|fuel IH]; intros count children currentToken Hc.
  - destruct currentToken as [token|]; simpl; [|by apply keepsKey_ret].
    destruct (negb _); [by apply keepsKey_ret|]. intros l cs l' [=].
  - destruct currentToken as [token|]; [|by apply keepsKey_ret].
    cbn [parseChildrenLoop].
    destruct (negb _); [by apply keepsKey_ret|].
    assert (forall count' child result,
              keepsKey (parseChildrenLoop fuel enclosedEnd start count'
                          (pushChild children child) (value result))) as Hgo.
    { intros. by apply IH, pushChild_startsWithKey. }
    destruct token as [text r|text r|r|e r|c r|r|n r];
      repeat first
        [ apply Hgo
        | by apply keepsKey_ret
        | apply keepsKey_bind; intros ?
        | match goal with
          | |- keepsKey (if ?b then _ else _) => destruct b
          | |- keepsKey (match ?n with O => _ | S _ => _ end) => destruct n
          end ].
Qed.

End FirstChild.

(** The token that [parsePossibleAssignment] looks at: the first one after
    the variable that is neither whitespace nor a newline. *)
Definition lookahead (fuel : nat) : P Token :=
  lexPushCurrent;; skipWhitespace fuel true.

(** C9, for the statements the parser accepts: on a variable at the start
    of a statement the parser returns a node or raises; the node it returns
    is an [Assignment] or an [AssignmentSelect] of the variable when the
    token looked at is one of [?], [<] and [=], and otherwise a [Dialogue]
    without speaker whose text starts with the expression of the
    variable. *)
Theorem variable_statement (l : Lex) (key : string) (range : Range)
    (extra : nat) :
  let fuel := (enough l + extra)%nat in
  match parsePossibleAssignment fuel (Variable_ key range) l with
  | OutOfFuel => False
  | Failed _ _ => True
  | Parsed node _ =>
      exists nextToken l1,
        lookahead fuel l = Parsed nextToken l1
        /\ if assigns nextToken
           then (exists value isPrompt, node = Assignment key value isPrompt)
                \/ (exists options, node = AssignmentSelect key options)
           else exists rest,
                  node = Dialogue None (mkTextNode (Expression key :: rest) None)
  end.
Proof.
  cbv zeta.
  pose proof (parsePossibleAssignment_returns (enough l + extra)
                (Variable_ key range) l ltac:(lia)) as [Hret _].
  destruct (parsePossibleAssignment _ _ l) as [node l'|f l'|] eqn:E; [|done..].
  clear Hret. unfold parsePossibleAssignment in E.
  apply bind_Parsed in E as ([] & l1 & E1 & E).
  apply bind_Parsed in E as (nextToken & l2 & E2 & E).
  exists nextToken, l2. split.
  { unfold lookahead, bind. by rewrite E1. }
  destruct (assigns nextToken); cbn [negb] in E.
  - apply bind_Parsed in E as ([] & l3 & E3 & E).
    apply bind_Parsed in E as (r4 & l4 & E4 & E).
    destruct (isCharacter nextToken "?").
    + apply bind_Parsed in E as (options & l5 & E5 & E).
      injection E as <- _. right. by eexists.
    + apply bind_Parsed in E as (token & l5 & E5 & E).
      apply bind_Parsed in E as (value & l6 & E6 & E).
      injection E as <- _. left. by eexists _, _.
  - apply bind_Parsed in E as ([] & l3 & E3 & E).
    unfold parseDialogue in E.
    apply bind_Parsed in E as (peaked & l4 & E4 & E).
    cbn [speakerOf truthy] in E.
    apply bind_Parsed in E as ([] & l5 & E5 & E).
    apply bind_Parsed in E as (token & l6 & E6 & E). injection E6 as <- <-.
    apply bind_Parsed in E as (contents & l7 & E7 & E). injection E as <- _.
    unfold parseTextNode in E7.
    apply bind_Parsed in E7 as (children & l8 & E8 & E7). injection E7 as <- _.
    unfold parseTextNodeChildren in E8.
    destruct (enough l + extra)%nat as [|fuel]; [discriminate|].
    cbn [parseChildrenLoop inText negb] in E8.
    apply bind_Parsed in E8 as (child & l9 & E9 & E8).
    unfold parseExpression in E9.
    apply bind_Parsed in E9 as (r & l10 & _ & E9). injection E9 as <- _.
    apply bind_Parsed in E8 as (result & l11 & _ & E8).
    destruct (parseChildrenLoop_keepsKey key fuel None None 0
                (pushChild [] (Expression key)) (value result)
                ltac:(by eexists) _ _ _ E8) as [rest ->].
    by eexists.
Qed.

(** C9, as stated, fails: after the variable of [$x ? if a "A"] the token
    looked at is [?], and the parser raises on the guarded option instead
    of returning an [AssignmentSelect]. *)
Lemma guarded_option_raises :
  exists range l1 nextToken l2 l3,
    next (lex ("$x ? if a " +:+ String "034" (String "A" (String "034" "")))) = Returns (Yielded (Variable_ "x" range)) l1
    /\ lookahead (enough l1) l1 = Parsed nextToken l2
    /\ assigns nextToken = true
    /\ parsePossibleAssignment (enough l1) (Variable_ "x" range) l1
       = Failed Unimplemented l3.
Proof.
  eexists _, _, _, _, _. split; [reflexivity|].
  split; [vm_compute; reflexivity|]. split; [reflexivity|].
  vm_compute. reflexivity.
Qed.

End ParserProps.

Module DataViewProps.

Lemma byteZ_range (b : byte) : 0 <= byteZ b < 256.
Proof.
  unfold byteZ. pose proof (Byte.to_N_bounded b). lia.
Qed.

Lemma byteZ_byteOf (z : Z) : byteZ (byteOf z) = z mod 256.
Proof.
  unfold byteZ, byteOf.
  pose proof (Z.mod_pos_bound z 256 ltac:(lia)) as Hr.
  destruct (Byte.of_N (Z.to_N (z mod 256))) as [b|] eqn:E.
  - apply Byte.to_of_N in E. simpl. rewrite E. lia.
  - apply Byte.of_N_None_iff in E. lia.
Qed.

(** The little-endian value of the four bytes [bytes32] stores. *)
Lemma bytes32_value (v : Z) :
  v mod 256 + 256 * ((v / 256) mod 256) + 65536 * ((v / 65536) mod 256)
    + 16777216 * ((v / 16777216) mod 256) = v mod 4294967296.
Proof.
  replace (v mod 4294967296) with (v mod (256 * (256 * (256 * 256))))
    by reflexivity.
  rewrite (Z.rem_mul_r v 256) by lia.
  rewrite (Z.rem_mul_r (v / 256) 256) by lia.
  rewrite (Z.rem_mul_r (v / 256 / 256) 256) by lia.
  rewrite !Z.div_div by lia.
  change (256 * 256) with 65536. change (65536 * 256) with 16777216. lia.
Qed.

Lemma getUint32_lookup (view : list byte) (offset : Z) :
  getUint32 view offset =
  if offset <? 0 then None else
  let n := Z.to_nat offset in
  match view !! n, view !! S n, view !! S (S n), view !! S (S (S n)) with
  | Some b0, Some b1, Some b2, Some b3 =>
      Some (byteZ b0 + 256 * byteZ b1 + 65536 * byteZ b2 + 16777216 * byteZ b3)
  | _, _, _, _ => None
  end.
Proof.
  unfold getUint32. destruct (offset <? 0); [reflexivity|]. simpl.
  generalize (Z.to_nat offset) as n. intros n.
  replace (view !! n) with (drop n view !! 0%nat)
    by (rewrite lookup_drop; f_equal; lia).
  replace (view !! S n) with (drop n view !! 1%nat)
    by (rewrite lookup_drop; f_equal; lia).
  replace (view !! S (S n)) with (drop n view !! 2%nat)
    by (rewrite lookup_drop; f_equal; lia).
  replace (view !! S (S (S n))) with (drop n view !! 3%nat)
    by (rewrite lookup_drop; f_equal; lia).
  destruct (drop n view) as [|b0 [|b1 [|b2 [|b3 l]]]]; reflexivity.
Qed.

(** [getUint32] depends on the four bytes at the offset only. *)
Lemma getUint32_ext (view view' : list byte) (offset : Z) :
  (forall i : nat, (Z.to_nat offset <= i < Z.to_nat offset + 4)%nat ->
     view !! i = view' !! i) ->
  getUint32 view offset = getUint32 view' offset.
Proof.
  intros H. rewrite !getUint32_lookup. destruct (offset <? 0); [reflexivity|].
  cbv zeta. rewrite !H by lia. reflexivity.
Qed.

Lemma getUint32_app_l (view tail : list byte) (offset : Z) :
  offset + 4 <= Z.of_nat (length view) ->
  getUint32 (view ++ tail) offset = getUint32 view offset.
Proof.
  intros H. destruct (Z.ltb_spec offset 0) as [Hneg|Hpos].
  - unfold getUint32. apply Z.ltb_lt in Hneg. rewrite Hneg. reflexivity.
  - apply getUint32_ext. intros i Hi. apply lookup_app_l. lia.
Qed.

Lemma getUint32_bytes32 (head tail : list byte) (v : Z) :
  getUint32 (head ++ bytes32 v ++ tail) (Z.of_nat (length head))
  = Some (v mod 4294967296).
Proof.
  unfold getUint32.
  destruct (Z.ltb_spec (Z.of_nat (length head)) 0) as [?|_]; [lia|].
  rewrite Nat2Z.id, drop_app_length. simpl.
  rewrite !byteZ_byteOf, bytes32_value. reflexivity.
Qed.

Lemma setUint32_eq (view view' : list byte) (offset value : Z) :
  setUint32 view offset value = Some view' ->
  0 <= offset /\ offset + 4 <= Z.of_nat (length view) /\
  view' = take (Z.to_nat offset) view ++ bytes32 value
            ++ drop (Z.to_nat offset + 4) view.
Proof.
  unfold setUint32.
  destruct (Z.ltb_spec offset 0); [discriminate|].
  destruct (Z.ltb_spec (Z.of_nat (length view)) (offset + 4)); [discriminate|].
  intros H1. injection H1 as H1. symmetry in H1. auto.
Qed.

Lemma setUint32_length (view view' : list byte) (offset value : Z) :
  setUint32 view offset value = Some view' -> length view' = length view.
Proof.
  intros (H0 & H1 & ->)%setUint32_eq.
  rewrite !length_app, length_take, length_drop.
  change (length (bytes32 value)) with 4%nat. lia.
Qed.

Lemma setUint32_Some (view : list byte) (offset value : Z) :
  0 <= offset -> offset + 4 <= Z.of_nat (length view) ->
  exists view', setUint32 view offset value = Some view'.
Proof.
  intros H0 H1. unfold setUint32.
  destruct (Z.ltb_spec offset 0); [lia|].
  destruct (Z.ltb_spec (Z.of_nat (length view)) (offset + 4)); [lia|].
  cbn [orb]. eauto.
Qed.

Lemma getUint32_setUint32 (view view' : list byte) (offset value : Z) :
  setUint32 view offset value = Some view' ->
  getUint32 view' offset = Some (value mod 4294967296).
Proof.
  intros (H0 & H1 & ->)%setUint32_eq.
  pose proof (getUint32_bytes32 (take (Z.to_nat offset) view)
                (drop (Z.to_nat offset + 4) view) value) as H.
  rewrite length_take in H.
  replace (Z.of_nat (Z.to_nat offset `min` length view)) with offset in H by lia.
  exact H.
Qed.

Lemma getUint32_setUint32_other (view view' : list byte) (offset value o : Z) :
  setUint32 view offset value = Some view' ->
  o + 4 <= offset \/ offset + 4 <= o ->
  getUint32 view' o = getUint32 view o.
Proof.
  intros (H0 & H1 & ->)%setUint32_eq Hd.
  destruct (Z.ltb_spec o 0) as [Hneg|Hpos].
  { unfold getUint32. apply Z.ltb_lt in Hneg. rewrite Hneg. reflexivity. }
  apply getUint32_ext. intros i Hi.
  destruct Hd as [Hd|Hd].
  - rewrite lookup_app_l by (rewrite length_take; lia).
    apply lookup_take_lt. lia.
  - rewrite app_assoc, lookup_app_r
      by (rewrite length_app, length_take; change (length (bytes32 value)) with 4%nat; lia).
    rewrite length_app, length_take. change (length (bytes32 value)) with 4%nat.
    rewrite lookup_drop. f_equal. lia.
Qed.

(** *** A buffer as a row of blocks *)

Lemma length_bytes32 (v : Z) : length (bytes32 v) = 4%nat.
Proof. reflexivity. Qed.

Lemma getUint32_skip (block rest : list byte) (offset : Z) :
  Z.of_nat (length block) <= offset ->
  getUint32 (block ++ rest) offset
  = getUint32 rest (offset - Z.of_nat (length block)).
Proof.
  intros H. unfold getUint32.
  destruct (Z.ltb_spec offset 0); [lia|].
  destruct (Z.ltb_spec (offset - Z.of_nat (length block)) 0); [lia|].
  rewrite drop_app_ge by lia.
  replace (Z.to_nat offset - length block)%nat
    with (Z.to_nat (offset - Z.of_nat (length block))) by lia.
  reflexivity.
Qed.

Lemma getUint32_head (v : Z) (rest : list byte) :
  getUint32 (bytes32 v ++ rest) 0 = Some (v mod 4294967296).
Proof. exact (getUint32_bytes32 [] rest v). Qed.

Lemma setUint32_head (old v : Z) (rest : list byte) :
  setUint32 (bytes32 old ++ rest) 0 v = Some (bytes32 v ++ rest).
Proof.
  unfold setUint32.
  destruct (Z.ltb_spec (Z.of_nat (length (bytes32 old ++ rest))) (0 + 4));
    [rewrite length_app, length_bytes32 in *; lia|].
  reflexivity.
Qed.

Lemma setUint32_skip (block rest rest' : list byte) (offset v : Z) :
  Z.of_nat (length block) <= offset ->
  setUint32 rest (offset - Z.of_nat (length block)) v = Some rest' ->
  setUint32 (block ++ rest) offset v = Some (block ++ rest').
Proof.
  intros H (H0 & H1 & ->)%setUint32_eq. unfold setUint32.
  destruct (Z.ltb_spec offset 0); [lia|].
  destruct (Z.ltb_spec (Z.of_nat (length (block ++ rest))) (offset + 4));
    [rewrite length_app in *; lia|].
  cbn [orb]. f_equal.
  rewrite take_app_ge, drop_app_ge by lia. rewrite <- app_assoc.
  repeat f_equal; lia.
Qed.

(** No zero byte in the bytes. *)
Definition nulFree (bytes : list byte) : Prop :=
  Forall (fun b => byteZ b <> 0) bytes.

Lemma drop_skip {A} (block rest : list A) (offset : Z) :
  Z.of_nat (length block) <= offset ->
  drop (Z.to_nat offset) (block ++ rest)
  = drop (Z.to_nat (offset - Z.of_nat (length block))) rest.
Proof.
  intros H. rewrite drop_app_ge by lia. f_equal. lia.
Qed.

End DataViewProps.

Module EncoderProps.
Import Compiler DataViewProps.

Definition subsOf (kind : SymbolKind) (e : Encoder) : list (Z * Z) :=
  match kind with
  | LabelSym => labelSubstitutions e
  | StringSym => stringSubstitutions e
  | VariableSym => variableSubstitutions e
  | CharacterSym => characterSubstitutions e
  end.

Definition tableOf (kind : SymbolKind) (e : Encoder) : gmap Z Z :=
  match kind with
  | LabelSym => labels e
  | StringSym => stringLabels e
  | VariableSym => variableLabels e
  | CharacterSym => characterLabels e
  end.

(** The symbol an operation refers to by its operand. *)
Definition referenced (irOp : IR) : option (SymbolKind * Z) :=
  match irOp with
  | ReadStrOp id => Some (StringSym, id)
  | SetCharacterOp id => Some (CharacterSym, id)
  | JumpOp target => Some (LabelSym, target)
  | SetVariableNameOp id | ReadVariableOp id | SetVariableOp id =>
      Some (VariableSym, id)
  | _ => None
  end.

(** The references the encoder records a substitution for. *)
Definition patched (irOp : IR) : option (SymbolKind * Z) :=
  match irOp with
  | ReadVariableOp _ | SetVariableOp _ => None
  | _ => referenced irOp
  end.

(** The variable id that [ReadVariable] and [SetVariable] carry. *)
Definition rawVariable (irOp : IR) : option Z :=
  match irOp with
  | ReadVariableOp id | SetVariableOp id => Some id
  | _ => None
  end.

(** How one step of the first pass changes the encoder: bytes are added at
    the end, and at most one substitution, for the last four of at least
    eight new bytes. *)
Inductive grows (e e' : Encoder) : Prop :=
| grows_bytes tail :
    bytecode e' = bytecode e ++ tail ->
    (forall kind, subsOf kind e' = subsOf kind e) ->
    grows e e'
| grows_patch kind id tail :
    bytecode e' = bytecode e ++ tail ->
    (8 <= length tail)%nat ->
    subsOf kind e' = subsOf kind e ++ [(id, current e' - 4)] ->
    (forall kind', kind' <> kind -> subsOf kind' e' = subsOf kind' e) ->
    grows e e'.

Lemma grows_refl (e : Encoder) : grows e e.
Proof. apply (grows_bytes e e []); [by rewrite app_nil_r | done]. Qed.

Lemma grows_current (e e' : Encoder) : grows e e' -> current e <= current e'.
Proof.
  unfold current. intros [tail -> _|kind id tail -> _ _ _];
    rewrite length_app; lia.
Qed.

Lemma grows_In (e e' : Encoder) (kind : SymbolKind) (p : Z * Z) :
  grows e e' -> In p (subsOf kind e) -> In p (subsOf kind e').
Proof.
  intros [tail _ H|kind0 id tail _ _ H1 H2] Hin.
  - by rewrite H.
  - destruct (decide (kind = kind0)) as [->|Hne].
    + rewrite H1. apply in_or_app. by left.
    + by rewrite H2.
Qed.

(** Every recorded substitution lies inside the bytes pushed so far. *)
Definition bounded (e : Encoder) : Prop :=
  forall kind id off, In (id, off) (subsOf kind e) ->
    0 <= off /\ off + 4 <= current e.

(** Two recorded substitutions are the same one or do not overlap. *)
Definition spaced (e : Encoder) : Prop :=
  forall kind1 id1 off1 kind2 id2 off2,
    In (id1, off1) (subsOf kind1 e) -> In (id2, off2) (subsOf kind2 e) ->
    (kind1 = kind2 /\ id1 = id2 /\ off1 = off2)
    \/ off1 + 4 <= off2 \/ off2 + 4 <= off1.

(** No recorded substitution touches the four bytes at [o]. *)
Definition clearAt (o : Z) (e : Encoder) : Prop :=
  forall kind id off, In (id, off) (subsOf kind e) ->
    off + 4 <= o \/ o + 4 <= off.

Lemma grows_cases (e e' : Encoder) (kind : SymbolKind) (id off : Z) :
  grows e e' -> In (id, off) (subsOf kind e') ->
  In (id, off) (subsOf kind e)
  \/ (off = current e' - 4 /\ current e + 8 <= current e').
Proof.
  intros [tail Hb H|kind0 id0 tail Hb Hlen H1 H2] Hin.
  - left. by rewrite <- H.
  - destruct (decide (kind = kind0)) as [->|Hne].
    + rewrite H1 in Hin. apply in_app_or in Hin as [Hin|[[= <- <-]|[]]].
      * by left.
      * right. split; [done|]. unfold current. rewrite Hb, length_app. lia.
    + left. by rewrite <- H2.
Qed.

Lemma grows_new_same (e e' : Encoder) (kind1 kind2 : SymbolKind)
    (id1 id2 off : Z) :
  grows e e' -> bounded e ->
  In (id1, off) (subsOf kind1 e') -> In (id2, off) (subsOf kind2 e') ->
  off = current e' - 4 -> current e + 8 <= current e' ->
  kind1 = kind2 /\ id1 = id2.
Proof.
  intros [tail Hb H|kind0 id0 tail Hb Hlen H1 H2] Hbd Hin1 Hin2 -> Hcur.
  - rewrite H in Hin1. apply Hbd in Hin1. lia.
  - assert (forall kind id, In (id, current e' - 4) (subsOf kind e') ->
              kind = kind0 /\ id = id0) as Hone.
    { intros kind id Hin. destruct (decide (kind = kind0)) as [->|Hne].
      - rewrite H1 in Hin. apply in_app_or in Hin as [Hin|[[= <-]|[]]]; [|done].
        apply Hbd in Hin. lia.
      - rewrite H2 in Hin by done. apply Hbd in Hin. lia. }
    destruct (Hone _ _ Hin1) as [-> ->]. destruct (Hone _ _ Hin2) as [-> ->].
    done.
Qed.

Lemma grows_bounded (e e' : Encoder) : grows e e' -> bounded e -> bounded e'.
Proof.
  intros Hg Hbd kind id off Hin.
  pose proof (grows_current _ _ Hg) as Hcur.
  destruct (grows_cases _ _ _ _ _ Hg Hin) as [Hold|[-> Hnew]].
  - apply Hbd in Hold. lia.
  - unfold current in *. lia.
Qed.

Lemma grows_spaced (e e' : Encoder) :
  grows e e' -> bounded e -> spaced e -> spaced e'.
Proof.
  intros Hg Hbd Hsp kind1 id1 off1 kind2 id2 off2 Hin1 Hin2.
  destruct (grows_cases _ _ _ _ _ Hg Hin1) as [Hold1|[Heq1 Hnew1]];
    destruct (grows_cases _ _ _ _ _ Hg Hin2) as [Hold2|[Heq2 Hnew2]].
  - by apply (Hsp kind1 id1 off1 kind2 id2 off2).
  - apply Hbd in Hold1. lia.
  - apply Hbd in Hold2. lia.
  - left. assert (off1 = off2) as <- by lia.
    destruct (grows_new_same _ _ _ _ _ _ _ Hg Hbd Hin1 Hin2 Heq1 Hnew1).
    done.
Qed.

Lemma grows_clearAt (e e' : Encoder) (o : Z) :
  grows e e' -> o + 4 <= current e -> clearAt o e -> clearAt o e'.
Proof.
  intros Hg Ho Hcl kind id off Hin.
  destruct (grows_cases _ _ _ _ _ Hg Hin) as [Hold|[-> Hnew]].
  - by apply (Hcl kind id).
  - lia.
Qed.

Lemma grows_getUint32 (e e' : Encoder) (o : Z) :
  grows e e' -> o + 4 <= current e ->
  getUint32 (bytecode e') o = getUint32 (bytecode e) o.
Proof.
  intros [tail -> _|kind id tail -> _ _ _] Ho; by apply getUint32_app_l.
Qed.

(** What holds of the encoder all along the first pass. *)
Definition sound (e : Encoder) : Prop := bounded e /\ spaced e.

Lemma grows_sound (e e' : Encoder) : grows e e' -> sound e -> sound e'.
Proof.
  intros Hg [Hbd Hsp]. split; [by apply (grows_bounded e) | by apply (grows_spaced e)].
Qed.

Lemma sound_empty : sound emptyEncoder.
Proof. split; [intros [] ? ? []|intros [] ? ? ? ? ? []]. Qed.

Lemma pushBytecode_grows (bc : list byte) (e : Encoder) :
  grows e (pushBytecode bc e).
Proof. by apply (grows_bytes _ _ bc). Qed.

Lemma length_operandOp1 (op : IROpType) (operand : Z) :
  length (operandOp op [operand]) = 8%nat.
Proof. reflexivity. Qed.

Lemma encodeOp_grows (irOp : IR) (e : Encoder) : grows e (encodeOp irOp e).
Proof.
  destruct irOp; simpl; try apply pushBytecode_grows.
  - apply (grows_patch _ _ StringSym string_ (operandOp ReadStr [string_]));
      [done|by rewrite length_operandOp1|done|by intros []].
  - apply (grows_patch _ _ CharacterSym character
             (operandOp SetCharacter [character]));
      [done|by rewrite length_operandOp1|done|by intros []].
  - apply (grows_patch _ _ VariableSym variable
             (operandOp SetVariableName [variable]));
      [done|by rewrite length_operandOp1|done|by intros []].
  - apply (grows_patch _ _ LabelSym target (operandOp Jump [target]));
      [done|by rewrite length_operandOp1|done|by intros []].
  - apply (grows_bytes _ _ []); [by rewrite app_nil_r|done].
Qed.

Lemma foldl_grows_ind {A} (P : Encoder -> Prop) (f : Encoder -> A -> Encoder)
    (l : list A) (e : Encoder) :
  (forall e x, grows e (f e x)) ->
  (forall e e', grows e e' -> P e -> P e') ->
  P e -> P (foldl f e l).
Proof.
  intros Hf HP. revert e. induction l as [|x l IH]; intros e He; simpl; [done|].
  apply IH. by apply (HP e).
Qed.

Section Layout.
Variable encode : string -> list byte.

Lemma symbol_grows (entry : string * Z) (e e0 : Encoder) :
  bytecode e0 = bytecode e ->
  (forall kind, subsOf kind e0 = subsOf kind e) ->
  grows e (pushBytecode [x00] (pushBytecode (stringData encode (fst entry)) e0)).
Proof.
  intros Hb Hs.
  apply (grows_bytes _ _ (stringData encode (fst entry) ++ [x00])).
  - simpl. by rewrite Hb, app_assoc.
  - intros []; simpl; apply (Hs LabelSym) || apply (Hs StringSym)
      || apply (Hs VariableSym) || apply (Hs CharacterSym).
Qed.

(** The encoder after the header and the symbol table. *)
Definition prologue (state : CompilerState) : Encoder :=
  layout encode [] state.

Lemma layout_prologue (ir : list IR) (state : CompilerState) :
  layout encode ir state = foldl (fun e irOp => encodeOp irOp e) (prologue state) ir.
Proof. reflexivity. Qed.

Lemma layout_app (pre post : list IR) (state : CompilerState) :
  layout encode (pre ++ post) state
  = foldl (fun e irOp => encodeOp irOp e) (layout encode pre state) post.
Proof. rewrite !layout_prologue. apply foldl_app. Qed.

Lemma prologue_sound (state : CompilerState) : sound (prologue state).
Proof.
  unfold prologue, layout. cbn [foldl].
  repeat (apply (foldl_grows_ind sound);
          [intros e x; by apply symbol_grows | apply grows_sound |]).
  eapply grows_sound.
  { apply (grows_patch _ _ LabelSym 0 (operandOp Jump [0]));
      [done|by rewrite length_operandOp1|done|by intros []]. }
  apply (foldl_grows_ind sound); [|apply grows_sound|apply sound_empty].
  intros e x.
  apply (grows_patch _ _ VariableSym (snd x) (operandOp SetVariableName [0]));
    [done|by rewrite length_operandOp1|done|by intros []].
Qed.

Lemma layout_sound (ir : list IR) (state : CompilerState) :
  sound (layout encode ir state).
Proof.
  rewrite layout_prologue.
  apply (foldl_grows_ind sound);
    [intros; apply encodeOp_grows | apply grows_sound | apply prologue_sound].
Qed.

End Layout.

(** *** The second pass *)

Lemma substitute_spec (kind : SymbolKind) (subs : list (Z * Z))
    (table : gmap Z Z) (buffer buffer' : list byte) :
  substitute kind subs table buffer = Encoded buffer' ->
  (forall o, (forall id l, In (id, l) subs -> l + 4 <= o \/ o + 4 <= l) ->
     getUint32 buffer' o = getUint32 buffer o)
  /\ (forall id o, In (id, o) subs ->
        (forall id' l, In (id', l) subs ->
           (id' = id /\ l = o) \/ l + 4 <= o \/ o + 4 <= l) ->
        exists target, table !! id = Some target
          /\ getUint32 buffer' o = Some (target mod 4294967296)).
Proof.
  revert buffer. induction subs as [|[id0 l0] subs IH]; intros buffer; simpl.
  - intros [= <-]. split; [done|]. intros ? ? [].
  - destruct (table !! id0) as [target|] eqn:Et; [|discriminate].
    destruct (setUint32 buffer l0 target) as [buffer1|] eqn:Es; [|discriminate].
    intros Hsub. destruct (IH _ Hsub) as [IHo IHp]. split.
    + intros o Hclear. rewrite IHo by eauto.
      apply (getUint32_setUint32_other _ _ _ _ _ Es).
      destruct (Hclear id0 l0) as [?|?]; [by left| |]; lia.
    + intros id o Hin Hsp.
      destruct (decide ((id, o) ∈ subs)) as [Hlater|Hnot];
        rewrite list_elem_of_In in *.
      * apply IHp; eauto.
      * destruct Hin as [[= -> ->]|Hin]; [|contradiction].
        exists target. split; [done|].
        rewrite IHo.
        -- apply (getUint32_setUint32 _ _ _ _ Es).
        -- intros id' l Hin'.
           destruct (Hsp id' l (or_intror Hin')) as [[-> ->]|?];
             [contradiction|done].
Qed.

Lemma resolve_stages (e : Encoder) (buffer : list byte) :
  resolve e = Encoded buffer ->
  exists b1 b2 b3,
    substitute LabelSym (subsOf LabelSym e) (tableOf LabelSym e) (bytecode e)
      = Encoded b1 /\
    substitute StringSym (subsOf StringSym e) (tableOf StringSym e) b1
      = Encoded b2 /\
    substitute VariableSym (subsOf VariableSym e) (tableOf VariableSym e) b2
      = Encoded b3 /\
    substitute CharacterSym (subsOf CharacterSym e) (tableOf CharacterSym e) b3
      = Encoded buffer.
Proof.
  unfold resolve, andThen. simpl.
  destruct (substitute LabelSym _ _ _) as [b1| |] eqn:E1; try discriminate.
  destruct (substitute StringSym _ _ _) as [b2| |] eqn:E2; try discriminate.
  destruct (substitute VariableSym _ _ _) as [b3| |] eqn:E3; try discriminate.
  intros H. exists b1, b2, b3. done.
Qed.

(** Four bytes that no substitution touches come out of the second pass as
    the first pass wrote them. *)
Lemma resolve_clear (e : Encoder) (buffer : list byte) (o : Z) :
  resolve e = Encoded buffer -> clearAt o e ->
  getUint32 buffer o = getUint32 (bytecode e) o.
Proof.
  intros (b1 & b2 & b3 & H1 & H2 & H3 & H4)%resolve_stages Hcl.
  apply substitute_spec in H1 as [H1 _], H2 as [H2 _], H3 as [H3 _],
    H4 as [H4 _].
  rewrite H4, H3, H2, H1; [done|..]; intros id l; apply Hcl.
Qed.

(** The operand of a recorded substitution comes out of the second pass as
    the offset its id has in the table of its kind. *)
Lemma resolve_patch (e : Encoder) (buffer : list byte) (kind : SymbolKind)
    (id o : Z) :
  resolve e = Encoded buffer -> spaced e -> In (id, o) (subsOf kind e) ->
  exists target, tableOf kind e !! id = Some target
    /\ getUint32 buffer o = Some (target mod 4294967296).
Proof.
  intros (b1 & b2 & b3 & H1 & H2 & H3 & H4)%resolve_stages Hsp Hin.
  apply substitute_spec in H1 as [H1 P1], H2 as [H2 P2], H3 as [H3 P3],
    H4 as [H4 P4].
  assert (forall kind', kind' <> kind -> forall id' l,
            In (id', l) (subsOf kind' e) -> l + 4 <= o \/ o + 4 <= l) as Hother.
  { intros kind' Hne id' l Hin'.
    destruct (Hsp kind' id' l kind id o Hin' Hin) as [[-> _]|?]; [done|lia]. }
  assert (forall id' l, In (id', l) (subsOf kind e) ->
            (id' = id /\ l = o) \/ l + 4 <= o \/ o + 4 <= l) as Hsame.
  { intros id' l Hin'.
    destruct (Hsp kind id' l kind id o Hin' Hin) as [(_ & -> & ->)|?];
      [by left|right; lia]. }
  destruct kind.
  - destruct (P1 id o Hin Hsame) as (target & Ht & Hv). exists target.
    split; [done|]. rewrite H4, H3, H2 by (by apply Hother). done.
  - destruct (P2 id o Hin Hsame) as (target & Ht & Hv). exists target.
    split; [done|]. rewrite H4, H3 by (by apply Hother). done.
  - destruct (P3 id o Hin Hsame) as (target & Ht & Hv). exists target.
    split; [done|]. rewrite H4 by (by apply Hother). done.
  - destruct (P4 id o Hin Hsame) as (target & Ht & Hv). exists target. done.
Qed.

Section Operands.
Variable encode : string -> list byte.

(** The operation [irOp] encoded after [pre]: the encoder right after it,
    and the offset of its operand. *)
Lemma encodeOp_patched (irOp : IR) (kind : SymbolKind) (id : Z) (e : Encoder) :
  patched irOp = Some (kind, id) ->
  In (id, current e + 4) (subsOf kind (encodeOp irOp e)).
Proof.
  destruct irOp; intros [= <- <-]; simpl; apply in_or_app; right; left;
    f_equal; unfold current; simpl; rewrite length_app;
    change (length (operandOp _ _)) with 8%nat; lia.
Qed.

Lemma encodeOp_raw (irOp : IR) (id : Z) (e : Encoder) :
  rawVariable irOp = Some id -> bounded e ->
  let e' := encodeOp irOp e in
  let o := current e + 4 in
  o + 4 <= current e' /\ clearAt o e'
  /\ getUint32 (bytecode e') o = Some (id mod 4294967296).
Proof.
  intros Hraw Hbd. cbv zeta.
  assert (forall op, getUint32 (bytecode e ++ operandOp op [id]) (current e + 4)
                     = Some (id mod 4294967296)) as Hget.
  { intros op.
    change (operandOp op [id]) with (bytes32 (OPCODE_MAP op) ++ bytes32 id ++ []).
    rewrite app_assoc.
    rewrite <- (getUint32_bytes32 (bytecode e ++ bytes32 (OPCODE_MAP op)) [] id).
    f_equal. unfold current. rewrite length_app.
    change (length (bytes32 _)) with 4%nat. lia. }
  assert (clearAt (current e + 4) e) as Hcl.
  { intros kind id' off Hin. apply Hbd in Hin. lia. }
  destruct irOp; inversion Hraw; subst; simpl; (split; [|split]);
    try apply Hget; try exact Hcl;
    unfold current; simpl; rewrite length_app;
    change (length (operandOp _ _)) with 8%nat; lia.
Qed.

(** The operations of the list that is encoded: the operand of [ReadStr],
    [SetCharacter], [Jump] or [SetVariableName] is recorded as a
    substitution of its id at the offset of the operand, and the second
    pass leaves there the offset the id has in the table of its kind; the
    operand of [ReadVariable] or [SetVariable] has no substitution, and
    holds the id of the variable after the first pass and after the
    second. *)
Theorem operands_patched_or_raw (state : CompilerState) (pre post : list IR)
    (irOp : IR) :
  let e := layout encode (pre ++ irOp :: post) state in
  let o := current (layout encode pre state) + 4 in
  match patched irOp, rawVariable irOp with
  | Some (kind, id), _ =>
      In (id, o) (subsOf kind e)
      /\ match resolve e with
         | Encoded buffer =>
             exists target, tableOf kind e !! id = Some target
               /\ getUint32 buffer o = Some (target mod 4294967296)
         | _ => True
         end
  | None, Some id =>
      (forall kind id', ~ In (id', o) (subsOf kind e))
      /\ getUint32 (bytecode e) o = Some (id mod 4294967296)
      /\ match resolve e with
         | Encoded buffer => getUint32 buffer o = Some (id mod 4294967296)
         | _ => True
         end
  | None, None => True
  end.
Proof.
  cbv zeta. rewrite layout_app. cbn [foldl].
  pose proof (layout_sound encode pre state) as [Hbd Hsp].
  set (e0 := layout encode pre state) in *.
  destruct (patched irOp) as [[kind id]|] eqn:Hp.
  - pose proof (encodeOp_patched _ _ _ e0 Hp) as Hin.
    set (e1 := encodeOp irOp e0) in *.
    assert (grows e0 e1) as Hg01 by apply encodeOp_grows.
    set (P := fun e => sound e /\ In (id, current e0 + 4) (subsOf kind e)).
    assert (P (foldl (fun e irOp => encodeOp irOp e) e1 post)) as [[_ Hsp'] Hin'].
    { apply (foldl_grows_ind P); [intros; apply encodeOp_grows| |].
      - intros e e' Hg [Hs Hi]. split; [by apply (grows_sound e)|by apply (grows_In e)].
      - split; [|done]. by apply (grows_sound e0). }
    split; [done|].
    destruct (resolve _) as [buffer| |] eqn:Hr; [|done..].
    by apply (resolve_patch _ _ _ _ _ Hr).
  - destruct (rawVariable irOp) as [id|] eqn:Hraw; [|done].
    destruct (encodeOp_raw _ _ e0 Hraw Hbd) as (Hcur & Hcl & Hget).
    set (e1 := encodeOp irOp e0) in *. set (o := current e0 + 4) in *.
    set (P := fun e => o + 4 <= current e /\ clearAt o e
                       /\ getUint32 (bytecode e) o = Some (id mod 4294967296)).
    assert (P (foldl (fun e irOp => encodeOp irOp e) e1 post)) as (_ & Hcl' & Hget').
    { apply (foldl_grows_ind P); [intros; apply encodeOp_grows| |done].
      intros e e' Hg (Ho & Hc & Hv). split; [|split].
      - pose proof (grows_current _ _ Hg). lia.
      - by apply (grows_clearAt e).
      - by rewrite (grows_getUint32 e). }
    split; [|split; [done|]].
    + intros kind id' Hin. apply Hcl' in Hin. lia.
    + destruct (resolve _) as [buffer| |] eqn:Hr; [|done..].
      by rewrite (resolve_clear _ _ _ Hr).
Qed.

End Operands.

(** *** An image with a variable read in it *)

(** Two variables, [x] and [y], and the code that copies [y] to itself. *)
Definition twoVariables : CompilerState :=
  mkCompilerState 0 [] 0 [] 2 [("x", 0); ("y", 1)].

Definition copyOfY : list IR :=
  [LabelIR 0; ReadVariableOp 1; SetVariableOp 1; EndOfScriptOp].

(** C3, as stated, fails: the operand of the [ReadVariable] in [copyOfY],
    at offset 32 of the image, refers to the variable with id 1 and has no
    substitution; the image holds the id 1 there, not the offset 26 that
    the second pass knows for the variable. *)
Lemma ReadVariable_operand_is_the_raw_id :
  exists (pre post : list IR) (buffer : list byte),
    let e := layout Utf8.encode copyOfY twoVariables in
    let o := current (layout Utf8.encode pre twoVariables) + 4 in
    copyOfY = pre ++ ReadVariableOp 1 :: post
    /\ referenced (ReadVariableOp 1) = Some (VariableSym, 1)
    /\ o = 32
    /\ ~ In (1, o) (subsOf VariableSym e)
    /\ tableOf VariableSym e !! 1 = Some 26
    /\ compileBytecode Utf8.encode copyOfY twoVariables = Encoded buffer
    /\ getUint32 buffer o = Some 1.
Proof.
  exists [LabelIR 0], [SetVariableOp 1; EndOfScriptOp].
  eexists. cbv zeta.
  split; [reflexivity|]. split; [reflexivity|]. split; [reflexivity|].
  split; [|split; [reflexivity|]].
  - vm_compute. intros [H|[H|[]]]; discriminate.
  - split; vm_compute; reflexivity.
Qed.

End EncoderProps.

Module LoweringProps.
Import AST Compiler.

Lemma compileTextNodeChild_Text (contents : list TextNodeChild)
    (enclosed : option ascii) (state : CompilerState) :
  compileTextNodeChild (Text contents enclosed) state
  = compileChildren contents true state.
Proof. reflexivity. Qed.

Lemma compileTextNodeChild_Script (contents : list TextNodeChild)
    (state : CompilerState) :
  compileTextNodeChild (Script contents) state = compileScript contents state.
Proof. reflexivity. Qed.

(** Induction on a child with the hypothesis for every child under it. *)
Lemma TextNodeChild_nested_ind (P : TextNodeChild -> Prop) :
  (forall contents enclosed, Forall P contents -> P (Text contents enclosed)) ->
  (forall contents, P (String_ contents)) ->
  (forall key, P (Expression key)) ->
  (forall contents, Forall P contents -> P (Script contents)) ->
  forall child, P child.
Proof.
  intros HText HString HExpression HScript.
  fix IH 1. intros [contents enclosed|contents|key|contents].
  - apply HText. induction contents as [|c cs IHcs]; constructor; [apply IH|apply IHcs].
  - apply HString.
  - apply HExpression.
  - apply HScript. induction contents as [|c cs IHcs]; constructor; [apply IH|apply IHcs].
Qed.

(** The height of the value stack after an operation of a lowered text,
    when the machine runs it at height [h] without a stack underflow:
    [ReadStr] and [ReadVariable] push one value, [Concatenate] pops two and
    pushes one, [EvaluateScript] pops one and pushes one (see
    [VMProps.step_height]). *)
Definition heightAfterOp (irOp : IR) (h : nat) : option nat :=
  match irOp with
  | ReadStrOp _ | ReadVariableOp _ => Some (S h)
  | ConcatenateOp => if (2 <=? h)%nat then Some (h - 1)%nat else None
  | EvaluateScriptOp => if (1 <=? h)%nat then Some h else None
  | _ => None
  end.

Fixpoint heightAfter (ir : list IR) (h : nat) : option nat :=
  match ir with
  | [] => Some h
  | irOp :: ir' =>
      match heightAfterOp irOp h with
      | Some h' => heightAfter ir' h'
      | None => None
      end
  end.

Lemma heightAfter_app (ir1 ir2 : list IR) (h h1 : nat) :
  heightAfter ir1 h = Some h1 ->
  heightAfter (ir1 ++ ir2) h = heightAfter ir2 h1.
Proof.
  revert h. induction ir1 as [|irOp ir1 IH]; intros h; simpl.
  - by intros [= ->].
  - destruct (heightAfterOp irOp h); [apply IH|discriminate].
Qed.

(** A text or script node with no child at all lowers to no operation; a
    child is whole when no node in it is such. *)
Fixpoint whole (child : TextNodeChild) : bool :=
  match child with
  | Text contents _ | Script contents =>
      match contents with
      | [] => false
      | _ => forallb whole contents
      end
  | String_ _ | Expression _ => true
  end.

Definition wholeText (node : TextNode) : bool :=
  whole (Text (textContents node) (textEnclosed node)).

Definition pushesOne (child : TextNodeChild) : Prop :=
  whole child = true ->
  forall state h, heightAfter (fst (compileTextNodeChild child state)) h = Some (S h).

Lemma compileChildren_rest (contents : list TextNodeChild) :
  Forall pushesOne contents -> forallb whole contents = true ->
  forall state h,
    heightAfter (fst (compileChildren contents false state)) (S h) = Some (S h).
Proof.
  induction 1 as [|c cs Hc _ IH]; intros Hw state h; simpl; [done|].
  apply andb_true_iff in Hw as [Hwc Hwcs].
  destruct (compileTextNodeChild c state) as [ir state1] eqn:E1.
  destruct (compileChildren cs false state1) as [rest state2] eqn:E2. simpl.
  pose proof (Hc Hwc state (S h)) as H1. rewrite E1 in H1. simpl in H1.
  rewrite (heightAfter_app _ _ _ _ H1). simpl.
  pose proof (IH Hwcs state1 h) as H2. rewrite E2 in H2. simpl in H2.
  replace (h - 0)%nat with h by lia. exact H2.
Qed.

Lemma compileChildren_first (contents : list TextNodeChild) :
  Forall pushesOne contents -> contents <> [] ->
  forallb whole contents = true ->
  forall state h,
    heightAfter (fst (compileChildren contents true state)) h = Some (S h).
Proof.
  intros Hall Hne Hw state h.
  destruct Hall as [|c cs Hc Hcs]; [done|]. simpl in *.
  apply andb_true_iff in Hw as [Hwc Hwcs].
  destruct (compileTextNodeChild c state) as [ir state1] eqn:E1.
  destruct (compileChildren cs false state1) as [rest state2] eqn:E2. simpl.
  pose proof (Hc Hwc state h) as H1. rewrite E1 in H1. simpl in H1.
  rewrite (heightAfter_app _ _ _ _ H1).
  pose proof (compileChildren_rest cs Hcs Hwcs state1 h) as H2.
  rewrite E2 in H2. exact H2.
Qed.

Lemma whole_pushesOne (child : TextNodeChild) : pushesOne child.
Proof.
  induction child as [contents enclosed IH|contents|key|contents IH]
    using TextNodeChild_nested_ind; intros Hw state h.
  - rewrite compileTextNodeChild_Text. simpl in Hw.
    destruct contents as [|c cs]; [discriminate|].
    by apply compileChildren_first.
  - simpl. destruct (getStringId state contents). reflexivity.
  - simpl. destruct (getVariableId state key). reflexivity.
  - rewrite compileTextNodeChild_Script. unfold compileScript. simpl in Hw.
    destruct contents as [|c cs]; [discriminate|].
    pose proof (compileChildren_first (c :: cs) IH ltac:(done) Hw state h) as H.
    destruct (compileChildren (c :: cs) true state) as [ir state1]. simpl in *.
    rewrite (heightAfter_app _ _ _ _ H). reflexivity.
Qed.

Lemma compileTextNode_height (node : TextNode) (state : CompilerState) (h : nat) :
  wholeText node = true ->
  heightAfter (fst (compileTextNode node state)) h = Some (S h).
Proof.
  intros Hw. destruct node as [contents enclosed].
  exact (whole_pushesOne (Text contents enclosed) Hw state h).
Qed.

Definition wholeOption (option : AssignmentChoiceNode) : bool :=
  let '(AssignmentChoice (ChoiceValue prompt _)) := option in wholeText prompt.

Lemma compileChoiceValue_height (prompt : TextNode) (key : string)
    (state : CompilerState) (h : nat) :
  wholeText prompt = true ->
  heightAfter (fst (compileChoiceValue (ChoiceValue prompt key) state)) h
  = Some (S (S h)).
Proof.
  intros Hw. unfold compileChoiceValue.
  pose proof (compileTextNode_height prompt state h Hw) as H.
  destruct (compileTextNode prompt state) as [ir state1].
  destruct (getStringId state1 key) as [id state2]. simpl in *.
  rewrite (heightAfter_app _ _ _ _ H). reflexivity.
Qed.

Lemma compileOptions_cons (value : ChoiceValueNode)
    (options : list AssignmentChoiceNode) (state : CompilerState) :
  compileOptions (AssignmentChoice value :: options) state
  = let '(ir, state) := compileChoiceValue value state in
    let '(rest, state) := compileOptions options state in
    (ir ++ rest, state).
Proof. reflexivity. Qed.

Lemma compileOptions_height (options : list AssignmentChoiceNode)
    (state : CompilerState) (h : nat) :
  forallb wholeOption options = true ->
  heightAfter (fst (compileOptions options state)) h
  = Some (h + 2 * length options)%nat.
Proof.
  revert state h. induction options as [|[[prompt key]] options IH];
    intros state h Hw.
  - simpl. f_equal. lia.
  - apply andb_true_iff in Hw as [Hw1 Hw2].
    rewrite compileOptions_cons.
    pose proof (compileChoiceValue_height prompt key state h Hw1) as H.
    destruct (compileChoiceValue (ChoiceValue prompt key) state) as [ir state1].
    pose proof (IH state1 (S (S h)) Hw2) as H2.
    destruct (compileOptions options state1) as [rest state2].
    cbn [fst] in *.
    rewrite (heightAfter_app _ _ _ _ H), H2. f_equal. cbn [length]. lia.
Qed.

End LoweringProps.

Module VMProps.
Import VM.

Lemma arrayPop_snoc {A} (l : list (option A)) (x : option A) :
  arrayPop (l ++ [x]) = (x, l).
Proof.
  unfold arrayPop. rewrite reverse_app. simpl. by rewrite reverse_involutive.
Qed.

(** What a successful [read32] leaves behind: only the program counter
    moved. *)
Lemma read32_Ok (w w1 : World) (v : Z) :
  read32 w = Ok v w1 ->
  w1 = mkWorld (set_reg (<[0 := jsAdd (getReg 0 (vm w)) 4]> (reg (vm w))) (vm w))
         (replies w) (console w).
Proof.
  unfold read32, bind, get, liftRange, setReg, modify, ret, throw.
  destruct (toIndex _); [|discriminate].
  destruct (getUint32 _ _); [|discriminate].
  intros [= _ <-]. reflexivity.
Qed.

Lemma read8_Ok (w w1 : World) (v : Z) :
  read8 w = Ok v w1 ->
  w1 = mkWorld (set_reg (<[0 := jsAdd (getReg 0 (vm w)) 1]> (reg (vm w))) (vm w))
         (replies w) (console w).
Proof.
  unfold read8, bind, get, liftRange, setReg, modify, ret, throw.
  destruct (toIndex _); [|discriminate].
  destruct (getUint8 _ _); [|discriminate].
  intros [= _ <-]. reflexivity.
Qed.

Lemma bind_Ok {A B} (m : M A) (k : A -> M B) (w w' : World) (a : A) :
  m w = Ok a w' -> bind m k w = k a w'.
Proof. intros H. unfold bind. by rewrite H. Qed.

Lemma bind_Throw {A B} (m : M A) (k : A -> M B) (w w' : World) (e : Error) :
  m w = Throw e w' -> bind m k w = Throw e w'.
Proof. intros H. unfold bind. by rewrite H. Qed.

Lemma get_Ok (w : World) : get w = Ok (vm w) w.
Proof. reflexivity. Qed.

Definition pushed (value : string) (w : World) : World :=
  mkWorld
    (set_reg (<[1 := jsAdd (getReg 1 (vm w)) 1]> (reg (vm w)))
       (set_stack (stack (vm w) ++ [Some value]) (vm w)))
    (replies w) (console w).

Definition popped (rest : list (option string)) (w : World) : World :=
  mkWorld
    (set_stack rest
       (set_reg (<[1 := jsAdd (getReg 1 (vm w)) (-1)]> (reg (vm w))) (vm w)))
    (replies w) (console w).

Lemma stackPush_Ok (value : string) (w : World) :
  stackPush value w = Ok tt (pushed value w).
Proof. reflexivity. Qed.

Lemma stackPop_Ok (w : World) :
  stackPop w = Ok (fst (arrayPop (stack (vm w)))) (popped (snd (arrayPop (stack (vm w)))) w).
Proof.
  unfold stackPop, bind, get, setReg, modify, ret. simpl.
  destruct (arrayPop (stack (vm w))). reflexivity.
Qed.

Lemma stackPop_snoc (w : World) (rest : list (option string)) (x : option string) :
  stack (vm w) = rest ++ [x] -> stackPop w = Ok x (popped rest w).
Proof. intros H. rewrite stackPop_Ok, H, arrayPop_snoc. reflexivity. Qed.

(** The instruction at the program counter of [w] has the tag [op]; [w1] is
    the machine after its opcode was read. *)
Definition fetches (w : World) (op : IROpType) (w1 : World) : Prop :=
  exists opcode, read32 w = Ok opcode w1 /\ OPCODE_TO_IROp opcode = Some op.

Section Steps.
Variable decode : list byte -> string.
Variable evaluate : string -> (string -> string) -> option string.

Lemma step_execute (w w1 : World) (opcode : Z) :
  read32 w = Ok opcode w1 ->
  step decode evaluate w = execute decode evaluate opcode w1.
Proof. intros H. unfold step, bind. by rewrite H. Qed.

(** C8: executing [ReadVariable] on a variable that was never assigned
    pushes the empty string and does not raise. *)
Theorem ReadVariable_unset_pushes_empty (w w1 w2 : World) (id : Z) :
  fetches w ReadVariable w1 ->
  read32 w1 = Ok id w2 ->
  variableValues (vm w) !! id = None ->
  exists w3,
    step decode evaluate w = Ok None w3 /\
    stack (vm w3) = stack (vm w) ++ [Some ""] /\
    variableValues (vm w3) = variableValues (vm w) /\
    console w3 = console w.
Proof.
  intros (opcode & Hop & Htag) Hid Hunset.
  rewrite (step_execute _ _ _ Hop). unfold execute. rewrite Htag.
  unfold bind at 1. rewrite Hid.
  apply read32_Ok in Hop, Hid. subst w2 w1. simpl in *.
  unfold bind, get. simpl. rewrite Hunset. simpl.
  eexists. split; [reflexivity|]. simpl. done.
Qed.

(** With [a] pushed before [b], [Concatenate] pops both and pushes [a]
    followed by [b]. *)
Lemma Concatenate_step (w w1 : World) (rest : list (option string))
    (a b : string) :
  fetches w Concatenate w1 ->
  stack (vm w) = rest ++ [Some a; Some b] ->
  exists w2,
    step decode evaluate w = Ok None w2 /\
    stack (vm w2) = rest ++ [Some (a +:+ b)] /\
    console w2 = console w.
Proof.
  intros (opcode & Hop & Htag) Hstack.
  rewrite (step_execute _ _ _ Hop). unfold execute. rewrite Htag.
  apply read32_Ok in Hop. subst w1.
  rewrite (bind_Ok _ _ _ _ _ (get_Ok _)). cbn [vm set_reg stack].
  rewrite Hstack, length_app. cbn [length].
  destruct (Nat.ltb_spec (length rest + 2) 2) as [?|_]; [lia|].
  erewrite bind_Ok by (apply (stackPop_snoc _ (rest ++ [Some a]) (Some b));
    simpl; rewrite Hstack, <- app_assoc; reflexivity).
  erewrite bind_Ok by (apply (stackPop_snoc _ rest (Some a)); reflexivity).
  erewrite bind_Ok by apply stackPush_Ok.
  eexists. split; [reflexivity|]. simpl. done.
Qed.

(** *** The height of the stack *)

Lemma bind_Ok_inv {A B} (m : M A) (k : A -> M B) (w w' : World) (b : B) :
  bind m k w = Ok b w' -> exists a w1, m w = Ok a w1 /\ k a w1 = Ok b w'.
Proof.
  unfold bind. destruct (m w) as [a w1|e w1]; [eauto|discriminate].
Qed.

Lemma readStr_Ok (offset : Z) (w w1 : World) (s : string) :
  readStr decode offset w = Ok s w1 -> w1 = w.
Proof.
  unfold readStr, bind, get, liftRange, ret, throw.
  destruct (offset <? 0); [discriminate|].
  destruct (readStrBytes _); [|discriminate]. by intros [= _ <-].
Qed.

Lemma arrayPop_length {A} (l : list (option A)) :
  length (snd (arrayPop l)) = (length l - 1)%nat.
Proof.
  destruct l as [|x l] using rev_ind; [reflexivity|].
  rewrite arrayPop_snoc, length_app. simpl. lia.
Qed.

Lemma arrayPop_Some_length {A} (l : list (option A)) (x : A) :
  fst (arrayPop l) = Some x -> (1 <= length l)%nat.
Proof.
  destruct l as [|y l] using rev_ind; [discriminate|].
  rewrite length_app. simpl. lia.
Qed.

(** The tag an operation is encoded with. *)
Definition tagOf (irOp : IR) : option IROpType :=
  match irOp with
  | ReadStrOp _ => Some ReadStr
  | SetCharacterOp _ => Some SetCharacter
  | ShowDialogueOp _ => Some ShowDialogue
  | EvaluateScriptOp => Some EvaluateScript
  | ConcatenateOp => Some Concatenate
  | ReadVariableOp _ => Some ReadVariable
  | SetVariableNameOp _ => Some SetVariableName
  | JumpOp _ => Some Jump
  | LabelIR _ => None
  | EndOfScriptOp => Some EndOfScript
  | SetVariableOp _ => Some SetVariable
  | PromptOp => Some Prompt
  | MoveRegRegOp _ _ => Some MoveRegReg
  | SubRegRegOp _ _ _ => Some SubRegReg
  | PickOptionOp _ => Some PickOption
  end.

(** The operations of a lowered text move the stack as
    [LoweringProps.heightAfterOp] says, whenever the machine runs them
    without raising. *)
Lemma step_height (w w1 w' : World) (irOp : IR) (tag : IROpType) (h' : nat) :
  tagOf irOp = Some tag ->
  LoweringProps.heightAfterOp irOp (length (stack (vm w))) = Some h' ->
  fetches w tag w1 ->
  step decode evaluate w = Ok None w' ->
  length (stack (vm w')) = h'.
Proof.
  intros Htag Hh (opcode & Hop & Hdec) Hstep.
  rewrite (step_execute _ _ _ Hop) in Hstep. unfold execute in Hstep.
  rewrite Hdec in Hstep. apply read32_Ok in Hop. subst w1.
  destruct irOp; try discriminate; injection Htag as <-;
    cbn [LoweringProps.heightAfterOp] in Hh.
  - (* ReadStr *)
    apply bind_Ok_inv in Hstep as (offset & w2 & H2 & Hstep).
    apply bind_Ok_inv in Hstep as (s & w3 & H3 & Hstep).
    apply read32_Ok in H2. apply readStr_Ok in H3. subst w3 w2.
    rewrite (bind_Ok _ _ _ _ _ (stackPush_Ok _ _)) in Hstep.
    unfold ret in Hstep. injection Hstep as <-. injection Hh as <-. simpl.
    rewrite length_app. simpl. lia.
  - (* EvaluateScript *)
    rewrite (bind_Ok _ _ _ _ _ (stackPop_Ok _)) in Hstep.
    destruct (fst (arrayPop _)) as [src|] eqn:Etop; [|discriminate].
    destruct (falsy (Some src)); [discriminate|].
    rewrite (bind_Ok _ _ _ _ _ (get_Ok _)) in Hstep.
    destruct (evaluate _ _) as [r|]; [|discriminate].
    rewrite (bind_Ok _ _ _ _ _ (stackPush_Ok _ _)) in Hstep.
    unfold ret in Hstep. injection Hstep as <-. simpl in Etop. simpl.
    apply arrayPop_Some_length in Etop.
    rewrite length_app, arrayPop_length. simpl.
    destruct (Nat.leb_spec 1 (length (stack (vm w)))); [|lia].
    injection Hh as <-. lia.
  - (* Concatenate *)
    rewrite (bind_Ok _ _ _ _ _ (get_Ok _)) in Hstep. simpl in Hstep.
    destruct (Nat.ltb_spec (length (stack (vm w))) 2) as [|Hlen];
      [discriminate|].
    rewrite (bind_Ok _ _ _ _ _ (stackPop_Ok _)) in Hstep.
    rewrite (bind_Ok _ _ _ _ _ (stackPop_Ok _)) in Hstep.
    rewrite (bind_Ok _ _ _ _ _ (stackPush_Ok _ _)) in Hstep.
    unfold ret in Hstep. injection Hstep as <-. simpl.
    rewrite length_app, !arrayPop_length. simpl.
    destruct (Nat.leb_spec 2 (length (stack (vm w)))); [|lia].
    injection Hh as <-. lia.
  - (* ReadVariable *)
    apply bind_Ok_inv in Hstep as (id & w2 & H2 & Hstep).
    apply read32_Ok in H2. subst w2.
    rewrite (bind_Ok _ _ _ _ _ (get_Ok _)) in Hstep.
    rewrite (bind_Ok _ _ _ _ _ (stackPush_Ok _ _)) in Hstep.
    unfold ret in Hstep. injection Hstep as <-. injection Hh as <-. simpl.
    rewrite length_app. simpl. lia.
Qed.

(** *** The current character between [SetCharacter] instructions *)

(** A computation that leaves the current character and the bytecode view
    as they were whenever it returns. *)
Definition keeps {A} (m : M A) : Prop :=
  forall w a w', m w = Ok a w' ->
    character (vm w') = character (vm w) /\ view (vm w') = view (vm w).

Lemma keeps_bind {A B} (m : M A) (k : A -> M B) :
  keeps m -> (forall a, keeps (k a)) -> keeps (bind m k).
Proof.
  intros Hm Hk w b w' H. unfold bind in H.
  destruct (m w) as [a w1|e w1] eqn:E; [|discriminate].
  destruct (Hm _ _ _ E) as [Hc Hv]. destruct (Hk a _ _ _ H) as [Hc' Hv'].
  split; congruence.
Qed.

Lemma keeps_ret {A} (a : A) : keeps (ret a).
Proof. intros w a' w' [= _ <-]. done. Qed.

Lemma keeps_throw {A} (e : Error) : keeps (@throw A e).
Proof. intros w a' w' [=]. Qed.

Lemma keeps_get : keeps get.
Proof. intros w a' w' [= _ <-]. done. Qed.

Lemma keeps_modify (f : VMState -> VMState) :
  (forall st, character (f st) = character st /\ view (f st) = view st) ->
  keeps (modify f).
Proof. intros Hf w a' w' [= _ <-]. simpl. apply Hf. Qed.

Lemma keeps_setReg (i : Z) (n : jsnum) : keeps (setReg i n).
Proof. apply keeps_modify. done. Qed.

Lemma keeps_emit (e : Event) : keeps (emit e).
Proof. intros w a' w' [= _ <-]. done. Qed.

Lemma keeps_prompt (message : string) : keeps (prompt message).
Proof. intros w a' w'. unfold prompt. destruct (replies w); intros [= _ <-]; done. Qed.

Lemma keeps_liftRange {A} (o : option A) : keeps (liftRange o).
Proof. destruct o; [apply keeps_ret | apply keeps_throw]. Qed.

Ltac keeps_step :=
  first
    [ apply keeps_ret | apply keeps_throw | apply keeps_get | apply keeps_setReg
    | apply keeps_emit | apply keeps_prompt | apply keeps_liftRange
    | apply keeps_modify; done
    | apply keeps_bind; [|intros ?]
    | match goal with
      | |- keeps (if ?b then _ else _) => destruct b
      | |- keeps (match ?x with _ => _ end) => destruct x
      | |- keeps (let '(_, _) := ?x in _) => destruct x
      end ].

Lemma keeps_read32 : keeps read32.
Proof. unfold read32. repeat keeps_step. Qed.

Lemma keeps_read8 : keeps read8.
Proof. unfold read8. repeat keeps_step. Qed.

Lemma keeps_stackPush (value : string) : keeps (stackPush value).
Proof. unfold stackPush. repeat keeps_step. Qed.

Lemma keeps_stackPop : keeps stackPop.
Proof. unfold stackPop. repeat keeps_step. Qed.

Lemma keeps_readStr (offset : Z) : keeps (readStr decode offset).
Proof. unfold readStr. repeat keeps_step. Qed.

Lemma keeps_setStackLength (n : jsnum) : keeps (setStackLength n).
Proof. unfold setStackLength. repeat keeps_step. Qed.

Lemma keeps_pickLoop (rounds : nat) (i : Z) (oplen : jsnum)
    (opts : list (string * string)) :
  keeps (pickLoop rounds i oplen opts).
Proof.
  revert i opts. induction rounds as [|rounds IH]; intros i opts; simpl.
  - destruct (jsLess i oplen); apply keeps_ret.
  - destruct (jsLess i oplen); [|apply keeps_ret].
    apply keeps_bind; [apply keeps_stackPop|intros key].
    apply keeps_bind; [apply keeps_stackPop|intros value].
    destruct key, value; try apply keeps_throw.
    destruct (_ || _); [apply keeps_throw | apply IH].
Qed.

Ltac keeps_prim :=
  first
    [ apply keeps_read32 | apply keeps_read8 | apply keeps_stackPush
    | apply keeps_stackPop | apply keeps_readStr | apply keeps_setStackLength
    | apply keeps_pickLoop | keeps_step ].

(** Every instruction but [SetCharacter] keeps the current character. *)
Lemma execute_keeps (opcode : Z) :
  OPCODE_TO_IROp opcode <> Some SetCharacter ->
  keeps (execute decode evaluate opcode).
Proof.
  intros Hne. unfold execute.
  destruct (OPCODE_TO_IROp opcode) as [[]|]; try congruence;
    repeat keeps_prim.
Qed.

(** The machine moved from the first world to the second by whole
    instructions, none of them a [SetCharacter]; a [break] and a [return]
    of [run] both count, since the caller runs the machine again. *)
Inductive runsWithoutSetCharacter : World -> World -> Prop :=
| rws_refl w : runsWithoutSetCharacter w w
| rws_step w w1 w2 w3 op r :
    runsWithoutSetCharacter w w1 ->
    fetches w1 op w2 ->
    op <> SetCharacter ->
    step decode evaluate w1 = Ok r w3 ->
    runsWithoutSetCharacter w w3.

Lemma runsWithoutSetCharacter_keeps (w w' : World) :
  runsWithoutSetCharacter w w' ->
  character (vm w') = character (vm w) /\ view (vm w') = view (vm w).
Proof.
  induction 1 as [|w w1 w2 w3 op r _ [IHc IHv] (opcode & Hop & Htag) Hne Hstep];
    [done|].
  rewrite (step_execute _ _ _ Hop) in Hstep.
  apply execute_keeps in Hstep as [Hc Hv]; [|congruence].
  destruct (keeps_read32 _ _ _ Hop) as [Hc' Hv'].
  split; congruence.
Qed.

(** On any image with a zero byte: a [ShowDialogue] that runs before any
    [SetCharacter] finds the current character at its first value 0 and
    prints as speaker the bytes of the image from offset 0 up to the first
    zero byte, decoded. *)
Theorem ShowDialogue_before_SetCharacter (bc : list byte) (w0 w w1 w2 : World)
    (enclosed : Z) (rest : list (option string)) (text : option string)
    (bytes : list byte) :
  vm w0 = createVM bc ->
  runsWithoutSetCharacter w0 w ->
  fetches w ShowDialogue w1 ->
  read32 w1 = Ok enclosed w2 ->
  stack (vm w) = rest ++ [text] ->
  readStrBytes bc = Some bytes ->
  character (vm w) = 0 /\
  exists w3,
    step decode evaluate w = Ok (Some false) w3 /\
    console w3 = console w ++
      [ConsoleLog ("<< " +:+ decode bytes +:+ String "010"
                     (templateString text +:+ String "010" ""))] /\
    stack (vm w3) = rest.
Proof.
  intros H0 Hrun (opcode & Hop & Htag) Henc Hstack Hbytes.
  destruct (runsWithoutSetCharacter_keeps _ _ Hrun) as [Hc Hv].
  rewrite H0 in Hc, Hv. simpl in Hc, Hv. split; [exact Hc|].
  rewrite (step_execute _ _ _ Hop). unfold execute. rewrite Htag.
  erewrite bind_Ok by exact Henc.
  apply read32_Ok in Hop, Henc. subst w2 w1.
  rewrite (bind_Ok _ _ _ _ _ (get_Ok _)). cbn [vm set_reg stack character].
  rewrite Hstack, length_app. cbn [length].
  destruct (Nat.ltb_spec (length rest + 1) 1) as [?|_]; [lia|].
  rewrite Hc.
  erewrite bind_Ok; cycle 1.
  { unfold readStr. rewrite (bind_Ok _ _ _ _ _ (get_Ok _)).
    cbn [vm set_reg view]. rewrite Hv. change (drop (Z.to_nat 0) bc) with bc.
    simpl. rewrite Hbytes. reflexivity. }
  erewrite bind_Ok by (apply (stackPop_snoc _ rest text); exact Hstack).
  eexists. split; [reflexivity|]. simpl. done.
Qed.

(** *** Instructions, one at a time *)

(** The world with the program counter at [pc]. *)
Definition jumped (pc : Z) (w : World) : World :=
  mkWorld (set_reg (<[0 := Num pc]> (reg (vm w))) (vm w)) (replies w) (console w).

(** The world with one more line on the console. *)
Definition logged (e : Event) (w : World) : World :=
  mkWorld (vm w) (replies w) (console w ++ [e]).

Lemma getReg0_jumped pc w : getReg 0 (vm (jumped pc w)) = Num pc.
Proof. unfold getReg. simpl. by rewrite lookup_insert_eq. Qed.

Lemma getReg0_pushed v w : getReg 0 (vm (pushed v w)) = getReg 0 (vm w).
Proof. unfold getReg. simpl. by rewrite lookup_insert_ne. Qed.

Lemma getReg0_popped rest w : getReg 0 (vm (popped rest w)) = getReg 0 (vm w).
Proof. unfold getReg. simpl. by rewrite lookup_insert_ne. Qed.

Lemma read32_at (w : World) (pc v : Z) :
  getReg 0 (vm w) = Num pc -> 0 <= pc ->
  getUint32 (view (vm w)) pc = Some v ->
  read32 w = Ok v (jumped (pc + 4) w).
Proof.
  intros Hpc H0 Hv. unfold read32, bind, get, liftRange, setReg, modify, ret.
  rewrite Hpc. simpl. destruct (Z.ltb_spec pc 0); [lia|]. by rewrite Hv.
Qed.

Lemma step_at (w : World) (pc opcode : Z) :
  getReg 0 (vm w) = Num pc -> 0 <= pc ->
  getUint32 (view (vm w)) pc = Some opcode ->
  step decode evaluate w = execute decode evaluate opcode (jumped (pc + 4) w).
Proof. intros. apply step_execute. by apply read32_at. Qed.

Lemma step_Jump (w : World) (pc target : Z) :
  getReg 0 (vm w) = Num pc -> 0 <= pc ->
  getUint32 (view (vm w)) pc = Some (OPCODE_MAP Jump) ->
  getUint32 (view (vm w)) (pc + 4) = Some target ->
  step decode evaluate w
  = Ok None (jumped target (jumped (pc + 4 + 4) (jumped (pc + 4) w))).
Proof.
  intros Hpc H0 Hop Ht. rewrite (step_at w pc _ Hpc H0 Hop).
  unfold execute. cbn [OPCODE_TO_IROp]. change (OPCODE_TO_IROp _) with (Some Jump).
  cbv iota.
  erewrite bind_Ok
    by (apply (read32_at _ (pc + 4) target); [apply getReg0_jumped|lia|done]).
  reflexivity.
Qed.

Lemma step_ReadStr (w : World) (pc offset : Z) (bytes : list byte) :
  getReg 0 (vm w) = Num pc -> 0 <= pc ->
  getUint32 (view (vm w)) pc = Some (OPCODE_MAP ReadStr) ->
  getUint32 (view (vm w)) (pc + 4) = Some offset -> 0 <= offset ->
  readStrBytes (drop (Z.to_nat offset) (view (vm w))) = Some bytes ->
  step decode evaluate w
  = Ok None (pushed (decode bytes) (jumped (pc + 4 + 4) (jumped (pc + 4) w))).
Proof.
  intros Hpc H0 Hop Ho Hoff Hb. rewrite (step_at w pc _ Hpc H0 Hop).
  unfold execute. change (OPCODE_TO_IROp _) with (Some ReadStr). cbv iota.
  erewrite bind_Ok
    by (apply (read32_at _ (pc + 4) offset); [apply getReg0_jumped|lia|done]).
  erewrite bind_Ok; cycle 1.
  { unfold readStr. rewrite (bind_Ok _ _ _ _ _ (get_Ok _)).
    destruct (Z.ltb_spec offset 0); [lia|]. cbn [vm jumped set_reg view].
    rewrite Hb. reflexivity. }
  reflexivity.
Qed.

Lemma step_Concatenate (w : World) (pc : Z) (rest : list (option string))
    (a b : string) :
  getReg 0 (vm w) = Num pc -> 0 <= pc ->
  getUint32 (view (vm w)) pc = Some (OPCODE_MAP Concatenate) ->
  stack (vm w) = rest ++ [Some a; Some b] ->
  step decode evaluate w
  = Ok None (pushed (a +:+ b)
               (popped rest (popped (rest ++ [Some a]) (jumped (pc + 4) w)))).
Proof.
  intros Hpc H0 Hop Hs. rewrite (step_at w pc _ Hpc H0 Hop).
  unfold execute. change (OPCODE_TO_IROp _) with (Some Concatenate). cbv iota.
  rewrite (bind_Ok _ _ _ _ _ (get_Ok _)). cbn [vm jumped set_reg stack].
  rewrite Hs, length_app. cbn [length].
  destruct (Nat.ltb_spec (length rest + 2) 2) as [?|_]; [lia|].
  erewrite bind_Ok by (apply (stackPop_snoc _ (rest ++ [Some a]) (Some b));
    simpl; rewrite Hs, <- app_assoc; reflexivity).
  erewrite bind_Ok by (apply (stackPop_snoc _ rest (Some a)); reflexivity).
  reflexivity.
Qed.

Lemma step_ShowDialogue (w : World) (pc enclosed : Z)
    (rest : list (option string)) (text : option string) (bytes : list byte) :
  getReg 0 (vm w) = Num pc -> 0 <= pc ->
  getUint32 (view (vm w)) pc = Some (OPCODE_MAP ShowDialogue) ->
  getUint32 (view (vm w)) (pc + 4) = Some enclosed ->
  stack (vm w) = rest ++ [text] ->
  0 <= character (vm w) ->
  readStrBytes (drop (Z.to_nat (character (vm w))) (view (vm w))) = Some bytes ->
  step decode evaluate w
  = Ok (Some false)
      (logged (ConsoleLog ("<< " +:+ decode bytes +:+ String "010"
                             (templateString text +:+ String "010" "")))
         (popped rest (jumped (pc + 4 + 4) (jumped (pc + 4) w)))).
Proof.
  intros Hpc H0 Hop He Hs Hc Hb. rewrite (step_at w pc _ Hpc H0 Hop).
  unfold execute. change (OPCODE_TO_IROp _) with (Some ShowDialogue). cbv iota.
  erewrite bind_Ok
    by (apply (read32_at _ (pc + 4) enclosed); [apply getReg0_jumped|lia|done]).
  rewrite (bind_Ok _ _ _ _ _ (get_Ok _)). cbn [vm jumped set_reg stack character].
  rewrite Hs, length_app. cbn [length].
  destruct (Nat.ltb_spec (length rest + 1) 1) as [?|_]; [lia|].
  erewrite bind_Ok; cycle 1.
  { unfold readStr. rewrite (bind_Ok _ _ _ _ _ (get_Ok _)).
    destruct (Z.ltb_spec (character (vm w)) 0); [lia|].
    cbn [vm jumped set_reg view]. rewrite Hb. reflexivity. }
  erewrite bind_Ok by (apply (stackPop_snoc _ rest text); exact Hs).
  reflexivity.
Qed.

(** *** Falsy values taken for an empty stack *)

(** A machine stopped in front of one instruction: the image is the
    instruction alone, the program counter is at 0, register 3 holds
    [r0]. *)
Definition machineAt (image : list byte) (values : list (option string))
    (r0 : Z) (input : list (option string)) : World :=
  mkWorld
    (mkVMState values
       (list_to_map [(0, Num 0); (1, Num (Z.of_nat (length values)));
                     (2, Num 0); (3, Num r0); (4, Num 0)])
       0 ∅ ∅ 0 image)
    input [].

Definition thrown {A} (o : Outcome A) : option Error :=
  match o with Throw e _ => Some e | Ok _ _ => None end.

Definition stackAfter {A} (o : Outcome A) : option (list (option string)) :=
  match o with Ok _ w => Some (stack (vm w)) | Throw _ _ => None end.

(** C4: with the empty string alone on the stack, [SetVariable], [Prompt]
    and [EvaluateScript] raise the stack underflow error although the stack
    is not empty, where [Concatenate] and [ShowDialogue] compare the length
    of the stack. *)
Theorem empty_string_raises_StackUnderflow :
  thrown (step decode evaluate
            (machineAt (bytes32 (OPCODE_MAP SetVariable) ++ bytes32 0) [Some ""] 0 []))
    = Some StackUnderflow /\
  thrown (step decode evaluate
            (machineAt (bytes32 (OPCODE_MAP Prompt)) [Some ""] 0 [Some "reply"]))
    = Some StackUnderflow /\
  thrown (step decode evaluate
            (machineAt (bytes32 (OPCODE_MAP EvaluateScript)) [Some ""] 0 []))
    = Some StackUnderflow.
Proof. repeat split; vm_compute; reflexivity. Qed.

End Steps.

(** *** The rounds of the loop of [PickOption] *)

(** The loop of [PickOption] makes no more rounds than [pickRounds] gives
    it: more rounds change nothing. *)
Lemma pickLoop_enough (rounds extra : nat) (i : Z) (oplen : jsnum)
    (opts : list (string * string)) (w : World) :
  match oplen with Num z => z <= i + 2 * Z.of_nat rounds | _ => True end ->
  pickLoop (rounds + extra) i oplen opts w = pickLoop rounds i oplen opts w.
Proof.
  revert i opts w. induction rounds as [|rounds IH]; intros i opts w Hz.
  - assert (jsLess i oplen = false) as Hless.
    { destruct oplen as [z| |]; [|done..]. apply Z.ltb_ge. lia. }
    destruct extra; simpl; by rewrite Hless.
  - simpl. destruct (jsLess i oplen); [|done]. unfold bind.
    destruct (stackPop w) as [key w1|]; [|done].
    destruct (stackPop w1) as [value w2|]; [|done].
    destruct key, value; try done.
    destruct (falsy _ || falsy _); [done|].
    apply IH. destruct oplen; [lia|done..].
Qed.

Lemma pickRounds_enough (extra : nat) (oplen : jsnum)
    (opts : list (string * string)) (w : World) :
  pickLoop (pickRounds oplen + extra) 0 oplen opts w
  = pickLoop (pickRounds oplen) 0 oplen opts w.
Proof.
  apply pickLoop_enough. destruct oplen as [z| |]; [|done..].
  unfold pickRounds. lia.
Qed.

(** *** Concrete machines *)

Definition worldOf {A} (o : Outcome A) : World :=
  match o with Ok _ w => w | Throw _ w => w end.

Definition noScript (script : string) (getVariable : string -> string) :
  option string := None.

(** A machine in front of [ReadVariable 7], with variable 1 assigned. *)
Definition readsSeven : World :=
  mkWorld
    (mkVMState [Some "below"]
       (list_to_map [(0, Num 0); (1, Num 1); (2, Num 0); (3, Num 0);
                     (4, Num 0)])
       0 ∅ {[1 := "set"]} 0 (Compiler.operandOp ReadVariable [7]))
    [] [].

Lemma ReadVariable_unset_pushes_empty_witness :
  exists w3,
    step Utf8.decode noScript readsSeven = Ok None w3 /\
    stack (vm w3) = [Some "below"; Some ""] /\
    variableValues (vm w3) = {[1 := "set"]} /\
    console w3 = [].
Proof.
  apply (ReadVariable_unset_pushes_empty Utf8.decode noScript readsSeven
           (worldOf (read32 readsSeven))
           (worldOf (read32 (worldOf (read32 readsSeven)))) 7).
  - exists 5. split; vm_compute; reflexivity.
  - vm_compute. reflexivity.
  - vm_compute. reflexivity.
Defined.

(** The image of the one line of dialogue [Hi] without a speaker: the jump
    over the symbol table, the string, and the code. *)
Definition sayHi : list byte :=
  Compiler.operandOp Jump [11] ++ Utf8.encode "Hi" ++ [x00]
    ++ Compiler.operandOp ReadStr [8] ++ Compiler.operandOp ShowDialogue [0]
    ++ Compiler.operandOp EndOfScript [].

Definition sayHi0 : World := mkWorld (createVM sayHi) [] [].
Definition sayHi1 : World := worldOf (step Utf8.decode noScript sayHi0).
Definition sayHi2 : World := worldOf (step Utf8.decode noScript sayHi1).

Lemma ShowDialogue_before_SetCharacter_witness :
  character (vm sayHi2) = 0 /\
  exists w3,
    step Utf8.decode noScript sayHi2 = Ok (Some false) w3 /\
    console w3 = console sayHi2 ++
      [ConsoleLog ("<< " +:+ Utf8.decode [x07] +:+ String "010"
                     ("Hi" +:+ String "010" ""))] /\
    stack (vm w3) = [].
Proof.
  apply (ShowDialogue_before_SetCharacter Utf8.decode noScript sayHi
           sayHi0 sayHi2 (worldOf (read32 sayHi2))
           (worldOf (read32 (worldOf (read32 sayHi2)))) 0 [] (Some "Hi")
           [x07]).
  - reflexivity.
  - apply (rws_step _ _ sayHi0 sayHi1 (worldOf (read32 sayHi1)) sayHi2
             ReadStr None).
    + apply (rws_step _ _ sayHi0 sayHi0 (worldOf (read32 sayHi0)) sayHi1
               Jump None).
      * apply rws_refl.
      * exists 7. split; vm_compute; reflexivity.
      * discriminate.
      * vm_compute. reflexivity.
    + exists 0. split; vm_compute; reflexivity.
    + discriminate.
    + vm_compute. reflexivity.
  - exists 2. split; vm_compute; reflexivity.
  - vm_compute. reflexivity.
  - vm_compute. reflexivity.
  - vm_compute. reflexivity.
Defined.

End VMProps.

(** ** From the syntax tree to the console *)

Module EndToEnd.
Import AST Compiler VM VMProps DataViewProps.

Lemma length_operand0 (op : IROpType) : length (operandOp op []) = 4%nat.
Proof. reflexivity. Qed.

Lemma length_operand1 (op : IROpType) (x : Z) :
  length (operandOp op [x]) = 8%nat.
Proof. reflexivity. Qed.

Lemma OPCODE_MAP_small (op : IROpType) :
  OPCODE_MAP op mod 4294967296 = OPCODE_MAP op.
Proof. by destruct op. Qed.

Lemma getUint32_opcode (op : IROpType) (operands : list Z) (rest : list byte)
    (offset : Z) :
  offset = 0 ->
  getUint32 (operandOp op operands ++ rest) offset = Some (OPCODE_MAP op).
Proof.
  intros ->. unfold operandOp. rewrite <- app_assoc, getUint32_head.
  by rewrite OPCODE_MAP_small.
Qed.

Lemma getUint32_operand (op : IROpType) (x : Z) (rest : list byte) (offset : Z) :
  offset = 4 -> 0 <= x < 4294967296 ->
  getUint32 (operandOp op [x] ++ rest) offset = Some x.
Proof.
  intros -> Hx.
  change (operandOp op [x]) with (bytes32 (OPCODE_MAP op) ++ bytes32 x ++ []).
  rewrite <- !app_assoc, getUint32_skip by (rewrite length_bytes32; lia).
  rewrite length_bytes32. change (4 - Z.of_nat 4) with 0.
  rewrite getUint32_head. f_equal. apply Z.mod_small. lia.
Qed.

Lemma setUint32_operand (op : IROpType) (x v : Z) (rest : list byte)
    (offset : Z) :
  offset = 4 ->
  setUint32 (operandOp op [x] ++ rest) offset v
  = Some (operandOp op [v] ++ rest).
Proof.
  intros ->.
  change (operandOp op [x]) with (bytes32 (OPCODE_MAP op) ++ bytes32 x ++ []).
  change (operandOp op [v]) with (bytes32 (OPCODE_MAP op) ++ bytes32 v ++ []).
  rewrite <- !app_assoc.
  apply setUint32_skip; [rewrite length_bytes32; lia|].
  rewrite length_bytes32. change (4 - Z.of_nat 4) with 0.
  apply setUint32_head.
Qed.

Lemma readStrBytes_nulFree (bytes rest : list byte) :
  nulFree bytes -> readStrBytes (bytes ++ x00 :: rest) = Some bytes.
Proof.
  induction 1 as [|b bytes Hb _ IH]; simpl; [reflexivity|].
  destruct (Z.eqb_spec (byteZ b) 0); [done|]. by rewrite IH.
Qed.

(** The image of a script that shows the text of two literals: the jump
    over the symbol table, the table, and the code. *)
Definition image (table : list byte) (offsetA offsetB : Z) : list byte :=
  operandOp Jump [8 + Z.of_nat (length table)] ++ table
  ++ operandOp ReadStr [offsetA] ++ operandOp ReadStr [offsetB]
  ++ operandOp Concatenate [] ++ operandOp ShowDialogue [0]
  ++ operandOp EndOfScript [].

Ltac block_lengths :=
  repeat (rewrite ?length_app, ?length_operand1, ?length_operand0;
          cbn [length app]);
  rewrite ?length_app, ?length_operand1, ?length_operand0; lia.

Ltac skip_blocks :=
  repeat (rewrite getUint32_skip by block_lengths);
  rewrite ?length_operand1, ?length_operand0.

Section RunImage.
Variable decode : list byte -> string.
Variable evaluate : string -> (string -> string) -> option string.
Variables (table bytesA bytesB : list byte) (offsetA offsetB : Z).
Variable input : list (option string).

Hypothesis Hsize : Z.of_nat (length table) + 8 < 4294967296.
Hypothesis HoffsetA : 0 <= offsetA < 4294967296.
Hypothesis HoffsetB : 0 <= offsetB < 4294967296.
Hypothesis HbytesA :
  readStrBytes (drop (Z.to_nat offsetA) (image table offsetA offsetB))
  = Some bytesA.
Hypothesis HbytesB :
  readStrBytes (drop (Z.to_nat offsetB) (image table offsetA offsetB))
  = Some bytesB.

Let F := image table offsetA offsetB.
Let code := 8 + Z.of_nat (length table).

Lemma image_Jump :
  getUint32 F 0 = Some (OPCODE_MAP Jump) /\ getUint32 F (0 + 4) = Some code.
Proof.
  unfold F, image. split.
  - by apply getUint32_opcode.
  - apply getUint32_operand; [done|]. unfold code. lia.
Qed.

Lemma image_ReadStrA :
  getUint32 F code = Some (OPCODE_MAP ReadStr)
  /\ getUint32 F (code + 4) = Some offsetA.
Proof.
  unfold F, image, code. split; skip_blocks.
  - apply getUint32_opcode. lia.
  - apply getUint32_operand; [lia|done].
Qed.

Lemma image_ReadStrB :
  getUint32 F (code + 4 + 4) = Some (OPCODE_MAP ReadStr)
  /\ getUint32 F (code + 4 + 4 + 4) = Some offsetB.
Proof.
  unfold F, image, code. split; skip_blocks.
  - apply getUint32_opcode. lia.
  - apply getUint32_operand; [lia|done].
Qed.

Lemma image_Concatenate :
  getUint32 F (code + 4 + 4 + 4 + 4) = Some (OPCODE_MAP Concatenate).
Proof.
  unfold F, image, code. skip_blocks. apply getUint32_opcode. lia.
Qed.

Lemma image_ShowDialogue :
  getUint32 F (code + 4 + 4 + 4 + 4 + 4) = Some (OPCODE_MAP ShowDialogue)
  /\ getUint32 F (code + 4 + 4 + 4 + 4 + 4 + 4) = Some 0.
Proof.
  unfold F, image, code. split; skip_blocks.
  - apply getUint32_opcode. lia.
  - apply getUint32_operand; [lia|done].
Qed.

Lemma image_speaker : readStrBytes (drop (Z.to_nat 0) F) = Some [x07].
Proof. reflexivity. Qed.

(** The machine on the image: five instructions, and the console shows the
    two strings read from the table, the first one first. *)
Lemma run_image :
  exists w,
    run decode evaluate 5 (mkWorld (createVM F) input []) = Some (Ok false w)
    /\ console w
       = [ConsoleLog ("<< " +:+ decode [x07] +:+ String "010"
                        ((decode bytesA +:+ decode bytesB) +:+ String "010" ""))].
Proof.
  destruct image_Jump as [J0 J4]. destruct image_ReadStrA as [A0 A4].
  destruct image_ReadStrB as [B0 B4]. pose proof image_Concatenate as C0.
  destruct image_ShowDialogue as [S0 S4].
  assert (0 <= code) as Hcode by (unfold code; lia).
  set (w0 := mkWorld (createVM F) input []).
  cbn [run].
  rewrite (step_Jump decode evaluate w0 0 code eq_refl ltac:(lia) J0 J4).
  set (w1 := jumped code _).
  rewrite (step_ReadStr decode evaluate w1 code offsetA bytesA
             (getReg0_jumped _ _) Hcode A0 A4 (proj1 HoffsetA) HbytesA).
  set (w2 := pushed (decode bytesA) _).
  rewrite (step_ReadStr decode evaluate w2 (code + 4 + 4) offsetB bytesB);
    [|unfold w2; rewrite getReg0_pushed; apply getReg0_jumped
     |lia|exact B0|exact B4|apply HoffsetB|exact HbytesB].
  set (w3 := pushed (decode bytesB) _).
  rewrite (step_Concatenate decode evaluate w3 (code + 4 + 4 + 4 + 4) []
             (decode bytesA) (decode bytesB));
    [|unfold w3; rewrite getReg0_pushed; apply getReg0_jumped
     |lia|exact C0|reflexivity].
  set (w4 := pushed (decode bytesA +:+ decode bytesB) _).
  rewrite (step_ShowDialogue decode evaluate w4 (code + 4 + 4 + 4 + 4 + 4) 0 []
             (Some (decode bytesA +:+ decode bytesB)) [x07]);
    [|unfold w4; rewrite getReg0_pushed, !getReg0_popped; apply getReg0_jumped
     |lia|exact S0|exact S4|reflexivity|done|exact image_speaker].
  eexists. split; reflexivity.
Qed.

End RunImage.

Section CompileImage.
Variable encode : string -> list byte.

(** The second pass on an encoder that holds the image before its
    substitutions. *)
Lemma resolve_image (e : Encoder) (table rest : list byte)
    (idA idB offsetA offsetB : Z) :
  let code := 8 + Z.of_nat (length table) in
  bytecode e = operandOp Jump [0] ++ table ++ operandOp ReadStr [idA]
                 ++ operandOp ReadStr [idB] ++ rest ->
  labelSubstitutions e = [(0, 4)] ->
  stringSubstitutions e = [(idA, code + 4); (idB, code + 4 + 4 + 4)] ->
  variableSubstitutions e = [] ->
  characterSubstitutions e = [] ->
  labels e !! 0 = Some code ->
  stringLabels e !! idA = Some offsetA ->
  stringLabels e !! idB = Some offsetB ->
  resolve e
  = Encoded (operandOp Jump [code] ++ table ++ operandOp ReadStr [offsetA]
               ++ operandOp ReadStr [offsetB] ++ rest).
Proof.
  intros code Hb Hl Hs Hv Hc Hcode HA HB. unfold resolve.
  rewrite Hb, Hl, Hs, Hv, Hc. cbn [substitute]. rewrite Hcode.
  rewrite setUint32_operand by done. cbn [andThen]. rewrite HA.
  assert (setUint32
            (operandOp Jump [code] ++ table ++ operandOp ReadStr [idA]
               ++ operandOp ReadStr [idB] ++ rest) (code + 4) offsetA
          = Some (operandOp Jump [code] ++ table ++ operandOp ReadStr [offsetA]
                    ++ operandOp ReadStr [idB] ++ rest)) as ->.
  { apply setUint32_skip; [block_lengths|].
    apply setUint32_skip; [block_lengths|].
    apply setUint32_operand. unfold code. block_lengths. }
  rewrite HB.
  assert (setUint32
            (operandOp Jump [code] ++ table ++ operandOp ReadStr [offsetA]
               ++ operandOp ReadStr [idB] ++ rest) (code + 4 + 4 + 4) offsetB
          = Some (operandOp Jump [code] ++ table ++ operandOp ReadStr [offsetA]
                    ++ operandOp ReadStr [offsetB] ++ rest)) as ->.
  { apply setUint32_skip; [block_lengths|].
    apply setUint32_skip; [block_lengths|].
    apply setUint32_skip; [block_lengths|].
    apply setUint32_operand. unfold code. block_lengths. }
  reflexivity.
Qed.

(** The document with one line of dialogue, the text of two literals. *)
Definition twoLiterals (A B : string) : DocumentNode :=
  Document [Dialogue None (mkTextNode [String_ A; String_ B] None)].

Definition textOfTwo (idB : Z) : list IR :=
  [LabelIR 0; ReadStrOp 0; ReadStrOp idB; ConcatenateOp; ShowDialogueOp None;
   EndOfScriptOp].

Lemma compileIR_twoLiterals (A B : string) :
  compileIR (twoLiterals A B) createCompiler
  = if decide (A = B)
    then (textOfTwo 0, mkCompilerState 0 [] 1 [(A, 0)] 0 [])
    else (textOfTwo 1, mkCompilerState 0 [] 2 [(A, 0); (B, 1)] 0 []).
Proof.
  cbn. unfold getStringId. cbn. by destruct (decide (A = B)).
Qed.

Ltac layout_fields :=
  lazy [layout foldl sortById variables strings characters foldr fst snd
        encodeOp pushBytecode pushLabelSubstitution pushStringSubstitution
        setLabel setStringLabel emptyEncoder current bytecode
        labelSubstitutions stringSubstitutions variableSubstitutions
        characterSubstitutions labels stringLabels variableLabels
        characterLabels stringData textOfTwo].

Lemma compile_same (A : string) :
  compileBytecode encode (textOfTwo 0) (mkCompilerState 0 [] 1 [(A, 0)] 0 [])
  = Encoded (image (encode A ++ [x00]) 8 8).
Proof.
  unfold compileBytecode, image.
  apply (resolve_image _ (encode A ++ [x00]) _ 0 0 8 8); layout_fields.
  - rewrite <- !app_assoc. reflexivity.
  - reflexivity.
  - cbn [app]. repeat (apply (f_equal2 cons) || apply (f_equal2 pair));
      try reflexivity; block_lengths.
  - reflexivity.
  - reflexivity.
  - rewrite lookup_insert_eq. f_equal. block_lengths.
  - rewrite lookup_insert_eq. f_equal.
  - rewrite lookup_insert_eq. f_equal.
Qed.

Lemma compile_distinct (A B : string) :
  compileBytecode encode (textOfTwo 1)
    (mkCompilerState 0 [] 2 [(A, 0); (B, 1)] 0 [])
  = Encoded (image (encode A ++ [x00] ++ encode B ++ [x00]) 8
               (9 + Z.of_nat (length (encode A)))).
Proof.
  unfold compileBytecode, image.
  apply (resolve_image _ (encode A ++ [x00] ++ encode B ++ [x00]) _ 0 1 8
           (9 + Z.of_nat (length (encode A)))); layout_fields.
  - rewrite <- !app_assoc. reflexivity.
  - reflexivity.
  - cbn [app]. repeat (apply (f_equal2 cons) || apply (f_equal2 pair));
      try reflexivity; block_lengths.
  - reflexivity.
  - reflexivity.
  - rewrite lookup_insert_eq. f_equal. block_lengths.
  - rewrite lookup_insert_ne, lookup_insert_eq by done. f_equal.
  - rewrite lookup_insert_eq. f_equal. block_lengths.
Qed.

End CompileImage.

(** A string of the symbol table, read back from its offset. *)
Lemma readStrBytes_table (op : IROpType) (x offset : Z)
    (pre bytes post rest : list byte) :
  nulFree bytes ->
  offset = 8 + Z.of_nat (length pre) ->
  readStrBytes
    (drop (Z.to_nat offset)
       (operandOp op [x] ++ (pre ++ bytes ++ [x00] ++ post) ++ rest))
  = Some bytes.
Proof.
  intros Hnul ->. rewrite drop_skip by block_lengths.
  rewrite <- !app_assoc. rewrite drop_skip by block_lengths.
  rewrite length_operand1.
  replace (Z.to_nat _) with 0%nat by lia.
  apply readStrBytes_nulFree, Hnul.
Qed.

(** C7: [Concatenate] pops [b], then [a], and pushes [a] followed by [b];
    and a line of dialogue whose text is the two literals [A] and [B],
    compiled and run, shows [A] followed by [B].  The codec restores both
    literals, neither holds a zero byte, which ends a string of the image,
    and the image is within the range of a 32-bit offset. *)
Theorem Concatenate_left_to_right
    (decode : list byte -> string)
    (evaluate : string -> (string -> string) -> option string)
    (encode : string -> list byte) (A B : string)
    (input : list (option string)) :
  decode (encode A) = A ->
  decode (encode B) = B ->
  nulFree (encode A) ->
  nulFree (encode B) ->
  Z.of_nat (length (encode A) + length (encode B)) + 10 < 4294967296 ->
  (forall (w w1 : World) (rest : list (option string)) (a b : string),
     VMProps.fetches w Concatenate w1 ->
     stack (vm w) = rest ++ [Some a; Some b] ->
     exists w2,
       step decode evaluate w = Ok None w2 /\
       stack (vm w2) = rest ++ [Some (a +:+ b)] /\
       console w2 = console w)
  /\
  exists (ir : list IR) (state : CompilerState) (bc : list byte) (w : World),
    compileIR (twoLiterals A B) createCompiler = (ir, state) /\
    In ConcatenateOp ir /\
    compileBytecode encode ir state = Encoded bc /\
    run decode evaluate 5 (mkWorld (createVM bc) input [])
      = Some (Ok false w) /\
    console w
    = [ConsoleLog ("<< " +:+ decode [x07] +:+ String "010"
                     ((A +:+ B) +:+ String "010" ""))].
Proof.
  intros HA HB HnulA HnulB Hsize. split.
  { intros w w1 rest a b. apply VMProps.Concatenate_step. }
  rewrite compileIR_twoLiterals. destruct (decide (A = B)) as [->|Hne].
  - destruct (run_image decode evaluate (encode B ++ [x00]) (encode B)
                (encode B) 8 8 input) as (w & Hrun & Hlog).
    + block_lengths.
    + lia.
    + lia.
    + apply (readStrBytes_table _ _ _ [] _ []); [done|reflexivity].
    + apply (readStrBytes_table _ _ _ [] _ []); [done|reflexivity].
    + eexists _, _, _, w. split; [reflexivity|].
      split; [cbn; tauto|]. split; [apply compile_same|].
      split; [exact Hrun|]. rewrite Hlog, HB. reflexivity.
  - set (table := encode A ++ [x00] ++ encode B ++ [x00]).
    destruct (run_image decode evaluate table (encode A) (encode B) 8
                (9 + Z.of_nat (length (encode A))) input)
      as (w & Hrun & Hlog).
    + unfold table. block_lengths.
    + lia.
    + lia.
    + apply (readStrBytes_table _ _ _ [] _ (encode B ++ [x00]));
        [done|reflexivity].
    + unfold image, table.
      replace (encode A ++ [x00] ++ encode B ++ [x00])
        with ((encode A ++ [x00]) ++ encode B ++ [x00] ++ [])
        by (rewrite <- !app_assoc; reflexivity).
      apply readStrBytes_table; [done|block_lengths].
    + eexists _, _, _, w. split; [reflexivity|].
      split; [cbn; tauto|]. split; [apply compile_distinct|].
      split; [exact Hrun|]. rewrite Hlog, HA, HB. reflexivity.
Qed.

(** The literals [A] and [B] under the codec of [Utf8]. *)
Lemma Concatenate_left_to_right_witness :
  exists (bc : list byte) (w : World),
    compileBytecode Utf8.encode
      (fst (compileIR (twoLiterals "A" "B") createCompiler))
      (snd (compileIR (twoLiterals "A" "B") createCompiler)) = Encoded bc /\
    run Utf8.decode (fun _ _ => None) 5 (mkWorld (createVM bc) [] [])
      = Some (Ok false w) /\
    console w
    = [ConsoleLog ("<< " +:+ Utf8.decode [x07] +:+ String "010"
                     (("A" +:+ "B") +:+ String "010" ""))].
Proof.
  destruct (Concatenate_left_to_right Utf8.decode (fun _ _ => None)
              Utf8.encode "A" "B" [])
    as [_ (ir & state & bc & w & Hir & _ & Hbc & Hrun & Hlog)].
  - reflexivity.
  - reflexivity.
  - repeat constructor; discriminate.
  - repeat constructor; discriminate.
  - vm_compute. reflexivity.
  - exists bc, w. rewrite Hir. cbn [fst snd]. auto.
Defined.

End EndToEnd.

Module LexerTokens.
Import Lexer LexerProps.

(** *** The text of the tokens *)

(** The characters of the input that a token stands for. *)
Definition lexeme (token : Token) : string :=
  match token with
  | Word text _ | Whitespace text _ => text
  | NewLine _ => String newline ""
  | EnclosedTextIndicator c _ | SpecialCharacter c _ => String c ""
  | ScriptEnd _ => ""
  | Variable_ name _ => String "$" name
  end.

(** The input from the index [n] on. *)
Fixpoint dropS (n : nat) (s : string) : string :=
  match n, s with
  | O, _ => s
  | S n', String _ s' => dropS n' s'
  | S _, EmptyString => EmptyString
  end.

Fixpoint allS (test : ascii -> bool) (s : string) : bool :=
  match s with
  | EmptyString => true
  | String c s' => test c && allS test s'
  end.

Lemma append_cons (x : ascii) (a b : string) :
  String x a +:+ b = String x (a +:+ b).
Proof. reflexivity. Qed.

Lemma append_assoc (a b c : string) : (a +:+ b) +:+ c = a +:+ (b +:+ c).
Proof.
  induction a as [|x a IH]; [done|]. rewrite !append_cons. by f_equal.
Qed.

Lemma append_nil_r (a : string) : a +:+ "" = a.
Proof. induction a as [|x a IH]; [done|]. rewrite append_cons. by f_equal. Qed.

Lemma length_append (a b : string) :
  String.length (a +:+ b) = (String.length a + String.length b)%nat.
Proof.
  induction a as [|x a IH]; [done|]. rewrite append_cons. simpl. by f_equal.
Qed.

Lemma allS_append (test : ascii -> bool) (a b : string) :
  allS test (a +:+ b) = allS test a && allS test b.
Proof.
  induction a as [|x a IH]; [done|]. rewrite append_cons. simpl.
  rewrite <- andb_assoc. by f_equal.
Qed.

Lemma dropS_get (s : string) (i : nat) (c : ascii) :
  String.get i s = Some c -> dropS i s = String c (dropS (S i) s).
Proof.
  revert i. induction s as [|x s IH]; intros [|i]; simpl; try done.
  - by intros [= ->].
  - intros H. rewrite (IH i H). by destruct s.
Qed.

Lemma dropS_end (s : string) (i : nat) :
  (String.length s <= i)%nat -> dropS i s = "".
Proof.
  revert i. induction s as [|x s IH]; intros [|i]; simpl; try done; [lia|].
  intros H. apply IH. lia.
Qed.

(** The cursor the source has at the index [n] of the input: the line
    is one more than the line feeds in front of it, the column starts at 1
    on the first line and at 0 after a line feed. *)
Fixpoint newlinesBefore (n : nat) (s : string) : nat :=
  match n with
  | O => O
  | S n' =>
      (newlinesBefore n' s
       + if bool_decide (String.get n' s = Some newline) then 1 else 0)%nat
  end.

Fixpoint columnAt (n : nat) (s : string) : nat :=
  match n with
  | O => 1%nat
  | S n' =>
      if bool_decide (String.get n' s = Some newline) then O
      else S (columnAt n' s)
  end.

Definition cursorAt (n : nat) (s : string) : ScriptCursor :=
  mkCursor (1 + newlinesBefore n s) (columnAt n s) n.

Definition placed (s : string) (cursor : ScriptCursor) : Prop :=
  cursor = cursorAt (index cursor) s.

Lemma advanceCursor_placed lexer below top :
  onTop lexer below top ->
  exists lexer' top', advanceCursor lexer = Some lexer'
    /\ input lexer' = input lexer
    /\ onTop lexer' below top'
    /\ index top' = S (index top)
    /\ (placed (input lexer) top -> placed (input lexer) top').
Proof.
  intros H. unfold advanceCursor.
  rewrite (currentCursor_onTop _ _ _ H), (currentChar_onTop _ _ _ H). simpl.
  eexists _, _. split; [reflexivity|]. split; [reflexivity|].
  split; [|split].
  - unfold onTop in *. simpl. rewrite H, removelast_last. reflexivity.
  - by destruct (bool_decide _).
  - unfold placed, cursorAt. intros Hp.
    destruct (bool_decide _) eqn:E; simpl; rewrite E;
      rewrite Hp at 1; simpl; f_equal; try lia.
    rewrite Hp at 1. simpl. lia.
Qed.

(** The loop of a token: it adds a run of characters that pass the test to
    the text, the run is what the input holds from the cursor on, the
    cursor moves past it, and with rounds for what is left of the input the
    run ends at the end of the input or in front of a character that fails
    the test. *)
Lemma readWhile_run (test : ascii -> bool) (rounds : nat) (text : string)
    (lexer : LexerState) (below : list ScriptCursor) (top : ScriptCursor) :
  onTop lexer below top ->
  exists run top',
    readWhile test rounds text lexer
    = Some (text +:+ run, mkLexer (input lexer) (below ++ [top']))
    /\ index top' = (index top + String.length run)%nat
    /\ dropS (index top) (input lexer)
       = run +:+ dropS (index top') (input lexer)
    /\ allS test run = true
    /\ ((String.length (input lexer) - index top <= rounds)%nat ->
        match String.get (index top') (input lexer) with
        | Some c => test c = false
        | None => True
        end)
    /\ (placed (input lexer) top -> placed (input lexer) top').
Proof.
  revert text lexer top. induction rounds as [|rounds IH];
    intros text lexer top H.
  - exists "", top. simpl.
    rewrite (isEOF_onTop _ _ _ H), (currentChar_onTop _ _ _ H). simpl.
    rewrite append_nil_r. destruct lexer as [input stack].
    unfold onTop in H. simpl in *. subst stack.
    split; [done|]. split; [lia|].
    split; [done|]. split; [done|]. split; [|done]. intros Hr.
    destruct (String.get (index top) input) eqn:E; [|done].
    assert (index top < String.length input)%nat; [|lia].
    destruct (Nat.lt_ge_cases (index top) (String.length input)) as [?|Hge];
      [done|]. apply get_None_length in Hge. congruence.
  - cbn [readWhile].
    rewrite (isEOF_onTop _ _ _ H), (currentChar_onTop _ _ _ H).
    cbn [mbind option_bind].
    assert (forall c, String.get (index top) (input lexer) = Some c ->
              (String.length (input lexer) <=? index top)%nat = false) as Hin.
    { intros c Hc. apply Nat.leb_gt.
      destruct (Nat.lt_ge_cases (index top) (String.length (input lexer)))
        as [?|Hge]; [done|]. apply get_None_length in Hge. congruence. }
    assert (exists run top',
              Some (text, lexer)
              = Some (text +:+ run, mkLexer (input lexer) (below ++ [top']))
              /\ run = "" /\ top' = top) as (run0 & top0 & Hstop & -> & ->).
    { exists "", top. rewrite append_nil_r. destruct lexer as [input stack].
      unfold onTop in H. simpl in *. by subst stack. }
    destruct (String.get (index top) (input lexer)) as [c|] eqn:Ec; cycle 1.
    { exists "", top. rewrite Ec. split; [done|]. split; [simpl; lia|]. done. }
    rewrite (Hin c eq_refl). cbn [negb andb].
    destruct (test c) eqn:Et; cycle 1.
    { exists "", top. rewrite Ec. split; [done|]. split; [simpl; lia|]. done. }
    destruct (advanceCursor_placed _ _ _ H)
      as (lexer1 & top1 & -> & Hi1 & H1 & Hidx1 & Hp1).
    cbn [mbind option_bind].
    destruct (IH (text +:+ String c "") lexer1 top1 H1)
      as (run & top' & -> & Hidx & Hdrop & Hall & Hend & Hp).
    exists (String c run), top'. rewrite Hi1 in *.
    split; [by rewrite append_assoc|].
    split; [simpl; lia|]. split.
    { rewrite (dropS_get _ _ _ Ec), append_cons. f_equal.
      rewrite <- Hidx1. exact Hdrop. }
    split; [simpl; by rewrite Et|]. split; [|tauto].
    intros Hr. apply Hend. lia.
Qed.

(** What the source lets into a token of each type. *)
Definition wellFormed (token : Token) : bool :=
  match token with
  | Word text _ => allS (fun c => negb (has TEXT_TERMINATORS c)) text
  | Whitespace text _ => allS (has WHITESPACE_CHARS) text
  | NewLine _ => true
  | EnclosedTextIndicator c _ => has STRING_ENCLOSURES c
  | SpecialCharacter c _ => has SPECIAL_CHARACTERS c
  | ScriptEnd _ => true
  | Variable_ name _ => allS alphaNumeric name
  end.

(** A token read at the cursor [top] of the input, the cursor being [top']
    afterwards: its range, its text in the input, and where the cursors
    are. *)
Definition reads (s : string) (top : ScriptCursor) (token : Token)
    (top' : ScriptCursor) : Prop :=
  tokenRange token = (top, top')
  /\ index top' = (index top + String.length (lexeme token))%nat
  /\ (0 < String.length (lexeme token))%nat
  /\ dropS (index top) s = lexeme token +:+ dropS (index top') s
  /\ wellFormed token = true
  /\ (placed s top -> placed s top').

Section ReadLexeme.
Variables (lexer : LexerState) (top : ScriptCursor) (c : ascii).
Hypothesis Htop : onTop lexer [] top.
Hypothesis Hchar : String.get (index top) (input lexer) = Some c.

Lemma readRun_reads (test : ascii -> bool) :
  test c = true ->
  exists text top',
    (lexer ← cloneAndPushCursor lexer;
     '(text, lexer) ← readWhile test (String.length (input lexer)) "" lexer;
     '(range, lexer) ← closeToken lexer;
     Some (text, range, lexer))
    = Some (text, (top, top'), mkLexer (input lexer) [top'])
    /\ index top' = (index top + String.length text)%nat
    /\ (0 < String.length text)%nat
    /\ dropS (index top) (input lexer) = text +:+ dropS (index top') (input lexer)
    /\ allS test text = true
    /\ (placed (input lexer) top -> placed (input lexer) top').
Proof.
  intros Ht.
  destruct (cloneAndPushCursor_onTop _ _ _ Htop) as (lexer1 & -> & Hi1 & H1).
  cbn [mbind option_bind]. rewrite Hi1.
  destruct (readWhile_run test (String.length (input lexer)) "" lexer1 _ _ H1)
    as (run & top' & -> & Hidx & Hdrop & Hall & Hend & Hp).
  cbn [mbind option_bind].
  rewrite (closeToken_pushed _ [] top top'); [|reflexivity].
  cbn [mbind option_bind]. rewrite Hi1 in *.
  exists run, top'. split; [done|]. split; [done|]. split; [|done].
  destruct run as [|x run]; [|simpl; lia]. simpl in Hidx.
  replace (index top') with (index top) in Hend by lia.
  rewrite Hchar in Hend. rewrite Hend in Ht; [done|lia].
Qed.

Lemma readVariable_reads :
  c = "$"%char ->
  exists name top',
    readVariable lexer
    = Some (Variable_ name (top, top'), mkLexer (input lexer) [top'])
    /\ reads (input lexer) top (Variable_ name (top, top')) top'.
Proof.
  intros Hc. unfold readVariable.
  destruct (cloneAndPushCursor_onTop _ _ _ Htop) as (lexer1 & -> & Hi1 & H1).
  cbn [mbind option_bind].
  destruct (advanceCursor_placed _ _ _ H1)
    as (lexer2 & top1 & -> & Hi2 & H2 & Hidx1 & Hp1).
  cbn [mbind option_bind].
  destruct (readWhile_run alphaNumeric (String.length (input lexer2)) ""
              lexer2 _ _ H2)
    as (name & top' & -> & Hidx & Hdrop & Hall & _ & Hp).
  cbn [mbind option_bind].
  rewrite (closeToken_pushed _ [] top top'); [|reflexivity].
  cbn [mbind option_bind]. rewrite Hi2, Hi1 in *.
  exists name, top'. split; [done|].
  split; [done|]. split; [simpl; lia|]. split; [simpl; lia|].
  split; [|split; [done|tauto]].
  rewrite (dropS_get _ _ _ Hchar), Hc. cbn [lexeme]. rewrite append_cons.
  f_equal. by rewrite <- Hidx1.
Qed.

End ReadLexeme.

(** A token of one character. *)
Lemma readOne_reads (lexer : LexerState) (top top' : ScriptCursor)
    (c : ascii) (token : Token) :
  String.get (index top) (input lexer) = Some c ->
  index top' = S (index top) ->
  (placed (input lexer) top -> placed (input lexer) top') ->
  tokenRange token = (top, top') -> lexeme token = String c "" ->
  wellFormed token = true ->
  reads (input lexer) top token top'.
Proof.
  intros Hc Hidx Hp Hr Hl Hw. split; [done|]. rewrite Hl.
  split; [simpl; lia|]. split; [simpl; lia|]. split; [|done].
  rewrite (dropS_get _ _ _ Hc), append_cons. by rewrite Hidx.
Qed.

(** [getNextToken] in front of the end of the input, with one cursor. *)
Lemma getNextToken_reads (lexer : LexerState) (top : ScriptCursor) :
  onTop lexer [] top ->
  (index top < String.length (input lexer))%nat ->
  exists token top',
    getNextToken lexer = Some (token, mkLexer (input lexer) [top'])
    /\ isScriptEnd (Yielded token) = false
    /\ reads (input lexer) top token top'.
Proof.
  intros H Hlt. unfold getNextToken.
  rewrite (currentChar_onTop _ _ _ H), (isEOF_onTop _ _ _ H).
  cbn [mbind option_bind].
  destruct (Nat.leb_spec (String.length (input lexer)) (index top)); [lia|].
  destruct (String.get (index top) (input lexer)) as [c|] eqn:Ec;
    [|apply get_None_length in Ec; lia].
  destruct (has WHITESPACE_CHARS c) eqn:Ews.
  { destruct (readRun_reads _ _ c H Ec _ Ews)
      as (text & top' & Hr & Hidx & Hpos & Hdrop & Hall & Hp).
    exists (Whitespace text (top, top')), top'.
    split; [|split; [done|by repeat split]]. unfold readWhitespace.
    destruct (cloneAndPushCursor lexer) as [l1|]; [|discriminate].
    cbn [mbind option_bind] in *.
    destruct (readWhile _ _ _ _) as [[t l2]|]; [|discriminate].
    cbn [mbind option_bind] in *.
    destruct (closeToken l2) as [[r l3]|]; [|discriminate].
    cbn [mbind option_bind] in *. by injection Hr as -> -> ->. }
  destruct (cloneAndPushCursor_onTop _ _ _ H) as (lexer1 & Hc1 & Hi1 & H1).
  destruct (advanceCursor_placed _ _ _ H1)
    as (lexer2 & top1 & Hc3 & Hi2 & H2 & Hidx & Hp).
  assert (currentChar lexer1 = Some (Some c)) as Hc2.
  { by rewrite (currentChar_onTop _ _ _ H1), Hi1, Ec. }
  assert (closeToken lexer2
          = Some ((top, top1), mkLexer (input lexer) [top1])) as Hc4.
  { rewrite (closeToken_pushed _ [] top top1 H2). by rewrite Hi2, Hi1. }
  rewrite Hi1 in Hp.
  destruct (Ascii.eqb c newline) eqn:Enl.
  { exists (NewLine (top, top1)), top1.
    split; [|split; [done|]].
    - unfold readNewline.
      rewrite Hc1. cbn [mbind option_bind]. rewrite Hc3.
      cbn [mbind option_bind]. by rewrite Hc4.
    - apply Ascii.eqb_eq in Enl. subst c.
      by apply (readOne_reads _ _ _ newline). }
  destruct (has STRING_ENCLOSURES c) eqn:Eenc.
  { exists (EnclosedTextIndicator c (top, top1)), top1.
    split; [|split; [done|by apply (readOne_reads _ _ _ c)]].
    unfold readEnclosedTextIndicator.
    rewrite Hc1. cbn [mbind option_bind]. rewrite Hc2.
    cbn [mbind option_bind]. rewrite Hc3.
    cbn [mbind option_bind]. by rewrite Hc4. }
  destruct (has SPECIAL_CHARACTERS c) eqn:Esp.
  { exists (SpecialCharacter c (top, top1)), top1.
    split; [|split; [done|by apply (readOne_reads _ _ _ c)]].
    unfold readSpecialCharacter.
    rewrite Hc1. cbn [mbind option_bind]. rewrite Hc2.
    cbn [mbind option_bind]. rewrite Hc3.
    cbn [mbind option_bind]. by rewrite Hc4. }
  destruct (Ascii.eqb c "$") eqn:Evar.
  { apply Ascii.eqb_eq in Evar.
    destruct (readVariable_reads _ _ c H Ec Evar) as (name & top' & -> & Hr).
    by exists (Variable_ name (top, top')), top'. }
  assert (negb (has TEXT_TERMINATORS c) = true) as Hword.
  { unfold TEXT_TERMINATORS. rewrite !has_app, Ews, Eenc, Esp. simpl.
    unfold has. simpl. rewrite Enl. reflexivity. }
  destruct (readRun_reads _ _ c H Ec
              (fun c => negb (has TEXT_TERMINATORS c)) Hword)
    as (text & top' & Hr & Hidx' & Hpos & Hdrop & Hall & Hp').
  exists (Word text (top, top')), top'.
  split; [|split; [done|by repeat split]]. unfold readWord.
  destruct (cloneAndPushCursor lexer) as [l1|]; [|discriminate].
  cbn [mbind option_bind] in *.
  destruct (readWhile _ _ _ _) as [[t l2]|]; [|discriminate].
  cbn [mbind option_bind] in *.
  destruct (closeToken l2) as [[r l3]|]; [|discriminate].
  cbn [mbind option_bind] in *. by injection Hr as -> -> ->.
Qed.

(** *** The tokens of an input *)

Lemma length_dropS (s : string) (i : nat) :
  String.length (dropS i s) = (String.length s - i)%nat.
Proof.
  revert i. induction s as [|x s IH]; intros [|i]; simpl; try done.
Qed.

(** The tokens in the order of the input, the first of them at the index
    [start]: each one is the text of the input between the cursors of its
    range, is not empty, has the characters of its type only, and starts
    where the one before it ends. *)
Fixpoint laidOut (s : string) (start : nat) (tokens : list Token) : Prop :=
  match tokens with
  | [] => True
  | token :: tokens' =>
      let stop := (start + String.length (lexeme token))%nat in
      tokenRange token = (cursorAt start s, cursorAt stop s)
      /\ (0 < String.length (lexeme token))%nat
      /\ wellFormed token = true
      /\ isScriptEnd (Yielded token) = false
      /\ laidOut s stop tokens'
  end.

Lemma genNext_reads (s : string) (g : Generator) (top : ScriptCursor) :
  lexer g = mkLexer s [top] -> finished g = false ->
  placed s top -> (index top <= String.length s)%nat ->
  exists token g' top',
    genNext g = (Some (Yielded token), g')
    /\ lexer g' = mkLexer s [top'] /\ placed s top'
    /\ (index top' <= String.length s)%nat
    /\ if isScriptEnd (Yielded token)
       then finished g' = true /\ token = ScriptEnd (top, top)
            /\ index top = String.length s /\ top' = top
       else finished g' = false /\ reads s top token top'.
Proof.
  intros Hl Hf Hp Hle. unfold genNext. rewrite Hf.
  assert (onTop (lexer g) [] top) as H by (by rewrite Hl).
  assert (input (lexer g) = s) as Hi by (by rewrite Hl).
  destruct (Nat.lt_ge_cases (index top) (String.length s)) as [Hlt|Hge].
  - destruct (getNextToken_reads _ _ H ltac:(by rewrite Hi))
      as (token & top' & -> & Hne & Hr).
    rewrite Hi in *. exists token. eexists. exists top'.
    split; [reflexivity|]. split; [done|].
    destruct Hr as (Hrange & Hidx & Hpos & Hdrop & Hw & Hp').
    split; [tauto|]. split.
    { pose proof (f_equal String.length Hdrop) as Hlen.
      rewrite length_append, !length_dropS in Hlen. lia. }
    rewrite Hne. split; [by destruct token|]. by repeat split.
  - destruct (getNextToken_onTop _ _ _ H) as [[_ ->]|[Hlt _]];
      [|rewrite Hi in Hlt; lia].
    exists (ScriptEnd (top, top)). eexists. exists top.
    split; [reflexivity|]. simpl. repeat split; try done. lia.
Qed.

(** What holds of the object between calls of [next()] while tokens are
    left: the token peeked at starts at the index [start] of the input,
    and the cursor of the lexer is where it ends. *)
Definition lexing (s : string) (l : Lex) (start : nat) : Prop :=
  exists top token,
    lexer (gen l) = mkLexer s [top] /\ peaked l = Yielded token
    /\ placed s top /\ (index top <= String.length s)%nat
    /\ if isScriptEnd (Yielded token)
       then finished (gen l) = true /\ token = ScriptEnd (top, top)
            /\ index top = String.length s /\ start = String.length s
       else finished (gen l) = false
            /\ reads s (cursorAt start s) token top.

Lemma lex_lexing (input : string) : lexing input (lex input) 0.
Proof.
  unfold lex.
  destruct (genNext_reads input (mkGenerator (createLexer input) false)
              (mkCursor 1 1 0))
    as (token & g' & top' & -> & Hl & Hp & Hle & Hcase);
    [done|done|done|simpl; lia|].
  exists top', token. cbn [gen peaked]. split; [done|]. split; [done|].
  split; [done|]. split; [done|].
  destruct (isScriptEnd (Yielded token)); [|exact Hcase].
  destruct Hcase as (Hf & -> & Hidx & ->). simpl in Hidx. done.
Qed.

Lemma nexts_lexing (s : string) (m : nat) (l : Lex) (start : nat) :
  lexing s l start -> (String.length s - start <= m)%nat ->
  exists tokens l',
    nexts (S (length tokens)) l
    = Some (map Yielded tokens
              ++ [Yielded (ScriptEnd (cursorAt (String.length s) s,
                                      cursorAt (String.length s) s))], l')
    /\ foldr String.append "" (map lexeme tokens) = dropS start s
    /\ laidOut s start tokens.
Proof.
  revert l start. induction m as [|m IH]; intros l start
    (top & token & Hl & Hpk & Hp & Hle & Hcase) Hm.
  all: destruct (isScriptEnd (Yielded token)) eqn:Eend.
  1,3: destruct Hcase as (Hf & -> & Hidx & ->);
    exists [], (mkLex (gen l) Done (peaked l) (stackCurrent l));
    cbn [nexts length]; unfold next; cbn [gen peaked current stackCurrent];
    rewrite (genNext_finished _ Hf), Hpk; cbn [map app mbind option_bind];
    rewrite dropS_end by lia; split; [|done];
    rewrite Hp, Hidx; reflexivity.
  all: destruct Hcase as (Hf & Hrange & Hidx & Hpos & Hdrop & Hw & Hp');
    simpl in Hidx, Hdrop.
  { pose proof (f_equal String.length Hdrop) as Hlen.
    rewrite length_append, !length_dropS in Hlen. lia. }
  destruct (genNext_reads s (gen l) top Hl Hf Hp Hle)
    as (token' & g' & top' & Hg & Hl' & Hp1 & Hle' & Hcase').
  assert (lexing s (mkLex g' (Yielded token') (peaked l) (stackCurrent l))
            (index top)) as Hlexing.
  { exists top', token'. cbn [gen peaked]. split; [done|]. split; [done|].
    split; [done|]. split; [done|].
    destruct (isScriptEnd (Yielded token')).
    - by destruct Hcase' as (Hf' & -> & Hidx' & ->).
    - destruct Hcase' as (Hf' & Hr'). split; [done|].
      by rewrite <- Hp. }
  destruct (IH _ _ Hlexing) as (tokens & l' & Hn & Hcat & Hlaid); [lia|].
  exists (token :: tokens), l'.
  change (nexts (S (length (token :: tokens))) l)
    with (match next l with
          | Returns result l1 =>
              '(results, l2) ← nexts (S (length tokens)) l1;
              Some (result :: results, l2)
          | Raises _ => None
          end).
  unfold next. cbn [gen peaked current stackCurrent]. rewrite Hg.
  rewrite Hpk in *. rewrite Hn.
  cbn [mbind option_bind map app]. split; [done|].
  split; [cbn [foldr]; by rewrite Hcat, Hdrop|].
  cbn [laidOut]. rewrite <- Hidx. split; [by rewrite <- Hp|]. done.
Qed.

(** X13. The tokens that the calls of [next()] return for an input, up
    to [ScriptEnd], are the input cut into pieces: their texts in a row
    are the input, none is empty, each has the characters of its type only
    and the cursors of its range are the places of its first character and
    of the character after its last one. [ScriptEnd] has the end of the
    input as its range. *)
Theorem tokens_are_the_input (input : string) :
  exists tokens l,
    nexts (S (length tokens)) (lex input)
    = Some (map Yielded tokens
              ++ [Yielded (ScriptEnd (cursorAt (String.length input) input,
                                      cursorAt (String.length input) input))],
            l)
    /\ foldr String.append "" (map lexeme tokens) = input
    /\ laidOut input 0 tokens.
Proof.
  destruct (nexts_lexing input (String.length input) (lex input) 0
              (lex_lexing input))
    as (tokens & l & Hn & Hcat & Hlaid); [lia|].
  by exists tokens, l.
Qed.

End LexerTokens.

Module Lookahead.
Import Lexer LexerProps.

(** *** A lookahead of one token *)

(** [pushCurrent()], one call of [next()], [popCurrent()]: the result of
    the call and the object they leave. *)
Definition lookOneAhead (l : Lex) : option (IteratorResult * Lex) :=
  match pushCurrent l with
  | Returns _ l1 =>
      match next l1 with
      | Returns result l2 =>
          match popCurrent l2 with
          | Returns _ l3 => Some (result, l3)
          | Raises _ => None
          end
      | Raises _ => None
      end
  | Raises _ => None
  end.

(** The generator has its last token, [ScriptEnd], still to make. *)
Definition beforeScriptEnd (l : Lex) : bool :=
  negb (finished (gen l))
  && match currentCursor (lexer (gen l)) with
     | Some top => (String.length (input (lexer (gen l))) <=? index top)%nat
     | None => false
     end.

(** X14. Looking one token ahead is undone: with one cursor on the stack,
    [pushCurrent()], [next()], [popCurrent()] return the token peeked at
    and leave the object as it was, so the calls after them return what
    they would have returned. The one exception is the generator that has
    [ScriptEnd] still to make: it made it and is finished, so [ScriptEnd]
    is lost. *)
Theorem lookahead_of_one_restores (l : Lex) (top : ScriptCursor) :
  cursorStack (lexer (gen l)) = [top] ->
  lookOneAhead l
  = Some (peaked l,
          if beforeScriptEnd l
          then mkLex (mkGenerator (lexer (gen l)) true) (peaked l) (current l)
                 (stackCurrent l)
          else l).
Proof.
  destruct l as [[[s stack] fin] pk cur saved]. cbn [gen lexer cursorStack].
  intros ->. unfold lookOneAhead, pushCurrent, beforeScriptEnd.
  cbn [gen lexer finished peaked current stackCurrent cloneAndPushCursor
       currentCursor cursorStack last input mbind option_bind app].
  change (cloneAndPushCursor (mkLexer s [top]))
    with (Some (mkLexer s [top; top])).
  cbv beta iota. unfold next. cbn [gen peaked current stackCurrent].
  destruct fin.
  { rewrite genNext_finished by reflexivity. unfold popCurrent.
    cbn [gen lexer finished peaked current stackCurrent cursorStack input
         removelast negb andb].
    rewrite reverse_app. change (reverse [pk; cur]) with [cur; pk].
    cbn [app]. by rewrite reverse_involutive. }
  unfold genNext. cbn [finished lexer negb andb].
  destruct (getNextToken_onTop (mkLexer s [top; top]) [top] top eq_refl)
    as [[Heof ->]|(Hlt & token & top' & -> & Hne & _)]; cbn [input] in *.
  - destruct (Nat.leb_spec (String.length s) (index top)); [|lia].
    unfold popCurrent.
    cbn [gen lexer finished peaked current stackCurrent cursorStack input
         removelast].
    rewrite reverse_app. change (reverse [pk; cur]) with [cur; pk].
    cbn [app]. by rewrite reverse_involutive.
  - destruct (Nat.leb_spec (String.length s) (index top)); [lia|].
    unfold popCurrent.
    cbn [gen lexer finished peaked current stackCurrent cursorStack input].
    rewrite reverse_app. change (reverse [pk; cur]) with [cur; pk].
    cbn [app]. rewrite reverse_involutive.
    assert (match token with ScriptEnd _ => true | _ => false end = false)
      as -> by (destruct token; try done; by destruct (Hne range)).
    reflexivity.
Qed.

(** The input [a b] after [lex]: [a] is peeked at, the cursor is behind
    it. *)
Lemma lookahead_of_one_restores_witness :
  cursorStack (lexer (gen (lex "a b"))) = [mkCursor 1 2 1]
  /\ lookOneAhead (lex "a b") = Some (peaked (lex "a b"), lex "a b").
Proof.
  split; [reflexivity|].
  exact (lookahead_of_one_restores (lex "a b") (mkCursor 1 2 1) eq_refl).
Defined.

End Lookahead.

Module ParserLoops.
Import Lexer AST Parser LexerProps ParserProps.

(** *** What the parsers keep of the lexer *)

Section Invariant.

(** A property of the object of [lex] that [next()] keeps. *)
Variable I : Lex -> Prop.
Hypothesis I_next : forall l r l', I l -> next l = Returns r l' -> I l'.

(** A parser that keeps it whenever it returns. *)
Definition keepsI {A} (m : P A) : Prop :=
  forall l a l', I l -> m l = Parsed a l' -> I l'.

Lemma keepsI_ret {A} (a : A) : keepsI (ret a).
Proof. by intros l a' l' H [= _ <-]. Qed.

Lemma keepsI_fail {A} (f : Failure) : keepsI (@fail A f).
Proof. by intros l a l' H. Qed.

Lemma keepsI_outOfFuel {A} : keepsI (@outOfFuel A).
Proof. by intros l a l' H. Qed.

Lemma keepsI_bind {A B} (m : P A) (k : A -> P B) :
  keepsI m -> (forall a, keepsI (k a)) -> keepsI (bind m k).
Proof.
  intros Hm Hk l b l' HI. unfold bind.
  destruct (m l) as [a l1|f l1|] eqn:E; [|discriminate..].
  apply Hk. by eapply Hm.
Qed.

Lemma keepsI_lexNext : keepsI lexNext.
Proof.
  intros l r l' HI. unfold lexNext.
  destruct (next l) as [r' l1|l1] eqn:E; [|discriminate].
  intros [= <- <-]. by eapply I_next.
Qed.

Lemma keepsI_lexPeek : keepsI lexPeek.
Proof. by intros l r l' HI [= _ <-]. Qed.

Lemma keepsI_lexCurrent : keepsI lexCurrent.
Proof. by intros l r l' HI [= _ <-]. Qed.

Lemma keepsI_lexAtEOF : keepsI lexAtEOF.
Proof.
  intros l r l' HI. unfold lexAtEOF. destruct (lexIsEOF l); [|discriminate].
  by intros [= _ <-].
Qed.

Ltac keepsI_step :=
  first
    [ apply keepsI_ret | apply keepsI_fail | apply keepsI_outOfFuel
    | apply keepsI_lexNext | apply keepsI_lexPeek | apply keepsI_lexCurrent
    | apply keepsI_lexAtEOF
    | apply keepsI_bind; [|intros ?]
    | match goal with
      | |- keepsI (if ?b then _ else _) => destruct b
      | |- keepsI (match ?x with _ => _ end) => destruct x
      end ].

Lemma keepsI_skipWhitespace (fuel : nat) (includeNewline : bool) :
  keepsI (skipWhitespace fuel includeNewline).
Proof.
  induction fuel as [|fuel IH]; simpl; [apply keepsI_outOfFuel|].
  apply keepsI_bind; [apply keepsI_lexNext|]. intros result.
  destruct (value result) as [token|]; [|apply keepsI_fail].
  destruct (negb _ && _); [apply keepsI_ret|exact IH].
Qed.

Lemma keepsI_parseStringLoop (fuel : nat) (currentToken : option Token)
    (contents : string) :
  keepsI (parseStringLoop fuel currentToken contents).
Proof.
  revert currentToken contents.
  induction fuel as [|fuel IH]; intros currentToken contents.
  - destruct currentToken as [[]|]; simpl;
      first [apply keepsI_ret|apply keepsI_outOfFuel].
  - destruct currentToken as [[]|]; simpl; try apply keepsI_ret;
      (apply keepsI_bind; [apply keepsI_lexNext|]; intros result; apply IH).
Qed.

Lemma keepsI_parseString (fuel : nat) (firstToken : Token) :
  keepsI (parseString fuel firstToken).
Proof.
  destruct firstToken; try apply keepsI_fail. apply keepsI_parseStringLoop.
Qed.

Lemma keepsI_parseEscapedCharacter (firstToken : Token) :
  keepsI (parseEscapedCharacter firstToken).
Proof.
  unfold parseEscapedCharacter, unexpectedToken, unexpectedEnd.
  destruct firstToken; repeat keepsI_step.
Qed.

Lemma keepsI_parseExpression (firstToken : Token) :
  keepsI (parseExpression firstToken).
Proof.
  unfold parseExpression, unexpectedToken.
  destruct firstToken; repeat keepsI_step.
Qed.

Lemma keepsI_parseEnclosedTextNodeWith
    (rec : option Token -> option ascii -> option ascii -> nat
           -> P (list TextNodeChild))
    (firstToken : Token) (disallowTextString : bool) :
  (forall first enclosedEnd start count,
     keepsI (rec first enclosedEnd start count)) ->
  keepsI (parseEnclosedTextNodeWith rec firstToken disallowTextString).
Proof.
  intros Hrec. unfold parseEnclosedTextNodeWith, unexpectedToken.
  destruct firstToken; repeat first [apply Hrec|keepsI_step].
Qed.

Lemma keepsI_parseChildrenLoop (fuel : nat) (enclosedEnd start : option ascii)
    (count : nat) (children : list TextNodeChild)
    (currentToken : option Token) :
  keepsI (parseChildrenLoop fuel enclosedEnd start count children currentToken).
Proof.
  revert enclosedEnd start count children currentToken.
  induction fuel as [|fuel IH];
    intros enclosedEnd start count children currentToken.
  - destruct currentToken as [token|]; simpl; [|apply keepsI_ret].
    destruct (negb _); [apply keepsI_ret|apply keepsI_outOfFuel].
  - destruct currentToken as [token|]; [|apply keepsI_ret].
    cbn [parseChildrenLoop].
    destruct (negb _); [apply keepsI_ret|].
    assert (forall first enclosedEnd' start' count',
              keepsI (match first with
                      | None => unexpectedEnd
                      | Some _ =>
                          parseChildrenLoop fuel enclosedEnd' start' count' []
                            first
                      end)) as Hnested.
    { intros [first|] ? ? ?; [apply IH|apply keepsI_fail]. }
    destruct token as [text r|text r|r|e r|c r|r|n r];
      repeat first
        [ apply IH
        | apply keepsI_parseString
        | apply keepsI_parseEscapedCharacter
        | apply keepsI_parseExpression
        | apply keepsI_parseEnclosedTextNodeWith; exact Hnested
        | keepsI_step ].
Qed.

Lemma keepsI_parseTextNodeChildren (fuel : nat) (firstToken : option Token)
    (enclosedEnd start : option ascii) (count : nat) :
  keepsI (parseTextNodeChildren fuel firstToken enclosedEnd start count).
Proof.
  destruct firstToken; [apply keepsI_parseChildrenLoop|apply keepsI_fail].
Qed.

Lemma keepsI_parseEnclosedTextNode (fuel : nat) (firstToken : Token)
    (disallowTextString : bool) :
  keepsI (parseEnclosedTextNode fuel firstToken disallowTextString).
Proof.
  apply keepsI_parseEnclosedTextNodeWith. intros.
  apply keepsI_parseTextNodeChildren.
Qed.

Lemma keepsI_parseTextNode (fuel : nat) (firstToken : Token) :
  keepsI (parseTextNode fuel firstToken).
Proof.
  unfold parseTextNode, unexpectedToken.
  destruct firstToken;
    repeat first [apply keepsI_parseTextNodeChildren
                 |apply keepsI_parseEnclosedTextNode|keepsI_step].
Qed.

Lemma keepsI_parseDialogue (fuel : nat) (firstToken : Token) :
  keepsI (parseDialogue fuel firstToken).
Proof.
  unfold parseDialogue, unexpectedToken.
  destruct firstToken;
    repeat first [apply keepsI_skipWhitespace|apply keepsI_parseTextNode
                 |keepsI_step].
Qed.

Lemma keepsI_parseOptions (fuel : nat) (options : list AssignmentChoiceNode) :
  keepsI (parseOptions fuel options).
Proof.
  revert options. induction fuel as [|fuel IH]; intros options; simpl;
    [apply keepsI_outOfFuel|].
  unfold unexpectedToken.
  repeat first [apply IH|apply keepsI_skipWhitespace
               |apply keepsI_parseEnclosedTextNode|keepsI_step].
Qed.

End Invariant.

(** *** The cursors during a statement *)

(** What [gen.next()] does to the cursors [below ++ [top]]: nothing, once
    the generator has finished or at the end of the input; otherwise the
    oldest cursor goes and the top moves forward. *)
Lemma genNext_cursors (g g' : Generator) (below : list ScriptCursor)
    (top : ScriptCursor) (result : option IteratorResult) :
  onTop (lexer g) below top ->
  genNext g = (result, g') ->
  input (lexer g') = input (lexer g)
  /\ (finished g = true -> finished g' = true)
  /\ (cursorStack (lexer g') = cursorStack (lexer g)
      \/ exists top', cursorStack (lexer g') = shifted below top top'
                      /\ (index top < index top')%nat).
Proof.
  intros Htop. unfold genNext. destruct (finished g) eqn:Ef.
  { intros [= _ <-]. split; [done|]. split; [done|by left]. }
  destruct (getNextToken_onTop _ _ _ Htop)
    as [[_ ->]|(_ & token & top' & -> & _ & Hidx)].
  - intros [= _ <-]. split; [done|]. split; [done|by left].
  - intros [= _ <-]. split; [done|]. split; [done|].
    right. exists top'. split; [done|lia].
Qed.

(** One cursor, the state of the lexer between statements. *)
Definition oneCursor (l : Lex) : Prop :=
  exists c, cursorStack (lexer (gen l)) = [c].

Lemma single_next (l : Lex) (r : IteratorResult) (l' : Lex) :
  oneCursor l -> next l = Returns r l' -> oneCursor l'.
Proof.
  intros [c Hc]. unfold next. cbn [gen].
  destruct (genNext (gen l)) as [[result|] g'] eqn:E; [|discriminate].
  intros [= _ <-]. unfold oneCursor. cbn [gen].
  destruct (genNext_cursors _ _ [] c _ Hc E) as (_ & _ & [Hsame|(top' & -> & _)]).
  - exists c. by rewrite Hsame.
  - by exists top'.
Qed.

Lemma single_lex (input : string) : oneCursor (lex input).
Proof.
  unfold lex.
  destruct (genNext (mkGenerator (createLexer input) false)) as [result g]
    eqn:E.
  destruct (genNext_cursors (mkGenerator (createLexer input) false) g []
              (mkCursor 1 1 0) result eq_refl E)
    as (_ & _ & [Hsame|(top' & Hs & _)]); unfold oneCursor; cbn [gen].
  - rewrite Hsame. by eexists.
  - rewrite Hs. by eexists.
Qed.

(** Two cursors, the state inside of the lookahead that started at the
    index [i] with the saved results [saved]: the lower cursor has not gone
    back behind [i]. *)
Definition looking (i : nat) (fin : bool) (saved : list IteratorResult)
    (l : Lex) : Prop :=
  (exists c c', cursorStack (lexer (gen l)) = [c; c']
                /\ (i <= index c <= index c')%nat)
  /\ (fin = true -> finished (gen l) = true)
  /\ stackCurrent l = saved.

Lemma looking_next (i : nat) (fin : bool) (saved : list IteratorResult)
    (l : Lex) (r : IteratorResult) (l' : Lex) :
  looking i fin saved l -> next l = Returns r l' -> looking i fin saved l'.
Proof.
  intros ((c & c' & Hc & Hi) & Hfin & Hsaved). unfold next. cbn [gen].
  destruct (genNext (gen l)) as [[result|] g'] eqn:E; [|discriminate].
  intros [= _ <-]. unfold looking. cbn [gen stackCurrent].
  destruct (genNext_cursors _ _ [c] c' _ Hc E)
    as (_ & Hfin' & [Hsame|(top' & -> & Hlt)]).
  - split; [|auto]. exists c, c'. by rewrite Hsame.
  - split; [|auto]. exists c', top'. split; [done|lia].
Qed.

Lemma tokensLeft_single (g : Generator) (c : ScriptCursor) :
  cursorStack (lexer g) = [c] ->
  tokensLeft g
  = if finished g then O else S (String.length (input (lexer g)) - index c).
Proof. intros H. unfold tokensLeft, currentCursor. by rewrite H. Qed.

Lemma tokensLeft_top (g : Generator) (c c' : ScriptCursor) :
  cursorStack (lexer g) = [c; c'] ->
  tokensLeft g
  = if finished g then O else S (String.length (input (lexer g)) - index c').
Proof. intros H. unfold tokensLeft, currentCursor. by rewrite H. Qed.

(** [pushCurrent()] on one cursor. *)
Lemma pushCurrent_single (l : Lex) (c : ScriptCursor) :
  cursorStack (lexer (gen l)) = [c] ->
  exists l1,
    pushCurrent l = Returns tt l1
    /\ looking (index c) (finished (gen l))
         (stackCurrent l ++ [peaked l; current l]) l1
    /\ inputOf l1 = inputOf l /\ left l1 = left l
    /\ peaked l1 = peaked l /\ current l1 = current l.
Proof.
  intros Hc. unfold pushCurrent, cloneAndPushCursor, currentCursor.
  rewrite Hc. simpl. eexists. split; [reflexivity|].
  split; [|split; [reflexivity|split; [|done]]].
  - split; [exists c, c; split; [done|lia]|]. by split.
  - unfold left. cbn [peaked gen]. f_equal.
    rewrite (tokensLeft_single _ c Hc).
    by erewrite tokensLeft_top by reflexivity.
Qed.

(** [popCurrent()] inside of a lookahead: one cursor is left, not behind
    the index where the lookahead started, and the saved results are
    back. *)
Lemma popCurrent_looking (i : nat) (fin : bool) (saved : list IteratorResult)
    (peaked0 current0 : IteratorResult) (l : Lex) :
  looking i fin (saved ++ [peaked0; current0]) l ->
  exists l1 c,
    popCurrent l = Returns tt l1
    /\ cursorStack (lexer (gen l1)) = [c] /\ (i <= index c)%nat
    /\ inputOf l1 = inputOf l
    /\ finished (gen l1) = finished (gen l)
    /\ peaked l1 = peaked0 /\ current l1 = current0
    /\ stackCurrent l1 = saved.
Proof.
  intros ((c & c' & Hc & Hi) & Hfin & Hsaved). unfold popCurrent.
  rewrite Hsaved, reverse_app. simpl. rewrite Hc. simpl.
  eexists _, c. split; [reflexivity|]. cbn [gen lexer cursorStack peaked
    current stackCurrent finished]. rewrite reverse_involutive.
  repeat split; [lia].
Qed.

(** [shiftLast()] inside of a lookahead: the top cursor alone is left. *)
Lemma shiftLast_looking (i : nat) (fin : bool) (saved : list IteratorResult)
    (l : Lex) :
  looking i fin saved l ->
  exists l1,
    shiftLast l = Returns tt l1
    /\ oneCursor l1 /\ inputOf l1 = inputOf l /\ left l1 = left l.
Proof.
  intros ((c & c' & Hc & Hi) & Hfin & Hsaved). unfold shiftLast.
  eexists. split; [reflexivity|]. unfold oneCursor, inputOf, left.
  cbn [gen lexer cursorStack peaked input]. rewrite Hc. simpl.
  split; [by exists c'|]. split; [done|]. f_equal.
  rewrite (tokensLeft_top _ c c' Hc).
  by erewrite tokensLeft_single by reflexivity.
Qed.

(** *** The loop of [parse] *)

Lemma left_after_pop (l l3 : Lex) (c c3 : ScriptCursor) :
  cursorStack (lexer (gen l)) = [c] ->
  cursorStack (lexer (gen l3)) = [c3] ->
  (index c <= index c3)%nat ->
  inputOf l3 = inputOf l ->
  (finished (gen l) = true -> finished (gen l3) = true) ->
  peaked l3 = peaked l ->
  (left l3 <= left l)%nat.
Proof.
  intros Hc Hc3 Hi Hinput Hfin Hpeaked. unfold left. rewrite Hpeaked.
  rewrite (tokensLeft_single _ c Hc), (tokensLeft_single _ c3 Hc3).
  unfold inputOf in Hinput. rewrite Hinput.
  destruct (finished (gen l)); [by rewrite Hfin|].
  destruct (finished (gen l3)); lia.
Qed.

(** A statement that starts with a variable leaves one cursor and no more
    tokens than it found, whichever way the lookahead ends. *)
Lemma parsePossibleAssignment_single (fuel : nat) (firstToken : Token)
    (l l' : Lex) (node : StatementNode) :
  (enough l <= fuel)%nat -> oneCursor l ->
  parsePossibleAssignment fuel firstToken l = Parsed node l' ->
  oneCursor l' /\ inputOf l' = inputOf l /\ (left l' <= left l)%nat.
Proof.
  intros Hfuel [c Hc] H.
  destruct firstToken as [| | | | | |key range]; try discriminate.
  unfold parsePossibleAssignment in H.
  apply bind_Parsed in H as ([] & l1 & Hpush & H).
  destruct (pushCurrent_single l c Hc)
    as (l1' & Hpush' & Hlook & Hinput1 & Hleft1 & Hpeaked1 & _).
  unfold lexPushCurrent in Hpush. rewrite Hpush' in Hpush.
  injection Hpush as <-.
  apply bind_Parsed in H as (nextToken & l2 & Hskip & H).
  assert (left l1' < fuel)%nat as Hfuel1
    by (pose proof (enough_left l l1' fuel Hfuel Hinput1); lia).
  destruct (proj2 (skipWhitespace_left fuel true l1' Hfuel1) _ _ Hskip)
    as (Hinput2 & Hleft2 & _).
  pose proof (keepsI_skipWhitespace
                (looking (index c) (finished (gen l))
                   (stackCurrent l ++ [peaked l; current l]))
                (looking_next _ _ _) fuel true _ _ _ Hlook Hskip) as Hlook2.
  destruct (negb (assigns nextToken)).
  - apply bind_Parsed in H as ([] & l3 & Hpop & H).
    destruct (popCurrent_looking _ _ _ _ _ _ Hlook2)
      as (l3' & c3 & Hpop' & Hc3 & Hi3 & Hinput3 & Hfin3 & Hpeaked3 & _).
    unfold lexPopCurrent in Hpop. rewrite Hpop' in Hpop. injection Hpop as <-.
    assert (left l3' <= left l)%nat as Hleft3.
    { apply (left_after_pop l l3' c c3 Hc Hc3 Hi3); [congruence| |done].
      intros Hf. rewrite Hfin3. by apply (proj1 (proj2 Hlook2)). }
    assert (inputOf l3' = inputOf l) as Hinput3' by congruence.
    destruct (parseDialogue_settles fuel (Variable_ key range) l3') as [_ Hd].
    { pose proof (enough_left l l3' fuel Hfuel Hinput3'). lia. }
    destruct (Hd _ _ H) as [Hinput' Hleft'].
    split; [|split; [congruence|lia]].
    apply (keepsI_parseDialogue oneCursor single_next fuel _ _ _ _
             (ex_intro _ c3 Hc3) H).
  - apply bind_Parsed in H as ([] & l3 & Hshift & H).
    destruct (shiftLast_looking _ _ _ _ Hlook2)
      as (l3' & Hshift' & Hsingle3 & Hinput3 & Hleft3).
    unfold lexShiftLast in Hshift. rewrite Hshift' in Hshift.
    injection Hshift as <-.
    apply bind_Parsed in H as (result & l4 & Hnext & H).
    destruct (lexNext_Parsed _ _ _ Hnext) as (_ & Hinput4 & Hleft4 & _).
    pose proof (keepsI_lexNext oneCursor single_next _ _ _ Hsingle3 Hnext) as Hsingle4.
    assert (inputOf l4 = inputOf l) as Hinput4' by congruence.
    assert (left l4 + 2 < fuel)%nat as Hfuel4
      by exact (enough_left l l4 fuel Hfuel Hinput4').
    destruct (isCharacter nextToken "?").
    + apply bind_Parsed in H as (options & l5 & Hoptions & H).
      injection H as _ <-.
      destruct (parseOptions_settles fuel [] l4 Hfuel4) as [_ Ho].
      destruct (Ho _ _ Hoptions) as [Hinput5 Hleft5].
      split; [|split; [congruence|lia]].
      exact (keepsI_parseOptions oneCursor single_next fuel [] _ _ _ Hsingle4 Hoptions).
    + apply bind_Parsed in H as (token & l5 & Hskip5 & H).
      apply bind_Parsed in H as (value & l6 & Hvalue & H).
      injection H as _ <-.
      destruct (proj2 (skipWhitespace_left fuel false l4 ltac:(lia)) _ _ Hskip5)
        as (Hinput5 & Hleft5 & _).
      pose proof (keepsI_skipWhitespace oneCursor single_next fuel false
                    _ _ _ Hsingle4 Hskip5) as Hsingle5.
      destruct (parseTextNode_settles fuel token l5 ltac:(lia)) as [_ Ht].
      destruct (Ht _ _ Hvalue) as [Hinput6 Hleft6].
      split; [|split; [congruence|lia]].
      exact (keepsI_parseTextNode oneCursor single_next fuel token _ _ _
               Hsingle5 Hvalue).
Qed.

Lemma parseStatements_returns (fuel : nat)
    (documentContents : list StatementNode) (l : Lex) :
  oneCursor l -> (left l + enough l < fuel)%nat ->
  parseStatements fuel documentContents l <> OutOfFuel.
Proof.
  revert documentContents l.
  induction fuel as [|fuel IH]; intros documentContents l Hsingle Hfuel;
    [lia|].
  cbn [parseStatements]. unfold bind at 1. unfold lexAtEOF.
  destruct (lexIsEOF l) as [eof|]; [|done].
  destruct eof; [done|].
  unfold bind at 1.
  destruct (skipWhitespace_left fuel true l ltac:(unfold enough in *; lia))
    as [Hskip Hafter].
  destruct (skipWhitespace fuel true l) as [token l1|f l1|] eqn:Eskip;
    [|done..].
  destruct (Hafter _ _ eq_refl) as (Hinput1 & Hleft1 & _).
  pose proof (keepsI_skipWhitespace oneCursor single_next fuel true
                _ _ _ Hsingle Eskip) as Hsingle1.
  assert (enough l1 = enough l) as Henough by (unfold enough; congruence).
  assert (forall node l2,
            parseDialogue fuel token l1 = Parsed node l2 ->
            parseStatements fuel (documentContents ++ [node]) l2
            <> OutOfFuel) as Hdialogue.
  { intros node l2 Hd.
    destruct (parseDialogue_settles fuel token l1 ltac:(unfold enough in *; lia))
      as [_ Hs].
    destruct (Hs _ _ Hd) as [Hinput2 Hleft2].
    apply IH.
    - exact (keepsI_parseDialogue oneCursor single_next fuel token _ _ _ Hsingle1 Hd).
    - unfold enough in *. rewrite Hinput2. lia. }
  assert (parseDialogue fuel token l1 <> OutOfFuel) as Hd0.
  { apply parseDialogue_settles. unfold enough in *. lia. }
  destruct token as [text r|text r|r|e r|c r|r|key r]; try done;
    try (unfold bind;
         destruct (parseDialogue fuel _ l1) as [node l2|f l2|] eqn:Ed;
         [by apply Hdialogue|done|done]).
  unfold bind.
  assert (enough l1 <= fuel)%nat as Hfuel1 by lia.
  destruct (parsePossibleAssignment_returns fuel (Variable_ key r) l1 Hfuel1)
    as [Hp _].
  destruct (parsePossibleAssignment fuel (Variable_ key r) l1)
    as [node l2|f l2|] eqn:Ep; [|done..].
  destruct (parsePossibleAssignment_single _ _ _ _ _ Hfuel1 Hsingle1 Ep)
    as (Hsingle2 & Hinput2 & Hleft2).
  apply IH; [done|]. unfold enough in *. rewrite Hinput2. lia.
Qed.

(** Fuel for [parse] on [input]: every round of its loop takes a token,
    and a statement needs no more rounds than there are tokens. *)
Definition parseFuel (input : string) : nat := 2 * String.length input + 8.

Definition terminated {A} (result : Result A) : bool :=
  match result with OutOfFuel => false | _ => true end.

(** On every input the loops of the parser come to an end within
    [parseFuel] rounds, also when the lookahead of a statement has lost a
    token. *)
Lemma parse_returns (input : string) (extra : nat) :
  terminated (parse (parseFuel input + extra) (lex input)) = true.
Proof.
  unfold parse, bind.
  destruct (parseStatements (parseFuel input + extra) [] (lex input))
    as [contents l|f l|] eqn:E; [done..|].
  exfalso. revert E. apply parseStatements_returns; [apply single_lex|].
  pose proof (left_bound (lex input)) as Hleft.
  assert (inputOf (lex input) = input) as Hinput.
  { unfold inputOf, lex.
    destruct (genNext (mkGenerator (createLexer input) false)) as [result g]
      eqn:Eg.
    destruct (genNext_cursors (mkGenerator (createLexer input) false) g []
                (mkCursor 1 1 0) result eq_refl Eg) as (Hin & _).
    exact Hin. }
  unfold enough, parseFuel. rewrite Hinput in *. lia.
Qed.

End ParserLoops.

Module ParserSafety.
Import Lexer AST Parser LexerProps ParserProps ParserLoops.

(** *** The lexer never lacks a cursor *)

(** A result that is not the [TypeError] of a lexer without a cursor or of
    a lookahead without a saved result. *)
Definition noTypeError {A} (result : Result A) : bool :=
  match result with
  | Failed TypeError _ => false
  | _ => true
  end.

Section Safe.

(** A property of the object of [lex] that [next()] keeps and under which
    the lexer has a cursor. *)
Variable I : Lex -> Prop.
Hypothesis I_next : forall l r l', I l -> next l = Returns r l' -> I l'.
Hypothesis I_cursor : forall l, I l -> hasCursor (gen l).

(** A parser that raises no [TypeError] where the property holds. *)
Definition safeI {A} (m : P A) : Prop :=
  forall l, I l -> noTypeError (m l) = true.

Lemma safeI_ret {A} (a : A) : safeI (ret a).
Proof. by intros l H. Qed.

Lemma safeI_unexpectedToken {A} (token : Token) :
  safeI (@unexpectedToken A token).
Proof. by intros l H. Qed.

Lemma safeI_unexpectedEnd {A} : safeI (@unexpectedEnd A).
Proof. by intros l H. Qed.

Lemma safeI_outOfFuel {A} : safeI (@outOfFuel A).
Proof. by intros l H. Qed.

Lemma safeI_bind {A B} (m : P A) (k : A -> P B) :
  safeI m -> keepsI I m -> (forall a, safeI (k a)) -> safeI (bind m k).
Proof.
  intros Hm Hkeeps Hk l HI. unfold bind. specialize (Hm l HI).
  destruct (m l) as [a l1|f l1|] eqn:E; [|done..].
  apply Hk. by eapply Hkeeps.
Qed.

Lemma safeI_lexNext : safeI lexNext.
Proof.
  intros l HI. unfold lexNext, next. cbn [gen].
  destruct (finished (gen l)) eqn:Ef.
  - by rewrite (genNext_finished _ Ef).
  - by destruct (genNext_running _ (I_cursor l HI) Ef) as (token & g' & -> & _).
Qed.

Lemma safeI_lexPeek : safeI lexPeek.
Proof. by intros l HI. Qed.

Lemma safeI_lexCurrent : safeI lexCurrent.
Proof. by intros l HI. Qed.

Lemma safeI_lexAtEOF : safeI lexAtEOF.
Proof.
  intros l HI. unfold lexAtEOF, lexIsEOF.
  destruct (I_cursor l HI) as (below & top & Htop).
  by rewrite (isEOF_onTop _ _ _ Htop).
Qed.

Ltac safeI_step :=
  first
    [ apply safeI_ret | apply safeI_unexpectedToken | apply safeI_unexpectedEnd
    | apply safeI_outOfFuel
    | apply safeI_lexNext | apply safeI_lexPeek | apply safeI_lexCurrent
    | apply safeI_lexAtEOF
    | apply keepsI_lexNext; exact I_next
    | apply keepsI_lexPeek | apply keepsI_lexCurrent | apply keepsI_lexAtEOF
    | apply keepsI_ret
    | apply safeI_bind; [| |intros ?]
    | match goal with
      | |- safeI (if ?b then _ else _) => destruct b
      | |- safeI (match ?x with _ => _ end) => destruct x
      | |- keepsI _ (if ?b then _ else _) => destruct b
      end ].

Lemma safeI_skipWhitespace (fuel : nat) (includeNewline : bool) :
  safeI (skipWhitespace fuel includeNewline).
Proof.
  induction fuel as [|fuel IH]; simpl; [apply safeI_outOfFuel|].
  apply safeI_bind; [apply safeI_lexNext|by apply keepsI_lexNext|].
  intros result.
  destruct (value result) as [token|]; [|apply safeI_unexpectedEnd].
  destruct (negb _ && _); [apply safeI_ret|exact IH].
Qed.

Lemma safeI_parseStringLoop (fuel : nat) (currentToken : option Token)
    (contents : string) :
  safeI (parseStringLoop fuel currentToken contents).
Proof.
  revert currentToken contents.
  induction fuel as [|fuel IH]; intros currentToken contents.
  - destruct currentToken as [[]|]; simpl;
      first [apply safeI_ret|apply safeI_outOfFuel].
  - destruct currentToken as [[]|]; simpl; try apply safeI_ret;
      (apply safeI_bind; [apply safeI_lexNext|by apply keepsI_lexNext|];
       intros result; apply IH).
Qed.

Lemma safeI_parseString (fuel : nat) (firstToken : Token) :
  safeI (parseString fuel firstToken).
Proof.
  destruct firstToken; try apply safeI_unexpectedToken.
  apply safeI_parseStringLoop.
Qed.

Lemma safeI_parseEscapedCharacter (firstToken : Token) :
  safeI (parseEscapedCharacter firstToken).
Proof.
  unfold parseEscapedCharacter.
  destruct firstToken; repeat safeI_step.
Qed.

Lemma safeI_parseExpression (firstToken : Token) :
  safeI (parseExpression firstToken).
Proof.
  unfold parseExpression.
  destruct firstToken; repeat safeI_step.
Qed.

Lemma safeI_parseEnclosedTextNodeWith
    (rec : option Token -> option ascii -> option ascii -> nat
           -> P (list TextNodeChild))
    (firstToken : Token) (disallowTextString : bool) :
  (forall first enclosedEnd start count,
     safeI (rec first enclosedEnd start count)) ->
  (forall first enclosedEnd start count,
     keepsI I (rec first enclosedEnd start count)) ->
  safeI (parseEnclosedTextNodeWith rec firstToken disallowTextString).
Proof.
  intros Hrec Hkeeps. unfold parseEnclosedTextNodeWith.
  destruct firstToken; repeat first [apply Hrec|apply Hkeeps|safeI_step].
Qed.

Lemma safeI_parseChildrenLoop (fuel : nat) (enclosedEnd start : option ascii)
    (count : nat) (children : list TextNodeChild)
    (currentToken : option Token) :
  safeI (parseChildrenLoop fuel enclosedEnd start count children currentToken).
Proof.
  revert enclosedEnd start count children currentToken.
  induction fuel as [|fuel IH];
    intros enclosedEnd start count children currentToken.
  - destruct currentToken as [token|]; simpl; [|apply safeI_ret].
    destruct (negb _); [apply safeI_ret|apply safeI_outOfFuel].
  - destruct currentToken as [token|]; [|apply safeI_ret].
    cbn [parseChildrenLoop].
    destruct (negb _); [apply safeI_ret|].
    assert (forall first enclosedEnd' start' count',
              safeI (match first with
                     | None => unexpectedEnd
                     | Some _ =>
                         parseChildrenLoop fuel enclosedEnd' start' count' []
                           first
                     end)) as Hnested.
    { intros [first|] ? ? ?; [apply IH|apply safeI_unexpectedEnd]. }
    assert (forall first enclosedEnd' start' count',
              keepsI I (match first with
                        | None => unexpectedEnd
                        | Some _ =>
                            parseChildrenLoop fuel enclosedEnd' start' count' []
                              first
                        end)) as Hkeeps.
    { intros [first|] ? ? ?;
        [by apply keepsI_parseChildrenLoop|apply keepsI_fail]. }
    destruct token as [text r|text r|r|e r|c r|r|n r];
      repeat first
        [ apply IH
        | apply safeI_parseString
        | apply safeI_parseEscapedCharacter
        | apply safeI_parseExpression
        | apply safeI_parseEnclosedTextNodeWith; [exact Hnested|exact Hkeeps]
        | apply keepsI_parseString; exact I_next
        | apply keepsI_parseEscapedCharacter; exact I_next
        | apply keepsI_parseExpression; exact I_next
        | apply keepsI_parseEnclosedTextNodeWith; [exact I_next|exact Hkeeps]
        | safeI_step ].
Qed.

Lemma safeI_parseTextNodeChildren (fuel : nat) (firstToken : option Token)
    (enclosedEnd start : option ascii) (count : nat) :
  safeI (parseTextNodeChildren fuel firstToken enclosedEnd start count).
Proof.
  destruct firstToken;
    [apply safeI_parseChildrenLoop|apply safeI_unexpectedEnd].
Qed.

Lemma safeI_parseEnclosedTextNode (fuel : nat) (firstToken : Token)
    (disallowTextString : bool) :
  safeI (parseEnclosedTextNode fuel firstToken disallowTextString).
Proof.
  apply safeI_parseEnclosedTextNodeWith; intros.
  - apply safeI_parseTextNodeChildren.
  - by apply keepsI_parseTextNodeChildren.
Qed.

Lemma safeI_parseTextNode (fuel : nat) (firstToken : Token) :
  safeI (parseTextNode fuel firstToken).
Proof.
  unfold parseTextNode.
  destruct firstToken;
    repeat first [apply safeI_parseTextNodeChildren
                 |apply safeI_parseEnclosedTextNode
                 |apply keepsI_parseTextNodeChildren; exact I_next
                 |apply keepsI_parseEnclosedTextNode; exact I_next
                 |safeI_step].
Qed.

Lemma safeI_parseDialogue (fuel : nat) (firstToken : Token) :
  safeI (parseDialogue fuel firstToken).
Proof.
  unfold parseDialogue.
  destruct firstToken;
    repeat first [apply safeI_skipWhitespace|apply safeI_parseTextNode
                 |apply keepsI_skipWhitespace; exact I_next
                 |apply keepsI_parseTextNode; exact I_next
                 |apply keepsI_bind; [|intros ?]
                 |safeI_step].
Qed.

Lemma safeI_parseOptions (fuel : nat) (options : list AssignmentChoiceNode) :
  safeI (parseOptions fuel options).
Proof.
  revert options. induction fuel as [|fuel IH]; intros options; simpl;
    [apply safeI_outOfFuel|].
  repeat first [apply IH|apply safeI_skipWhitespace
               |apply safeI_parseEnclosedTextNode
               |apply keepsI_skipWhitespace; exact I_next
               |apply keepsI_parseEnclosedTextNode; exact I_next
               |by intros l HI
               |safeI_step].
Qed.

End Safe.

Lemma oneCursor_cursor (l : Lex) : oneCursor l -> hasCursor (gen l).
Proof. intros [c Hc]. by exists [], c. Qed.

Lemma looking_cursor (i : nat) (fin : bool) (saved : list IteratorResult)
    (l : Lex) :
  looking i fin saved l -> hasCursor (gen l).
Proof. intros ((c & c' & Hc & _) & _). by exists [c], c'. Qed.

(** The lookahead of a statement, step by step: what is left to do after
    [pushCurrent()] and [skipWhitespace]. *)
Definition afterLookahead (fuel : nat) (key : string) (range : Range)
    (nextToken : Token) : P StatementNode :=
  if negb (assigns nextToken) then
    lexPopCurrent;;
    parseDialogue fuel (Variable_ key range)
  else
    lexShiftLast;;
    lexNext;;
    if isCharacter nextToken "?" then
      let* options := parseOptions fuel [] in
      ret (AssignmentSelect key options)
    else
      let* token := skipWhitespace fuel false in
      let* value := parseTextNode fuel token in
      ret (Assignment key value (isCharacter nextToken "<")).

Lemma afterLookahead_cursors (fuel : nat) (key : string) (range : Range)
    (nextToken : Token) (i : nat) (fin : bool) (saved : list IteratorResult)
    (peaked0 current0 : IteratorResult) (l : Lex) :
  looking i fin (saved ++ [peaked0; current0]) l ->
  noTypeError (afterLookahead fuel key range nextToken l) = true
  /\ forall node l', afterLookahead fuel key range nextToken l = Parsed node l' ->
       oneCursor l'.
Proof.
  intros Hlook. unfold afterLookahead.
  destruct (negb (assigns nextToken)).
  - destruct (popCurrent_looking _ _ _ _ _ _ Hlook)
      as (l1 & c & Hpop & Hc & _).
    assert ((lexPopCurrent;; parseDialogue fuel (Variable_ key range)) l
            = parseDialogue fuel (Variable_ key range) l1) as ->.
    { unfold bind, lexPopCurrent. by rewrite Hpop. }
    assert (oneCursor l1) as H1 by (by exists c).
    split.
    + by apply (safeI_parseDialogue oneCursor single_next oneCursor_cursor).
    + intros node l'. by apply (keepsI_parseDialogue oneCursor single_next).
  - destruct (shiftLast_looking _ _ _ _ Hlook) as (l1 & Hshift & H1 & _).
    set (rest := if isCharacter nextToken "?"
                 then let* options := parseOptions fuel [] in
                      ret (AssignmentSelect key options)
                 else let* token := skipWhitespace fuel false in
                      let* value := parseTextNode fuel token in
                      ret (Assignment key value (isCharacter nextToken "<"))).
    assert ((lexShiftLast;; lexNext;; rest) l = (lexNext;; rest) l1) as ->.
    { unfold bind at 1. unfold lexShiftLast. by rewrite Hshift. }
    unfold rest.
    assert (safeI oneCursor
              (if isCharacter nextToken "?"
               then let* options := parseOptions fuel [] in
                    ret (AssignmentSelect key options)
               else let* token := skipWhitespace fuel false in
                    let* value := parseTextNode fuel token in
                    ret (Assignment key value (isCharacter nextToken "<"))))
      as Hsafe.
    { destruct (isCharacter nextToken "?").
      - apply safeI_bind;
          [by apply safeI_parseOptions; [apply single_next|apply oneCursor_cursor]
          |by apply keepsI_parseOptions; apply single_next
          |intros; apply safeI_ret].
      - apply safeI_bind;
          [by apply safeI_skipWhitespace;
             [apply single_next|apply oneCursor_cursor]
          |by apply keepsI_skipWhitespace; apply single_next|].
        intros token. apply safeI_bind;
          [by apply safeI_parseTextNode;
             [apply single_next|apply oneCursor_cursor]
          |by apply keepsI_parseTextNode; apply single_next
          |intros; apply safeI_ret]. }
    assert (keepsI oneCursor
              (if isCharacter nextToken "?"
               then let* options := parseOptions fuel [] in
                    ret (AssignmentSelect key options)
               else let* token := skipWhitespace fuel false in
                    let* value := parseTextNode fuel token in
                    ret (Assignment key value (isCharacter nextToken "<"))))
      as Hkeeps.
    { destruct (isCharacter nextToken "?").
      - apply keepsI_bind;
          [by apply keepsI_parseOptions; apply single_next
          |intros; apply keepsI_ret].
      - apply keepsI_bind;
          [by apply keepsI_skipWhitespace; apply single_next|].
        intros token. apply keepsI_bind;
          [by apply keepsI_parseTextNode; apply single_next
          |intros; apply keepsI_ret]. }
    split.
    + apply (safeI_bind oneCursor lexNext); [| |by intros|done].
      * apply safeI_lexNext. apply oneCursor_cursor.
      * apply keepsI_lexNext. apply single_next.
    + intros node l'.
      apply (keepsI_bind oneCursor lexNext); [|by intros|done].
      apply keepsI_lexNext. apply single_next.
Qed.

Lemma parsePossibleAssignment_cursors (fuel : nat) (firstToken : Token)
    (l : Lex) :
  oneCursor l ->
  noTypeError (parsePossibleAssignment fuel firstToken l) = true
  /\ forall node l',
       parsePossibleAssignment fuel firstToken l = Parsed node l' ->
       oneCursor l'.
Proof.
  intros [c Hc].
  destruct firstToken as [| | | | | |key range]; try done.
  change (parsePossibleAssignment fuel (Variable_ key range))
    with (lexPushCurrent;;
          let* nextToken := skipWhitespace fuel true in
          afterLookahead fuel key range nextToken).
  destruct (pushCurrent_single l c Hc) as (l1 & Hpush & Hlook & _).
  assert ((lexPushCurrent;;
           let* nextToken := skipWhitespace fuel true in
           afterLookahead fuel key range nextToken) l
          = match skipWhitespace fuel true l1 with
            | Parsed nextToken l2 => afterLookahead fuel key range nextToken l2
            | Failed f l2 => Failed f l2
            | OutOfFuel => OutOfFuel
            end) as ->.
  { unfold bind at 1. unfold lexPushCurrent. by rewrite Hpush. }
  pose proof (safeI_skipWhitespace _ (looking_next _ _ _)
                (looking_cursor _ _ _) fuel true l1 Hlook) as Hsafe.
  destruct (skipWhitespace fuel true l1) as [nextToken l2|f l2|] eqn:Eskip;
    [|done..].
  pose proof (keepsI_skipWhitespace _ (looking_next _ _ _) fuel true
                _ _ _ Hlook Eskip) as Hlook2.
  exact (afterLookahead_cursors fuel key range nextToken _ _ _ _ _ l2 Hlook2).
Qed.

Lemma parseStatements_cursors (fuel : nat)
    (documentContents : list StatementNode) (l : Lex) :
  oneCursor l ->
  noTypeError (parseStatements fuel documentContents l) = true.
Proof.
  revert documentContents l.
  induction fuel as [|fuel IH]; intros documentContents l Hone; [done|].
  cbn [parseStatements]. unfold bind at 1.
  pose proof (safeI_lexAtEOF oneCursor oneCursor_cursor l Hone) as Heof.
  destruct (lexAtEOF l) as [eof l0|f l0|] eqn:Eeof; [|done..].
  pose proof (keepsI_lexAtEOF oneCursor _ _ _ Hone Eeof) as Hone0.
  destruct eof; [done|]. unfold bind at 1.
  pose proof (safeI_skipWhitespace oneCursor single_next oneCursor_cursor
                fuel true l0 Hone0) as Hskip.
  destruct (skipWhitespace fuel true l0) as [token l1|f l1|] eqn:Eskip;
    [|done..].
  pose proof (keepsI_skipWhitespace oneCursor single_next fuel true
                _ _ _ Hone0 Eskip) as Hone1.
  assert (noTypeError
            (bind (parseDialogue fuel token)
               (fun node => parseStatements fuel (documentContents ++ [node]))
               l1) = true) as Hdialogue.
  { unfold bind.
    pose proof (safeI_parseDialogue oneCursor single_next oneCursor_cursor
                  fuel token l1 Hone1) as Hd.
    destruct (parseDialogue fuel token l1) as [node l2|f l2|] eqn:Ed;
      [|done..].
    apply IH.
    exact (keepsI_parseDialogue oneCursor single_next fuel token _ _ _
             Hone1 Ed). }
  destruct token; try done.
  unfold bind.
  destruct (parsePossibleAssignment_cursors fuel (Variable_ name range) l1
              Hone1) as [Hp Hkeeps].
  destruct (parsePossibleAssignment fuel (Variable_ name range) l1)
    as [node l2|f l2|] eqn:Ep; [|done..].
  apply IH. by apply (Hkeeps node).
Qed.

(** X19. The lookahead of the parser never runs out of cursors or of
    saved results: on every input, with any fuel, [parse] does not raise
    the [TypeError] of a lexer that reads a cursor it does not have; what
    it raises is a [ParseError] or the error of the guarded options. *)
Theorem parse_raises_no_TypeError (input : string) (fuel : nat) :
  noTypeError (parse fuel (lex input)) = true.
Proof.
  unfold parse, bind.
  pose proof (parseStatements_cursors fuel [] (lex input) (single_lex input))
    as H.
  by destruct (parseStatements fuel [] (lex input)).
Qed.

(** X12: [parse] terminates. On every input the loops of the parser come
    to an end within [parseFuel] rounds, also when the lookahead of a
    statement has lost a token, and [parse] then returns a document, raises
    a [ParseError], or raises the plain [Error('Unimplemented')] of a
    guarded option. *)
Theorem parse_terminates (input : string) (extra : nat) :
  (exists document l,
     parse (parseFuel input + extra) (lex input) = Parsed document l)
  \/ (exists message cursors l,
        parse (parseFuel input + extra) (lex input)
        = Failed (ParseError message cursors) l)
  \/ (exists l,
        parse (parseFuel input + extra) (lex input) = Failed Unimplemented l).
Proof.
  pose proof (parse_returns input extra) as Hreturns.
  assert (noTypeError (parse (parseFuel input + extra) (lex input)) = true)
    as Hsafe.
  { unfold parse, bind.
    pose proof (parseStatements_cursors (parseFuel input + extra) []
                  (lex input) (single_lex input)) as H.
    by destruct (parseStatements (parseFuel input + extra) [] (lex input)). }
  destruct (parse (parseFuel input + extra) (lex input))
    as [document l|[message cursors| |] l|]; try done.
  - left. by exists document, l.
  - right. left. by exists message, cursors, l.
  - right. right. by exists l.
Qed.

End ParserSafety.

Module TextNodes.
Import Lexer AST Parser ParserProps.

(** *** The strings of a text *)

Definition isString (child : TextNodeChild) : bool :=
  match child with String_ _ => true | _ => false end.

(** No string is next to a string. *)
Fixpoint apart (children : list TextNodeChild) : bool :=
  match children with
  | [] => true
  | a :: rest =>
      match rest with
      | b :: _ => negb (isString a && isString b)
      | [] => true
      end && apart rest
  end.

(** The same of every node under the child. *)
Fixpoint normal (child : TextNodeChild) : bool :=
  match child with
  | Text contents _ | Script contents =>
      apart contents && forallb normal contents
  | String_ _ | Expression _ => true
  end.

Definition tidy (children : list TextNodeChild) : bool :=
  apart children && forallb normal children.

Definition normalText (node : TextNode) : bool := tidy (textContents node).

Definition normalStatement (node : StatementNode) : bool :=
  match node with
  | Dialogue _ contents => normalText contents
  | Assignment _ value _ => normalText value
  | AssignmentSelect _ options =>
      forallb (fun '(AssignmentChoice (ChoiceValue prompt _)) =>
                 normalText prompt) options
  end.

Definition normalDocument (document : DocumentNode) : bool :=
  let '(Document contents) := document in forallb normalStatement contents.

Lemma apart_snoc (children : list TextNodeChild) (child : TextNodeChild) :
  apart (children ++ [child])
  = apart children
    && negb (match last children with
             | Some a => isString a && isString child
             | None => false
             end).
Proof.
  induction children as [|a [|b rest] IH].
  - reflexivity.
  - simpl. by rewrite !andb_true_r.
  - change (apart ((a :: b :: rest) ++ [child]))
      with (negb (isString a && isString b) && apart ((b :: rest) ++ [child])).
    rewrite IH.
    change (apart (a :: b :: rest))
      with (negb (isString a && isString b) && apart (b :: rest)).
    change (last (a :: b :: rest)) with (last (b :: rest)).
    by rewrite andb_assoc.
Qed.

Lemma tidy_snoc (children : list TextNodeChild) (child : TextNodeChild) :
  tidy (children ++ [child])
  = tidy children && normal child
    && negb (match last children with
             | Some a => isString a && isString child
             | None => false
             end).
Proof.
  unfold tidy. rewrite apart_snoc, forallb_app. simpl.
  rewrite andb_true_r.
  by destruct (apart children), (forallb normal children), (normal child),
    (negb _).
Qed.

(** [pushChild] keeps the strings apart: this is what the merge is for. *)
Lemma pushChild_tidy (children : list TextNodeChild) (child : TextNodeChild) :
  tidy children = true -> normal child = true ->
  tidy (pushChild children child) = true.
Proof.
  intros Ht Hn. unfold pushChild.
  destruct children as [|a children _] using rev_ind.
  { destruct child; simpl in *; unfold tidy; simpl; by rewrite ?Hn. }
  rewrite last_snoc.
  rewrite tidy_snoc in Ht.
  apply andb_true_iff in Ht as [Ht Hlast].
  apply andb_true_iff in Ht as [Ht Ha].
  destruct child as [contents enclosed|contents|key|contents].
  1,3,4: rewrite !tidy_snoc, Ht, Ha, Hn, Hlast, last_snoc; simpl;
    by rewrite andb_false_r.
  destruct a as [c e|lastContents|k|c].
  1,3,4: rewrite !tidy_snoc, Ht, Ha, Hlast, last_snoc; reflexivity.
  rewrite removelast_last, tidy_snoc, Ht. simpl.
  destruct (last children) as [b|]; [|done].
  simpl in Hlast. by rewrite andb_true_r in *.
Qed.

(** What a parser returns, when it returns. *)
Definition yields {A} (Q : A -> Prop) (m : P A) : Prop :=
  forall l a l', m l = Parsed a l' -> Q a.

Lemma yields_ret {A} (Q : A -> Prop) (a : A) : Q a -> yields Q (ret a).
Proof. intros H l a' l' [= <- _]. exact H. Qed.

Lemma yields_fail {A} (Q : A -> Prop) (f : Failure) : yields Q (fail f).
Proof. intros l a l' [=]. Qed.

Lemma yields_outOfFuel {A} (Q : A -> Prop) : yields Q outOfFuel.
Proof. intros l a l' [=]. Qed.

Lemma yields_bind {A B} (R : A -> Prop) (Q : B -> Prop) (m : P A)
    (k : A -> P B) :
  yields R m -> (forall a, R a -> yields Q (k a)) -> yields Q (bind m k).
Proof.
  intros Hm Hk l b l'. unfold bind.
  destruct (m l) as [a l1|f l1|] eqn:E; [|discriminate..].
  apply (Hk a (Hm _ _ _ E)).
Qed.

Lemma yields_then {A B} (Q : B -> Prop) (m : P A) (k : A -> P B) :
  (forall a, yields Q (k a)) -> yields Q (bind m k).
Proof.
  intros Hk. apply (yields_bind (fun _ => True)); [done|]. intros a _. apply Hk.
Qed.

Definition normalChild (child : TextNodeChild) : Prop := normal child = true.

Definition tidyChildren (children : list TextNodeChild) : Prop :=
  tidy children = true.

Lemma yields_parseStringLoop fuel currentToken contents :
  yields normalChild (parseStringLoop fuel currentToken contents).
Proof.
  revert currentToken contents. induction fuel as [|fuel IH];
    intros [[]|] contents; simpl;
    try (by apply yields_ret); try apply yields_outOfFuel;
    apply yields_then; intros; apply IH.
Qed.

Lemma yields_parseString fuel firstToken :
  yields normalChild (parseString fuel firstToken).
Proof.
  destruct firstToken; try apply yields_fail. apply yields_parseStringLoop.
Qed.

Lemma yields_parseEscapedCharacter firstToken :
  yields normalChild (parseEscapedCharacter firstToken).
Proof.
  destruct firstToken; try apply yields_fail.
  apply yields_then. intros [[]|];
    repeat (apply yields_then; intros); try (by apply yields_ret).
  apply yields_fail.
Qed.

Lemma yields_parseExpression firstToken :
  yields normalChild (parseExpression firstToken).
Proof.
  destruct firstToken; try apply yields_fail.
  apply yields_then. intros. by apply yields_ret.
Qed.

Lemma yields_parseEnclosedTextNodeWith nested firstToken disallowTextString :
  (forall token enclosedEnd start count,
     yields tidyChildren (nested token enclosedEnd start count)) ->
  yields normalChild
    (parseEnclosedTextNodeWith nested firstToken disallowTextString).
Proof.
  intros Hnested. destruct firstToken; try apply yields_fail. simpl.
  destruct (disallowTextString && isQuote enclosure).
  { apply yields_then. intros. by apply yields_ret. }
  destruct (Ascii.eqb enclosure "{").
  all: apply yields_then; intros result;
    apply (yields_bind tidyChildren); [apply Hnested|];
    intros contents Hc; apply yields_ret; exact Hc.
Qed.

Lemma yields_parseChildrenLoop fuel enclosedEnd start count children
    currentToken :
  tidy children = true ->
  yields tidyChildren
    (parseChildrenLoop fuel enclosedEnd start count children currentToken).
Proof.
  revert enclosedEnd start count children currentToken.
  induction fuel as [|fuel IH];
    intros enclosedEnd start count children [token|] Ht;
    try (by apply yields_ret).
  - simpl. destruct (negb (inText enclosedEnd token));
      [by apply yields_ret|apply yields_outOfFuel].
  - cbn [parseChildrenLoop].
    destruct (negb (inText enclosedEnd token)); [by apply yields_ret|].
    assert (forall child, normal child = true ->
              yields tidyChildren
                (let* result := lexCurrent in
                 parseChildrenLoop fuel enclosedEnd start count
                   (pushChild children child) (value result))) as Hcurrent.
    { intros child Hn. apply yields_then. intros result.
      apply IH. by apply pushChild_tidy. }
    assert (forall count text,
              yields tidyChildren
                (let* result := lexNext in
                 parseChildrenLoop fuel enclosedEnd start count
                   (pushChild children (String_ text)) (value result)))
      as Hnext.
    { intros count' text. apply yields_then. intros result.
      apply IH. by apply pushChild_tidy. }
    destruct token.
    + apply (yields_bind normalChild); [apply yields_parseString|].
      exact Hcurrent.
    + apply Hnext.
    + apply Hnext.
    + destruct (sameEnclosure enclosure enclosedEnd).
      { destruct count as [|count']; [|apply Hnext].
        apply yields_then. intros. by apply yields_ret. }
      destruct (sameEnclosure enclosure start); [apply Hnext|].
      apply (yields_bind normalChild); [|exact Hcurrent].
      apply yields_parseEnclosedTextNodeWith.
      intros [t|] e s c; [|apply yields_fail]. by apply IH.
    + destruct (Ascii.eqb character "\").
      * apply (yields_bind normalChild);
          [apply yields_parseEscapedCharacter|exact Hcurrent].
      * apply Hnext.
    + by apply yields_ret.
    + apply (yields_bind normalChild);
        [apply yields_parseExpression|exact Hcurrent].
Qed.

Lemma yields_parseTextNodeChildren fuel firstToken enclosedEnd start count :
  yields tidyChildren
    (parseTextNodeChildren fuel firstToken enclosedEnd start count).
Proof.
  destruct firstToken; [|apply yields_fail].
  by apply yields_parseChildrenLoop.
Qed.

Lemma yields_parseEnclosedTextNode fuel firstToken disallowTextString :
  yields normalChild (parseEnclosedTextNode fuel firstToken disallowTextString).
Proof.
  apply yields_parseEnclosedTextNodeWith. intros.
  apply yields_parseTextNodeChildren.
Qed.

Definition normalNode (node : TextNode) : Prop := normalText node = true.

Lemma yields_parseTextNode fuel firstToken :
  yields normalNode (parseTextNode fuel firstToken).
Proof.
  destruct firstToken; unfold parseTextNode; try apply yields_fail;
    try (by apply yields_ret).
  1,3,4: apply (yields_bind tidyChildren);
    [apply yields_parseTextNodeChildren|];
    intros contents Hc; by apply yields_ret.
  apply (yields_bind normalChild); [apply yields_parseEnclosedTextNode|].
  intros child Hc. apply yields_ret.
  unfold normalNode, normalText, tidy. simpl. unfold normalChild in Hc.
  by rewrite Hc.
Qed.

Definition normalNode' (node : StatementNode) : Prop :=
  normalStatement node = true.

Lemma yields_parseDialogue fuel firstToken :
  yields normalNode' (parseDialogue fuel firstToken).
Proof.
  destruct firstToken; try apply yields_fail.
  all: apply yields_then; intros peaked; apply yields_then; intros _;
    apply yields_then; intros token;
    apply (yields_bind normalNode); [apply yields_parseTextNode|];
    intros contents Hc; by apply yields_ret.
Qed.

Definition normalOptions (options : list AssignmentChoiceNode) : Prop :=
  normalStatement (AssignmentSelect "" options) = true.

Lemma yields_parseOptions fuel options :
  normalStatement (AssignmentSelect "" options) = true ->
  yields normalOptions (parseOptions fuel options).
Proof.
  revert options. induction fuel as [|fuel IH]; intros options Ho;
    [apply yields_outOfFuel|].
  cbn [parseOptions]. apply yields_then. intros [|]; [by apply yields_ret|].
  apply yields_then. intros current.
  destruct current; try apply yields_fail.
  destruct (bool_decide (text = "if")); [apply yields_fail|].
  apply yields_then. intros _. apply yields_then. intros next.
  destruct next; try apply yields_fail.
  destruct (isQuote enclosure); [|apply yields_fail].
  apply (yields_bind normalChild); [apply yields_parseEnclosedTextNode|].
  intros prompt Hp. destruct prompt; try apply yields_fail.
  apply yields_then. intros nextLine.
  assert (normalStatement
            (AssignmentSelect ""
               (options ++ [AssignmentChoice
                              (ChoiceValue (mkTextNode contents enclosed) text)]))
          = true) as Ho'.
  { simpl in *. rewrite forallb_app, Ho. simpl.
    unfold normalText, tidy. simpl. by rewrite Hp. }
  destruct (isCharacter nextLine "?"); [by apply IH|by apply yields_ret].
Qed.

Lemma yields_parsePossibleAssignment fuel firstToken :
  yields normalNode' (parsePossibleAssignment fuel firstToken).
Proof.
  destruct firstToken; try apply yields_fail.
  unfold parsePossibleAssignment.
  apply yields_then. intros _. apply yields_then. intros nextToken.
  destruct (negb (assigns nextToken)).
  { apply yields_then. intros _. apply yields_parseDialogue. }
  apply yields_then. intros _. apply yields_then. intros _.
  destruct (isCharacter nextToken "?").
  - apply (yields_bind normalOptions); [by apply yields_parseOptions|].
    intros options Ho. by apply yields_ret.
  - apply yields_then. intros token.
    apply (yields_bind normalNode); [apply yields_parseTextNode|].
    intros value Hv. by apply yields_ret.
Qed.

Lemma yields_parseStatements fuel documentContents :
  forallb normalStatement documentContents = true ->
  yields (fun contents => forallb normalStatement contents = true)
    (parseStatements fuel documentContents).
Proof.
  revert documentContents. induction fuel as [|fuel IH];
    intros documentContents Hd; [apply yields_outOfFuel|].
  cbn [parseStatements]. apply yields_then. intros [|]; [by apply yields_ret|].
  apply yields_then. intros token.
  assert (forall node, normalStatement node = true ->
            forallb normalStatement (documentContents ++ [node]) = true)
    as Hsnoc.
  { intros node Hn. rewrite forallb_app, Hd. simpl. by rewrite Hn. }
  destruct token; try (by apply yields_ret).
  all: try (apply (yields_bind normalNode'); [apply yields_parseDialogue|];
            intros node Hn; apply IH, Hsnoc, Hn).
  apply (yields_bind normalNode'); [apply yields_parsePossibleAssignment|].
  intros node Hn. apply IH, Hsnoc, Hn.
Qed.

(** X15. [pushChild] merges: in a document that [parse] returns no text,
    at any depth, has two strings next to each other, whatever tokens the
    lexer gave; a run of words, whitespace and special characters is one
    string. *)
Theorem parse_merges_strings (fuel : nat) (l l' : Lex)
    (document : DocumentNode) :
  parse fuel l = Parsed document l' -> normalDocument document = true.
Proof.
  revert l document l'. change (yields (fun d => normalDocument d = true) (parse fuel)).
  unfold parse.
  apply (yields_bind (fun contents => forallb normalStatement contents = true));
    [by apply yields_parseStatements|].
  intros contents Hc. by apply yields_ret.
Qed.

(** The script [Bob: Hi *there* $x]. *)
Definition hiThere : DocumentNode :=
  Document [Dialogue (Some "Bob")
              (mkTextNode [String_ "Hi *there* "; Expression "x"] None)].

Lemma parse_merges_strings_witness :
  (exists l', parse 40 (lex "Bob: Hi *there* $x") = Parsed hiThere l')
  /\ normalDocument hiThere = true.
Proof.
  split; [eexists; vm_compute; reflexivity|].
  eapply (parse_merges_strings 40 (lex "Bob: Hi *there* $x")).
  vm_compute. reflexivity.
Defined.

End TextNodes.

Module SymbolTables.
Import AST Compiler LoweringProps EncoderProps DataViewProps.

(** *** The tables of names *)

(** A table as [getCharacterId], [getStringId] and [getVariableId] fill
    it: the ids are the numbers from 0 up to the next id, in the order of
    insertion, and no name is there twice. *)
Definition interned (next : Z) (table : NameMap) : Prop :=
  0 <= next /\ map snd table = seqZ 0 next /\ NoDup (map fst table).

Definition wfState (state : CompilerState) : Prop :=
  interned (characterIdNext state) (characters state)
  /\ interned (stringIdNext state) (strings state)
  /\ interned (variableIdNext state) (variables state).

Lemma mapGet_None (table : NameMap) (name : string) :
  mapGet table name = None <-> ~ In name (map fst table).
Proof.
  induction table as [|[k v] table IH]; simpl; [tauto|].
  destruct (decide (k = name)); [split; [done|tauto]|].
  rewrite IH. tauto.
Qed.

Lemma mapGet_Some (table : NameMap) (name : string) (id : Z) :
  mapGet table name = Some id -> In (name, id) table.
Proof.
  induction table as [|[k v] table IH]; simpl; [done|].
  destruct (decide (k = name)) as [->|]; [intros [= ->]; by left|].
  intros H. right. by apply IH.
Qed.

Lemma mapSet_new (table : NameMap) (name : string) (id : Z) :
  mapGet table name = None -> mapSet table name id = table ++ [(name, id)].
Proof.
  induction table as [|[k v] table IH]; simpl; [done|].
  destruct (decide (k = name)); [done|]. intros H. by rewrite IH.
Qed.

Lemma interned_empty : interned 0 [].
Proof. split; [lia|]. split; [reflexivity|constructor]. Qed.

Lemma interned_new (next : Z) (table : NameMap) (name : string) :
  interned next table -> mapGet table name = None ->
  interned (next + 1) (mapSet table name next).
Proof.
  intros (Hnext & Hids & Hnames) Hnew. rewrite (mapSet_new _ _ _ Hnew).
  split; [lia|]. rewrite !map_app. simpl. split.
  - rewrite Hids, seqZ_app by lia. f_equal.
  - apply NoDup_app. repeat split.
    + done.
    + intros x Hx [->|[]]%list_elem_of_In. apply mapGet_None in Hnew.
      apply Hnew. by apply list_elem_of_In.
    + apply NoDup_singleton.
Qed.

Lemma interned_id (next : Z) (table : NameMap) (name : string) (id : Z) :
  interned next table -> mapGet table name = Some id -> 0 <= id < next.
Proof.
  intros (Hnext & Hids & _) H%mapGet_Some.
  assert (In id (map snd table)) as Hin by (apply (in_map snd) in H; exact H).
  rewrite Hids in Hin. apply list_elem_of_In, elem_of_seqZ in Hin. lia.
Qed.

(** The next ids of [state'] are not below those of [state]. *)
Definition grown (state state' : CompilerState) : Prop :=
  characterIdNext state <= characterIdNext state'
  /\ stringIdNext state <= stringIdNext state'
  /\ variableIdNext state <= variableIdNext state'.

Lemma grown_refl (state : CompilerState) : grown state state.
Proof. unfold grown. lia. Qed.

Lemma grown_trans (s1 s2 s3 : CompilerState) :
  grown s1 s2 -> grown s2 s3 -> grown s1 s3.
Proof. unfold grown. lia. Qed.

(** The ids an operation of [compileIR] refers to were given out. *)
Definition known (state : CompilerState) (irOp : IR) : Prop :=
  match irOp with
  | ReadStrOp id => 0 <= id < stringIdNext state
  | SetCharacterOp id => 0 <= id < characterIdNext state
  | ReadVariableOp id | SetVariableOp id => 0 <= id < variableIdNext state
  | JumpOp _ | SetVariableNameOp _ | LabelIR _ => False
  | _ => True
  end.

Lemma known_grown (state state' : CompilerState) (irOp : IR) :
  grown state state' -> known state irOp -> known state' irOp.
Proof. unfold grown. destruct irOp; simpl; lia. Qed.

(** What every function of the lowering keeps. *)
Definition lowers (f : CompilerState -> list IR * CompilerState) : Prop :=
  forall state, wfState state ->
    wfState (snd (f state)) /\ grown state (snd (f state))
    /\ Forall (known (snd (f state))) (fst (f state)).

Lemma lowers_seq (f g : CompilerState -> list IR * CompilerState) :
  lowers f -> lowers g ->
  lowers (fun state =>
            let '(ir, state) := f state in
            let '(rest, state) := g state in
            (ir ++ rest, state)).
Proof.
  intros Hf Hg state Hwf. destruct (Hf state Hwf) as (Hwf1 & Hg1 & Hk1).
  destruct (f state) as [ir state1]. simpl in *.
  destruct (Hg state1 Hwf1) as (Hwf2 & Hg2 & Hk2).
  destruct (g state1) as [rest state2]. simpl in *.
  split; [done|]. split; [by eapply grown_trans|].
  apply Forall_app. split; [|done].
  eapply Forall_impl; [exact Hk1|]. intros irOp. by apply known_grown.
Qed.

Lemma lowers_ops (ops : list IR) :
  Forall (known createCompiler) ops ->
  lowers (fun state => (ops, state)).
Proof.
  intros Hops state Hwf. simpl. split; [done|]. split; [apply grown_refl|].
  eapply Forall_impl; [exact Hops|]. intros irOp.
  destruct Hwf as ((? & _) & (? & _) & (? & _)).
  destruct irOp; simpl; lia.
Qed.

Lemma lowers_getStringId (text : string) :
  lowers (fun state =>
            let '(id, state) := getStringId state text in ([ReadStrOp id], state)).
Proof.
  intros state (Hc & Hs & Hv). unfold getStringId.
  destruct (mapGet (strings state) text) as [id|] eqn:E; simpl.
  - split; [done|]. split; [apply grown_refl|].
    constructor; [|constructor]. simpl. by eapply interned_id.
  - split; [split; [done|split; [by apply interned_new|done]]|].
    destruct Hs as (? & _). unfold grown. simpl.
    split; [lia|]. constructor; [simpl; lia|constructor].
Qed.

Lemma lowers_getVariableId (name : string) (op : Z -> IR) :
  (forall state id, 0 <= id < variableIdNext state -> known state (op id)) ->
  lowers (fun state =>
            let '(id, state) := getVariableId state name in ([op id], state)).
Proof.
  intros Hop state (Hc & Hs & Hv). unfold getVariableId.
  destruct (mapGet (variables state) name) as [id|] eqn:E; simpl.
  - split; [done|]. split; [apply grown_refl|].
    constructor; [|constructor]. apply Hop. by eapply interned_id.
  - split; [split; [done|split; [done|by apply interned_new]]|].
    destruct Hv as (? & _). unfold grown. simpl.
    split; [lia|]. constructor; [apply Hop; simpl; lia|constructor].
Qed.

Lemma lowers_getCharacterId (name : string) :
  lowers (fun state =>
            let '(id, state) := getCharacterId state name in
            ([SetCharacterOp id], state)).
Proof.
  intros state (Hc & Hs & Hv). unfold getCharacterId.
  destruct (mapGet (characters state) name) as [id|] eqn:E; simpl.
  - split; [done|]. split; [apply grown_refl|].
    constructor; [|constructor]. simpl. by eapply interned_id.
  - split; [split; [by apply interned_new|done]|].
    destruct Hc as (? & _). unfold grown. simpl.
    split; [lia|]. constructor; [simpl; lia|constructor].
Qed.

Lemma lowers_ext (f g : CompilerState -> list IR * CompilerState) :
  (forall state, f state = g state) -> lowers f -> lowers g.
Proof. intros H Hf state Hwf. rewrite <- H. by apply Hf. Qed.

Lemma lowers_map (f : CompilerState -> list IR * CompilerState)
    (h : list IR -> list IR) :
  lowers f ->
  (forall state ir, Forall (known state) ir -> Forall (known state) (h ir)) ->
  lowers (fun state => let '(ir, state) := f state in (h ir, state)).
Proof.
  intros Hf Hh state Hwf. destruct (Hf state Hwf) as (Hwf1 & Hg1 & Hk1).
  destruct (f state) as [ir state1]. simpl in *. auto.
Qed.

Lemma known_cons (state : CompilerState) (ops ir : list IR) :
  Forall (known createCompiler) ops -> Forall (known state) ir ->
  Forall (known state) (ops ++ ir).
Proof.
  intros Hops Hir. apply Forall_app. split; [|done].
  eapply Forall_impl; [exact Hops|].
  intros irOp. destruct irOp; simpl; intros; try done; lia.
Qed.

Lemma known_snoc (state : CompilerState) (ops ir : list IR) :
  Forall (known createCompiler) ops -> Forall (known state) ir ->
  Forall (known state) (ir ++ ops).
Proof.
  intros Hops Hir. apply Forall_app. split; [done|].
  eapply Forall_impl; [exact Hops|].
  intros irOp. destruct irOp; simpl; intros; try done; lia.
Qed.

Lemma lowers_compileChildren (contents : list TextNodeChild) :
  Forall (fun child => lowers (compileTextNodeChild child)) contents ->
  forall isFirstNode, lowers (compileChildren contents isFirstNode).
Proof.
  induction 1 as [|child contents Hchild _ IH]; intros isFirstNode.
  - intros state Hwf. simpl. split; [done|]. split; [apply grown_refl|done].
  - eapply lowers_ext; cycle 1.
    + apply lowers_seq; [exact Hchild|].
      apply (lowers_map (compileChildren contents false)
               (app (if isFirstNode then [] else [ConcatenateOp])) (IH false)).
      intros state ir. apply known_cons.
      destruct isFirstNode; repeat constructor.
    + intros state. simpl.
      destruct (compileTextNodeChild child state) as [ir state1].
      by destruct (compileChildren contents false state1).
Qed.

Lemma lowers_compileTextNodeChild (child : TextNodeChild) :
  lowers (compileTextNodeChild child).
Proof.
  induction child as [contents enclosed IH|text|key|contents IH]
    using TextNodeChild_nested_ind.
  - eapply lowers_ext; [|by apply (lowers_compileChildren contents IH true)].
    intros state. by rewrite compileTextNodeChild_Text.
  - apply lowers_getStringId.
  - apply (lowers_getVariableId key ReadVariableOp). by intros.
  - eapply lowers_ext; cycle 1.
    + apply (lowers_map (compileChildren contents true)
               (fun ir => ir ++ [EvaluateScriptOp])
               (lowers_compileChildren _ IH true)).
      intros state ir. apply known_snoc. repeat constructor.
    + intros state. rewrite compileTextNodeChild_Script. reflexivity.
Qed.

Lemma lowers_compileTextNode (node : TextNode) : lowers (compileTextNode node).
Proof.
  apply lowers_compileChildren, Forall_forall.
  intros child _. apply lowers_compileTextNodeChild.
Qed.

Lemma lowers_compileDialogue (speaker : option string) (contents : TextNode) :
  lowers (compileDialogue speaker contents).
Proof.
  eapply lowers_ext; cycle 1.
  - apply lowers_seq.
    + instantiate (1 := fun state =>
        match truthy speaker with
        | Some name =>
            let '(characterId, state) := getCharacterId state name in
            ([SetCharacterOp characterId], state)
        | None => ([], state)
        end).
      destruct (truthy speaker) as [name|]; [apply lowers_getCharacterId|].
      by apply (lowers_ops []).
    + apply (lowers_map (compileTextNode contents)
               (fun ir => ir ++ [ShowDialogueOp (textEnclosed contents)])
               (lowers_compileTextNode contents)).
      intros state ir. apply known_snoc. repeat constructor.
  - intros state. unfold compileDialogue.
    destruct (truthy speaker) as [name|].
    + destruct (getCharacterId state name) as [id state1].
      by destruct (compileTextNode contents state1).
    + by destruct (compileTextNode contents state).
Qed.

Lemma lowers_compileAssignment (key : string) (value : TextNode)
    (isPrompt : bool) :
  lowers (compileAssignment key value isPrompt).
Proof.
  eapply lowers_ext; cycle 1.
  - apply lowers_seq; [apply (lowers_compileTextNode value)|].
    apply (lowers_map _ (app (if isPrompt then [PromptOp] else []))
             (lowers_getVariableId key SetVariableOp ltac:(by intros))).
    intros state ir. apply known_cons. destruct isPrompt; repeat constructor.
  - intros state. unfold compileAssignment.
    destruct (compileTextNode value state) as [body state1].
    by destruct (getVariableId state1 key).
Qed.

Lemma lowers_compileChoiceValue (value : ChoiceValueNode) :
  lowers (compileChoiceValue value).
Proof.
  destruct value as [prompt key].
  eapply lowers_ext; cycle 1.
  - apply lowers_seq;
      [apply (lowers_compileTextNode prompt)|apply (lowers_getStringId key)].
  - intros state. unfold compileChoiceValue.
    destruct (compileTextNode prompt state) as [ir state1].
    by destruct (getStringId state1 key).
Qed.

Lemma lowers_compileOptions (options : list AssignmentChoiceNode) :
  lowers (compileOptions options).
Proof.
  induction options as [|[value] options IH].
  - by apply (lowers_ops []).
  - eapply lowers_ext; cycle 1.
    + apply lowers_seq; [apply (lowers_compileChoiceValue value)|exact IH].
    + intros state. simpl.
      destruct (compileChoiceValue value state) as [ir state1].
      by destruct (compileOptions options state1).
Qed.

Lemma lowers_compileAssignmentSelect (key : string)
    (options : list AssignmentChoiceNode) :
  lowers (compileAssignmentSelect key options).
Proof.
  eapply lowers_ext; cycle 1.
  - eapply lowers_map with (h := app [MoveRegRegOp 1 3]).
    + apply lowers_seq; [apply (lowers_compileOptions options)|].
      apply (lowers_map _ (app [SubRegRegOp 3 1 3; PickOptionOp 3])
               (lowers_getVariableId key SetVariableOp ltac:(by intros))).
      intros state ir. apply known_cons. repeat constructor.
    + intros state ir. apply known_cons. repeat constructor.
  - intros state. unfold compileAssignmentSelect.
    destruct (compileOptions options state) as [body state1].
    by destruct (getVariableId state1 key).
Qed.

Lemma lowers_compileStatements (nodes : list StatementNode) :
  lowers (compileStatements nodes).
Proof.
  induction nodes as [|node nodes IH].
  - by apply (lowers_ops []).
  - eapply lowers_ext; cycle 1.
    + apply lowers_seq; [|exact IH].
      instantiate (1 := compileStatement node).
      destruct node; [apply lowers_compileDialogue
                     |apply lowers_compileAssignment
                     |apply lowers_compileAssignmentSelect].
    + intros state. simpl.
      destruct (compileStatement node state) as [ir state1].
      by destruct (compileStatements nodes state1).
Qed.

Lemma wfState_createCompiler : wfState createCompiler.
Proof. repeat split; try apply interned_empty. Qed.

(** X10: the tables that [compileIR] leaves. In each of the three tables
    the ids are the numbers from 0 up to the next id, in the order the
    names were met, and no name is there twice: a name gets one id and two
    names never share one. *)
Theorem compileIR_interns (document : DocumentNode) :
  let state := snd (compileIR document createCompiler) in
  (map snd (characters state) = seqZ 0 (characterIdNext state)
   /\ NoDup (map fst (characters state)))
  /\ (map snd (strings state) = seqZ 0 (stringIdNext state)
      /\ NoDup (map fst (strings state)))
  /\ (map snd (variables state) = seqZ 0 (variableIdNext state)
      /\ NoDup (map fst (variables state))).
Proof.
  destruct document as [contents]. unfold compileIR.
  destruct (lowers_compileStatements contents _ wfState_createCompiler)
    as (((_ & Hc) & (_ & Hs) & (_ & Hv)) & _).
  destruct (compileStatements contents createCompiler) as [ir state].
  simpl in *. done.
Qed.

(** *** The second pass finds every id *)

Lemma In_insertById (entry x : string * Z) (sorted : list (string * Z)) :
  In x (insertById entry sorted) <-> x = entry \/ In x sorted.
Proof.
  induction sorted as [|e sorted IH]; simpl; [intuition congruence|].
  destruct (snd e <? snd entry); simpl; rewrite ?IH; intuition congruence.
Qed.

Lemma In_sortById (x : string * Z) (entries : list (string * Z)) :
  In x (sortById entries) <-> In x entries.
Proof.
  induction entries as [|e entries IH]; simpl; [tauto|].
  rewrite In_insertById, IH. intuition congruence.
Qed.

(** [substitute] succeeds when every id is in the table and every offset
    inside of the buffer, and it keeps the length of the buffer. *)
Lemma substitute_Encoded (kind : SymbolKind) (subs : list (Z * Z))
    (table : gmap Z Z) (buffer : list byte) :
  (forall id o, In (id, o) subs ->
     is_Some (table !! id) /\ 0 <= o /\ o + 4 <= Z.of_nat (length buffer)) ->
  exists buffer',
    substitute kind subs table buffer = Encoded buffer'
    /\ length buffer' = length buffer.
Proof.
  revert buffer. induction subs as [|[id o] subs IH]; intros buffer H; simpl.
  - by exists buffer.
  - destruct (H id o (or_introl eq_refl)) as ([target ->] & H0 & H4).
    destruct (setUint32_Some buffer o target H0 H4) as [buffer1 Hset].
    rewrite Hset. pose proof (setUint32_length _ _ _ _ Hset) as Hlen.
    destruct (IH buffer1) as (buffer' & -> & Hlen').
    { intros id' o' Hin. rewrite Hlen. apply H. by right. }
    exists buffer'. split; [done|congruence].
Qed.

(** Every recorded substitution has its id in the table of its kind. *)
Definition closed (e : Encoder) : Prop :=
  forall kind id o, In (id, o) (subsOf kind e) -> is_Some (tableOf kind e !! id).

Lemma resolve_closed (e : Encoder) :
  closed e -> bounded e ->
  exists buffer,
    resolve e = Encoded buffer /\ length buffer = length (bytecode e).
Proof.
  intros Hclosed Hbounded. unfold resolve.
  assert (forall kind buffer, length buffer = length (bytecode e) ->
            exists buffer',
              substitute kind (subsOf kind e) (tableOf kind e) buffer
              = Encoded buffer'
              /\ length buffer' = length (bytecode e)) as Hstage.
  { intros kind buffer Hlen.
    destruct (substitute_Encoded kind (subsOf kind e) (tableOf kind e) buffer)
      as (buffer' & Hsub & Hlen'); [|exists buffer'; split; [done|congruence]].
    intros id o Hin. split; [by eapply Hclosed|].
    destruct (Hbounded kind id o Hin). unfold current in *. rewrite Hlen. lia. }
  destruct (Hstage LabelSym (bytecode e) eq_refl) as (b1 & H1 & L1).
  destruct (Hstage StringSym b1 L1) as (b2 & H2 & L2).
  destruct (Hstage VariableSym b2 L2) as (b3 & H3 & L3).
  destruct (Hstage CharacterSym b3 L3) as (b4 & H4 & L4).
  simpl in H1, H2, H3, H4. rewrite H1. simpl. rewrite H2. simpl.
  rewrite H3. simpl. rewrite H4. by exists b4.
Qed.

(** The ids of the substitutions are ids of the tables of [state], and the
    only label is 0. *)
Definition refers (state : CompilerState) (e : Encoder) : Prop :=
  forall kind id o, In (id, o) (subsOf kind e) ->
    match kind with
    | LabelSym => id = 0
    | StringSym => 0 <= id < stringIdNext state
    | VariableSym => 0 <= id < variableIdNext state
    | CharacterSym => 0 <= id < characterIdNext state
    end.

(** Every id of the tables of [state] has its offset. *)
Definition tabled (state : CompilerState) (e : Encoder) : Prop :=
  (forall id, 0 <= id < stringIdNext state -> is_Some (stringLabels e !! id))
  /\ (forall id, 0 <= id < variableIdNext state ->
        is_Some (variableLabels e !! id))
  /\ (forall id, 0 <= id < characterIdNext state ->
        is_Some (characterLabels e !! id)).

Lemma encodeOp_subs (irOp : IR) (e : Encoder) (kind : SymbolKind) (id o : Z) :
  In (id, o) (subsOf kind (encodeOp irOp e)) ->
  In (id, o) (subsOf kind e) \/ patched irOp = Some (kind, id).
Proof.
  destruct irOp, kind; simpl; try tauto;
    intros [H|[[= <- _]|[]]]%in_app_or; tauto.
Qed.

Lemma encodeOp_tables (irOp : IR) (e : Encoder) (kind : SymbolKind) (id : Z) :
  is_Some (tableOf kind e !! id) ->
  is_Some (tableOf kind (encodeOp irOp e) !! id).
Proof.
  destruct irOp, kind; simpl; try done.
  intros H. destruct (decide (target = id)) as [->|Hne].
  - rewrite lookup_insert_eq. by eexists.
  - by rewrite lookup_insert_ne.
Qed.

Lemma encodeOp_refers (state : CompilerState) (irOp : IR) (e : Encoder) :
  known state irOp \/ (exists target, irOp = LabelIR target)
  \/ irOp = EndOfScriptOp ->
  refers state e -> refers state (encodeOp irOp e).
Proof.
  intros Hop Hrefers kind id o [Hin|Hp]%encodeOp_subs;
    [by apply (Hrefers kind id o)|].
  destruct Hop as [Hk|[[target ->]| ->]]; [|done..].
  destruct irOp, kind; simpl in *; try done; by injection Hp as <-.
Qed.

Lemma foldl_encodeOp_refers (state : CompilerState) (ir : list IR)
    (e : Encoder) :
  Forall (known state) ir -> refers state e ->
  refers state (foldl (fun e irOp => encodeOp irOp e) e ir).
Proof.
  intros Hir. revert e. induction Hir as [|irOp ir Hop _ IH]; intros e He.
  - done.
  - simpl. apply IH, encodeOp_refers; [by left|done].
Qed.

Lemma foldl_encodeOp_tables (ir : list IR) (e : Encoder) (kind : SymbolKind)
    (id : Z) :
  is_Some (tableOf kind e !! id) ->
  is_Some (tableOf kind (foldl (fun e irOp => encodeOp irOp e) e ir) !! id).
Proof.
  revert e. induction ir as [|irOp ir IH]; intros e H; [done|].
  simpl. by apply IH, encodeOp_tables.
Qed.

Definition setLabelOf (kind : SymbolKind) (id : Z) (e : Encoder) : Encoder :=
  match kind with
  | LabelSym => setLabel id e
  | StringSym => setStringLabel id e
  | VariableSym => setVariableLabel id e
  | CharacterSym => setCharacterLabel id e
  end.

Lemma setLabelOf_tables (kind k : SymbolKind) (id id' : Z) (e : Encoder) :
  is_Some (tableOf k e !! id') ->
  is_Some (tableOf k (setLabelOf kind id e) !! id').
Proof.
  destruct kind, k; simpl; try done; intros H;
    (destruct (decide (id = id')) as [->|Hne];
     [rewrite lookup_insert_eq; by eexists|by rewrite lookup_insert_ne]).
Qed.

Lemma setLabelOf_set (kind : SymbolKind) (id : Z) (e : Encoder) :
  is_Some (tableOf kind (setLabelOf kind id e) !! id).
Proof. destruct kind; simpl; rewrite lookup_insert_eq; by eexists. Qed.

Section Prologue.
Variable encode : string -> list byte.

(** The loop that writes the names of one table. *)
Definition writeNames (kind : SymbolKind) (e : Encoder)
    (entries : list (string * Z)) : Encoder :=
  foldl (fun e entry =>
           pushBytecode [x00]
             (pushBytecode (stringData encode (fst entry))
                (setLabelOf kind (snd entry) e)))
    e entries.

Lemma writeNames_spec (kind : SymbolKind) (entries : list (string * Z))
    (e : Encoder) :
  (forall k, subsOf k (writeNames kind e entries) = subsOf k e)
  /\ (forall k id, is_Some (tableOf k e !! id) ->
        is_Some (tableOf k (writeNames kind e entries) !! id))
  /\ (forall id, In id (map snd entries) ->
        is_Some (tableOf kind (writeNames kind e entries) !! id)).
Proof.
  revert e. induction entries as [|entry entries IH]; intros e.
  - simpl. repeat split; try done.
  - unfold writeNames. cbn [foldl].
    set (e1 := pushBytecode [x00] _).
    destruct (IH e1) as (Hs & Ht & Hn). fold (writeNames kind e1 entries).
    split; [|split].
    + intros k. rewrite Hs. by destruct k, kind.
    + intros k id H. apply Ht.
      assert (tableOf k e1 = tableOf k (setLabelOf kind (snd entry) e)) as ->
        by (by destruct k).
      by apply setLabelOf_tables.
    + intros id [<-|Hin].
      * apply Ht.
        assert (tableOf kind e1 = tableOf kind (setLabelOf kind (snd entry) e))
          as -> by (by destruct kind).
        apply setLabelOf_set.
      * by apply Hn.
Qed.

(** The loop that writes a [SetVariableName] for every variable. *)
Definition writeHeader (e : Encoder) (entries : list (string * Z)) : Encoder :=
  foldl (fun e entry =>
           pushVariableSubstitution (snd entry)
             (pushBytecode (operandOp SetVariableName [0]) e))
    e entries.

Lemma writeHeader_spec (entries : list (string * Z)) (e : Encoder) :
  (forall k, tableOf k (writeHeader e entries) = tableOf k e)
  /\ (forall k id o, In (id, o) (subsOf k (writeHeader e entries)) ->
        In (id, o) (subsOf k e)
        \/ (k = VariableSym /\ In id (map snd entries))).
Proof.
  revert e. induction entries as [|entry entries IH]; intros e.
  - simpl. split; [done|]. intros k id o H. by left.
  - unfold writeHeader. cbn [foldl].
    set (e1 := pushVariableSubstitution _ _).
    destruct (IH e1) as (Ht & Hs). fold (writeHeader e1 entries).
    split.
    + intros k. rewrite Ht. by destruct k.
    + intros k id o [Hin|[-> Hin]]%Hs.
      * destruct k; simpl in Hin; try (by left).
        apply in_app_or in Hin as [Hin|[[= <- _]|[]]]; [by left|].
        right. split; [done|]. by left.
      * right. split; [done|]. by right.
Qed.

Lemma prologue_writes (state : CompilerState) :
  prologue encode state
  = writeNames CharacterSym
      (writeNames StringSym
         (writeNames VariableSym
            (pushLabelSubstitution 0
               (pushBytecode (operandOp Jump [0])
                  (writeHeader emptyEncoder (sortById (variables state)))))
            (sortById (variables state)))
         (strings state))
      (characters state).
Proof. reflexivity. Qed.

Lemma ids_of_interned (next : Z) (table : NameMap) (id : Z) :
  interned next table -> In id (map snd table) <-> 0 <= id < next.
Proof.
  intros (Hnext & -> & _). rewrite <- list_elem_of_In, elem_of_seqZ. lia.
Qed.

Lemma ids_sortById (table : NameMap) (id : Z) :
  In id (map snd (sortById table)) <-> In id (map snd table).
Proof.
  rewrite !in_map_iff. split; intros ([k v] & <- & H); exists (k, v);
    (split; [done|]); by apply In_sortById.
Qed.

Lemma prologue_refers (state : CompilerState) :
  wfState state -> refers state (prologue encode state).
Proof.
  intros (Hc & Hs & Hv). rewrite prologue_writes. intros kind id o.
  rewrite (proj1 (writeNames_spec CharacterSym _ _)).
  rewrite (proj1 (writeNames_spec StringSym _ _)).
  rewrite (proj1 (writeNames_spec VariableSym _ _)).
  set (header := writeHeader emptyEncoder (sortById (variables state))).
  intros Hin.
  assert (In (id, o) (subsOf kind header) \/ (kind = LabelSym /\ id = 0))
    as [Hheader|[-> ->]]; [|apply (proj2 (writeHeader_spec _ _)) in Hheader|done].
  { destruct kind; simpl in Hin; try (by left).
    apply in_app_or in Hin as [Hin|[[= <- _]|[]]]; [by left|by right]. }
  destruct Hheader as [Hempty|[-> Hid]]; [by destruct kind|].
  apply (proj1 (ids_sortById _ _)) in Hid.
  exact (proj1 (ids_of_interned _ _ _ Hv) Hid).
Qed.

Lemma prologue_tabled (state : CompilerState) :
  wfState state -> tabled state (prologue encode state).
Proof.
  intros (Hc & Hs & Hv). rewrite prologue_writes.
  split; [|split]; intros id Hid.
  - apply (proj1 (proj2 (writeNames_spec CharacterSym _ _)) StringSym).
    apply (proj2 (proj2 (writeNames_spec StringSym _ _))).
    exact (proj2 (ids_of_interned _ _ _ Hs) Hid).
  - apply (proj1 (proj2 (writeNames_spec CharacterSym _ _)) VariableSym).
    apply (proj1 (proj2 (writeNames_spec StringSym _ _)) VariableSym).
    apply (proj2 (proj2 (writeNames_spec VariableSym _ _))).
    apply (proj2 (ids_sortById _ _)).
    exact (proj2 (ids_of_interned _ _ _ Hv) Hid).
  - apply (proj2 (proj2 (writeNames_spec CharacterSym _ _))).
    exact (proj2 (ids_of_interned _ _ _ Hc) Hid).
Qed.

(** The encoder after the first pass over what [compileIR] returns: every
    substitution has its id in the table of its kind. *)
Lemma compileIR_closed (document : DocumentNode) :
  let '(ir, state) := compileIR document createCompiler in
  wfState state /\ closed (layout encode ir state).
Proof.
  destruct document as [contents]. unfold compileIR.
  destruct (lowers_compileStatements contents _ wfState_createCompiler)
    as (Hwf & _ & Hknown).
  destruct (compileStatements contents createCompiler) as [body state].
  simpl in Hwf, Hknown. split; [done|].
  rewrite layout_prologue. cbn [app foldl].
  rewrite foldl_app. cbn [foldl].
  set (e1 := encodeOp (LabelIR 0) (prologue encode state)).
  set (e2 := foldl (fun e irOp => encodeOp irOp e) e1 body).
  assert (refers state (encodeOp EndOfScriptOp e2)) as Hrefers.
  { apply encodeOp_refers; [by right; right|].
    apply foldl_encodeOp_refers; [done|].
    apply encodeOp_refers; [right; left; by eexists|].
    by apply prologue_refers. }
  destruct (prologue_tabled state Hwf) as (Hts & Htv & Htc).
  intros kind id o Hin. specialize (Hrefers kind id o Hin).
  apply encodeOp_tables, foldl_encodeOp_tables.
  destruct kind.
  - subst id. simpl. rewrite lookup_insert_eq. by eexists.
  - apply encodeOp_tables. by apply Hts.
  - apply encodeOp_tables. by apply Htv.
  - apply encodeOp_tables. by apply Htc.
Qed.

(** X11: the second pass cannot fail on what [compileIR] returns. For
    every document, [compileBytecode] on the operations and the tables of
    [compileIR] finds every label, string, variable and character, writes
    inside of the buffer, and returns an image as long as the bytes of the
    first pass. *)
Theorem compileBytecode_succeeds (document : DocumentNode) :
  let '(ir, state) := compileIR document createCompiler in
  exists buffer,
    compileBytecode encode ir state = Encoded buffer
    /\ length buffer = length (bytecode (layout encode ir state)).
Proof.
  pose proof (compileIR_closed document) as H.
  destruct (compileIR document createCompiler) as [ir state].
  destruct H as [_ Hclosed]. unfold compileBytecode.
  apply resolve_closed; [exact Hclosed|apply layout_sound].
Qed.

End Prologue.

End SymbolTables.

Module Images.
Import AST Compiler LoweringProps EncoderProps DataViewProps SymbolTables.

(** *** The bytes the second pass leaves alone *)

(** No substitution of the list touches the byte at [k]. *)
Definition offSubs (k : nat) (subs : list (Z * Z)) : Prop :=
  forall id l, In (id, l) subs -> Z.of_nat k < l \/ l + 4 <= Z.of_nat k.

Lemma setUint32_lookup (view view' : list byte) (offset value : Z) (k : nat) :
  setUint32 view offset value = Some view' ->
  Z.of_nat k < offset \/ offset + 4 <= Z.of_nat k ->
  view' !! k = view !! k.
Proof.
  intros (H0 & H1 & ->)%setUint32_eq [Hk|Hk].
  - rewrite lookup_app_l by (rewrite length_take; lia).
    apply lookup_take_lt. lia.
  - rewrite app_assoc, lookup_app_r
      by (rewrite length_app, length_take, length_bytes32; lia).
    rewrite length_app, length_take, length_bytes32, lookup_drop.
    f_equal. lia.
Qed.

Lemma substitute_lookup (kind : SymbolKind) (subs : list (Z * Z))
    (table : gmap Z Z) (buffer buffer' : list byte) (k : nat) :
  substitute kind subs table buffer = Encoded buffer' ->
  offSubs k subs -> buffer' !! k = buffer !! k.
Proof.
  revert buffer. induction subs as [|[id0 l0] subs IH]; intros buffer; simpl.
  - by intros [= <-].
  - destruct (table !! id0) as [target|]; [|discriminate].
    destruct (setUint32 buffer l0 target) as [buffer1|] eqn:Es; [|discriminate].
    intros Hsub Hoff. rewrite (IH _ Hsub).
    + apply (setUint32_lookup _ _ _ _ _ Es). apply (Hoff id0). by left.
    + intros id l Hin. apply (Hoff id). by right.
Qed.

(** No substitution of the encoder touches the byte at [k]. *)
Definition untouched (k : nat) (e : Encoder) : Prop :=
  forall kind, offSubs k (subsOf kind e).

Lemma resolve_lookup (e : Encoder) (buffer : list byte) (k : nat) :
  resolve e = Encoded buffer -> untouched k e ->
  buffer !! k = bytecode e !! k.
Proof.
  intros (b1 & b2 & b3 & H1 & H2 & H3 & H4)%resolve_stages Hk.
  rewrite (substitute_lookup _ _ _ _ _ _ H4 (Hk CharacterSym)).
  rewrite (substitute_lookup _ _ _ _ _ _ H3 (Hk VariableSym)).
  rewrite (substitute_lookup _ _ _ _ _ _ H2 (Hk StringSym)).
  exact (substitute_lookup _ _ _ _ _ _ H1 (Hk LabelSym)).
Qed.

(** A list that holds [piece] from the index [a] on. *)
Lemma drop_piece {A} (l piece : list A) (a : nat) :
  (forall j, (j < length piece)%nat -> l !! (a + j)%nat = piece !! j) ->
  exists rest, drop a l = piece ++ rest.
Proof.
  revert a. induction piece as [|x piece IH]; intros a H.
  - by exists (drop a l).
  - destruct (IH (S a)) as [rest Hrest].
    { intros j Hj. specialize (H (S j) ltac:(simpl; lia)). simpl in H.
      rewrite <- H. f_equal. lia. }
    exists rest. pose proof (H 0%nat ltac:(simpl; lia)) as H0.
    rewrite Nat.add_0_r in H0. simpl in H0.
    rewrite (drop_S _ _ _ H0). by rewrite Hrest.
Qed.

(** *** The first pass, stage by stage *)

Lemma foldl_grows_subs {A} (f : Encoder -> A -> Encoder) (l : list A)
    (e : Encoder) (kind : SymbolKind) (id o : Z) :
  (forall e x, grows e (f e x)) ->
  In (id, o) (subsOf kind (foldl f e l)) ->
  In (id, o) (subsOf kind e) \/ current e + 4 <= o.
Proof.
  intros Hf. revert e. induction l as [|x l IH]; intros e Hin; [by left|].
  simpl in Hin. pose proof (grows_current _ _ (Hf e x)) as Hcur.
  destruct (IH _ Hin) as [Hin1|Ho]; [|right; lia].
  destruct (grows_cases _ _ _ _ _ (Hf e x) Hin1) as [?|[-> ?]];
    [by left|right; lia].
Qed.

Lemma foldl_grows_keeps {A} (f : Encoder -> A -> Encoder) (l : list A)
    (e : Encoder) (kind : SymbolKind) (p : Z * Z) :
  (forall e x, grows e (f e x)) ->
  In p (subsOf kind e) -> In p (subsOf kind (foldl f e l)).
Proof.
  intros Hf. revert e. induction l as [|x l IH]; intros e Hin; [done|].
  simpl. apply IH. by apply (grows_In e).
Qed.

Lemma grows_prefix (e e' : Encoder) :
  grows e e' -> exists tail, bytecode e' = bytecode e ++ tail.
Proof. intros [tail H _|kind id tail H _ _ _]; by exists tail. Qed.

Lemma foldl_grows_prefix {A} (f : Encoder -> A -> Encoder) (l : list A)
    (e : Encoder) :
  (forall e x, grows e (f e x)) ->
  exists tail, bytecode (foldl f e l) = bytecode e ++ tail.
Proof.
  intros Hf. revert e. induction l as [|x l IH]; intros e.
  - exists []. by rewrite app_nil_r.
  - simpl. destruct (IH (f e x)) as [tail ->].
    destruct (grows_prefix _ _ (Hf e x)) as [tail1 ->].
    exists (tail1 ++ tail). by rewrite app_assoc.
Qed.

Lemma encodeOp_table (irOp : IR) (e : Encoder) (kind : SymbolKind) :
  kind <> LabelSym -> tableOf kind (encodeOp irOp e) = tableOf kind e.
Proof. by destruct irOp, kind. Qed.

Lemma foldl_encodeOp_table (ir : list IR) (e : Encoder) (kind : SymbolKind) :
  kind <> LabelSym ->
  tableOf kind (foldl (fun e irOp => encodeOp irOp e) e ir) = tableOf kind e.
Proof.
  intros Hk. revert e. induction ir as [|irOp ir IH]; intros e; [done|].
  simpl. by rewrite IH, encodeOp_table.
Qed.

Section Names.
Variable encode : string -> list byte.

(** The bytes of a name in the symbol table. *)
Definition nameBytes (entry : string * Z) : list byte :=
  stringData encode (fst entry) ++ [x00].

Definition namesBytes (entries : list (string * Z)) : list byte :=
  flat_map nameBytes entries.

Lemma writeNames_cons (kind : SymbolKind) (e : Encoder) (entry : string * Z)
    (entries : list (string * Z)) :
  writeNames encode kind e (entry :: entries)
  = writeNames encode kind
      (pushBytecode [x00]
         (pushBytecode (stringData encode (fst entry))
            (setLabelOf kind (snd entry) e)))
      entries.
Proof. reflexivity. Qed.

Lemma writeNames_step (kind : SymbolKind) (e : Encoder) (entry : string * Z) :
  let e1 := pushBytecode [x00]
              (pushBytecode (stringData encode (fst entry))
                 (setLabelOf kind (snd entry) e)) in
  bytecode e1 = bytecode e ++ nameBytes entry
  /\ tableOf kind e1 = <[snd entry := current e]> (tableOf kind e)
  /\ (forall k, k <> kind -> tableOf k e1 = tableOf k e).
Proof.
  simpl. split; [|split].
  - unfold nameBytes. rewrite <- app_assoc. by destruct kind.
  - by destruct kind.
  - intros k Hk. by destruct kind, k.
Qed.

Lemma writeNames_bytecode (kind : SymbolKind) (entries : list (string * Z))
    (e : Encoder) :
  bytecode (writeNames encode kind e entries)
  = bytecode e ++ namesBytes entries.
Proof.
  revert e. induction entries as [|entry entries IH]; intros e.
  - simpl. by rewrite app_nil_r.
  - rewrite writeNames_cons, IH.
    rewrite (proj1 (writeNames_step kind e entry)).
    by rewrite <- app_assoc.
Qed.

Lemma writeNames_other (kind k : SymbolKind) (entries : list (string * Z))
    (e : Encoder) :
  k <> kind -> tableOf k (writeNames encode kind e entries) = tableOf k e.
Proof.
  intros Hk. revert e. induction entries as [|entry entries IH]; intros e;
    [done|].
  rewrite writeNames_cons, IH.
  by apply (proj2 (proj2 (writeNames_step kind e entry))).
Qed.

Lemma writeNames_absent (kind : SymbolKind) (entries : list (string * Z))
    (e : Encoder) (id : Z) :
  ~ In id (map snd entries) ->
  tableOf kind (writeNames encode kind e entries) !! id = tableOf kind e !! id.
Proof.
  revert e. induction entries as [|entry entries IH]; intros e Hid; [done|].
  rewrite writeNames_cons, IH by (simpl in Hid; tauto).
  rewrite (proj1 (proj2 (writeNames_step kind e entry))).
  apply lookup_insert_ne. simpl in Hid. tauto.
Qed.

(** The label of a name is where its bytes start. *)
Lemma writeNames_label (kind : SymbolKind) (entries : list (string * Z))
    (e : Encoder) (i : nat) (entry : string * Z) :
  NoDup (map snd entries) -> entries !! i = Some entry ->
  tableOf kind (writeNames encode kind e entries) !! snd entry
  = Some (current e + Z.of_nat (length (namesBytes (take i entries)))).
Proof.
  revert e i. induction entries as [|entry0 entries IH]; intros e i Hnd Hi;
    [done|].
  apply NoDup_cons in Hnd as [Hnotin Hnd]. rewrite writeNames_cons.
  destruct (writeNames_step kind e entry0) as (Hb & Ht & _).
  destruct i as [|i]; simpl in Hi.
  - injection Hi as <-.
    rewrite writeNames_absent by (by rewrite <- list_elem_of_In).
    rewrite Ht, lookup_insert_eq. simpl. f_equal. lia.
  - rewrite (IH _ i Hnd Hi). f_equal. unfold current. rewrite Hb.
    cbn [take namesBytes flat_map]. rewrite !length_app.
    fold (namesBytes (take i entries)). lia.
Qed.

Lemma namesBytes_lookup (entries : list (string * Z)) (i : nat)
    (entry : string * Z) :
  entries !! i = Some entry ->
  exists rest,
    drop (length (namesBytes (take i entries))) (namesBytes entries)
    = nameBytes entry ++ rest.
Proof.
  revert i. induction entries as [|entry0 entries IH]; intros i Hi; [done|].
  destruct i as [|i]; simpl in Hi.
  - injection Hi as <-. by exists (namesBytes entries).
  - destruct (IH i Hi) as [rest Hrest]. exists rest.
    cbn [take namesBytes flat_map]. fold (namesBytes (take i entries)).
    fold (namesBytes entries). by rewrite length_app, drop_app_add.
Qed.

(** *** The header and the symbol table *)

Definition headerBytes (entries : list (string * Z)) : list byte :=
  flat_map (fun _ => operandOp SetVariableName [0]) entries.

Definition headerSubs (base : Z) (entries : list (string * Z))
  : list (Z * Z) :=
  imap (fun i entry => (snd entry, base + 8 * Z.of_nat i + 4)) entries.

Lemma length_headerBytes (entries : list (string * Z)) :
  length (headerBytes entries) = (8 * length entries)%nat.
Proof.
  induction entries as [|entry entries IH]; [done|].
  cbn [headerBytes flat_map]. fold (headerBytes entries).
  rewrite length_app, IH, length_operandOp1. simpl. lia.
Qed.

Lemma writeHeader_eq (entries : list (string * Z)) (e : Encoder) :
  writeHeader e entries
  = mkEncoder (bytecode e ++ headerBytes entries) (labelSubstitutions e)
      (stringSubstitutions e)
      (variableSubstitutions e ++ headerSubs (current e) entries)
      (characterSubstitutions e) (labels e) (stringLabels e)
      (variableLabels e) (characterLabels e).
Proof.
  revert e. induction entries as [|entry entries IH]; intros e.
  - simpl. rewrite !app_nil_r. by destruct e.
  - change (writeHeader e (entry :: entries))
      with (writeHeader
              (pushVariableSubstitution (snd entry)
                 (pushBytecode (operandOp SetVariableName [0]) e)) entries).
    rewrite IH. cbn [bytecode labelSubstitutions stringSubstitutions
      variableSubstitutions characterSubstitutions labels stringLabels
      variableLabels characterLabels pushVariableSubstitution pushBytecode].
    f_equal.
    + by rewrite <- app_assoc.
    + rewrite <- app_assoc. f_equal. unfold headerSubs.
      cbn [imap app]. f_equal.
      * f_equal. unfold current. cbn [bytecode pushBytecode].
        rewrite length_app, length_operandOp1. lia.
      * apply imap_ext. intros i x _. simpl. f_equal. unfold current.
        cbn [bytecode pushBytecode pushVariableSubstitution].
        rewrite length_app, length_operandOp1. lia.
Qed.

Lemma In_headerSubs (base : Z) (entries : list (string * Z)) (id o : Z) :
  In (id, o) (headerSubs base entries)
  <-> exists i entry, entries !! i = Some entry /\ id = snd entry
        /\ o = base + 8 * Z.of_nat i + 4.
Proof.
  unfold headerSubs. rewrite <- list_elem_of_In, elem_of_lookup_imap.
  split; intros (i & entry & H1 & H2).
  - injection H1 as -> ->. by exists i, entry.
  - destruct H2 as (-> & ->). by exists i, entry.
Qed.

(** A table whose ids are in order is sorted as it is. *)
Lemma sortById_seqZ (table : list (string * Z)) (from len : Z) :
  map snd table = seqZ from len -> sortById table = table.
Proof.
  revert from len. induction table as [|entry table IH]; intros from len H;
    [done|].
  destruct (Z.le_gt_cases len 0) as [Hle|Hgt];
    [by rewrite seqZ_nil in H by lia|].
  rewrite seqZ_cons in H by lia. injection H as Hentry Htable.
  cbn [sortById foldr]. fold (sortById table). rewrite (IH _ _ Htable).
  destruct table as [|entry' table]; [done|]. simpl.
  destruct (Z.le_gt_cases (Z.pred len) 0) as [Hle'|Hgt'];
    [by rewrite seqZ_nil in Htable by lia|].
  rewrite seqZ_cons in Htable by lia. injection Htable as Hentry' _.
  destruct (Z.ltb_spec (snd entry') (snd entry)); [lia|done].
Qed.

Lemma NoDup_ids (next : Z) (table : NameMap) :
  interned next table -> NoDup (map snd table).
Proof. intros (_ & -> & _). apply NoDup_seqZ. Qed.

(** The names of a kind, in the order of the symbol table. *)
Definition namesOf (kind : SymbolKind) (state : CompilerState) : NameMap :=
  match kind with
  | LabelSym => []
  | StringSym => strings state
  | VariableSym => variables state
  | CharacterSym => characters state
  end.

(** Where the names of a kind start in the image. *)
Definition baseOf (kind : SymbolKind) (state : CompilerState) : Z :=
  let header := 8 * Z.of_nat (length (variables state)) + 8 in
  let vs := Z.of_nat (length (namesBytes (variables state))) in
  let ss := Z.of_nat (length (namesBytes (strings state))) in
  match kind with
  | LabelSym => 0
  | VariableSym => header
  | StringSym => header + vs
  | CharacterSym => header + vs + ss
  end.

Section Prologue.
Variable state : CompilerState.
Hypothesis Hwf : wfState state.

Let n : Z := Z.of_nat (length (variables state)).

Lemma sortById_variables : sortById (variables state) = variables state.
Proof.
  destruct Hwf as (_ & _ & _ & Hv & _). exact (sortById_seqZ _ _ _ Hv).
Qed.

Lemma prologue_stages :
  prologue encode state
  = writeNames encode CharacterSym
      (writeNames encode StringSym
         (writeNames encode VariableSym
            (pushLabelSubstitution 0
               (pushBytecode (operandOp Jump [0])
                  (writeHeader emptyEncoder (variables state))))
            (variables state))
         (strings state))
      (characters state).
Proof. by rewrite prologue_writes, sortById_variables. Qed.

Lemma prologue_bytecode :
  bytecode (prologue encode state)
  = headerBytes (variables state) ++ operandOp Jump [0]
    ++ namesBytes (variables state) ++ namesBytes (strings state)
    ++ namesBytes (characters state).
Proof.
  rewrite prologue_stages, !writeNames_bytecode, writeHeader_eq.
  cbn [bytecode pushLabelSubstitution pushBytecode emptyEncoder app].
  by rewrite <- !app_assoc.
Qed.

Lemma prologue_subs (kind : SymbolKind) (id o : Z) :
  In (id, o) (subsOf kind (prologue encode state))
  <-> (kind = VariableSym /\ In (id, o) (headerSubs 0 (variables state)))
      \/ (kind = LabelSym /\ id = 0 /\ o = 8 * n + 4).
Proof.
  rewrite prologue_stages.
  rewrite !(proj1 (writeNames_spec encode _ _ _)), writeHeader_eq.
  unfold n.
  destruct kind;
    cbn [subsOf bytecode labelSubstitutions stringSubstitutions
         variableSubstitutions characterSubstitutions pushLabelSubstitution
         pushBytecode emptyEncoder app In];
    unfold current; cbn [bytecode pushBytecode length];
    rewrite ?length_app, ?length_headerBytes, ?length_operandOp1;
    split; intros H.
  - right. destruct H as [[= <- <-]|[]]. split; [done|]. split; [done|]. lia.
  - destruct H as [[[=] _]|(_ & -> & ->)]. left. f_equal. lia.
  - done.
  - by destruct H as [[[=] _]|[[=] _]].
  - by left.
  - by destruct H as [[_ H]|[[=] _]].
  - done.
  - by destruct H as [[[=] _]|[[=] _]].
Qed.

Lemma prologue_label (kind : SymbolKind) (i : nat) (entry : string * Z) :
  namesOf kind state !! i = Some entry ->
  tableOf kind (prologue encode state) !! snd entry
  = Some (baseOf kind state
          + Z.of_nat (length (namesBytes (take i (namesOf kind state))))).
Proof.
  destruct Hwf as (Hc & Hs & Hv). rewrite prologue_stages. intros Hi.
  destruct kind; [done|..]; cbn [namesOf] in Hi.
  - rewrite writeNames_other by done.
    rewrite (writeNames_label _ _ _ i entry (NoDup_ids _ _ Hs) Hi).
    f_equal. unfold current, baseOf. cbn [namesOf].
    rewrite writeNames_bytecode, writeHeader_eq.
    cbn [bytecode pushLabelSubstitution pushBytecode emptyEncoder app].
    rewrite !length_app, length_headerBytes, length_operandOp1. lia.
  - rewrite !writeNames_other by done.
    rewrite (writeNames_label _ _ _ i entry (NoDup_ids _ _ Hv) Hi).
    f_equal. unfold current, baseOf. cbn [namesOf]. rewrite writeHeader_eq.
    cbn [bytecode pushLabelSubstitution pushBytecode emptyEncoder app].
    rewrite !length_app, length_headerBytes, length_operandOp1. lia.
  - rewrite (writeNames_label _ _ _ i entry (NoDup_ids _ _ Hc) Hi).
    f_equal. unfold current, baseOf. cbn [namesOf].
    rewrite !writeNames_bytecode, writeHeader_eq.
    cbn [bytecode pushLabelSubstitution pushBytecode emptyEncoder app].
    rewrite !length_app, length_headerBytes, length_operandOp1. lia.
Qed.

(** The bytes of the names of a kind are in the prologue from their base
    on. *)
Lemma prologue_names (kind : SymbolKind) :
  kind <> LabelSym ->
  exists pre post,
    bytecode (prologue encode state)
    = pre ++ namesBytes (namesOf kind state) ++ post
    /\ Z.of_nat (length pre) = baseOf kind state.
Proof.
  intros Hk. rewrite prologue_bytecode. unfold baseOf.
  destruct kind; [done|..]; cbn [namesOf].
  - exists (headerBytes (variables state) ++ operandOp Jump [0]
            ++ namesBytes (variables state)),
      (namesBytes (characters state)).
    split; [by rewrite <- !app_assoc|].
    rewrite !length_app, length_headerBytes, length_operandOp1. lia.
  - exists (headerBytes (variables state) ++ operandOp Jump [0]),
      (namesBytes (strings state) ++ namesBytes (characters state)).
    split; [by rewrite <- !app_assoc|].
    rewrite !length_app, length_headerBytes, length_operandOp1. lia.
  - exists (headerBytes (variables state) ++ operandOp Jump [0]
            ++ namesBytes (variables state) ++ namesBytes (strings state)),
      [].
    split; [by rewrite <- !app_assoc, app_nil_r|].
    rewrite !length_app, length_headerBytes, length_operandOp1. lia.
Qed.

End Prologue.

(** *** The image *)

Lemma substitute_length (kind : SymbolKind) (subs : list (Z * Z))
    (table : gmap Z Z) (buffer buffer' : list byte) :
  substitute kind subs table buffer = Encoded buffer' ->
  length buffer' = length buffer.
Proof.
  revert buffer. induction subs as [|[id0 l0] subs IH]; intros buffer; simpl.
  - by intros [= <-].
  - destruct (table !! id0) as [target|]; [|discriminate].
    destruct (setUint32 buffer l0 target) as [buffer1|] eqn:Es; [|discriminate].
    intros Hsub. rewrite (IH _ Hsub). exact (setUint32_length _ _ _ _ Es).
Qed.

Lemma resolve_length (e : Encoder) (buffer : list byte) :
  resolve e = Encoded buffer -> length buffer = length (bytecode e).
Proof.
  intros (b1 & b2 & b3 & H1 & H2 & H3 & H4)%resolve_stages.
  rewrite (substitute_length _ _ _ _ _ H4), (substitute_length _ _ _ _ _ H3),
    (substitute_length _ _ _ _ _ H2).
  exact (substitute_length _ _ _ _ _ H1).
Qed.

Lemma getUint32_headerBytes (entries : list (string * Z)) (rest : list byte)
    (i : nat) :
  (i < length entries)%nat ->
  getUint32 (headerBytes entries ++ rest) (8 * Z.of_nat i)
  = Some (OPCODE_MAP SetVariableName).
Proof.
  revert i. induction entries as [|entry entries IH]; intros i Hi;
    [simpl in Hi; lia|].
  cbn [headerBytes flat_map]. fold (headerBytes entries).
  rewrite <- app_assoc. destruct i as [|i].
  - by apply EndToEnd.getUint32_opcode.
  - rewrite getUint32_skip by (rewrite length_operandOp1; lia).
    rewrite length_operandOp1.
    replace (8 * Z.of_nat (S i) - Z.of_nat 8) with (8 * Z.of_nat i) by lia.
    apply IH. simpl in Hi. lia.
Qed.

Section Image.
Variables (ir : list IR) (state : CompilerState) (image : list byte).
Hypothesis Hwf : wfState state.
Hypothesis Himage : compileBytecode encode ir state = Encoded image.

Let n : Z := Z.of_nat (length (variables state)).

Lemma layout_subs (kind : SymbolKind) (id o : Z) :
  In (id, o) (subsOf kind (layout encode ir state)) ->
  In (id, o) (subsOf kind (prologue encode state))
  \/ current (prologue encode state) + 4 <= o.
Proof.
  rewrite layout_prologue. apply foldl_grows_subs.
  intros. apply encodeOp_grows.
Qed.

Lemma layout_prefix :
  exists tail,
    bytecode (layout encode ir state)
    = bytecode (prologue encode state) ++ tail.
Proof.
  rewrite layout_prologue. apply foldl_grows_prefix.
  intros. apply encodeOp_grows.
Qed.

Lemma current_prologue :
  current (prologue encode state)
  = 8 * n + 8 + Z.of_nat (length (namesBytes (variables state)))
    + Z.of_nat (length (namesBytes (strings state)))
    + Z.of_nat (length (namesBytes (characters state))).
Proof.
  unfold current. rewrite (prologue_bytecode state Hwf).
  rewrite !length_app, length_headerBytes, length_operandOp1. unfold n. lia.
Qed.

Lemma length_image :
  Z.of_nat (length image) >= current (prologue encode state).
Proof.
  rewrite (resolve_length _ _ Himage). destruct layout_prefix as [tail ->].
  unfold current. rewrite length_app. lia.
Qed.

(** The symbol table is out of the reach of the second pass. *)
Lemma names_untouched (k : nat) :
  8 * n + 8 <= Z.of_nat k < current (prologue encode state) ->
  untouched k (layout encode ir state).
Proof.
  intros Hk kind id l [Hin|Hnew]%layout_subs; [|lia].
  apply (prologue_subs state Hwf) in Hin as [[_ Hin]|(_ & _ & ->)];
    [|fold n; lia].
  apply In_headerSubs in Hin as (i & entry & Hi & _ & ->).
  apply lookup_lt_Some in Hi. fold n in Hk. unfold n in *. lia.
Qed.

Lemma image_names (k : nat) :
  8 * n + 8 <= Z.of_nat k < current (prologue encode state) ->
  image !! k = bytecode (prologue encode state) !! k.
Proof.
  intros Hk. rewrite (resolve_lookup _ _ _ Himage (names_untouched k Hk)).
  destruct layout_prefix as [tail ->]. apply lookup_app_l.
  unfold current in Hk. lia.
Qed.

(** The label of a name is the place of its bytes in the image. *)
Lemma image_name (kind : SymbolKind) (i : nat) (entry : string * Z) :
  namesOf kind state !! i = Some entry ->
  exists addr rest,
    tableOf kind (layout encode ir state) !! snd entry = Some addr
    /\ 8 * n + 8 <= addr < Z.of_nat (length image)
    /\ drop (Z.to_nat addr) image = nameBytes entry ++ rest.
Proof.
  intros Hi.
  assert (kind <> LabelSym) as Hk by (intros ->; done).
  set (off := length (namesBytes (take i (namesOf kind state)))).
  exists (baseOf kind state + Z.of_nat off).
  destruct (prologue_names state Hwf kind Hk) as (pre & post & Hb & Hpre).
  destruct (namesBytes_lookup _ _ _ Hi) as [rest' Hdrop]. fold off in Hdrop.
  assert (off + length (nameBytes entry)
          <= length (namesBytes (namesOf kind state)))%nat as Hfit.
  { pose proof (f_equal length Hdrop) as Hlen.
    rewrite length_drop, length_app in Hlen. unfold nameBytes in *.
    rewrite length_app in *. simpl in *. lia. }
  assert (8 * n + 8 <= baseOf kind state) as Hbase.
  { unfold baseOf, n. destruct kind; [done|lia..]. }
  pose proof length_image as Hlen. unfold current in Hlen.
  rewrite Hb, !length_app in Hlen.
  assert (0 < length (nameBytes entry))%nat as Hpos.
  { unfold nameBytes. rewrite length_app. simpl. lia. }
  destruct (drop_piece image (nameBytes entry)
              (Z.to_nat (baseOf kind state + Z.of_nat off))) as [rest Hrest].
  { intros j Hj. rewrite image_names.
    2:{ unfold current. rewrite Hb, !length_app. lia. }
    rewrite Hb.
    replace (Z.to_nat (baseOf kind state + Z.of_nat off) + j)%nat
      with (length pre + (off + j))%nat by lia.
    rewrite lookup_app_r by lia.
    replace (length pre + (off + j) - length pre)%nat with (off + j)%nat
      by lia.
    rewrite lookup_app_l by lia.
    rewrite <- lookup_drop, Hdrop. apply lookup_app_l. lia. }
  exists rest. split; [|split; [lia|done]].
  rewrite layout_prologue, foldl_encodeOp_table by done.
  by apply prologue_label.
Qed.

(** The header: a [SetVariableName] for every variable, in the order of
    the ids, its operand the place of the name. *)
Lemma image_header (i : nat) (entry : string * Z) :
  variables state !! i = Some entry ->
  exists addr rest,
    getUint32 image (8 * Z.of_nat i) = Some (OPCODE_MAP SetVariableName)
    /\ getUint32 image (8 * Z.of_nat i + 4) = Some (addr mod 4294967296)
    /\ 0 <= addr < Z.of_nat (length image)
    /\ drop (Z.to_nat addr) image = nameBytes entry ++ rest.
Proof.
  intros Hi. pose proof (lookup_lt_Some _ _ _ Hi) as Hlt.
  destruct (image_name VariableSym i entry Hi)
    as (addr & rest & Haddr & Hrange & Hdrop).
  exists addr, rest. split; [|split; [|split; [lia|done]]].
  - rewrite (resolve_clear _ _ _ Himage).
    + destruct layout_prefix as [tail ->].
      rewrite (prologue_bytecode state Hwf), <- app_assoc.
      by apply getUint32_headerBytes.
    + intros kind id l [Hin|Hnew]%layout_subs.
      * apply (prologue_subs state Hwf) in Hin as [[_ Hin]|(_ & _ & ->)];
          [|lia].
        apply In_headerSubs in Hin as (j & e & _ & _ & ->). lia.
      * rewrite current_prologue in Hnew. unfold n in *. lia.
  - assert (In (snd entry, 8 * Z.of_nat i + 4)
              (subsOf VariableSym (layout encode ir state))) as Hin.
    { rewrite layout_prologue. apply foldl_grows_keeps;
        [intros; apply encodeOp_grows|].
      apply (prologue_subs state Hwf). left. split; [done|].
      apply In_headerSubs. exists i, entry. split; [done|]. split; [done|lia]. }
    destruct (resolve_patch _ _ _ _ _ Himage
                (proj2 (layout_sound encode ir state)) Hin)
      as (target & Ht & Hv).
    rewrite Haddr in Ht. by injection Ht as <-.
Qed.

(** The jump behind the header goes to the end of the symbol table, where
    the code starts, when the operations are those of [compileIR]. *)
Lemma known_labels (body : list IR) (e : Encoder) :
  Forall (known state) body ->
  labels (foldl (fun e irOp => encodeOp irOp e) e body) = labels e.
Proof.
  intros Hbody. revert e. induction Hbody as [|irOp body Hop _ IH]; intros e;
    [done|].
  simpl. rewrite IH. by destruct irOp.
Qed.

Lemma image_jump (body : list IR) :
  ir = [LabelIR 0] ++ body ++ [EndOfScriptOp] ->
  Forall (known state) body ->
  getUint32 image (8 * n) = Some (OPCODE_MAP Jump)
  /\ getUint32 image (8 * n + 4)
     = Some (current (prologue encode state) mod 4294967296).
Proof.
  intros Hir Hbody. split.
  - rewrite (resolve_clear _ _ _ Himage).
    + destruct layout_prefix as [tail ->].
      rewrite (prologue_bytecode state Hwf), <- !app_assoc.
      rewrite getUint32_skip by (rewrite length_headerBytes; unfold n; lia).
      apply EndToEnd.getUint32_opcode.
      rewrite length_headerBytes. unfold n. lia.
    + intros kind id l [Hin|Hnew]%layout_subs.
      * apply (prologue_subs state Hwf) in Hin as [[_ Hin]|(_ & _ & ->)];
          [|fold n; lia].
        apply In_headerSubs in Hin as (j & e & Hj & _ & ->).
        apply lookup_lt_Some in Hj. unfold n. lia.
      * rewrite current_prologue in Hnew. lia.
  - assert (In (0, 8 * n + 4) (subsOf LabelSym (layout encode ir state)))
      as Hin.
    { rewrite layout_prologue. apply foldl_grows_keeps;
        [intros; apply encodeOp_grows|].
      apply (prologue_subs state Hwf). by right. }
    destruct (resolve_patch _ _ _ _ _ Himage
                (proj2 (layout_sound encode ir state)) Hin)
      as (target & Ht & Hv).
    rewrite Hv. f_equal. f_equal.
    rewrite layout_prologue, Hir in Ht. cbn [app foldl] in Ht.
    rewrite foldl_app in Ht. cbn [foldl encodeOp pushBytecode tableOf labels]
      in Ht.
    rewrite (known_labels _ _ Hbody) in Ht. cbn [encodeOp setLabel labels] in Ht.
    rewrite lookup_insert_eq in Ht. by injection Ht as <-.
Qed.

(** *** The code *)

Lemma encodeOp_bytes (irOp : IR) (tag : IROpType) (e : Encoder) :
  VMProps.tagOf irOp = Some tag ->
  exists operands,
    bytecode (encodeOp irOp e)
    = bytecode e ++ bytes32 (OPCODE_MAP tag) ++ operands.
Proof.
  destruct irOp; intros [= <-]; simpl; eexists; reflexivity.
Qed.

(** The opcode of an operation is in the image where the first pass put
    it. *)
Lemma image_opcode (pre post : list IR) (irOp : IR) (tag : IROpType) :
  ir = pre ++ irOp :: post -> VMProps.tagOf irOp = Some tag ->
  getUint32 image (current (layout encode pre state))
  = Some (OPCODE_MAP tag).
Proof.
  intros Hir Htag.
  set (e0 := layout encode pre state).
  set (e1 := encodeOp irOp e0).
  assert (layout encode ir state
          = foldl (fun e irOp => encodeOp irOp e) e1 post) as Hlayout.
  { rewrite Hir, layout_app. reflexivity. }
  pose proof (layout_sound encode pre state) as [Hbd _].
  destruct (encodeOp_bytes irOp tag e0 Htag) as [operands Hbytes].
  fold e1 in Hbytes.
  rewrite (resolve_clear _ _ _ Himage).
  - rewrite Hlayout.
    destruct (foldl_grows_prefix (fun e irOp => encodeOp irOp e) post e1)
      as [tail ->]; [intros; apply encodeOp_grows|].
    rewrite Hbytes, <- !app_assoc, getUint32_skip by (unfold current; lia).
    unfold current. rewrite Z.sub_diag, getUint32_head.
    by rewrite EndToEnd.OPCODE_MAP_small.
  - intros kind id l Hin. rewrite Hlayout in Hin.
    pose proof (grows_current _ _ (encodeOp_grows irOp e0)) as Hcur.
    apply foldl_grows_subs in Hin as [Hin|Hnew];
      [|unfold e1 in *; lia|intros; apply encodeOp_grows].
    destruct (grows_cases _ _ _ _ _ (encodeOp_grows irOp e0) Hin)
      as [Hold|[-> Hgrow]].
    + apply Hbd in Hold. unfold e0 in *. lia.
    + unfold e0, e1 in *. lia.
Qed.

(** The operand that names a string or a character holds the place of the
    name. *)
Lemma image_operand (pre post : list IR) (irOp : IR) (kind : SymbolKind)
    (i : nat) (entry : string * Z) :
  ir = pre ++ irOp :: post -> patched irOp = Some (kind, snd entry) ->
  namesOf kind state !! i = Some entry ->
  exists addr rest,
    getUint32 image (current (layout encode pre state) + 4)
    = Some (addr mod 4294967296)
    /\ 0 <= addr < Z.of_nat (length image)
    /\ drop (Z.to_nat addr) image = nameBytes entry ++ rest.
Proof.
  intros Hir Hp Hi.
  destruct (image_name kind i entry Hi) as (addr & rest & Haddr & Hrange & Hdrop).
  exists addr, rest. split; [|split; [unfold n in *; lia|done]].
  assert (In (snd entry, current (layout encode pre state) + 4)
            (subsOf kind (layout encode ir state))) as Hin.
  { rewrite Hir, layout_app. cbn [foldl]. apply foldl_grows_keeps;
      [intros; apply encodeOp_grows|]. by apply encodeOp_patched. }
  destruct (resolve_patch _ _ _ _ _ Himage
              (proj2 (layout_sound encode ir state)) Hin)
    as (target & Ht & Hv).
  rewrite Haddr in Ht. by injection Ht as <-.
Qed.

(** The operand of [ReadVariable] and [SetVariable] is the id. *)
Lemma image_raw (pre post : list IR) (irOp : IR) (id : Z) :
  ir = pre ++ irOp :: post -> rawVariable irOp = Some id ->
  getUint32 image (current (layout encode pre state) + 4)
  = Some (id mod 4294967296).
Proof.
  intros Hir Hraw.
  pose proof (layout_sound encode pre state) as [Hbd _].
  set (e0 := layout encode pre state) in *.
  destruct (encodeOp_raw _ _ e0 Hraw Hbd) as (Hcur & Hcl & Hget).
  set (o := current e0 + 4) in *.
  set (Q := fun e => o + 4 <= current e /\ clearAt o e
                     /\ getUint32 (bytecode e) o = Some (id mod 4294967296)).
  assert (Q (layout encode ir state)) as (_ & Hcl' & Hget').
  { rewrite Hir, layout_app. cbn [foldl]. fold e0.
    apply (foldl_grows_ind Q); [intros; apply encodeOp_grows| |done].
    intros e e' Hg (Ho & Hc & Hv). split; [|split].
    - pose proof (grows_current _ _ Hg). lia.
    - by apply (grows_clearAt e).
    - by rewrite (grows_getUint32 e). }
  by rewrite (resolve_clear _ _ _ Himage).
Qed.

(** The bytes of an operation are inside of the image. *)
Lemma image_covers (pre post : list IR) (irOp : IR) :
  ir = pre ++ irOp :: post ->
  current (encodeOp irOp (layout encode pre state))
  <= Z.of_nat (length image).
Proof.
  intros Hir. rewrite (resolve_length _ _ Himage), Hir, layout_app.
  cbn [foldl].
  destruct (foldl_grows_prefix (fun e irOp => encodeOp irOp e) post
              (encodeOp irOp (layout encode pre state)))
    as [tail ->]; [intros; apply encodeOp_grows|].
  unfold current. rewrite length_app. lia.
Qed.


End Image.

(** What [compileIR] returns goes through the second pass. *)
Lemma compileIR_image (document : DocumentNode) :
  wfState (snd (compileIR document createCompiler))
  /\ exists image,
       compileBytecode encode (fst (compileIR document createCompiler))
         (snd (compileIR document createCompiler)) = Encoded image.
Proof.
  pose proof (compileIR_closed encode document) as H.
  destruct (compileIR document createCompiler) as [ir state].
  destruct H as [Hwf Hclosed]. split; [done|].
  destruct (resolve_closed _ Hclosed (proj1 (layout_sound encode ir state)))
    as (image & Himage & _).
  by exists image.
Qed.

Lemma compileIR_shape (document : DocumentNode) :
  exists body,
    fst (compileIR document createCompiler)
    = [LabelIR 0] ++ body ++ [EndOfScriptOp]
    /\ Forall (known (snd (compileIR document createCompiler))) body.
Proof.
  destruct document as [contents]. unfold compileIR.
  destruct (lowers_compileStatements contents _ wfState_createCompiler)
    as (_ & _ & Hknown).
  destruct (compileStatements contents createCompiler) as [body state].
  by exists body.
Qed.

(** X16. The symbol table of the image. For every document and every
    name of its variables, strings or characters, the label of the id of
    the name is a place in the image at which the bytes of the name and a
    zero byte are, and every operand recorded for that id holds this
    place. *)
Theorem names_behind_labels (document : DocumentNode) (kind : SymbolKind)
    (name : string) (id : Z) :
  let ir := fst (compileIR document createCompiler) in
  let state := snd (compileIR document createCompiler) in
  In (name, id) (namesOf kind state) ->
  exists image addr rest,
    compileBytecode encode ir state = Encoded image
    /\ tableOf kind (layout encode ir state) !! id = Some addr
    /\ drop (Z.to_nat addr) image = encode name ++ x00 :: rest
    /\ forall o, In (id, o) (subsOf kind (layout encode ir state)) ->
         getUint32 image o = Some (addr mod 4294967296).
Proof.
  intros ir state Hin.
  destruct (compileIR_image document) as (Hwf & image & Himage).
  fold ir state in Hwf, Himage.
  apply list_elem_of_In, list_elem_of_lookup in Hin as [i Hi].
  destruct (image_name ir state image Hwf Himage kind i (name, id) Hi)
    as (addr & rest & Haddr & _ & Hdrop).
  exists image, addr, rest. split; [done|]. split; [done|].
  split; [by rewrite Hdrop; unfold nameBytes; rewrite <- app_assoc|].
  intros o Ho.
  destruct (resolve_patch _ _ _ _ _ Himage
              (proj2 (layout_sound encode ir state)) Ho)
    as (target & Ht & Hv).
  simpl in Haddr. rewrite Haddr in Ht. by injection Ht as <-.
Qed.

End Names.

(** The script [Bob: Hi], and the place of the string [Hi] in its image:
    behind the jump of the header. *)
Definition bobSaysHi : DocumentNode :=
  Document [Dialogue (Some "Bob") (mkTextNode [String_ "Hi"] None)].

Lemma names_behind_labels_witness :
  In ("Hi", 0) (namesOf StringSym (snd (compileIR bobSaysHi createCompiler)))
  /\ exists image rest,
       compileBytecode Utf8.encode (fst (compileIR bobSaysHi createCompiler))
         (snd (compileIR bobSaysHi createCompiler)) = Encoded image
       /\ drop 8 image = Utf8.encode "Hi" ++ x00 :: rest.
Proof.
  split; [by left|].
  destruct (names_behind_labels Utf8.encode bobSaysHi StringSym "Hi" 0)
    as (image & addr & rest & Himage & Haddr & Hdrop & _); [by left|].
  exists image, rest. split; [done|].
  vm_compute in Haddr. injection Haddr as <-. exact Hdrop.
Defined.

End Images.

Module Headers.
Import Compiler DataViewProps EncoderProps SymbolTables Images.

(** *** The header of any image *)

Section Header.
Variable encode : string -> list byte.
Variables (ir : list IR) (state : CompilerState).

(** The variables in the order of the header, and their number. *)
Let header : list (string * Z) := sortById (variables state).
Let n : Z := Z.of_nat (length header).

Lemma prologue_bytes :
  bytecode (prologue encode state)
  = headerBytes header ++ operandOp Jump [0]
    ++ namesBytes encode header ++ namesBytes encode (strings state)
    ++ namesBytes encode (characters state).
Proof.
  rewrite prologue_writes, !writeNames_bytecode, writeHeader_eq.
  cbn [bytecode pushLabelSubstitution pushBytecode emptyEncoder app].
  by rewrite <- !app_assoc.
Qed.

Lemma prologue_length :
  8 * n + 8 <= current (prologue encode state).
Proof.
  unfold current. rewrite prologue_bytes, !length_app, length_headerBytes,
    length_operandOp1. unfold n. lia.
Qed.

Lemma prologue_patches (kind : SymbolKind) (id o : Z) :
  In (id, o) (subsOf kind (prologue encode state))
  <-> (kind = VariableSym /\ In (id, o) (headerSubs 0 header))
      \/ (kind = LabelSym /\ id = 0 /\ o = 8 * n + 4).
Proof.
  rewrite prologue_writes.
  rewrite !(proj1 (writeNames_spec encode _ _ _)), writeHeader_eq.
  unfold n. fold header.
  destruct kind;
    cbn [subsOf bytecode labelSubstitutions stringSubstitutions
         variableSubstitutions characterSubstitutions pushLabelSubstitution
         pushBytecode emptyEncoder app In];
    unfold current; cbn [bytecode pushBytecode length];
    rewrite ?length_app, ?length_headerBytes, ?length_operandOp1;
    split; intros H.
  - right. destruct H as [[= <- <-]|[]]. split; [done|]. split; [done|]. lia.
  - destruct H as [[[=] _]|(_ & -> & ->)]. left. f_equal. lia.
  - done.
  - by destruct H as [[[=] _]|[[=] _]].
  - by left.
  - by destruct H as [[_ H]|[[=] _]].
  - done.
  - by destruct H as [[[=] _]|[[=] _]].
Qed.

(** Where the first pass has recorded a substitution: at the operand of
    an instruction of the header, or behind the symbol table. *)
Lemma layout_patches (kind : SymbolKind) (id o : Z) :
  In (id, o) (subsOf kind (layout encode ir state)) ->
  (exists j : nat, (j < length header)%nat /\ o = 8 * Z.of_nat j + 4)
  \/ o = 8 * n + 4
  \/ 8 * n + 12 <= o.
Proof.
  rewrite layout_prologue. intros [Hin|Hnew]%foldl_grows_subs;
    [|pose proof prologue_length; lia|intros; apply encodeOp_grows].
  apply prologue_patches in Hin as [[_ Hin]|(_ & _ & ->)]; [|by right; left].
  apply In_headerSubs in Hin as (j & entry & Hj & _ & ->).
  left. exists j. split; [by apply lookup_lt_Some in Hj|lia].
Qed.

(** No substitution touches the opcode of an instruction of the header. *)
Lemma header_opcode_clear (k : nat) :
  (k <= length header)%nat -> clearAt (8 * Z.of_nat k) (layout encode ir state).
Proof.
  intros Hk kind id o [(j & Hj & ->)|[->|Ho]]%layout_patches; unfold n in *; lia.
Qed.

Lemma layout_bytes :
  exists tail,
    bytecode (layout encode ir state)
    = headerBytes header ++ operandOp Jump [0] ++ tail.
Proof.
  rewrite layout_prologue.
  destruct (foldl_grows_prefix (fun e irOp => encodeOp irOp e) ir
              (prologue encode state)) as [tail ->];
    [intros; apply encodeOp_grows|].
  rewrite prologue_bytes. eexists. by rewrite <- !app_assoc.
Qed.

(** The opcodes of the header after the first pass. *)
Lemma header_opcodes :
  (forall i : nat, (i < length header)%nat ->
     getUint32 (bytecode (layout encode ir state)) (8 * Z.of_nat i)
     = Some (OPCODE_MAP SetVariableName))
  /\ getUint32 (bytecode (layout encode ir state)) (8 * n)
     = Some (OPCODE_MAP Jump).
Proof.
  destruct layout_bytes as [tail ->]. split.
  - intros i Hi. by apply getUint32_headerBytes.
  - rewrite getUint32_skip by (rewrite length_headerBytes; unfold n; lia).
    apply EndToEnd.getUint32_opcode.
    rewrite length_headerBytes. unfold n. lia.
Qed.

(** The substitutions of the header are kept to the end of the first
    pass. *)
Lemma header_patches :
  (forall (i : nat) entry, header !! i = Some entry ->
     In (snd entry, 8 * Z.of_nat i + 4)
       (subsOf VariableSym (layout encode ir state)))
  /\ In (0, 8 * n + 4) (subsOf LabelSym (layout encode ir state)).
Proof.
  split; [intros i entry Hi|]; rewrite layout_prologue;
    (apply foldl_grows_keeps; [intros; apply encodeOp_grows|]);
    apply prologue_patches; [left|by right].
  split; [done|]. apply In_headerSubs. exists i, entry.
  split; [done|]. split; [done|lia].
Qed.

(** C3, as the encoder has it, for every instruction it writes. The
    header: the operand of the [SetVariableName] of every variable and the
    operand of the [Jump] behind them are recorded as substitutions of the
    id of the variable and of the label 0, and the second pass leaves there
    the offsets these have in their tables. The code: the operand of a
    [ReadStr], [SetCharacter], [Jump] or [SetVariableName] of the list of
    operations is recorded and resolved in the same way, and the operand
    of a [ReadVariable] or [SetVariable] has no substitution: it holds the
    id of the variable after the first pass and after the second. *)
Theorem every_operand_patched_or_raw :
  let e := layout encode ir state in
  (forall (i : nat) entry, header !! i = Some entry ->
     getUint32 (bytecode e) (8 * Z.of_nat i)
     = Some (OPCODE_MAP SetVariableName)
     /\ In (snd entry, 8 * Z.of_nat i + 4) (subsOf VariableSym e)
     /\ match resolve e with
        | Encoded buffer =>
            getUint32 buffer (8 * Z.of_nat i)
            = Some (OPCODE_MAP SetVariableName)
            /\ exists target,
                 tableOf VariableSym e !! snd entry = Some target
                 /\ getUint32 buffer (8 * Z.of_nat i + 4)
                    = Some (target mod 4294967296)
        | _ => True
        end)
  /\ (getUint32 (bytecode e) (8 * n) = Some (OPCODE_MAP Jump)
      /\ In (0, 8 * n + 4) (subsOf LabelSym e)
      /\ match resolve e with
         | Encoded buffer =>
             getUint32 buffer (8 * n) = Some (OPCODE_MAP Jump)
             /\ exists target,
                  tableOf LabelSym e !! 0 = Some target
                  /\ getUint32 buffer (8 * n + 4)
                     = Some (target mod 4294967296)
         | _ => True
         end)
  /\ forall pre irOp post, ir = pre ++ irOp :: post ->
       let o := current (layout encode pre state) + 4 in
       match patched irOp, rawVariable irOp with
       | Some (kind, id), _ =>
           In (id, o) (subsOf kind e)
           /\ match resolve e with
              | Encoded buffer =>
                  exists target, tableOf kind e !! id = Some target
                    /\ getUint32 buffer o = Some (target mod 4294967296)
              | _ => True
              end
       | None, Some id =>
           (forall kind id', ~ In (id', o) (subsOf kind e))
           /\ getUint32 (bytecode e) o = Some (id mod 4294967296)
           /\ match resolve e with
              | Encoded buffer => getUint32 buffer o = Some (id mod 4294967296)
              | _ => True
              end
       | None, None => True
       end.
Proof.
  cbv zeta. destruct header_opcodes as [Hops Hjump].
  destruct header_patches as [Hsubs Hlabel].
  pose proof (proj2 (layout_sound encode ir state)) as Hspaced.
  split; [|split].
  - intros i entry Hi. pose proof (lookup_lt_Some _ _ _ Hi) as Hlt.
    split; [by apply Hops|]. split; [by apply Hsubs|].
    destruct (resolve _) as [buffer| |] eqn:Hr; [|done..].
    split.
    + rewrite (resolve_clear _ _ _ Hr); [by apply Hops|].
      apply header_opcode_clear. lia.
    + exact (resolve_patch _ _ _ _ _ Hr Hspaced (Hsubs i entry Hi)).
  - split; [done|]. split; [done|].
    destruct (resolve _) as [buffer| |] eqn:Hr; [|done..].
    split.
    + rewrite (resolve_clear _ _ _ Hr); [done|].
      apply (header_opcode_clear (length header)). lia.
    + exact (resolve_patch _ _ _ _ _ Hr Hspaced Hlabel).
  - intros pre irOp post ->.
    exact (operands_patched_or_raw encode state pre post irOp).
Qed.

(** The first bytes of an image: the opcode of the first instruction of
    the header, a [SetVariableName] when there is a variable and the
    [Jump] when there is none, and a zero byte behind it. *)
Definition firstByte : byte :=
  match variables state with [] => x07 | _ => x06 end.

Lemma image_starts (image : list byte) :
  compileBytecode encode ir state = Encoded image ->
  exists rest, image = firstByte :: x00 :: rest.
Proof.
  intros Himage.
  destruct (drop_piece image [firstByte; x00] 0) as [rest Hrest];
    [|by exists rest].
  intros j Hj. rewrite (resolve_lookup _ _ _ Himage).
  - destruct layout_bytes as [tail ->]. unfold firstByte, header.
    destruct (variables state) as [|entry entries].
    + destruct j as [|[|j]]; [done..|simpl in Hj; lia].
    + assert (exists first others,
                 sortById (entry :: entries) = first :: others)
        as (first & others & ->).
      { cbn [sortById foldr]. fold (sortById entries).
        destruct (sortById entries) as [|e sorted]; simpl; [by eexists _, _|].
        destruct (snd e <? snd entry); by eexists _, _. }
      destruct j as [|[|j]]; [done..|simpl in Hj; lia].
  - intros kind id o [(k & Hk & ->)|[->|Ho]]%layout_patches;
      simpl in Hj; unfold n in *; lia.
Qed.

End Header.

(** *** The speaker before any [SetCharacter] *)

Section Speaker.
Variable decode : list byte -> string.
Variable evaluate : string -> (string -> string) -> option string.
Variable encode : string -> list byte.

Lemma readStrBytes_firstByte (state : CompilerState) (rest : list byte) :
  VM.readStrBytes (firstByte state :: x00 :: rest) = Some [firstByte state].
Proof. unfold firstByte. by destruct (variables state). Qed.

(** C10: on an image that [compileBytecode] returns, a [ShowDialogue] that
    runs before any [SetCharacter] finds the current character at its
    first value 0 and prints as speaker the bytes of the image from offset
    0 up to the first zero byte, decoded. These bytes are not empty: they
    are the one byte of the opcode of the first instruction of the header,
    06 for the [SetVariableName] of the first variable and 07 for the
    [Jump] when there is no variable. *)
Theorem ShowDialogue_shows_the_first_opcode (ir : list IR)
    (state : CompilerState) (image : list byte) (w0 w w1 w2 : VM.World)
    (enclosed : Z) (rest : list (option string)) (text : option string) :
  compileBytecode encode ir state = Encoded image ->
  VM.vm w0 = VM.createVM image ->
  VMProps.runsWithoutSetCharacter decode evaluate w0 w ->
  VMProps.fetches w ShowDialogue w1 ->
  VM.read32 w1 = VM.Ok enclosed w2 ->
  VM.stack (VM.vm w) = rest ++ [text] ->
  VM.character (VM.vm w) = 0
  /\ VM.readStrBytes image = Some [firstByte state]
  /\ exists w3,
       VM.step decode evaluate w = VM.Ok (Some false) w3
       /\ VM.console w3
          = VM.console w
            ++ [VM.ConsoleLog
                  ("<< " +:+ decode [firstByte state]
                   +:+ String "010"
                         (VM.templateString text +:+ String "010" ""))]
       /\ VM.stack (VM.vm w3) = rest.
Proof.
  intros Himage H0 Hrun Hfetch Henc Hstack.
  destruct (image_starts encode ir state image Himage) as [others ->].
  pose proof (readStrBytes_firstByte state others) as Hbytes.
  destruct (VMProps.ShowDialogue_before_SetCharacter decode evaluate _ w0 w w1
              w2 enclosed rest text [firstByte state] H0 Hrun Hfetch Henc
              Hstack Hbytes) as [Hcharacter Hstep].
  done.
Qed.

End Speaker.

(** The line [Hi] of nobody, and its image. *)
Definition hiLine : AST.DocumentNode :=
  AST.Document [AST.Dialogue None (AST.mkTextNode [AST.String_ "Hi"] None)].

Lemma hiLine_image :
  compileBytecode Utf8.encode (fst (compileIR hiLine createCompiler))
    (snd (compileIR hiLine createCompiler))
  = Encoded VMProps.sayHi.
Proof. vm_compute. reflexivity. Qed.

Lemma ShowDialogue_shows_the_first_opcode_witness :
  VM.character (VM.vm VMProps.sayHi2) = 0
  /\ VM.readStrBytes VMProps.sayHi = Some [x07]
  /\ exists w3,
       VM.step Utf8.decode VMProps.noScript VMProps.sayHi2
       = VM.Ok (Some false) w3
       /\ VM.console w3
          = VM.console VMProps.sayHi2
            ++ [VM.ConsoleLog
                  ("<< " +:+ Utf8.decode [x07]
                   +:+ String "010" ("Hi" +:+ String "010" ""))]
       /\ VM.stack (VM.vm w3) = [].
Proof.
  apply (ShowDialogue_shows_the_first_opcode Utf8.decode VMProps.noScript
           Utf8.encode (fst (compileIR hiLine createCompiler))
           (snd (compileIR hiLine createCompiler)) VMProps.sayHi
           VMProps.sayHi0 VMProps.sayHi2
           (VMProps.worldOf (VM.read32 VMProps.sayHi2))
           (VMProps.worldOf
              (VM.read32 (VMProps.worldOf (VM.read32 VMProps.sayHi2))))
           0 [] (Some "Hi")).
  - exact hiLine_image.
  - reflexivity.
  - apply (VMProps.rws_step _ _ VMProps.sayHi0 VMProps.sayHi1
             (VMProps.worldOf (VM.read32 VMProps.sayHi1)) VMProps.sayHi2
             ReadStr None).
    + apply (VMProps.rws_step _ _ VMProps.sayHi0 VMProps.sayHi0
               (VMProps.worldOf (VM.read32 VMProps.sayHi0)) VMProps.sayHi1
               Jump None).
      * apply VMProps.rws_refl.
      * exists 7. split; vm_compute; reflexivity.
      * discriminate.
      * vm_compute. reflexivity.
    + exists 0. split; vm_compute; reflexivity.
    + discriminate.
    + vm_compute. reflexivity.
  - exists 2. split; vm_compute; reflexivity.
  - vm_compute. reflexivity.
  - reflexivity.
Defined.

End Headers.

Module Interning.
Import AST Compiler LoweringProps EncoderProps SymbolTables Images.

(** *** The tables only grow *)

(** The names of a state have the same ids in a later one. *)
Definition within (s s' : CompilerState) : Prop :=
  forall kind entry, In entry (namesOf kind s) -> In entry (namesOf kind s').

Lemma within_refl (s : CompilerState) : within s s.
Proof. by intros kind entry. Qed.

Lemma within_trans (s1 s2 s3 : CompilerState) :
  within s1 s2 -> within s2 s3 -> within s1 s3.
Proof. intros H1 H2 kind entry H. by apply H2, H1. Qed.

Lemma In_mapSet (table : NameMap) (name : string) (id : Z)
    (entry : string * Z) :
  mapGet table name = None ->
  In entry (mapSet table name id) <-> In entry table \/ entry = (name, id).
Proof.
  intros H. rewrite (mapSet_new _ _ _ H), in_app_iff. simpl.
  intuition congruence.
Qed.

Lemma getStringId_within (s : CompilerState) (text : string) :
  within s (snd (getStringId s text))
  /\ In (text, fst (getStringId s text)) (strings (snd (getStringId s text))).
Proof.
  unfold getStringId.
  destruct (mapGet (strings s) text) as [id|] eqn:E; simpl.
  - split; [apply within_refl|]. by apply mapGet_Some.
  - split.
    + intros [] entry Hin; simpl in *; try done.
      apply (In_mapSet _ _ _ _ E). by left.
    + apply (In_mapSet _ _ _ _ E). by right.
Qed.

Lemma getVariableId_within (s : CompilerState) (name : string) :
  within s (snd (getVariableId s name))
  /\ In (name, fst (getVariableId s name))
       (variables (snd (getVariableId s name))).
Proof.
  unfold getVariableId.
  destruct (mapGet (variables s) name) as [id|] eqn:E; simpl.
  - split; [apply within_refl|]. by apply mapGet_Some.
  - split.
    + intros [] entry Hin; simpl in *; try done.
      apply (In_mapSet _ _ _ _ E). by left.
    + apply (In_mapSet _ _ _ _ E). by right.
Qed.

Lemma getCharacterId_within (s : CompilerState) (name : string) :
  within s (snd (getCharacterId s name))
  /\ In (name, fst (getCharacterId s name))
       (characters (snd (getCharacterId s name))).
Proof.
  unfold getCharacterId.
  destruct (mapGet (characters s) name) as [id|] eqn:E; simpl.
  - split; [apply within_refl|]. by apply mapGet_Some.
  - split.
    + intros [] entry Hin; simpl in *; try done.
      apply (In_mapSet _ _ _ _ E). by left.
    + apply (In_mapSet _ _ _ _ E). by right.
Qed.

Lemma compileChildren_within (children : list TextNodeChild) :
  Forall (fun child => forall s,
            within s (snd (compileTextNodeChild child s))) children ->
  forall first s, within s (snd (compileChildren children first s)).
Proof.
  induction 1 as [|child children Hchild _ IH]; intros first s;
    [apply within_refl|].
  simpl. specialize (Hchild s).
  destruct (compileTextNodeChild child s) as [ir s1].
  specialize (IH false s1).
  destruct (compileChildren children false s1) as [rest s2].
  simpl in *. by apply (within_trans _ s1).
Qed.

Lemma compileTextNodeChild_within (child : TextNodeChild) (s : CompilerState) :
  within s (snd (compileTextNodeChild child s)).
Proof.
  revert s.
  induction child as [contents enclosed IH|contents|key|contents IH]
    using TextNodeChild_nested_ind; intros s.
  - rewrite compileTextNodeChild_Text. by apply compileChildren_within.
  - simpl. pose proof (getStringId_within s contents) as [H _].
    by destruct (getStringId s contents).
  - simpl. pose proof (getVariableId_within s key) as [H _].
    by destruct (getVariableId s key).
  - rewrite compileTextNodeChild_Script. unfold compileScript.
    pose proof (compileChildren_within contents IH true s) as H.
    by destruct (compileChildren contents true s).
Qed.

Lemma compileTextNode_within (node : TextNode) (s : CompilerState) :
  within s (snd (compileTextNode node s)).
Proof.
  destruct node as [contents enclosed].
  exact (compileTextNodeChild_within (Text contents enclosed) s).
Qed.

Lemma compileDialogue_within (speaker : option string) (contents : TextNode)
    (s : CompilerState) :
  within s (snd (compileDialogue speaker contents s)).
Proof.
  unfold compileDialogue. destruct (truthy speaker) as [name|].
  - pose proof (getCharacterId_within s name) as [H _].
    destruct (getCharacterId s name) as [id s1].
    pose proof (compileTextNode_within contents s1) as H1.
    destruct (compileTextNode contents s1) as [body s2].
    simpl in *. by apply (within_trans _ s1).
  - pose proof (compileTextNode_within contents s) as H1.
    by destruct (compileTextNode contents s) as [body s2].
Qed.

Lemma compileAssignment_within (key : string) (value : TextNode)
    (isPrompt : bool) (s : CompilerState) :
  within s (snd (compileAssignment key value isPrompt s)).
Proof.
  unfold compileAssignment.
  pose proof (compileTextNode_within value s) as H1.
  destruct (compileTextNode value s) as [body s1].
  pose proof (getVariableId_within s1 key) as [H2 _].
  destruct (getVariableId s1 key) as [id s2].
  simpl in *. by apply (within_trans _ s1).
Qed.

Lemma compileOptions_within (options : list AssignmentChoiceNode)
    (s : CompilerState) :
  within s (snd (compileOptions options s)).
Proof.
  revert s. induction options as [|[[prompt key]] options IH]; intros s;
    [apply within_refl|].
  rewrite compileOptions_cons. unfold compileChoiceValue.
  pose proof (compileTextNode_within prompt s) as H1.
  destruct (compileTextNode prompt s) as [ir s1].
  pose proof (getStringId_within s1 key) as [H2 _].
  destruct (getStringId s1 key) as [id s2].
  specialize (IH s2). destruct (compileOptions options s2) as [rest s3].
  simpl in *. apply (within_trans _ s1); [done|].
  by apply (within_trans _ s2).
Qed.

Lemma compileStatement_within (node : StatementNode) (s : CompilerState) :
  within s (snd (compileStatement node s)).
Proof.
  destruct node as [speaker contents|key value isPrompt|key options]; simpl.
  - apply compileDialogue_within.
  - apply compileAssignment_within.
  - unfold compileAssignmentSelect.
    pose proof (compileOptions_within options s) as H1.
    destruct (compileOptions options s) as [body s1].
    pose proof (getVariableId_within s1 key) as [H2 _].
    destruct (getVariableId s1 key) as [id s2].
    simpl in *. by apply (within_trans _ s1).
Qed.

Lemma compileStatements_within (nodes : list StatementNode)
    (s : CompilerState) :
  within s (snd (compileStatements nodes s)).
Proof.
  revert s. induction nodes as [|node nodes IH]; intros s;
    [apply within_refl|].
  simpl. pose proof (compileStatement_within node s) as H1.
  destruct (compileStatement node s) as [ir s1].
  specialize (IH s1). destruct (compileStatements nodes s1) as [rest s2].
  simpl in *. by apply (within_trans _ s1).
Qed.

Lemma compileStatements_cons (node : StatementNode)
    (after : list StatementNode) (s : CompilerState) :
  compileStatements (node :: after) s
  = (fst (compileStatement node s)
     ++ fst (compileStatements after (snd (compileStatement node s))),
     snd (compileStatements after (snd (compileStatement node s)))).
Proof.
  simpl. destruct (compileStatement node s) as [ir s1]. simpl.
  by destruct (compileStatements after s1).
Qed.

Lemma compileStatements_app (before after : list StatementNode)
    (s : CompilerState) :
  compileStatements (before ++ after) s
  = (fst (compileStatements before s)
     ++ fst (compileStatements after (snd (compileStatements before s))),
     snd (compileStatements after (snd (compileStatements before s)))).
Proof.
  revert s. induction before as [|node before IH]; intros s.
  - simpl. by destruct (compileStatements after s).
  - change ((node :: before) ++ after) with (node :: (before ++ after)).
    rewrite !compileStatements_cons, IH. simpl. by rewrite app_assoc.
Qed.

Lemma mapGet_In (table : NameMap) (name : string) (id : Z) :
  NoDup (map fst table) -> In (name, id) table ->
  mapGet table name = Some id.
Proof.
  induction table as [|[k v] table IH]; intros Hnd Hin; [done|].
  apply NoDup_cons in Hnd as [Hk Hnd]. simpl.
  destruct Hin as [[= -> ->]|Hin].
  - by destruct (decide (name = name)).
  - destruct (decide (k = name)) as [->|_]; [|by apply IH].
    destruct Hk. apply list_elem_of_In. by apply (in_map fst) in Hin.
Qed.

Lemma namesOf_NoDup (kind : SymbolKind) (state : CompilerState) :
  wfState state -> NoDup (map fst (namesOf kind state)).
Proof.
  intros ((_ & _ & Hc) & (_ & _ & Hs) & (_ & _ & Hv)).
  destruct kind; simpl; [apply NoDup_nil_2|done..].
Qed.

(** X21. The code of a document is the code of its statements in their
    order, between the label 0 and [EndOfScript], each statement lowered
    with the tables the statements before it left; and the ids are final:
    a name that has an id when a statement has been lowered has the same
    id in the tables of the whole document. *)
Theorem statements_in_place (before after : list StatementNode)
    (node : StatementNode) :
  let document := Document (before ++ node :: after) in
  let s0 := snd (compileStatements before createCompiler) in
  let s1 := snd (compileStatement node s0) in
  let state := snd (compileIR document createCompiler) in
  fst (compileIR document createCompiler)
  = ([LabelIR 0] ++ fst (compileStatements before createCompiler))
    ++ fst (compileStatement node s0)
    ++ fst (compileStatements after s1) ++ [EndOfScriptOp]
  /\ forall kind name id,
       In (name, id) (namesOf kind s1) ->
       mapGet (namesOf kind state) name = Some id.
Proof.
  intros document s0 s1 state.
  assert (compileStatements (before ++ node :: after) createCompiler
          = (fst (compileStatements before createCompiler)
             ++ fst (compileStatement node s0)
             ++ fst (compileStatements after s1),
             snd (compileStatements after s1))) as Hall.
  { by rewrite compileStatements_app, compileStatements_cons. }
  pose proof (lowers_compileStatements (before ++ node :: after) _
                wfState_createCompiler) as (Hwf & _).
  unfold state, document, compileIR. rewrite Hall in *.
  cbn [fst snd] in *. split; [by rewrite <- !app_assoc|].
  intros kind name id Hin. apply mapGet_In; [by apply namesOf_NoDup|].
  by apply (compileStatements_within after s1).
Qed.

End Interning.

Module MachineProps.
Import VM VMProps DataViewProps.

(** *** Opcodes *)

Lemma OPCODE_MAP_range (op : IROpType) : 0 <= OPCODE_MAP op <= 13.
Proof. destruct op; simpl; lia. Qed.

Lemma OPCODE_TO_IROp_OPCODE_MAP (op : IROpType) :
  OPCODE_TO_IROp (OPCODE_MAP op) = Some op.
Proof. by destruct op. Qed.

Lemma OPCODE_TO_IROp_outside (opcode : Z) :
  ~ 0 <= opcode <= 13 -> OPCODE_TO_IROp opcode = None.
Proof.
  intros H. unfold OPCODE_TO_IROp, OPCODE_MAP_entries. cbn [map OPCODE_MAP].
  repeat (rewrite filter_cons_False by (cbn [snd]; lia)).
  reflexivity.
Qed.

(** X1: [OPCODE_TO_IROp] is the inverse of [OPCODE_MAP]: a number is the
    opcode of a tag exactly when the table maps it back to that tag, and a
    number outside of 0..13 maps to no tag. *)
Theorem OPCODE_TO_IROp_inverts (opcode : Z) (op : IROpType) :
  (OPCODE_TO_IROp opcode = Some op <-> opcode = OPCODE_MAP op)
  /\ (OPCODE_TO_IROp opcode = None <-> ~ 0 <= opcode <= 13).
Proof.
  destruct (decide (0 <= opcode <= 13)) as [Hin|Hout].
  - assert (exists op', opcode = OPCODE_MAP op') as [op' ->].
    { assert (opcode = 0 \/ opcode = 1 \/ opcode = 2 \/ opcode = 3
              \/ opcode = 4 \/ opcode = 5 \/ opcode = 6 \/ opcode = 7
              \/ opcode = 8 \/ opcode = 9 \/ opcode = 10 \/ opcode = 11
              \/ opcode = 12 \/ opcode = 13) as H by lia.
      repeat destruct H as [->|H]; try subst opcode;
        [exists ReadStr|exists SetCharacter|exists ShowDialogue
        |exists EvaluateScript|exists Concatenate|exists ReadVariable
        |exists SetVariableName|exists Jump|exists EndOfScript
        |exists SetVariable|exists Prompt|exists MoveRegReg
        |exists SubRegReg|exists PickOption]; reflexivity. }
    rewrite OPCODE_TO_IROp_OPCODE_MAP. split.
    + split; [by intros [= ->]|].
      intros H. f_equal. by destruct op', op.
    + split; [done|]. intros H. by destruct H.
  - rewrite (OPCODE_TO_IROp_outside _ Hout). split; [|done].
    split; [done|]. intros ->. destruct Hout. apply OPCODE_MAP_range.
Qed.

(** *** Strings of the image *)

Lemma byteZ_zero (b : byte) : byteZ b = 0 <-> b = x00.
Proof. split; [|by intros ->]. destruct b; vm_compute; congruence. Qed.

(** X3: [readStr] reads up to the first zero byte: the loop returns
    [bytes] exactly when the buffer starts with [bytes], none of them zero,
    and a zero byte, and it runs off the buffer, which raises, exactly when
    the buffer holds no zero byte. *)
Theorem readStrBytes_reads_to_zero (buffer bytes : list byte) :
  (readStrBytes buffer = Some bytes
   <-> nulFree bytes /\ exists rest, buffer = bytes ++ x00 :: rest)
  /\ (readStrBytes buffer = None <-> nulFree buffer).
Proof.
  split.
  - revert bytes. induction buffer as [|b buffer IH]; intros bytes; simpl.
    + split; [done|]. intros [_ [rest H]]. by destruct bytes.
    + destruct (Z.eqb_spec (byteZ b) 0) as [Hz|Hnz].
      * apply byteZ_zero in Hz as ->. split.
        -- intros [= <-]. split; [constructor|]. by exists buffer.
        -- intros [Hnul [rest H]]. destruct bytes as [|b' bytes]; [done|].
           injection H as <- _. inversion Hnul; subst. by destruct H1.
      * split.
        -- intros H. destruct (readStrBytes buffer) as [bytes'|] eqn:E;
             [|done]. injection H as <-.
           destruct (proj1 (IH bytes') eq_refl) as [Hnul [rest ->]].
           split; [by constructor|]. by exists rest.
        -- intros [Hnul [rest H]]. destruct bytes as [|b' bytes].
           ++ injection H as -> _. by destruct Hnz.
           ++ injection H as <- ->. inversion Hnul; subst.
              rewrite (proj2 (IH bytes)); [done|]. split; [done|by exists rest].
  - induction buffer as [|b buffer IH]; simpl.
    + split; [constructor|done].
    + destruct (Z.eqb_spec (byteZ b) 0) as [Hz|Hnz].
      * split; [done|]. intros H. inversion H; subst. done.
      * destruct (readStrBytes buffer); simpl.
        -- split; [done|]. intros H. inversion H; subst.
           by apply IH in H3.
        -- split; [|done]. intros _. constructor; [done|]. by apply IH.
Qed.

(** *** The stack pointer *)

(** Register 1, the stack pointer, holds the length of the value stack. *)
Definition aligned (w : World) : Prop :=
  getReg 1 (vm w) = Num (Z.of_nat (length (stack (vm w)))).

Lemma getReg_insert_ne (i j : Z) (n : jsnum) (r : gmap Z jsnum)
    (st : VMState) :
  i <> j ->
  getReg j (set_reg (<[i := n]> r) st) = default Undefined (r !! j).
Proof. intros H. unfold getReg. simpl. by rewrite lookup_insert_ne. Qed.

Lemma getReg_insert_eq (i : Z) (n : jsnum) (r : gmap Z jsnum)
    (st : VMState) :
  getReg i (set_reg (<[i := n]> r) st) = n.
Proof. unfold getReg. simpl. by rewrite lookup_insert_eq. Qed.

Lemma getReg_set_stack (i : Z) (s : list (option string)) (st : VMState) :
  getReg i (set_stack s st) = getReg i st.
Proof. reflexivity. Qed.

Lemma aligned_read32 (w w1 : World) (v : Z) :
  read32 w = Ok v w1 -> aligned w ->
  aligned w1 /\ stack (vm w1) = stack (vm w).
Proof.
  intros H Ha. apply read32_Ok in H as ->. unfold aligned in *. simpl.
  by rewrite getReg_insert_ne.
Qed.

Lemma aligned_read8 (w w1 : World) (v : Z) :
  read8 w = Ok v w1 -> aligned w ->
  aligned w1 /\ stack (vm w1) = stack (vm w).
Proof.
  intros H Ha. apply read8_Ok in H as ->. unfold aligned in *. simpl.
  by rewrite getReg_insert_ne.
Qed.

Lemma aligned_pushed (value : string) (w : World) :
  aligned w -> aligned (pushed value w).
Proof.
  unfold aligned, pushed. cbn [vm]. intros H. rewrite getReg_insert_eq, H.
  cbn [stack set_reg set_stack]. rewrite length_app. simpl. f_equal. lia.
Qed.

Lemma aligned_stackPop (w w' : World) (top : option string) :
  stackPop w = Ok top w' -> aligned w -> stack (vm w) <> [] ->
  aligned w' /\ S (length (stack (vm w'))) = length (stack (vm w)).
Proof.
  rewrite stackPop_Ok. intros [= <- <-] Ha Hne. unfold aligned, popped in *.
  cbn [vm]. rewrite getReg_set_stack, getReg_insert_eq, Ha.
  cbn [stack set_stack].
  rewrite arrayPop_length.
  destruct (stack (vm w)); [done|]. simpl. split; [f_equal; lia|lia].
Qed.

Lemma stackPop_Some (w w' : World) (value : string) :
  stackPop w = Ok (Some value) w' -> stack (vm w) <> [].
Proof.
  rewrite stackPop_Ok. intros [= H _] Hnil. rewrite Hnil in H. done.
Qed.

Lemma aligned_same_vm (w w' : World) :
  vm w' = vm w -> aligned w -> aligned w'.
Proof. unfold aligned. by intros ->. Qed.

Section Aligned.
Variable decode : list byte -> string.
Variable evaluate : string -> (string -> string) -> option string.

Lemma aligned_pickLoop (rounds : nat) (i : Z) (oplen : jsnum)
    (opts opts' : list (string * string)) (w w' : World) :
  pickLoop rounds i oplen opts w = Ok opts' w' -> aligned w -> aligned w'.
Proof.
  revert i opts w. induction rounds as [|rounds IH]; intros i opts w; simpl.
  - destruct (jsLess i oplen); by intros [= _ <-].
  - destruct (jsLess i oplen); [|by intros [= _ <-]].
    intros H Ha.
    apply bind_Ok_inv in H as (key & w1 & Hkey & H).
    apply bind_Ok_inv in H as (value & w2 & Hvalue & H).
    destruct key as [k|]; [|done]. destruct value as [v|]; [|done].
    destruct (falsy (Some k) || falsy (Some v)); [done|].
    apply IH in H; [done|].
    destruct (aligned_stackPop _ _ _ Hkey Ha (stackPop_Some _ _ _ Hkey))
      as [Ha1 _].
    by destruct (aligned_stackPop _ _ _ Hvalue Ha1 (stackPop_Some _ _ _ Hvalue)).
Qed.

Ltac inv_bind H :=
  let a := fresh "a" in let w := fresh "w" in let Hm := fresh "Hm" in
  apply bind_Ok_inv in H as (a & w & Hm & H).

(** X4: the stack pointer follows the stack. When register 1 holds the
    length of the value stack, it still does after every instruction that
    returns, unless the instruction is a [SubRegReg] that writes to
    register 1. *)
Theorem stack_pointer_follows_stack (w w1 w' : World) (op : IROpType)
    (r : option bool) :
  aligned w ->
  fetches w op w1 ->
  (op = SubRegReg -> exists into w2, read8 w1 = Ok into w2 /\ into <> 1) ->
  step decode evaluate w = Ok r w' ->
  aligned w'.
Proof.
  intros Ha (opcode & Hop & Htag) Hsub Hstep.
  rewrite (step_execute _ _ _ _ _ Hop) in Hstep. unfold execute in Hstep.
  rewrite Htag in Hstep.
  destruct (aligned_read32 _ _ _ Hop Ha) as [Ha1 Hs1]. clear Ha Hop Htag.
  destruct op.
  - (* ReadStr *)
    inv_bind Hstep. inv_bind Hstep. apply readStr_Ok in Hm0 as ->.
    inv_bind Hstep. rewrite stackPush_Ok in Hm0. injection Hm0 as _ <-.
    injection Hstep as _ <-. apply aligned_pushed.
    by destruct (aligned_read32 _ _ _ Hm Ha1).
  - (* SetCharacter *)
    inv_bind Hstep. inv_bind Hstep. injection Hm0 as _ <-.
    injection Hstep as _ <-. by destruct (aligned_read32 _ _ _ Hm Ha1).
  - (* ShowDialogue *)
    inv_bind Hstep. inv_bind Hstep. injection Hm0 as <- <-.
    destruct (Nat.ltb_spec (length (stack (vm w0))) 1) as [|Hlen]; [done|].
    inv_bind Hstep. apply readStr_Ok in Hm0 as ->.
    inv_bind Hstep. inv_bind Hstep. injection Hm1 as _ <-.
    injection Hstep as _ <-.
    destruct (aligned_read32 _ _ _ Hm Ha1) as [Ha2 Hs2].
    apply (aligned_same_vm w2); [reflexivity|].
    eapply aligned_stackPop; [exact Hm0|done|].
    intros Hnil. rewrite Hnil in Hlen. simpl in Hlen. lia.
  - (* EvaluateScript *)
    inv_bind Hstep. destruct a as [src|]; [|done].
    destruct (falsy (Some src)); [done|].
    inv_bind Hstep. injection Hm0 as <- <-.
    destruct (evaluate src _); [|done].
    inv_bind Hstep. rewrite stackPush_Ok in Hm0. injection Hm0 as _ <-.
    injection Hstep as _ <-. apply aligned_pushed.
    by destruct (aligned_stackPop _ _ _ Hm Ha1 (stackPop_Some _ _ _ Hm)).
  - (* Concatenate *)
    inv_bind Hstep. injection Hm as <- <-.
    destruct (Nat.ltb_spec (length (stack (vm w1))) 2) as [|Hlen]; [done|].
    inv_bind Hstep. inv_bind Hstep. inv_bind Hstep.
    rewrite stackPush_Ok in Hm1. injection Hm1 as _ <-.
    injection Hstep as _ <-. apply aligned_pushed.
    destruct (aligned_stackPop _ _ _ Hm Ha1) as [Ha2 Hl2].
    { intros Hnil. rewrite Hnil in Hlen. simpl in Hlen. lia. }
    eapply aligned_stackPop; [exact Hm0|done|].
    intros Hnil. rewrite Hnil in Hl2. simpl in Hl2. lia.
  - (* ReadVariable *)
    inv_bind Hstep. inv_bind Hstep. injection Hm0 as <- <-.
    inv_bind Hstep. rewrite stackPush_Ok in Hm0. injection Hm0 as _ <-.
    injection Hstep as _ <-. apply aligned_pushed.
    by destruct (aligned_read32 _ _ _ Hm Ha1).
  - (* SetVariableName *)
    inv_bind Hstep. inv_bind Hstep. apply readStr_Ok in Hm0 as ->.
    inv_bind Hstep. injection Hm0 as _ <-. injection Hstep as _ <-.
    by destruct (aligned_read32 _ _ _ Hm Ha1).
  - (* Jump *)
    inv_bind Hstep. inv_bind Hstep. injection Hm0 as _ <-.
    injection Hstep as _ <-.
    destruct (aligned_read32 _ _ _ Hm Ha1) as [Ha2 _].
    unfold aligned in *. simpl. by rewrite getReg_insert_ne.
  - (* EndOfScript *)
    inv_bind Hstep. injection Hm as <- <-. inv_bind Hstep.
    injection Hstep as _ <-.
    destruct (0 <? length (stack (vm w1)))%nat; by injection Hm as _ <-.
  - (* SetVariable *)
    inv_bind Hstep. destruct a as [v|]; [|done].
    destruct (falsy (Some v)); [done|].
    inv_bind Hstep. inv_bind Hstep. injection Hm1 as _ <-.
    injection Hstep as _ <-.
    destruct (aligned_stackPop _ _ _ Hm Ha1 (stackPop_Some _ _ _ Hm))
      as [Ha2 _].
    by destruct (aligned_read32 _ _ _ Hm0 Ha2).
  - (* Prompt *)
    inv_bind Hstep. destruct a as [msg|]; [|done].
    destruct (falsy (Some msg)); [done|].
    inv_bind Hstep. destruct a as [v|]; [|done].
    inv_bind Hstep. rewrite stackPush_Ok in Hm1. injection Hm1 as _ <-.
    inv_bind Hstep. injection Hm1 as _ <-. injection Hstep as _ <-.
    apply (aligned_same_vm (pushed v w2)); [reflexivity|].
    apply aligned_pushed.
    destruct (aligned_stackPop _ _ _ Hm Ha1 (stackPop_Some _ _ _ Hm))
      as [Ha2 _].
    apply (aligned_same_vm w0); [|exact Ha2].
    unfold prompt in Hm0. by destruct (replies w0); injection Hm0 as _ <-.
  - (* MoveRegReg *)
    inv_bind Hstep. inv_bind Hstep. inv_bind Hstep. injection Hm1 as <- <-.
    inv_bind Hstep. injection Hm1 as _ <-. inv_bind Hstep.
    injection Hstep as _ <-.
    destruct (aligned_read8 _ _ _ Hm Ha1) as [Ha2 _].
    destruct (aligned_read8 _ _ _ Hm0 Ha2) as [Ha3 _].
    destruct (Z.eqb_spec a 1) as [->|Hne].
    + inv_bind Hm1. injection Hm2 as <- <-.
      unfold setStackLength in Hm1. simpl in Hm1.
      rewrite getReg_insert_eq in Hm1.
      destruct (getReg a0 (vm w2)) as [z| |] eqn:Ez; [|done..].
      destruct ((z <? 0) || (4294967296 <=? z)) eqn:Erange; [done|].
      injection Hm1 as _ <-. unfold aligned. simpl.
      rewrite getReg_set_stack, getReg_insert_eq. f_equal.
      apply orb_false_iff in Erange as [?%Z.ltb_ge _].
      rewrite length_app, length_take, length_replicate. lia.
    + injection Hm1 as _ <-. unfold aligned in *. simpl.
      by rewrite getReg_insert_ne.
  - (* SubRegReg *)
    destruct (Hsub eq_refl) as (into & w2 & Hinto & Hne).
    inv_bind Hstep. rewrite Hinto in Hm. injection Hm as <- <-.
    inv_bind Hstep. inv_bind Hstep. injection Hm0 as <- <-.
    inv_bind Hstep. inv_bind Hstep. injection Hm1 as <- <-.
    inv_bind Hstep. injection Hm1 as _ <-. injection Hstep as _ <-.
    destruct (aligned_read8 _ _ _ Hinto Ha1) as [Ha2 _].
    destruct (aligned_read8 _ _ _ Hm Ha2) as [Ha3 _].
    destruct (aligned_read8 _ _ _ Hm0 Ha3) as [Ha4 _].
    unfold aligned in *. simpl. by rewrite getReg_insert_ne.
  - (* PickOption *)
    inv_bind Hstep. inv_bind Hstep. injection Hm0 as <- <-.
    destruct (negb (jsLowBit (getReg a (vm w0)) =? 0)); [done|].
    inv_bind Hstep. inv_bind Hstep. injection Hm1 as _ <-.
    inv_bind Hstep. destruct a2 as [v|]; [|done].
    destruct (mapGet a0 v) as [result|]; [|done].
    destruct (falsy (Some result)); [done|].
    inv_bind Hstep. rewrite stackPush_Ok in Hm2. injection Hm2 as _ <-.
    inv_bind Hstep. injection Hm2 as _ <-. injection Hstep as _ <-.
    apply (aligned_same_vm (pushed v w3)); [reflexivity|].
    apply aligned_pushed.
    destruct (aligned_read8 _ _ _ Hm Ha1) as [Ha2 _].
    apply (aligned_pickLoop _ _ _ _ _ _ _ Hm0) in Ha2.
    apply (aligned_same_vm w2); [|exact Ha2].
    unfold prompt in Hm1. simpl in Hm1.
    by destruct (replies w2); injection Hm1 as _ <-.
Qed.

End Aligned.

Section Instructions.
Variable decode : list byte -> string.
Variable evaluate : string -> (string -> string) -> option string.

(** X2: a word at the program counter that is no opcode, a number outside
    of 0..13, makes [run] raise the unknown opcode error with that number,
    the program counter four bytes further. *)
Theorem unknown_opcode_raises (w : World) (pc opcode : Z) :
  getReg 0 (vm w) = Num pc -> 0 <= pc ->
  getUint32 (view (vm w)) pc = Some opcode ->
  ~ 0 <= opcode <= 13 ->
  step decode evaluate w = Throw (UnknownOpcode opcode) (jumped (pc + 4) w)
  /\ run decode evaluate 1 w
     = Some (Throw (UnknownOpcode opcode) (jumped (pc + 4) w)).
Proof.
  intros Hpc H0 Hword Hout.
  assert (step decode evaluate w
          = Throw (UnknownOpcode opcode) (jumped (pc + 4) w)) as Hstep.
  { rewrite (step_at _ _ _ _ _ Hpc H0 Hword). unfold execute.
    by rewrite (OPCODE_TO_IROp_outside _ Hout). }
  split; [done|]. simpl. by rewrite Hstep.
Qed.

(** X5: [Concatenate] tests the length of the stack, not its values: with
    fewer than two values it raises the stack underflow error and pops
    nothing; with two or more it joins the two on top, an empty string or a
    hole among them counting as the empty text. *)
Theorem Concatenate_tests_the_length (w w1 : World) :
  fetches w Concatenate w1 ->
  if (length (stack (vm w)) <? 2)%nat
  then step decode evaluate w = Throw StackUnderflow w1
       /\ stack (vm w1) = stack (vm w)
  else exists rest a b w2,
         stack (vm w) = rest ++ [a; b]
         /\ step decode evaluate w = Ok None w2
         /\ stack (vm w2) = rest ++ [Some (joinString a +:+ joinString b)].
Proof.
  intros (opcode & Hop & Htag).
  rewrite (step_execute _ _ _ _ _ Hop). unfold execute. rewrite Htag.
  apply read32_Ok in Hop. subst w1.
  rewrite (bind_Ok _ _ _ _ _ (get_Ok _)). cbn [vm set_reg stack].
  destruct (Nat.ltb_spec (length (stack (vm w))) 2) as [Hlt|Hge]; [done|].
  destruct (stack (vm w)) as [|x l] eqn:Es using rev_ind; [simpl in Hge; lia|].
  clear IHl. destruct l as [|y l _] using rev_ind;
    [simpl in Hge; lia|].
  exists l, y, x. rewrite <- app_assoc. simpl.
  eexists. split; [done|].
  erewrite bind_Ok by (apply (stackPop_snoc _ (l ++ [y]) x);
    simpl; rewrite Es, <- app_assoc; reflexivity).
  erewrite bind_Ok by (apply (stackPop_snoc _ l y); reflexivity).
  erewrite bind_Ok by apply stackPush_Ok.
  split; reflexivity.
Qed.

End Instructions.

Section Instructions.
Variable decode : list byte -> string.
Variable evaluate : string -> (string -> string) -> option string.

(** The world with [value] stored under the variable [id]. *)
Definition stored (id : Z) (value : string) (w : World) : World :=
  mkWorld (set_variableValues (<[id := value]> (variableValues (vm w))) (vm w))
    (replies w) (console w).

Lemma falsy_Some (value : string) : value <> "" -> falsy (Some value) = false.
Proof. intros H. unfold falsy. by destruct (decide (value = "")). Qed.

Lemma step_SetVariable (w : World) (pc id : Z) (rest : list (option string))
    (value : string) :
  getReg 0 (vm w) = Num pc -> 0 <= pc ->
  getUint32 (view (vm w)) pc = Some (OPCODE_MAP SetVariable) ->
  getUint32 (view (vm w)) (pc + 4) = Some id ->
  stack (vm w) = rest ++ [Some value] -> value <> "" ->
  step decode evaluate w
  = Ok None (stored id value
               (jumped (pc + 4 + 4) (popped rest (jumped (pc + 4) w)))).
Proof.
  intros Hpc H0 Hop Hid Hstack Hvalue.
  rewrite (step_at _ _ _ _ _ Hpc H0 Hop). unfold execute. simpl.
  erewrite bind_Ok by (apply (stackPop_snoc _ rest (Some value)); exact Hstack).
  rewrite (falsy_Some _ Hvalue).
  erewrite bind_Ok; cycle 1.
  { apply (read32_at _ (pc + 4) id); [|lia|exact Hid].
    rewrite getReg0_popped. apply getReg0_jumped. }
  reflexivity.
Qed.

Lemma step_ReadVariable (w : World) (pc id : Z) :
  getReg 0 (vm w) = Num pc -> 0 <= pc ->
  getUint32 (view (vm w)) pc = Some (OPCODE_MAP ReadVariable) ->
  getUint32 (view (vm w)) (pc + 4) = Some id ->
  step decode evaluate w
  = Ok None (pushed (default "" (variableValues (vm w) !! id))
               (jumped (pc + 4 + 4) (jumped (pc + 4) w))).
Proof.
  intros Hpc H0 Hop Hid.
  rewrite (step_at _ _ _ _ _ Hpc H0 Hop). unfold execute. simpl.
  erewrite bind_Ok; cycle 1.
  { apply (read32_at _ (pc + 4) id); [apply getReg0_jumped|lia|exact Hid]. }
  rewrite (bind_Ok _ _ _ _ _ (get_Ok _)).
  erewrite bind_Ok by apply stackPush_Ok. reflexivity.
Qed.

(** X6: what [SetVariable] stores, [ReadVariable] of the same id reads
    back. A [SetVariable id] with the text [value], not empty, on top of
    the stack pops it and stores it under [id]; the [ReadVariable id] after
    it pushes [value] again, and the stack is as it was. *)
Theorem SetVariable_then_ReadVariable (w : World) (pc id : Z)
    (rest : list (option string)) (value : string) :
  getReg 0 (vm w) = Num pc -> 0 <= pc ->
  getUint32 (view (vm w)) pc = Some (OPCODE_MAP SetVariable) ->
  getUint32 (view (vm w)) (pc + 4) = Some id ->
  getUint32 (view (vm w)) (pc + 8) = Some (OPCODE_MAP ReadVariable) ->
  getUint32 (view (vm w)) (pc + 12) = Some id ->
  stack (vm w) = rest ++ [Some value] -> value <> "" ->
  exists w1 w2,
    step decode evaluate w = Ok None w1
    /\ stack (vm w1) = rest
    /\ variableValues (vm w1) = <[id := value]> (variableValues (vm w))
    /\ step decode evaluate w1 = Ok None w2
    /\ stack (vm w2) = stack (vm w)
    /\ variableValues (vm w2) = variableValues (vm w1)
    /\ getReg 0 (vm w2) = Num (pc + 16).
Proof.
  intros Hpc H0 Hop Hid Hop' Hid' Hstack Hvalue.
  eexists _, _.
  split; [exact (step_SetVariable _ _ _ _ _ Hpc H0 Hop Hid Hstack Hvalue)|].
  split; [reflexivity|]. split; [reflexivity|].
  split.
  { apply (step_ReadVariable _ (pc + 4 + 4) id).
    - apply getReg0_jumped.
    - lia.
    - replace (pc + 4 + 4) with (pc + 8) by lia. exact Hop'.
    - replace (pc + 4 + 4 + 4) with (pc + 12) by lia. exact Hid'. }
  cbn [vm stored pushed jumped popped variableValues set_variableValues
       set_reg set_stack stack].
  rewrite lookup_insert_eq. cbn [default]. rewrite Hstack.
  split; [reflexivity|]. split; [reflexivity|].
  rewrite getReg_insert_ne by done. cbn [reg set_reg].
  rewrite lookup_insert_eq. simpl. f_equal. lia.
Qed.

End Instructions.

(** *** Instructions as the encoder writes them *)

Lemma getUint32_drop (view : list byte) (pc k : Z) :
  0 <= pc -> 0 <= k ->
  getUint32 view (pc + k) = getUint32 (drop (Z.to_nat pc) view) k.
Proof.
  intros Hpc Hk. unfold getUint32.
  destruct (Z.ltb_spec (pc + k) 0); [lia|].
  destruct (Z.ltb_spec k 0); [lia|].
  rewrite drop_drop. by replace (Z.to_nat pc + Z.to_nat k)%nat
    with (Z.to_nat (pc + k)) by lia.
Qed.

Lemma getUint8_drop (view : list byte) (pc k : Z) :
  0 <= pc -> 0 <= k ->
  getUint8 view (pc + k) = getUint8 (drop (Z.to_nat pc) view) k.
Proof.
  intros Hpc Hk. unfold getUint8.
  destruct (Z.ltb_spec (pc + k) 0); [lia|].
  destruct (Z.ltb_spec k 0); [lia|].
  rewrite lookup_drop. by replace (Z.to_nat pc + Z.to_nat k)%nat
    with (Z.to_nat (pc + k)) by lia.
Qed.

Lemma getUint32_opcode8 (op : IROpType) (operands : list Z)
    (post : list byte) :
  getUint32 (Compiler.operandOp8 op operands ++ post) 0 = Some (OPCODE_MAP op).
Proof.
  unfold Compiler.operandOp8. rewrite <- app_assoc, getUint32_head.
  f_equal. by destruct op.
Qed.

Lemma getUint8_operand8 (op : IROpType) (operands : list Z)
    (post : list byte) (i : nat) (operand : Z) :
  operands !! i = Some operand -> 0 <= operand < 256 ->
  getUint8 (Compiler.operandOp8 op operands ++ post) (4 + Z.of_nat i)
  = Some operand.
Proof.
  intros Hi Hrange. unfold getUint8, Compiler.operandOp8.
  destruct (Z.ltb_spec (4 + Z.of_nat i) 0); [lia|].
  replace (Z.to_nat (4 + Z.of_nat i)) with (4 + i)%nat by lia.
  rewrite <- app_assoc, lookup_app_r by (rewrite length_bytes32; lia).
  rewrite length_bytes32. replace (4 + i - 4)%nat with i by lia.
  rewrite lookup_app_l
    by (apply lookup_lt_is_Some; rewrite list_lookup_fmap, Hi; by eexists).
  rewrite list_lookup_fmap, Hi. simpl. f_equal.
  rewrite byteZ_byteOf. apply Z.mod_small. lia.
Qed.

Lemma read8_at (w : World) (pc v : Z) :
  getReg 0 (vm w) = Num pc -> 0 <= pc ->
  getUint8 (view (vm w)) pc = Some v ->
  read8 w = Ok v (jumped (pc + 1) w).
Proof.
  intros Hpc H0 Hv. unfold read8.
  rewrite (bind_Ok _ _ _ _ _ (get_Ok _)). rewrite Hpc. simpl.
  destruct (Z.ltb_spec pc 0); [lia|]. simpl.
  unfold bind at 1. simpl. rewrite Hv. simpl. reflexivity.
Qed.

Section Registers.
Variable decode : list byte -> string.
Variable evaluate : string -> (string -> string) -> option string.

(** X8: the bytes the encoder writes for [SubRegReg] make the machine
    subtract as the operation says: register [into] holds the value of
    [registerLeft] less the value of [registerRight], no other register
    but the program counter changes, and the stack is left alone. *)
Theorem SubRegReg_subtracts (w : World) (pc into registerLeft registerRight : Z)
    (a b : Z) (post : list byte) :
  getReg 0 (vm w) = Num pc -> 0 <= pc ->
  drop (Z.to_nat pc) (view (vm w))
  = Compiler.bytecode
      (Compiler.encodeOp (SubRegRegOp into registerLeft registerRight)
         Compiler.emptyEncoder) ++ post ->
  0 < into < 256 -> 0 < registerLeft < 256 -> 0 < registerRight < 256 ->
  getReg registerLeft (vm w) = Num a ->
  getReg registerRight (vm w) = Num b ->
  exists w',
    step decode evaluate w = Ok None w'
    /\ getReg into (vm w') = Num (a - b)
    /\ getReg 0 (vm w') = Num (pc + 7)
    /\ (forall i, i <> into -> i <> 0 -> getReg i (vm w') = getReg i (vm w))
    /\ stack (vm w') = stack (vm w).
Proof.
  intros Hpc H0 Hdrop Hinto Hleft Hright Ha Hb.
  cbn [Compiler.encodeOp Compiler.pushBytecode Compiler.bytecode
       Compiler.emptyEncoder app] in Hdrop.
  assert (getUint32 (view (vm w)) pc = Some (OPCODE_MAP SubRegReg)) as Hop.
  { replace pc with (pc + 0) at 1 by lia.
    rewrite getUint32_drop, Hdrop by lia. apply getUint32_opcode8. }
  assert (forall (i : nat) x, [into; registerLeft; registerRight] !! i = Some x ->
            0 <= x < 256 ->
            getUint8 (view (vm w)) (pc + (4 + Z.of_nat i)) = Some x) as Hbyte.
  { intros i x Hi Hx. rewrite getUint8_drop, Hdrop by lia.
    by apply getUint8_operand8. }
  rewrite (step_at _ _ _ _ _ Hpc H0 Hop). unfold execute. simpl.
  erewrite bind_Ok; cycle 1.
  { apply (read8_at _ (pc + 4) into); [apply getReg0_jumped|lia|].
    apply (Hbyte 0%nat); [done|lia]. }
  erewrite bind_Ok; cycle 1.
  { apply (read8_at _ (pc + 4 + 1) registerLeft); [apply getReg0_jumped|lia|].
    replace (pc + 4 + 1) with (pc + (4 + Z.of_nat 1)) by lia.
    apply (Hbyte 1%nat); [done|lia]. }
  rewrite (bind_Ok _ _ _ _ _ (get_Ok _)).
  erewrite bind_Ok; cycle 1.
  { apply (read8_at _ (pc + 4 + 1 + 1) registerRight);
      [apply getReg0_jumped|lia|].
    replace (pc + 4 + 1 + 1) with (pc + (4 + Z.of_nat 2)) by lia.
    apply (Hbyte 2%nat); [done|lia]. }
  rewrite (bind_Ok _ _ _ _ _ (get_Ok _)).
  eexists. split; [reflexivity|].
  assert (forall i n st, i <> 0 ->
            getReg i (vm (jumped n (mkWorld st (replies w) (console w))))
            = getReg i st) as Hjump.
  { intros i n st Hi. unfold jumped. cbn [vm].
    by rewrite getReg_insert_ne. }
  unfold jumped. cbn [vm replies console].
  repeat split.
  - rewrite getReg_insert_eq.
    rewrite !getReg_insert_ne by lia. cbn [reg set_reg].
    rewrite !lookup_insert_ne by lia.
    unfold getReg in Ha, Hb. by rewrite Ha, Hb.
  - rewrite getReg_insert_ne by lia. cbn [reg set_reg].
    rewrite lookup_insert_eq. simpl. f_equal. lia.
  - intros i Hi Hi0. rewrite getReg_insert_ne by lia. cbn [reg set_reg].
    by rewrite !lookup_insert_ne by lia.
Qed.

End Registers.

Section MoveAndPick.
Variable decode : list byte -> string.
Variable evaluate : string -> (string -> string) -> option string.

Lemma resize_stack (w : World) (n : Z) :
  getReg 1 (vm w) = Num n ->
  (let* st := get in setStackLength (getReg 1 st)) w
  = if (n <? 0) || (4294967296 <=? n) then Throw RangeError w
    else Ok tt (mkWorld
                  (set_stack
                     (take (Z.to_nat n) (stack (vm w))
                      ++ replicate (Z.to_nat n - length (stack (vm w))) None)
                     (vm w))
                  (replies w) (console w)).
Proof.
  intros H. rewrite (bind_Ok _ _ _ _ _ (get_Ok _)), H. unfold setStackLength.
  by destruct ((n <? 0) || (4294967296 <=? n)).
Qed.

(** X7: the bytes the encoder writes for [MoveRegReg] make the machine
    copy register [from] into register [to]. Copying into register 1, the
    stack pointer, also sets the length of the stack to the value: the
    stack is cut to it or filled up with holes, and a value that is no
    array length raises. *)
Theorem MoveRegReg_copies (w : World) (pc from to n : Z) (post : list byte) :
  getReg 0 (vm w) = Num pc -> 0 <= pc ->
  drop (Z.to_nat pc) (view (vm w))
  = Compiler.bytecode
      (Compiler.encodeOp (MoveRegRegOp from to) Compiler.emptyEncoder) ++ post ->
  0 < to < 256 -> 0 < from < 256 ->
  getReg from (vm w) = Num n ->
  if (to =? 1) && ((n <? 0) || (4294967296 <=? n))
  then thrown (step decode evaluate w) = Some RangeError
  else exists w',
         step decode evaluate w = Ok None w'
         /\ getReg to (vm w') = Num n
         /\ getReg 0 (vm w') = Num (pc + 6)
         /\ stack (vm w')
            = if to =? 1
              then take (Z.to_nat n) (stack (vm w))
                   ++ replicate (Z.to_nat n - length (stack (vm w))) None
              else stack (vm w).
Proof.
  intros Hpc H0 Hdrop Hto Hfrom Hn.
  cbn [Compiler.encodeOp Compiler.pushBytecode Compiler.bytecode
       Compiler.emptyEncoder app] in Hdrop.
  assert (getUint32 (view (vm w)) pc = Some (OPCODE_MAP MoveRegReg)) as Hop.
  { replace pc with (pc + 0) at 1 by lia.
    rewrite getUint32_drop, Hdrop by lia. apply getUint32_opcode8. }
  assert (forall (i : nat) x, [to; from] !! i = Some x -> 0 <= x < 256 ->
            getUint8 (view (vm w)) (pc + (4 + Z.of_nat i)) = Some x) as Hbyte.
  { intros i x Hi Hx. rewrite getUint8_drop, Hdrop by lia.
    by apply getUint8_operand8. }
  set (w3 := jumped (pc + 4 + 1 + 1) (jumped (pc + 4 + 1) (jumped (pc + 4) w))).
  set (w4 := mkWorld (set_reg (<[to := Num n]> (reg (vm w3))) (vm w3))
               (replies w3) (console w3)).
  assert (step decode evaluate w
          = ((if to =? 1
              then let* st := get in setStackLength (getReg 1 st)
              else ret tt);; ret None) w4) as ->.
  { rewrite (step_at _ _ _ _ _ Hpc H0 Hop). unfold execute. simpl.
    erewrite bind_Ok; cycle 1.
    { apply (read8_at _ (pc + 4) to); [apply getReg0_jumped|lia|].
      apply (Hbyte 0%nat); [done|lia]. }
    erewrite bind_Ok; cycle 1.
    { apply (read8_at _ (pc + 4 + 1) from); [apply getReg0_jumped|lia|].
      replace (pc + 4 + 1) with (pc + (4 + Z.of_nat 1)) by lia.
      apply (Hbyte 1%nat); [done|lia]. }
    rewrite (bind_Ok _ _ _ _ _ (get_Ok _)). fold w3.
    assert (getReg from (vm w3) = Num n) as ->.
    { unfold w3, jumped. cbn [vm]. rewrite getReg_insert_ne by lia.
      cbn [reg set_reg]. rewrite !lookup_insert_ne by lia. exact Hn. }
    reflexivity. }
  assert (getReg 0 (vm w4) = Num (pc + 6)) as Hpc4.
  { unfold w4. cbn [vm]. rewrite getReg_insert_ne by lia.
    unfold w3, jumped. cbn [vm reg set_reg]. rewrite lookup_insert_eq.
    simpl. f_equal. lia. }
  assert (getReg to (vm w4) = Num n) as Hto4
    by (unfold w4; cbn [vm]; apply getReg_insert_eq).
  destruct (Z.eqb_spec to 1) as [->|Hne]; cbn [andb].
  - destruct ((n <? 0) || (4294967296 <=? n)) eqn:Erange.
    + unfold bind at 1. by rewrite (resize_stack _ _ Hto4), Erange.
    + eexists. unfold bind at 1. rewrite (resize_stack _ _ Hto4), Erange.
      split; [reflexivity|]. cbn [vm]. rewrite !getReg_set_stack. done.
  - eexists. split; [reflexivity|]. done.
Qed.

(** The stack that the options [ds] leave when pushed in their order: for
    each its text, then its key. *)
Definition optionStack (ds : list (string * string)) : list (option string) :=
  flat_map (fun d => [Some (snd d); Some (fst d)]) ds.

(** The map that [PickOption] builds of them: the options are popped last
    first. *)
Definition optionsMap (ds : list (string * string)) : list (string * string) :=
  foldr (fun d opts => mapSet opts (fst d) (snd d)) [] ds.

Definition bothFull (d : string * string) : Prop := fst d <> "" /\ snd d <> "".

Lemma pickLoop_pops (ds : list (string * string)) :
  forall (rest : list (option string)) (rounds : nat) (i : Z)
         (opts : list (string * string)) (w : World),
    (length ds <= rounds)%nat ->
    stack (vm w) = rest ++ optionStack ds ->
    Forall bothFull ds ->
    exists w',
      pickLoop rounds i (Num (i + 2 * Z.of_nat (length ds))) opts w
      = Ok (foldr (fun d opts => mapSet opts (fst d) (snd d)) opts ds) w'
      /\ stack (vm w') = rest
      /\ replies w' = replies w
      /\ console w' = console w.
Proof.
  induction ds as [|[k p] ds IH] using rev_ind;
    intros rest rounds i opts w Hrounds Hstack Hfull.
  - exists w. cbn [length]. change (2 * Z.of_nat 0) with 0. rewrite Z.add_0_r.
    assert (jsLess i (Num i) = false) as Hless by (apply Z.ltb_irrefl).
    unfold optionStack in Hstack. simpl in Hstack. rewrite app_nil_r in Hstack.
    destruct rounds; cbn [pickLoop foldr]; by rewrite Hless.
  - rewrite length_app in Hrounds |- *. simpl in Hrounds.
    destruct rounds as [|rounds]; [lia|].
    apply Forall_app in Hfull as [Hfull Hd].
    inversion Hd as [|? ? [Hk Hp] _]; subst. simpl in Hk, Hp.
    unfold optionStack in Hstack. rewrite flat_map_app in Hstack.
    simpl in Hstack. fold (optionStack ds) in Hstack.
    cbn [pickLoop].
    assert (jsLess i (Num (i + 2 * Z.of_nat (length ds + length [(k, p)])))
            = true) as ->.
    { apply Z.ltb_lt. simpl. lia. }
    erewrite bind_Ok; cycle 1.
    { apply (stackPop_snoc _ (rest ++ optionStack ds ++ [Some p]) (Some k)).
      rewrite Hstack, <- !app_assoc. reflexivity. }
    erewrite bind_Ok; cycle 1.
    { apply (stackPop_snoc _ (rest ++ optionStack ds) (Some p)).
      simpl. by rewrite <- !app_assoc. }
    rewrite (falsy_Some _ Hk), (falsy_Some _ Hp). cbn [orb].
    destruct (IH rest rounds (i + 2) (mapSet opts k p)
                (popped (rest ++ optionStack ds)
                   (popped (rest ++ optionStack ds ++ [Some p]) w)))
      as (w' & Hloop & Hrest & Hreplies & Hconsole);
      [lia|reflexivity|exact Hfull|].
    exists w'.
    replace (i + 2 * Z.of_nat (length ds + length [(k, p)]))
      with (i + 2 + 2 * Z.of_nat (length ds)) by (simpl; lia).
    rewrite Hloop, foldr_app. simpl. done.
Qed.

Lemma mapGet_mapSet (opts : list (string * string)) (k p x v : string) :
  mapGet (mapSet opts k p) x = Some v -> v = p \/ mapGet opts x = Some v.
Proof.
  induction opts as [|[k' p'] opts IH]; simpl.
  - destruct (decide (k = x)); [intros [= <-]; by left|done].
  - destruct (decide (k' = k)) as [->|Hne]; simpl.
    + destruct (decide (k = x)); [intros [= <-]; by left|by right].
    + destruct (decide (k' = x)); [by right|exact IH].
Qed.

Lemma mapGet_optionsMap (ds : list (string * string)) (x v : string) :
  Forall bothFull ds -> mapGet (optionsMap ds) x = Some v -> v <> "".
Proof.
  induction 1 as [|[k p] ds [_ Hp] _ IH]; simpl; [done|].
  intros [->|H]%mapGet_mapSet; [exact Hp|by apply IH].
Qed.

Lemma jsLowBit_even (n : Z) : jsLowBit (Num (2 * n)) = 0.
Proof.
  simpl. change 1 with (Z.ones 1). rewrite Z.land_ones by lia.
  change (2 ^ 1) with 2. rewrite Z.mul_comm. apply Z.mod_mul. lia.
Qed.

(** [PickOption] up to the answer: the pairs are popped, the options
    logged and the user asked; what is left is to look at the reply. *)
Lemma step_PickOption (w : World) (pc register : Z)
    (ds : list (string * string)) (rest : list (option string))
    (reply : option string) (more : list (option string))
    (post : list byte) :
  getReg 0 (vm w) = Num pc -> 0 <= pc ->
  drop (Z.to_nat pc) (view (vm w))
  = Compiler.bytecode
      (Compiler.encodeOp (PickOptionOp register) Compiler.emptyEncoder)
    ++ post ->
  0 < register < 256 ->
  getReg register (vm w) = Num (2 * Z.of_nat (length ds)) ->
  stack (vm w) = rest ++ optionStack ds ->
  Forall bothFull ds ->
  replies w = reply :: more ->
  let opts := optionsMap ds in
  exists w3,
    stack (vm w3) = rest
    /\ step decode evaluate w
       = match reply with
         | None => throw PromptCancelled
         | Some v =>
             match mapGet opts v with
             | None => throw InvalidOption
             | Some result =>
                 if falsy (Some result) then throw InvalidOption
                 else stackPush v;; emit (ConsoleLog "");; ret None
             end
         end
           (mkWorld (vm w3) more
              (console w
               ++ [ConsoleLogOptions opts;
                   PromptMessage (">> Pick an option: "
                                  +:+ joinKeys (map fst opts) +:+ ":")])).
Proof.
  intros Hpc H0 Hdrop Hregister Hcount Hstack Hfull Hreplies opts.
  cbn [Compiler.encodeOp Compiler.pushBytecode Compiler.bytecode
       Compiler.emptyEncoder app] in Hdrop.
  assert (getUint32 (view (vm w)) pc = Some (OPCODE_MAP PickOption)) as Hop.
  { replace pc with (pc + 0) at 1 by lia.
    rewrite getUint32_drop, Hdrop by lia. apply getUint32_opcode8. }
  assert (getUint8 (view (vm w)) (pc + 4) = Some register) as Hbyte.
  { rewrite getUint8_drop, Hdrop by lia.
    apply (getUint8_operand8 _ _ _ 0%nat); [done|lia]. }
  set (w2 := jumped (pc + 4 + 1) (jumped (pc + 4) w)).
  destruct (pickLoop_pops ds rest (pickRounds (Num (2 * Z.of_nat (length ds))))
              0 [] w2) as (w3 & Hloop & Hrest & Hreplies3 & Hconsole3);
    [simpl; lia|exact Hstack|exact Hfull|].
  rewrite Z.add_0_l in Hloop. fold (optionsMap ds) in Hloop. fold opts in Hloop.
  exists w3. split; [exact Hrest|].
  rewrite (step_at _ _ _ _ _ Hpc H0 Hop). unfold execute. simpl.
  erewrite bind_Ok; cycle 1.
  { apply (read8_at _ (pc + 4) register); [apply getReg0_jumped|lia|done]. }
  rewrite (bind_Ok _ _ _ _ _ (get_Ok _)). fold w2.
  assert (getReg register (vm w2) = Num (2 * Z.of_nat (length ds))) as ->.
  { unfold w2, jumped. cbn [vm]. rewrite getReg_insert_ne by lia.
    cbn [reg set_reg]. rewrite !lookup_insert_ne by lia. exact Hcount. }
  rewrite jsLowBit_even. cbn [Z.eqb negb].
  rewrite (bind_Ok _ _ _ _ _ Hloop).
  unfold bind at 1, emit at 1. unfold bind at 1, prompt at 1.
  cbn [replies vm console]. rewrite Hreplies3, Hconsole3.
  change (replies w2) with (replies w). change (console w2) with (console w).
  rewrite Hreplies. cbn [tail]. rewrite <- app_assoc. reflexivity.
Qed.


(** C1, as the machine has it: [PickOption] with an even count in the
    register and as many values on the stack, the text and above it the
    key of every option, none of them empty. The machine pops them all in
    pairs, the key first, shows the keys and asks; when the reply is one
    of the keys it pushes the reply, which is the chosen key itself and
    not the text the key stands for: the text is looked up only to refuse
    a reply that is no key. *)
Theorem PickOption_pushes_the_reply (w : World) (pc register : Z)
    (ds : list (string * string)) (rest : list (option string))
    (key value : string) (more : list (option string)) (post : list byte) :
  getReg 0 (vm w) = Num pc -> 0 <= pc ->
  drop (Z.to_nat pc) (view (vm w))
  = Compiler.bytecode
      (Compiler.encodeOp (PickOptionOp register) Compiler.emptyEncoder)
    ++ post ->
  0 < register < 256 ->
  getReg register (vm w) = Num (2 * Z.of_nat (length ds)) ->
  stack (vm w) = rest ++ optionStack ds ->
  Forall bothFull ds ->
  replies w = Some key :: more ->
  mapGet (optionsMap ds) key = Some value ->
  exists w',
    step decode evaluate w = Ok None w'
    /\ stack (vm w') = rest ++ [Some key]
    /\ console w'
       = console w
         ++ [ConsoleLogOptions (optionsMap ds);
             PromptMessage (">> Pick an option: "
                            +:+ joinKeys (map fst (optionsMap ds)) +:+ ":");
             ConsoleLog ""]
    /\ replies w' = more.
Proof.
  intros Hpc H0 Hdrop Hregister Hcount Hstack Hfull Hreplies Hvalue.
  destruct (step_PickOption w pc register ds rest (Some key) more post Hpc H0
              Hdrop Hregister Hcount Hstack Hfull Hreplies)
    as (w3 & Hrest & ->).
  cbv zeta. rewrite Hvalue.
  rewrite (falsy_Some _ (mapGet_optionsMap _ _ _ Hfull Hvalue)).
  erewrite bind_Ok by apply stackPush_Ok.
  eexists. split; [reflexivity|].
  cbn [console vm pushed stack set_reg set_stack replies].
  rewrite Hrest, <- !app_assoc. done.
Qed.

End MoveAndPick.

(** *** The instructions on concrete machines *)

Definition wordNinetyNine : World := machineAt (bytes32 99) [] 0 [].

Lemma unknown_opcode_raises_witness :
  step Utf8.decode noScript wordNinetyNine
  = Throw (UnknownOpcode 99) (jumped (0 + 4) wordNinetyNine)
  /\ run Utf8.decode noScript 1 wordNinetyNine
     = Some (Throw (UnknownOpcode 99) (jumped (0 + 4) wordNinetyNine)).
Proof.
  apply (unknown_opcode_raises Utf8.decode noScript wordNinetyNine 0 99);
    [reflexivity|lia|reflexivity|lia].
Defined.

(** Two values on the stack, in front of the [SubRegReg 3 1 3] of a
    select. *)
Definition subtracts : World :=
  machineAt (Compiler.operandOp8 SubRegReg [3; 1; 3]) [Some "a"; Some "b"] 0 [].

Lemma stack_pointer_follows_stack_witness :
  aligned (worldOf (step Utf8.decode noScript subtracts)).
Proof.
  apply (stack_pointer_follows_stack Utf8.decode noScript subtracts
           (worldOf (read32 subtracts))
           (worldOf (step Utf8.decode noScript subtracts)) SubRegReg None).
  - reflexivity.
  - exists 12. split; vm_compute; reflexivity.
  - intros _. exists 3, (worldOf (read8 (worldOf (read32 subtracts)))).
    split; [vm_compute; reflexivity|lia].
  - vm_compute. reflexivity.
Defined.

Lemma SubRegReg_subtracts_witness :
  exists w',
    step Utf8.decode noScript subtracts = Ok None w'
    /\ getReg 3 (vm w') = Num (2 - 0)
    /\ getReg 0 (vm w') = Num (0 + 7)
    /\ (forall i, i <> 3 -> i <> 0 -> getReg i (vm w') = getReg i (vm subtracts))
    /\ stack (vm w') = stack (vm subtracts).
Proof.
  apply (SubRegReg_subtracts Utf8.decode noScript subtracts 0 3 1 3 2 0 []);
    try lia; vm_compute; reflexivity.
Defined.

(** One value on the stack, in front of [Concatenate]. *)
Definition joinsOne : World :=
  machineAt (Compiler.operandOp Concatenate []) [Some "a"] 0 [].

Lemma Concatenate_tests_the_length_witness :
  step Utf8.decode noScript joinsOne
  = Throw StackUnderflow (worldOf (read32 joinsOne))
  /\ stack (vm (worldOf (read32 joinsOne))) = stack (vm joinsOne).
Proof.
  apply (Concatenate_tests_the_length Utf8.decode noScript joinsOne
           (worldOf (read32 joinsOne))).
  exists 4. split; vm_compute; reflexivity.
Defined.

(** A value on the stack, in front of a [SetVariable 7] and a
    [ReadVariable 7]. *)
Definition storesSeven : World :=
  machineAt (Compiler.operandOp SetVariable [7]
             ++ Compiler.operandOp ReadVariable [7])
    [Some "below"; Some "value"] 0 [].

Lemma SetVariable_then_ReadVariable_witness :
  exists w1 w2,
    step Utf8.decode noScript storesSeven = Ok None w1
    /\ stack (vm w1) = [Some "below"]
    /\ variableValues (vm w1) = <[7 := "value"]> (variableValues (vm storesSeven))
    /\ step Utf8.decode noScript w1 = Ok None w2
    /\ stack (vm w2) = stack (vm storesSeven)
    /\ variableValues (vm w2) = variableValues (vm w1)
    /\ getReg 0 (vm w2) = Num (0 + 16).
Proof.
  apply (SetVariable_then_ReadVariable Utf8.decode noScript storesSeven 0 7
           [Some "below"] "value"); try done; try lia; vm_compute; reflexivity.
Defined.

(** Three values on the stack and 1 in register 3, in front of a
    [MoveRegReg] from register 3 to the stack pointer. *)
Definition cutsTheStack : World :=
  machineAt (Compiler.operandOp8 MoveRegReg [1; 3])
    [Some "a"; Some "b"; Some "c"] 1 [].

Lemma MoveRegReg_copies_witness :
  exists w',
    step Utf8.decode noScript cutsTheStack = Ok None w'
    /\ getReg 1 (vm w') = Num 1
    /\ getReg 0 (vm w') = Num (0 + 6)
    /\ stack (vm w') = [Some "a"].
Proof.
  apply (MoveRegReg_copies Utf8.decode noScript cutsTheStack 0 3 1 1 []);
    try lia; vm_compute; reflexivity.
Defined.



(** The machine in front of [PickOption], with the options [a "A"] and
    [b "B"] on the stack and a user who answers [b]. *)
Definition picksB : World :=
  machineAt (Compiler.operandOp8 PickOption [3])
    (optionStack [("a", "A"); ("b", "B")]) 4 [Some "b"].

Lemma PickOption_pushes_the_reply_witness :
  exists w',
    step Utf8.decode noScript picksB = Ok None w'
    /\ stack (vm w') = [Some "b"]
    /\ console w'
       = [ConsoleLogOptions [("b", "B"); ("a", "A")];
          PromptMessage ">> Pick an option: b, a:"; ConsoleLog ""]
    /\ replies w' = [].
Proof.
  apply (PickOption_pushes_the_reply Utf8.decode noScript picksB 0 3
           [("a", "A"); ("b", "B")] [] "b" "B" [] []);
    try lia; try (vm_compute; reflexivity).
  repeat constructor; discriminate.
Defined.

(** C1, as stated, fails: with 4 in the register, the four values of the
    options [a "A"] and [b "B"] on the stack and the answer [b], the map
    of the options has the text [B] for the key [b], and the machine
    leaves the key [b] on the stack, not the text. *)
Lemma PickOption_does_not_push_the_value :
  getReg 3 (vm picksB) = Num 4
  /\ stack (vm picksB) = [Some "A"; Some "a"; Some "B"; Some "b"]
  /\ mapGet (optionsMap [("a", "A"); ("b", "B")]) "b" = Some "B"
  /\ stackAfter (step Utf8.decode noScript picksB) = Some [Some "b"]
  /\ stackAfter (step Utf8.decode noScript picksB) <> Some [Some "B"].
Proof.
  assert (stackAfter (step Utf8.decode noScript picksB) = Some [Some "b"])
    as Hstep by (vm_compute; reflexivity).
  rewrite Hstep. repeat split; done.
Qed.

End MachineProps.

Module ImageRuns.
Import VM VMProps DataViewProps.

(** *** The header of an image on the machine *)

Section Header.
Variable decode : list byte -> string.
Variable evaluate : string -> (string -> string) -> option string.
Variable encode : string -> list byte.

(** [n] rounds of the loop of [run], none of which returns or raises. *)
Fixpoint steps (n : nat) (w : World) : option World :=
  match n with
  | O => Some w
  | S n' =>
      match step decode evaluate w with
      | Ok None w' => steps n' w'
      | _ => None
      end
  end.

(** [variableFromName.set] for the names of a list, in its order. *)
Definition bound (names : Compiler.NameMap) (m : gmap string Z)
  : gmap string Z :=
  foldl (fun m entry => <[fst entry := snd entry]> m) m names.

Lemma bound_lookup (names : Compiler.NameMap) (m : gmap string Z)
    (name : string) :
  NoDup (map fst names) ->
  bound names m !! name
  = match Compiler.mapGet names name with
    | Some id => Some id
    | None => m !! name
    end.
Proof.
  revert m. induction names as [|[k v] names IH]; intros m Hnd; [done|].
  apply NoDup_cons in Hnd as [Hk Hnd]. cbn [bound foldl fst snd].
  fold (bound names (<[k := v]> m)). rewrite (IH _ Hnd). simpl.
  destruct (decide (k = name)) as [->|Hne].
  - assert (Compiler.mapGet names name = None) as ->.
    { apply SymbolTables.mapGet_None. by rewrite <- list_elem_of_In. }
    by rewrite lookup_insert_eq.
  - destruct (Compiler.mapGet names name); [done|].
    by rewrite lookup_insert_ne.
Qed.

Lemma bound_snoc (names : Compiler.NameMap) (entry : string * Z)
    (m : gmap string Z) :
  bound (names ++ [entry]) m = <[fst entry := snd entry]> (bound names m).
Proof. unfold bound. by rewrite foldl_app. Qed.

Section Steps.
Variables (image : list byte) (names : Compiler.NameMap).

(** The image has a header for the names: a [SetVariableName] for each
    one, in their order, whose operand is the place of its bytes. *)
Hypothesis Hheader :
  forall i entry, names !! i = Some entry ->
    getUint32 image (8 * Z.of_nat i) = Some (OPCODE_MAP SetVariableName)
    /\ exists addr rest,
         getUint32 image (8 * Z.of_nat i + 4) = Some addr /\ 0 <= addr
         /\ drop (Z.to_nat addr) image = encode (fst entry) ++ x00 :: rest
         /\ nulFree (encode (fst entry))
         /\ decode (encode (fst entry)) = fst entry
         /\ snd entry = Z.of_nat i.

(** The machine in front of the instruction of the header for the name
    number [i]. *)
Definition headed (i : nat) (w : World) : Prop :=
  view (vm w) = image
  /\ getReg 0 (vm w) = Num (8 * Z.of_nat i)
  /\ nextVariableId (vm w) = Z.of_nat i
  /\ variableFromName (vm w) = bound (take i names) ∅
  /\ stack (vm w) = [] /\ variableValues (vm w) = ∅
  /\ getReg 1 (vm w) = Num 0 /\ character (vm w) = 0
  /\ console w = [].

Lemma step_headed (i : nat) (w : World) :
  (i < length names)%nat -> headed i w ->
  exists w', step decode evaluate w = Ok None w' /\ headed (S i) w'
    /\ replies w' = replies w.
Proof.
  intros Hi (Hview & Hpc & Hnext & Hnames & Hstack & Hvalues & Hsp & Hchar
             & Hconsole).
  destruct (lookup_lt_is_Some_2 names i Hi) as [entry Hentry].
  destruct (Hheader i entry Hentry)
    as (Hop & addr & rest & Haddr & Hpos & Hdrop & Hnul & Hdec & Hid).
  rewrite <- Hview in Hop, Haddr, Hdrop.
  rewrite (step_at _ _ w _ _ Hpc ltac:(lia) Hop).
  unfold execute. change (OPCODE_TO_IROp _) with (Some SetVariableName).
  cbv iota.
  erewrite bind_Ok; cycle 1.
  { apply (read32_at _ (8 * Z.of_nat i + 4) addr);
      [apply getReg0_jumped|lia|exact Haddr]. }
  erewrite bind_Ok; cycle 1.
  { unfold readStr. rewrite (bind_Ok _ _ _ _ _ (get_Ok _)).
    destruct (Z.ltb_spec addr 0); [lia|]. cbn [vm jumped set_reg view].
    rewrite Hdrop, (EndToEnd.readStrBytes_nulFree _ _ Hnul). reflexivity. }
  rewrite Hdec. eexists. split; [reflexivity|]. split; [|reflexivity].
  unfold headed, getReg.
  cbn [vm jumped set_reg set_variableName view reg nextVariableId
       variableFromName stack variableValues character console].
  split; [done|]. split.
  { rewrite lookup_insert_eq. simpl. f_equal. lia. }
  split; [lia|]. split.
  { rewrite (take_S_r _ _ _ Hentry), bound_snoc, Hnames, Hnext. by rewrite Hid. }
  split; [done|]. split; [done|]. split; [|done].
  rewrite !lookup_insert_ne by done. exact Hsp.
Qed.

Lemma steps_headed (k i : nat) (w : World) :
  (i + k = length names)%nat -> headed i w ->
  exists w', steps k w = Some w' /\ headed (length names) w'
    /\ replies w' = replies w.
Proof.
  revert i w. induction k as [|k IH]; intros i w Hk Hw.
  - exists w. replace (length names) with i by lia. done.
  - destruct (step_headed i w ltac:(lia) Hw) as (w1 & Hstep & Hw1 & Hr1).
    destruct (IH (S i) w1 ltac:(lia) Hw1) as (w' & Hsteps & Hw' & Hr).
    exists w'. simpl. rewrite Hstep. split; [done|]. split; [done|congruence].
Qed.

End Steps.

Lemma headed_createVM (image : list byte) (names : Compiler.NameMap)
    (answers : list (option string)) :
  headed image names 0 (mkWorld (createVM image) answers []).
Proof. by repeat split. Qed.

(** The machine of an image after its header. *)
Lemma boots (document : AST.DocumentNode) (image : list byte)
    (answers : list (option string)) :
  let ir := fst (Compiler.compileIR document Compiler.createCompiler) in
  let state := snd (Compiler.compileIR document Compiler.createCompiler) in
  Compiler.compileBytecode encode ir state = Compiler.Encoded image ->
  Z.of_nat (length image) < 4294967296 ->
  (forall name, In name (map fst (Compiler.variables state)) ->
     nulFree (encode name) /\ decode (encode name) = name) ->
  exists w',
    steps (S (length (Compiler.variables state)))
      (mkWorld (createVM image) answers []) = Some w'
    /\ view (vm w') = image
    /\ getReg 0 (vm w')
       = Num (Compiler.current (EncoderProps.prologue encode state))
    /\ nextVariableId (vm w') = Z.of_nat (length (Compiler.variables state))
    /\ variableFromName (vm w') = bound (Compiler.variables state) ∅
    /\ stack (vm w') = [] /\ variableValues (vm w') = ∅
    /\ getReg 1 (vm w') = Num 0 /\ character (vm w') = 0
    /\ console w' = [] /\ replies w' = answers.
Proof.
  intros ir state Himage Hsize Hcodec.
  destruct (Images.compileIR_image encode document) as (Hwf & _).
  destruct (Images.compileIR_shape document) as (body & Hir & Hbody).
  fold ir state in Hwf, Hir, Hbody.
  remember (Compiler.variables state) as names eqn:Enames.
  assert (NoDup (map fst names) /\ forall i entry,
            names !! i = Some entry -> snd entry = Z.of_nat i)
    as [Hnd Hids].
  { pose proof Hwf as (_ & _ & _ & Hv & Hnd). rewrite <- Enames in Hv, Hnd.
    split; [done|].
    intros i entry Hi.
    assert ((snd <$> names) !! i = Some (snd entry)) as Hsnd
      by (rewrite list_lookup_fmap; exact (f_equal (fmap snd) Hi)).
    change (snd <$> names) with (map snd names) in Hsnd.
    rewrite Hv in Hsnd.
    apply lookup_seqZ in Hsnd as [-> _]. lia. }
  assert (forall i entry, names !! i = Some entry ->
            getUint32 image (8 * Z.of_nat i) = Some (OPCODE_MAP SetVariableName)
            /\ exists addr rest,
                 getUint32 image (8 * Z.of_nat i + 4) = Some addr /\ 0 <= addr
                 /\ drop (Z.to_nat addr) image
                    = encode (fst entry) ++ x00 :: rest
                 /\ nulFree (encode (fst entry))
                 /\ decode (encode (fst entry)) = fst entry
                 /\ snd entry = Z.of_nat i) as Hheader.
  { intros i entry Hi. pose proof Hi as Hi'. rewrite Enames in Hi'.
    destruct (Images.image_header encode ir state image Hwf Himage i entry Hi')
      as (addr & rest & Hop & Haddr & Hrange & Hdrop).
    split; [done|]. exists addr, rest.
    rewrite Z.mod_small in Haddr by lia.
    destruct (Hcodec (fst entry)) as [Hnul Hdec].
    { apply in_map, list_elem_of_In, list_elem_of_lookup. by exists i. }
    unfold Images.nameBytes, Compiler.stringData in Hdrop.
    rewrite <- app_assoc in Hdrop.
    repeat split; try done; [lia|by apply Hids]. }
  destruct (steps_headed image names Hheader (length names) 0
              (mkWorld (createVM image) answers []))
    as (w1 & Hsteps & Hw1 & Hr1); [lia|apply headed_createVM|].
  destruct Hw1 as (Hview & Hpc & Hnext & Hnames & Hstack & Hvalues & Hsp
                   & Hchar & Hconsole).
  destruct (Images.image_jump encode ir state image Hwf Himage body Hir Hbody)
    as [Hjump Htarget].
  pose proof (Images.length_image encode ir state image Himage) as Hlen.
  assert (0 <= Compiler.current (EncoderProps.prologue encode state))
    as Hpos by (unfold Compiler.current; lia).
  rewrite Z.mod_small in Htarget by lia.
  rewrite <- Hview, <- Enames in Hjump, Htarget.
  eexists. split.
  { assert (forall k w, steps (S k) w
                        = match steps k w with
                          | Some w' => steps 1 w'
                          | None => None
                          end) as Hlast.
    { induction k as [|k IH]; intros w.
      - simpl. by destruct (step decode evaluate w) as [[]|].
      - change (steps (S (S k)) w)
          with (match step decode evaluate w with
                | Ok None w' => steps (S k) w'
                | _ => None
                end).
        simpl. destruct (step decode evaluate w) as [[]|]; try done.
        apply IH. }
    rewrite Hlast, Hsteps. simpl.
    rewrite (step_Jump _ _ w1 _ _ Hpc ltac:(lia) Hjump Htarget). reflexivity. }
  cbn [vm jumped set_reg variableFromName nextVariableId stack console
       replies view variableValues character].
  rewrite Hnames, firstn_all.
  repeat split; try done.
  - unfold getReg. cbn [reg set_reg]. by rewrite lookup_insert_eq.
  - unfold getReg in *. cbn [reg set_reg]. by rewrite !lookup_insert_ne.
Qed.

(** X17. The header of an image names the variables as the compiler
    numbered them. On the image of any document, the first rounds of the
    machine, one for each variable and one more, neither return nor raise;
    after them [variableFromName] holds for every name the id that the
    operands of [ReadVariable] and [SetVariable] carry, and the program
    counter is behind the symbol table, where the code starts. *)
Theorem header_names_the_variables (document : AST.DocumentNode)
    (image : list byte) (answers : list (option string)) :
  let ir := fst (Compiler.compileIR document Compiler.createCompiler) in
  let state := snd (Compiler.compileIR document Compiler.createCompiler) in
  Compiler.compileBytecode encode ir state = Compiler.Encoded image ->
  Z.of_nat (length image) < 4294967296 ->
  (forall name, In name (map fst (Compiler.variables state)) ->
     nulFree (encode name) /\ decode (encode name) = name) ->
  exists w',
    steps (S (length (Compiler.variables state)))
      (mkWorld (createVM image) answers []) = Some w'
    /\ (forall name,
          variableFromName (vm w') !! name
          = Compiler.mapGet (Compiler.variables state) name)
    /\ nextVariableId (vm w') = Z.of_nat (length (Compiler.variables state))
    /\ getReg 0 (vm w')
       = Num (Compiler.current (EncoderProps.prologue encode state))
    /\ stack (vm w') = [] /\ console w' = [] /\ replies w' = answers.
Proof.
  intros ir state Himage Hsize Hcodec.
  destruct (boots document image answers Himage Hsize Hcodec)
    as (w' & Hsteps & _ & Hpc & Hnext & Hnames & Hstack & _ & _ & _
        & Hconsole & Hreplies).
  destruct (Images.compileIR_image encode document) as (Hwf & _).
  fold state in Hwf. destruct Hwf as (_ & _ & _ & _ & Hnd).
  exists w'. split; [done|]. split; [|done].
  intros name. rewrite Hnames, (bound_lookup _ _ _ Hnd), lookup_empty.
  by destruct (Compiler.mapGet (Compiler.variables state) name).
Qed.

Lemma getUint32_inside (view : list byte) (o : Z) :
  0 <= o -> o + 4 <= Z.of_nat (length view) -> is_Some (getUint32 view o).
Proof.
  intros H0 H4. unfold getUint32. destruct (Z.ltb_spec o 0); [lia|].
  pose proof (length_drop view (Z.to_nat o)) as Hlen.
  destruct (drop _ view) as [|b0 [|b1 [|b2 [|b3 l]]]]; simpl in *; try lia.
  by eexists.
Qed.

(** The world after [SetCharacter]. *)
Definition speaking (c : Z) (w : World) : World :=
  mkWorld (set_character c (vm w)) (replies w) (console w).

Lemma step_SetCharacter (w : World) (pc c : Z) :
  getReg 0 (vm w) = Num pc -> 0 <= pc ->
  getUint32 (view (vm w)) pc = Some (OPCODE_MAP SetCharacter) ->
  getUint32 (view (vm w)) (pc + 4) = Some c ->
  step decode evaluate w
  = Ok None (speaking c (jumped (pc + 4 + 4) (jumped (pc + 4) w))).
Proof.
  intros Hpc H0 Hop Hc. rewrite (step_at _ _ w pc _ Hpc H0 Hop).
  unfold execute. change (OPCODE_TO_IROp _) with (Some SetCharacter).
  cbv iota.
  erewrite bind_Ok
    by (apply (read32_at _ (pc + 4) c); [apply getReg0_jumped|lia|done]).
  reflexivity.
Qed.

End Header.

(** The script [$x = 1], whose image has one variable. *)
Definition setsX : AST.DocumentNode :=
  AST.Document
    [AST.Assignment "x" (AST.mkTextNode [AST.String_ "1"] None) false].

Lemma header_names_the_variables_witness :
  exists image w',
    Compiler.compileBytecode Utf8.encode
      (fst (Compiler.compileIR setsX Compiler.createCompiler))
      (snd (Compiler.compileIR setsX Compiler.createCompiler))
    = Compiler.Encoded image
    /\ steps Utf8.decode noScript 2 (mkWorld (createVM image) [] []) = Some w'
    /\ variableFromName (vm w') !! "x" = Some 0
    /\ getReg 0 (vm w') = Num 20.
Proof.
  destruct (Images.compileIR_image Utf8.encode setsX) as (_ & image & Himage).
  destruct (header_names_the_variables Utf8.decode noScript Utf8.encode setsX
              image [] Himage)
    as (w' & Hsteps & Hnames & _ & Hpc & _).
  - vm_compute in Himage. injection Himage as <-. vm_compute. reflexivity.
  - intros name [<-|[]]. split; [repeat constructor; discriminate|reflexivity].
  - exists image, w'. split; [done|]. split; [done|].
    split; [by rewrite Hnames|]. rewrite Hpc. reflexivity.
Defined.

End ImageRuns.

Module TextRuns.
Import VM VMProps DataViewProps ImageRuns.
Import Interning (within, within_refl, within_trans, getStringId_within,
  getVariableId_within, compileChildren_within,
  compileTextNodeChild_within, compileOptions_within,
  getCharacterId_within, compileStatements_within, mapGet_In).

(** *** The code of a text on the machine *)

Section Code.
Variable decode : list byte -> string.
Variable evaluate : string -> (string -> string) -> option string.
Variable encode : string -> list byte.
Variables (ir : list IR) (state : Compiler.CompilerState) (image : list byte).
Hypothesis Hwf : SymbolTables.wfState state.
Hypothesis Himage :
  Compiler.compileBytecode encode ir state = Compiler.Encoded image.
Hypothesis Hsize : Z.of_nat (length image) < 4294967296.
Hypothesis Hcodec :
  forall text id, In (text, id) (Compiler.strings state) ->
    nulFree (encode text) /\ decode (encode text) = text.

(** The machine runs the image and is in front of the operations that
    follow [pre]. *)
Definition standsAt (pre : list IR) (w : World) : Prop :=
  view (vm w) = image
  /\ getReg 0 (vm w)
     = Num (Compiler.current (Compiler.layout encode pre state)).

(** What the operations of a text leave alone: the variables, the
    speaker, the console and the replies, the registers from 2 on, and
    how far the stack pointer is from the length of the stack. *)
Definition unchanged (w w' : World) : Prop :=
  variableValues (vm w') = variableValues (vm w)
  /\ variableFromName (vm w') = variableFromName (vm w)
  /\ nextVariableId (vm w') = nextVariableId (vm w)
  /\ character (vm w') = character (vm w)
  /\ console w' = console w /\ replies w' = replies w
  /\ (forall i, i <> 0 -> i <> 1 -> getReg i (vm w') = getReg i (vm w))
  /\ (forall d,
        getReg 1 (vm w) = Num (Z.of_nat (length (stack (vm w))) + d) ->
        getReg 1 (vm w') = Num (Z.of_nat (length (stack (vm w'))) + d)).

Lemma unchanged_refl (w : World) : unchanged w w.
Proof. by repeat split. Qed.

Lemma unchanged_trans (w1 w2 w3 : World) :
  unchanged w1 w2 -> unchanged w2 w3 -> unchanged w1 w3.
Proof.
  intros (A1 & A2 & A3 & A4 & A5 & A6 & A7 & A8)
         (B1 & B2 & B3 & B4 & B5 & B6 & B7 & B8).
  repeat split; try congruence.
  - intros i H0 H1. by rewrite B7, A7.
  - intros d H. by apply B8, A8.
Qed.

Lemma getReg_jumped (i pc : Z) (w : World) :
  i <> 0 -> getReg i (vm (jumped pc w)) = getReg i (vm w).
Proof. intros H. unfold getReg. simpl. by rewrite lookup_insert_ne. Qed.

Lemma getReg_pushed (i : Z) (value : string) (w : World) :
  i <> 1 -> getReg i (vm (pushed value w)) = getReg i (vm w).
Proof. intros H. unfold getReg. simpl. by rewrite lookup_insert_ne. Qed.

Lemma getReg_popped (i : Z) (rest : list (option string)) (w : World) :
  i <> 1 -> getReg i (vm (popped rest w)) = getReg i (vm w).
Proof. intros H. unfold getReg. simpl. by rewrite lookup_insert_ne. Qed.

Lemma getReg1_pushed (value : string) (w : World) :
  getReg 1 (vm (pushed value w)) = jsAdd (getReg 1 (vm w)) 1.
Proof. unfold getReg at 1. simpl. by rewrite lookup_insert_eq. Qed.

Lemma getReg1_popped (rest : list (option string)) (w : World) :
  getReg 1 (vm (popped rest w)) = jsAdd (getReg 1 (vm w)) (-1).
Proof. unfold getReg at 1. simpl. by rewrite lookup_insert_eq. Qed.

(** The registers after pushes, pops and jumps. *)
Ltac registers :=
  repeat first
    [ rewrite getReg1_pushed | rewrite getReg1_popped
    | rewrite getReg_pushed by lia | rewrite getReg_popped by lia
    | rewrite getReg_jumped by lia ].

(** [unchanged] for a world made of pushes, pops and jumps. *)
Ltac frame :=
  repeat split; try done;
  [ intros i Hi0 Hi1; registers; reflexivity
  | intros d Hsp; registers; rewrite Hsp;
    cbn [jsAdd stack vm pushed popped jumped set_stack set_reg];
    f_equal;
    try match goal with
        | H : stack (vm _) = _ |- _ => apply (f_equal length) in H
        end;
    rewrite ?length_app in *; simpl length in *; lia ].

Lemma steps_app (a b : nat) (w : World) :
  steps decode evaluate (a + b) w
  = steps decode evaluate a w ≫= steps decode evaluate b.
Proof.
  revert w. induction a as [|a IH]; intros w; [done|].
  simpl. by destruct (step decode evaluate w) as [[]|].
Qed.

Lemma steps_one (w w' : World) :
  step decode evaluate w = Ok None w' -> steps decode evaluate 1 w = Some w'.
Proof. intros H. simpl. by rewrite H. Qed.

Lemma current_nonneg (pre : list IR) :
  0 <= Compiler.current (Compiler.layout encode pre state).
Proof. unfold Compiler.current. lia. Qed.

Lemma standsAt_snoc (pre : list IR) (irOp : IR) (w : World) (size : nat)
    (bytes : list byte) :
  Compiler.bytecode (Compiler.encodeOp irOp (Compiler.layout encode pre state))
  = Compiler.bytecode (Compiler.layout encode pre state) ++ bytes ->
  length bytes = size ->
  view (vm w) = image ->
  getReg 0 (vm w)
  = Num (Compiler.current (Compiler.layout encode pre state) + Z.of_nat size) ->
  standsAt (pre ++ [irOp]) w.
Proof.
  intros Hb Hlen Hview Hpc. split; [done|]. rewrite Hpc. f_equal.
  rewrite EncoderProps.layout_app. cbn [foldl]. unfold Compiler.current.
  rewrite Hb, length_app. lia.
Qed.

Lemma runs_ReadStr (pre post : list IR) (id : Z) (text : string) (w : World) :
  ir = pre ++ ReadStrOp id :: post ->
  In (text, id) (Compiler.strings state) ->
  standsAt pre w ->
  exists w',
    step decode evaluate w = Ok None w'
    /\ standsAt (pre ++ [ReadStrOp id]) w'
    /\ stack (vm w') = stack (vm w) ++ [Some text]
    /\ unchanged w w'.
Proof.
  intros Hir Hin [Hview Hpc].
  pose proof (current_nonneg pre) as Hc0.
  set (c0 := Compiler.current (Compiler.layout encode pre state)) in *.
  destruct (Hcodec text id Hin) as [Hnul Hdec].
  apply list_elem_of_In, list_elem_of_lookup in Hin as [j Hj].
  pose proof (Images.image_opcode encode ir state image Himage pre _ _
                ReadStr Hir eq_refl) as Hop.
  destruct (Images.image_operand encode ir state image Hwf Himage pre _ _
              Compiler.StringSym j (text, id) Hir eq_refl Hj)
    as (addr & rest & Hoperand & Hrange & Hdrop).
  fold c0 in Hop, Hoperand. rewrite Z.mod_small in Hoperand by lia.
  unfold Images.nameBytes, Compiler.stringData in Hdrop.
  rewrite <- app_assoc in Hdrop. cbn [fst app] in Hdrop.
  rewrite <- Hview in Hop, Hoperand, Hdrop.
  pose proof (step_ReadStr decode evaluate w c0 addr (encode text) Hpc Hc0 Hop
                Hoperand ltac:(lia)) as Hstep.
  rewrite Hdrop, Hdec in Hstep.
  specialize (Hstep (EndToEnd.readStrBytes_nulFree _ _ Hnul)).
  eexists. split; [exact Hstep|]. split; [|split; [reflexivity|]].
  - apply (standsAt_snoc _ _ _ 8 (Compiler.operandOp ReadStr [id]));
      [reflexivity|reflexivity|exact Hview|].
    unfold getReg. cbn. rewrite lookup_insert_ne by done.
    rewrite lookup_insert_eq. simpl. f_equal. fold c0. lia.
  - frame.
Qed.

Lemma length_variables :
  Compiler.variableIdNext state
  = Z.of_nat (length (Compiler.variables state)).
Proof.
  destruct Hwf as (_ & _ & Hnext & Hids & _).
  apply (f_equal length) in Hids. rewrite length_map, length_seqZ in Hids.
  lia.
Qed.

Lemma runs_ReadVariable (pre post : list IR) (id : Z) (w : World) :
  ir = pre ++ ReadVariableOp id :: post ->
  0 <= id < Compiler.variableIdNext state ->
  standsAt pre w ->
  exists w',
    step decode evaluate w = Ok None w'
    /\ standsAt (pre ++ [ReadVariableOp id]) w'
    /\ stack (vm w')
       = stack (vm w) ++ [Some (default "" (variableValues (vm w) !! id))]
    /\ unchanged w w'.
Proof.
  intros Hir Hid [Hview Hpc].
  pose proof (current_nonneg pre) as Hc0.
  set (c0 := Compiler.current (Compiler.layout encode pre state)) in *.
  pose proof (Images.image_opcode encode ir state image Himage pre _ _
                ReadVariable Hir eq_refl) as Hop.
  pose proof (Images.image_raw encode ir state image Himage pre _ _ id Hir
                eq_refl) as Hoperand.
  pose proof (Images.length_image encode ir state image Himage) as Hlen.
  rewrite (Images.current_prologue encode state Hwf) in Hlen.
  rewrite length_variables in Hid.
  fold c0 in Hop, Hoperand. rewrite Z.mod_small in Hoperand by lia.
  rewrite <- Hview in Hop, Hoperand.
  rewrite (step_at decode evaluate w c0 _ Hpc Hc0 Hop).
  unfold execute. change (OPCODE_TO_IROp _) with (Some ReadVariable).
  cbv iota.
  erewrite bind_Ok; cycle 1.
  { apply (read32_at _ (c0 + 4) id); [apply getReg0_jumped|lia|exact Hoperand]. }
  rewrite (bind_Ok _ _ _ _ _ (get_Ok _)).
  rewrite (bind_Ok _ _ _ _ _ (stackPush_Ok _ _)).
  eexists. split; [reflexivity|]. split; [|split; [reflexivity|]].
  - apply (standsAt_snoc _ _ _ 8 (Compiler.operandOp ReadVariable [id]));
      [reflexivity|reflexivity|exact Hview|].
    unfold getReg. cbn. rewrite lookup_insert_ne by done.
    rewrite lookup_insert_eq. simpl. f_equal. fold c0. lia.
  - frame.
Qed.

Lemma runs_Concatenate (pre post : list IR) (a b : string)
    (base : list (option string)) (w : World) :
  ir = pre ++ ConcatenateOp :: post ->
  standsAt pre w ->
  stack (vm w) = base ++ [Some a; Some b] ->
  exists w',
    step decode evaluate w = Ok None w'
    /\ standsAt (pre ++ [ConcatenateOp]) w'
    /\ stack (vm w') = base ++ [Some (a +:+ b)]
    /\ unchanged w w'.
Proof.
  intros Hir [Hview Hpc] Hstack.
  pose proof (current_nonneg pre) as Hc0.
  set (c0 := Compiler.current (Compiler.layout encode pre state)) in *.
  pose proof (Images.image_opcode encode ir state image Himage pre _ _
                Concatenate Hir eq_refl) as Hop.
  fold c0 in Hop. rewrite <- Hview in Hop.
  pose proof (step_Concatenate decode evaluate w c0 base a b Hpc Hc0 Hop
                Hstack) as Hstep.
  eexists. split; [exact Hstep|]. split; [|split; [reflexivity|]].
  - apply (standsAt_snoc _ _ _ 4 (Compiler.operandOp Concatenate []));
      [reflexivity|reflexivity|exact Hview|].
    unfold getReg. cbn. rewrite !lookup_insert_ne by done.
    rewrite lookup_insert_eq. reflexivity.
  - frame.
Qed.

(** [getVariable] of the scripts, from the two maps of the machine. *)
Definition lookupVariable (names : gmap string Z) (values : gmap Z string)
    (name : string) : string :=
  match names !! name with
  | Some id => default "" (values !! id)
  | None => ""
  end.

Lemma runs_EvaluateScript (pre post : list IR) (script result : string)
    (base : list (option string)) (w : World) :
  ir = pre ++ EvaluateScriptOp :: post ->
  standsAt pre w ->
  stack (vm w) = base ++ [Some script] ->
  script <> "" ->
  evaluate script
    (lookupVariable (variableFromName (vm w)) (variableValues (vm w)))
  = Some result ->
  exists w',
    step decode evaluate w = Ok None w'
    /\ standsAt (pre ++ [EvaluateScriptOp]) w'
    /\ stack (vm w') = base ++ [Some result]
    /\ unchanged w w'.
Proof.
  intros Hir [Hview Hpc] Hstack Hscript Heval.
  pose proof (current_nonneg pre) as Hc0.
  set (c0 := Compiler.current (Compiler.layout encode pre state)) in *.
  pose proof (Images.image_opcode encode ir state image Himage pre _ _
                EvaluateScript Hir eq_refl) as Hop.
  fold c0 in Hop. rewrite <- Hview in Hop.
  rewrite (step_at decode evaluate w c0 _ Hpc Hc0 Hop).
  unfold execute. change (OPCODE_TO_IROp _) with (Some EvaluateScript).
  cbv iota.
  erewrite bind_Ok by (apply (stackPop_snoc _ base (Some script)); exact Hstack).
  rewrite (MachineProps.falsy_Some _ Hscript).
  rewrite (bind_Ok _ _ _ _ _ (get_Ok _)).
  change (getVariable (vm (popped base (jumped (c0 + 4) w))))
    with (lookupVariable (variableFromName (vm w)) (variableValues (vm w))).
  rewrite Heval.
  rewrite (bind_Ok _ _ _ _ _ (stackPush_Ok _ _)).
  eexists. split; [reflexivity|]. split; [|split; [reflexivity|]].
  - apply (standsAt_snoc _ _ _ 4 (Compiler.operandOp EvaluateScript []));
      [reflexivity|reflexivity|exact Hview|].
    unfold getReg. cbn. rewrite !lookup_insert_ne by done.
    rewrite lookup_insert_eq. reflexivity.
  - frame.
Qed.

(** The text a child stands for on a machine with the variables [names]
    and [values]: a string is itself, an expression the value of its
    variable or the empty text, a text its children in a row, and a script
    what the evaluator makes of its source; [None] where the machine
    raises. *)
Fixpoint renderChild (names : gmap string Z) (values : gmap Z string)
    (child : AST.TextNodeChild) : option string :=
  let renderChildren :=
    fix loop (children : list AST.TextNodeChild) : option string :=
      match children with
      | [] => Some ""
      | child :: children' =>
          text ← renderChild names values child;
          rest ← loop children';
          Some (text +:+ rest)
      end in
  match child with
  | AST.String_ contents => Some contents
  | AST.Expression key =>
      id ← Compiler.mapGet (Compiler.variables state) key;
      Some (default "" (values !! id))
  | AST.Text contents _ => renderChildren contents
  | AST.Script contents =>
      script ← renderChildren contents;
      if decide (script = "") then None
      else evaluate script (lookupVariable names values)
  end.

Definition renderChildren (names : gmap string Z) (values : gmap Z string)
  : list AST.TextNodeChild -> option string :=
  fix loop (children : list AST.TextNodeChild) : option string :=
    match children with
    | [] => Some ""
    | child :: children' =>
        text ← renderChild names values child;
        rest ← loop children';
        Some (text +:+ rest)
    end.

Lemma renderChildren_cons names values child children :
  renderChildren names values (child :: children)
  = text ← renderChild names values child;
    rest ← renderChildren names values children;
    Some (text +:+ rest).
Proof. reflexivity. Qed.

Lemma renderChild_Text names values contents enclosed :
  renderChild names values (AST.Text contents enclosed)
  = renderChildren names values contents.
Proof. reflexivity. Qed.

Lemma renderChild_Script names values contents :
  renderChild names values (AST.Script contents)
  = script ← renderChildren names values contents;
    if decide (script = "") then None
    else evaluate script (lookupVariable names values).
Proof. reflexivity. Qed.

(** The machine in front of the operations [block] runs them and has the
    text on top of its stack. *)
Definition pushes (pre block : list IR) (w : World) (text : string) : Prop :=
  exists w',
    steps decode evaluate (length block) w = Some w'
    /\ standsAt (pre ++ block) w'
    /\ stack (vm w') = stack (vm w) ++ [Some text]
    /\ unchanged w w'.

Definition rendersChild (child : AST.TextNodeChild) : Prop :=
  forall s0 pre post w text,
    ir = pre ++ fst (Compiler.compileTextNodeChild child s0) ++ post ->
    within (snd (Compiler.compileTextNodeChild child s0)) state ->
    LoweringProps.whole child = true ->
    renderChild (variableFromName (vm w)) (variableValues (vm w)) child
    = Some text ->
    standsAt pre w ->
    pushes pre (fst (Compiler.compileTextNodeChild child s0)) w text.

(** The children after the first one: each is followed by a
    [Concatenate] that adds it to the text on top of the stack. *)
Lemma runs_rest (children : list AST.TextNodeChild) :
  Forall rendersChild children ->
  forall s0 pre post w acc base rest,
    ir = pre ++ fst (Compiler.compileChildren children false s0) ++ post ->
    within (snd (Compiler.compileChildren children false s0)) state ->
    forallb LoweringProps.whole children = true ->
    renderChildren (variableFromName (vm w)) (variableValues (vm w)) children
    = Some rest ->
    standsAt pre w ->
    stack (vm w) = base ++ [Some acc] ->
    exists w',
      steps decode evaluate
        (length (fst (Compiler.compileChildren children false s0))) w
      = Some w'
      /\ standsAt (pre ++ fst (Compiler.compileChildren children false s0)) w'
      /\ stack (vm w') = base ++ [Some (acc +:+ rest)]
      /\ unchanged w w'.
Proof.
  induction 1 as [|child children Hchild _ IH];
    intros s0 pre post w acc base rest Hir Hwithin Hwhole Hrender Hat Hstack.
  - simpl in *. injection Hrender as <-. exists w.
    rewrite app_nil_r, LexerTokens.append_nil_r.
    split; [done|]. split; [done|]. split; [done|apply unchanged_refl].
  - apply andb_true_iff in Hwhole as [Hw1 Hw2].
    rewrite renderChildren_cons in Hrender.
    destruct (renderChild _ _ child) as [text|] eqn:Etext; [|done].
    cbn [mbind option_bind] in Hrender.
    destruct (renderChildren _ _ children) as [rest'|] eqn:Erest; [|done].
    injection Hrender as <-. cbn [Compiler.compileChildren] in *.
    pose proof (compileTextNodeChild_within child s0) as Hwithin1.
    destruct (Compiler.compileTextNodeChild child s0) as [irc s1] eqn:Ec.
    pose proof (fun H => compileChildren_within children H false s1) as Hwithin2.
    specialize (IH s1).
    destruct (Compiler.compileChildren children false s1) as [irs s2] eqn:Es.
    cbn [fst snd] in *.
    assert (within s1 s2) as H12.
    { apply Hwithin2. apply Forall_forall. intros c _ s.
      apply compileTextNodeChild_within. }
    (* the child *)
    destruct (Hchild s0 pre (([ConcatenateOp] ++ irs) ++ post) w text)
      as (w1 & Hsteps1 & Hat1 & Hstack1 & Hsame1).
    { rewrite Ec. cbn [fst]. rewrite Hir. by rewrite <- !app_assoc. }
    { rewrite Ec. cbn [snd]. by apply (within_trans _ s2). }
    { done. } { done. } { done. }
    rewrite Ec in Hsteps1, Hat1. cbn [fst] in Hsteps1, Hat1.
    (* the [Concatenate] *)
    destruct (runs_Concatenate (pre ++ irc) (irs ++ post) acc text base w1)
      as (w2 & Hstep2 & Hat2 & Hstack2 & Hsame2).
    { rewrite Hir. by rewrite <- !app_assoc. }
    { done. }
    { rewrite Hstack1, Hstack. by rewrite <- app_assoc. }
    (* the others *)
    pose proof Hsame1 as (V1 & N1 & R1). pose proof Hsame2 as (V2 & N2 & R2).
    destruct (IH ((pre ++ irc) ++ [ConcatenateOp]) post w2 (acc +:+ text)
                base rest')
      as (w3 & Hsteps3 & Hat3 & Hstack3 & Hsame3).
    { rewrite Hir. by rewrite <- !app_assoc. }
    { done. } { done. }
    { by rewrite N2, V2, N1, V1. }
    { done. } { done. }
    exists w3. split; [|split; [|split]].
    + rewrite !length_app. rewrite steps_app, Hsteps1. cbn [mbind option_bind].
      change (length [ConcatenateOp] + length irs)%nat with (1 + length irs)%nat.
      rewrite steps_app, (steps_one _ _ Hstep2). exact Hsteps3.
    + rewrite <- !app_assoc in Hat3. exact Hat3.
    + by rewrite Hstack3, LexerTokens.append_assoc.
    + apply (unchanged_trans _ w2); [|done].
      by apply (unchanged_trans _ w1).
Qed.

(** The children of a node: the first one is pushed, the others are
    added to it. *)
Lemma runs_first (children : list AST.TextNodeChild) :
  Forall rendersChild children -> children <> [] ->
  forall s0 pre post w text,
    ir = pre ++ fst (Compiler.compileChildren children true s0) ++ post ->
    within (snd (Compiler.compileChildren children true s0)) state ->
    forallb LoweringProps.whole children = true ->
    renderChildren (variableFromName (vm w)) (variableValues (vm w)) children
    = Some text ->
    standsAt pre w ->
    pushes pre (fst (Compiler.compileChildren children true s0)) w text.
Proof.
  intros Hall Hne s0 pre post w text Hir Hwithin Hwhole Hrender Hat.
  destruct Hall as [|child children Hchild Hall]; [done|].
  apply andb_true_iff in Hwhole as [Hw1 Hw2].
  rewrite renderChildren_cons in Hrender.
  destruct (renderChild _ _ child) as [first|] eqn:Efirst; [|done].
  cbn [mbind option_bind] in Hrender.
  destruct (renderChildren _ _ children) as [rest|] eqn:Erest; [|done].
  injection Hrender as <-. cbn [Compiler.compileChildren] in *.
  pose proof (runs_rest children Hall) as Hrest.
  destruct (Compiler.compileTextNodeChild child s0) as [irc s1] eqn:Ec.
  pose proof (fun H => compileChildren_within children H false s1) as Hwithin2.
  specialize (Hrest s1).
  destruct (Compiler.compileChildren children false s1) as [irs s2] eqn:Es.
  cbn [fst snd app] in *.
  assert (within s1 s2) as H12.
  { apply Hwithin2. apply Forall_forall. intros c _ s.
    apply compileTextNodeChild_within. }
  destruct (Hchild s0 pre (irs ++ post) w first)
    as (w1 & Hsteps1 & Hat1 & Hstack1 & Hsame1).
  { rewrite Ec. cbn [fst]. rewrite Hir. by rewrite <- !app_assoc. }
  { rewrite Ec. cbn [snd]. by apply (within_trans _ s2). }
  { done. } { done. } { done. }
  rewrite Ec in Hsteps1, Hat1. cbn [fst] in Hsteps1, Hat1.
  pose proof Hsame1 as (V1 & N1 & R1).
  destruct (Hrest (pre ++ irc) post w1 first (stack (vm w)) rest)
    as (w2 & Hsteps2 & Hat2 & Hstack2 & Hsame2).
  { rewrite Hir. by rewrite <- !app_assoc. }
  { done. } { done. }
  { by rewrite N1, V1. }
  { done. } { done. }
  exists w2. split; [|split; [|split]].
  - by rewrite length_app, steps_app, Hsteps1.
  - rewrite <- !app_assoc in Hat2. exact Hat2.
  - done.
  - by apply (unchanged_trans _ w1).
Qed.

Lemma rendersChild_all (child : AST.TextNodeChild) : rendersChild child.
Proof.
  induction child as [contents enclosed IH|contents|key|contents IH]
    using LoweringProps.TextNodeChild_nested_ind;
    intros s0 pre post w text Hir Hwithin Hwhole Hrender Hat.
  - rewrite LoweringProps.compileTextNodeChild_Text in *.
    rewrite renderChild_Text in Hrender. simpl in Hwhole.
    destruct contents as [|c cs]; [done|].
    by apply (runs_first (c :: cs) IH ltac:(done) s0 pre post).
  - simpl in Hrender. injection Hrender as <-.
    pose proof (getStringId_within s0 contents) as [_ Hin].
    simpl in Hir, Hwithin |- *.
    destruct (Compiler.getStringId s0 contents) as [id s1].
    cbn [fst snd app] in *.
    destruct (runs_ReadStr pre post id contents w Hir) as (w' & Hstep & H);
      [by apply (Hwithin Compiler.StringSym)|done|].
    exists w'. split; [by apply steps_one|done].
  - pose proof (getVariableId_within s0 key) as [_ Hin].
    simpl in Hir, Hwithin |- *.
    destruct (Compiler.getVariableId s0 key) as [id s1].
    cbn [fst snd app] in *.
    apply (Hwithin Compiler.VariableSym) in Hin.
    pose proof Hwf as (_ & _ & Hv).
    assert (Compiler.mapGet (Compiler.variables state) key = Some id) as Hget.
    { apply mapGet_In; [|done]. by destruct Hv as (_ & _ & Hnd). }
    simpl in Hrender. rewrite Hget in Hrender. injection Hrender as <-.
    destruct (runs_ReadVariable pre post id w Hir) as (w' & Hstep & H);
      [exact (SymbolTables.interned_id _ _ key id Hv Hget)|done|].
    exists w'. split; [by apply steps_one|done].
  - rewrite LoweringProps.compileTextNodeChild_Script in *.
    rewrite renderChild_Script in Hrender. simpl in Hwhole.
    destruct contents as [|c cs]; [done|].
    destruct (renderChildren _ _ (c :: cs)) as [script|] eqn:Escript; [|done].
    cbn [mbind option_bind] in Hrender.
    destruct (decide (script = "")) as [|Hscript]; [done|].
    unfold Compiler.compileScript in *.
    pose proof (runs_first (c :: cs) IH ltac:(done) s0) as Hfirst.
    destruct (Compiler.compileChildren (c :: cs) true s0) as [irs s1] eqn:Es.
    cbn [fst snd] in *.
    destruct (Hfirst pre ([EvaluateScriptOp] ++ post) w script)
      as (w1 & Hsteps1 & Hat1 & Hstack1 & Hsame1).
    { rewrite Hir. by rewrite <- !app_assoc. }
    { done. } { done. } { done. } { done. }
    pose proof Hsame1 as (V1 & N1 & R1).
    destruct (runs_EvaluateScript (pre ++ irs) post script text
                (stack (vm w)) w1)
      as (w2 & Hstep2 & Hat2 & Hstack2 & Hsame2).
    { rewrite Hir. by rewrite <- !app_assoc. }
    { done. } { done. } { done. }
    { by rewrite N1, V1. }
    exists w2. split; [|split; [|split]].
    + by rewrite length_app, steps_app, Hsteps1; apply steps_one.
    + by rewrite app_assoc.
    + done.
    + by apply (unchanged_trans _ w1).
Qed.


Lemma run_steps (a b : nat) (w w' : World) :
  steps decode evaluate a w = Some w' ->
  run decode evaluate (a + b) w = run decode evaluate b w'.
Proof.
  revert w. induction a as [|a IH]; intros w; simpl; [by intros [= ->]|].
  destruct (step decode evaluate w) as [[]|]; try done. apply IH.
Qed.

(** X18. A line of dialogue on the machine. Wherever the operations of a
    dialogue with a speaker stand in an image, [SetCharacter], the code of
    the text and [ShowDialogue], and the text is whole (it has a child, and
    so has every text and script nested in it) and renders (every script
    in it has a source that is not empty and that the evaluator returns a
    value for), the machine that runs them prints the name of the speaker
    and the rendered text, returns [false], and leaves the stack and the
    variables as they were. The names are encoded without a zero byte and
    decoded as they were encoded, and the image is shorter than 4 GiB. A
    text without a child is no such line: no operation pushes it. *)
Theorem dialogue_prints (node : AST.TextNode) (s0 : Compiler.CompilerState)
    (pre post : list IR) (speakerId : Z) (enclosed : option ascii)
    (speaker text : string) (w : World) :
  let block := fst (Compiler.compileTextNode node s0) in
  ir = pre ++ [SetCharacterOp speakerId] ++ block
           ++ [ShowDialogueOp enclosed] ++ post ->
  within (snd (Compiler.compileTextNode node s0)) state ->
  In (speaker, speakerId) (Compiler.characters state) ->
  nulFree (encode speaker) -> decode (encode speaker) = speaker ->
  LoweringProps.wholeText node = true ->
  renderChildren (variableFromName (vm w)) (variableValues (vm w))
    (AST.textContents node) = Some text ->
  view (vm w) = image ->
  getReg 0 (vm w) = Num (Compiler.current (Compiler.layout encode pre state)) ->
  exists w',
    run decode evaluate (1 + (length block + 1)) w = Some (Ok false w')
    /\ console w'
       = console w
         ++ [ConsoleLog ("<< " +:+ speaker
                         +:+ String "010" (text +:+ String "010" ""))]
    /\ stack (vm w') = stack (vm w)
    /\ variableValues (vm w') = variableValues (vm w).
Proof.
  intros block Hir Hwithin Hspeaker Hnul Hdec Hwhole Hrender Hview Hpc.
  pose proof (current_nonneg pre) as Hc0.
  set (c0 := Compiler.current (Compiler.layout encode pre state)) in *.
  apply list_elem_of_In, list_elem_of_lookup in Hspeaker as [i Hi].
  (* [SetCharacter] *)
  pose proof (Images.image_opcode encode ir state image Himage pre _ _
                SetCharacter Hir eq_refl) as Hop0.
  destruct (Images.image_operand encode ir state image Hwf Himage pre _ _
              Compiler.CharacterSym i (speaker, speakerId) Hir eq_refl Hi)
    as (addr & rest & Hoperand0 & Hrange & Hdrop).
  fold c0 in Hop0, Hoperand0. rewrite Z.mod_small in Hoperand0 by lia.
  unfold Images.nameBytes, Compiler.stringData in Hdrop.
  rewrite <- app_assoc in Hdrop. cbn [fst app] in Hdrop.
  rewrite <- Hview in Hop0, Hoperand0, Hdrop.
  pose proof (step_SetCharacter decode evaluate w c0 addr Hpc Hc0 Hop0
                Hoperand0) as Hstep0.
  set (w1 := speaking addr (jumped (c0 + 4 + 4) (jumped (c0 + 4) w))) in *.
  assert (standsAt (pre ++ [SetCharacterOp speakerId]) w1) as Hat1.
  { apply (standsAt_snoc _ _ _ 8 (Compiler.operandOp SetCharacter [speakerId]));
      [reflexivity|reflexivity|exact Hview|].
    unfold w1, getReg. cbn. rewrite lookup_insert_eq. simpl. f_equal.
    fold c0. lia. }
  (* the text *)
  destruct node as [contents enclosed'].
  destruct (rendersChild_all (AST.Text contents enclosed') s0
              (pre ++ [SetCharacterOp speakerId])
              ([ShowDialogueOp enclosed] ++ post) w1 text)
    as (w2 & Hsteps2 & [Hview2 Hpc2] & Hstack2 & Hsame2); try done.
  { rewrite Hir. by rewrite <- !app_assoc. }
  destruct Hsame2 as (V2 & N2 & _ & C2 & L2 & _).
  change (fst (Compiler.compileTextNodeChild (AST.Text contents enclosed') s0))
    with block in *.
  (* [ShowDialogue] *)
  set (pre2 := (pre ++ [SetCharacterOp speakerId]) ++ block) in *.
  assert (ir = pre2 ++ ShowDialogueOp enclosed :: post) as Hir2
    by (unfold pre2; rewrite Hir; by rewrite <- !app_assoc).
  pose proof (current_nonneg pre2) as Hc2.
  set (c2 := Compiler.current (Compiler.layout encode pre2 state)) in *.
  pose proof (Images.image_opcode encode ir state image Himage pre2 _ _
                ShowDialogue Hir2 eq_refl) as Hop2.
  pose proof (Images.image_covers encode ir state image Himage pre2 _ _ Hir2)
    as Hcover.
  assert (Compiler.current
            (Compiler.encodeOp (ShowDialogueOp enclosed)
               (Compiler.layout encode pre2 state)) = c2 + 8) as Hc3.
  { unfold c2, Compiler.current.
    cbn [Compiler.encodeOp Compiler.pushBytecode Compiler.bytecode].
    rewrite length_app. simpl. lia. }
  rewrite Hc3 in Hcover.
  destruct (getUint32_inside image (c2 + 4)) as [flag Hflag]; [lia..|].
  fold c2 in Hop2. rewrite <- Hview2 in Hop2, Hflag.
  pose proof (step_ShowDialogue decode evaluate w2 c2 flag (stack (vm w))
                (Some text) (encode speaker) Hpc2 Hc2 Hop2 Hflag Hstack2)
    as Hstep2.
  rewrite C2 in Hstep2. change (character (vm w1)) with addr in Hstep2.
  rewrite Hview2, <- Hview in Hstep2.
  specialize (Hstep2 ltac:(lia)
                ltac:(rewrite Hdrop; by apply EndToEnd.readStrBytes_nulFree)).
  rewrite Hdec in Hstep2.
  eexists. split.
  { change (1 + (length block + 1))%nat with (S (length block + 1)).
    cbn [run]. rewrite Hstep0. fold w1.
    rewrite (run_steps _ 1 _ _ Hsteps2). cbn [run]. rewrite Hstep2.
    reflexivity. }
  cbn [console logged popped jumped vm stack set_stack set_reg variableValues].
  split; [by rewrite L2|]. split; [done|]. exact V2.
Qed.

(** *** Assignments on the machine *)







(** *** A choice on the machine *)















(** *** A line without a speaker *)

Lemma runs_ShowDialogue (pre post : list IR) (enclosed : option ascii)
    (w : World) (base : list (option string)) (text : string)
    (bytes : list byte) :
  ir = pre ++ ShowDialogueOp enclosed :: post ->
  standsAt pre w ->
  stack (vm w) = base ++ [Some text] ->
  0 <= character (vm w) ->
  readStrBytes (drop (Z.to_nat (character (vm w))) image) = Some bytes ->
  exists w',
    step decode evaluate w = Ok (Some false) w'
    /\ console w'
       = console w
         ++ [ConsoleLog ("<< " +:+ decode bytes
                         +:+ String "010" (text +:+ String "010" ""))]
    /\ stack (vm w') = base
    /\ variableValues (vm w') = variableValues (vm w)
    /\ character (vm w') = character (vm w)
    /\ replies w' = replies w
    /\ variableFromName (vm w') = variableFromName (vm w)
    /\ standsAt (pre ++ [ShowDialogueOp enclosed]) w'.
Proof.
  intros Hir [Hview Hpc] Hstack Hcharacter Hbytes.
  pose proof (current_nonneg pre) as Hc0.
  set (c0 := Compiler.current (Compiler.layout encode pre state)) in *.
  pose proof (Images.image_opcode encode ir state image Himage pre _ _
                ShowDialogue Hir eq_refl) as Hop.
  pose proof (Images.image_covers encode ir state image Himage pre _ _ Hir)
    as Hcover.
  assert (Compiler.current
            (Compiler.encodeOp (ShowDialogueOp enclosed)
               (Compiler.layout encode pre state)) = c0 + 8) as Hc1.
  { unfold c0, Compiler.current.
    cbn [Compiler.encodeOp Compiler.pushBytecode Compiler.bytecode].
    rewrite length_app. simpl. lia. }
  rewrite Hc1 in Hcover.
  destruct (getUint32_inside image (c0 + 4)) as [flag Hflag]; [lia..|].
  fold c0 in Hop. rewrite <- Hview in Hop, Hflag, Hbytes.
  pose proof (step_ShowDialogue decode evaluate w c0 flag base (Some text)
                bytes Hpc Hc0 Hop Hflag Hstack Hcharacter Hbytes) as Hstep.
  eexists. split; [exact Hstep|]. do 6 (split; [done|]).
  apply (standsAt_snoc _ _ _ 8
           (Compiler.operandOp ShowDialogue
              [match enclosed with Some _ => 1 | None => 0 end]));
    [reflexivity|reflexivity|exact Hview|].
  cbn [logged vm]. registers. rewrite getReg0_jumped. f_equal.
  fold c0. lia.
Qed.

(** X25. A line without a speaker. [compileDialogue] writes no
    [SetCharacter] for a dialogue whose speaker is missing or empty, and
    when its text is whole (it has a child, and so has every text and
    script nested in it) and renders (every script in it has a source
    that is not empty and that the evaluator returns a value for), and
    the speaker register points at bytes that end in a zero byte, the
    machine shows the text under the name that those bytes spell: the
    speaker of the line before, and on a new machine the text that the
    first bytes of the image happen to spell. The register is left as it
    was. *)
Theorem line_without_speaker (speaker : option string) (node : AST.TextNode)
    (s0 : Compiler.CompilerState) (pre post : list IR) (w : World)
    (text : string) (bytes : list byte) :
  let block := fst (Compiler.compileDialogue speaker node s0) in
  Compiler.truthy speaker = None ->
  ir = pre ++ block ++ post ->
  within (snd (Compiler.compileDialogue speaker node s0)) state ->
  LoweringProps.wholeText node = true ->
  renderChildren (variableFromName (vm w)) (variableValues (vm w))
    (AST.textContents node) = Some text ->
  0 <= character (vm w) ->
  readStrBytes (drop (Z.to_nat (character (vm w))) image) = Some bytes ->
  view (vm w) = image ->
  getReg 0 (vm w) = Num (Compiler.current (Compiler.layout encode pre state)) ->
  exists w',
    run decode evaluate (length block) w = Some (Ok false w')
    /\ console w'
       = console w
         ++ [ConsoleLog ("<< " +:+ decode bytes
                         +:+ String "010" (text +:+ String "010" ""))]
    /\ character (vm w') = character (vm w)
    /\ stack (vm w') = stack (vm w)
    /\ variableValues (vm w') = variableValues (vm w).
Proof.
  intros block Hnone Hir Hwithin Hwhole Hrender Hcharacter Hbytes Hview Hpc.
  destruct node as [contents enclosed].
  unfold block, Compiler.compileDialogue in *. rewrite Hnone in *.
  change (Compiler.compileTextNode (AST.mkTextNode contents enclosed) s0)
    with (Compiler.compileTextNodeChild (AST.Text contents enclosed) s0) in *.
  pose proof (rendersChild_all (AST.Text contents enclosed) s0) as Hchild.
  destruct (Compiler.compileTextNodeChild (AST.Text contents enclosed) s0)
    as [body s1].
  cbn [fst snd app AST.textEnclosed] in *.
  destruct (Hchild pre ([ShowDialogueOp enclosed] ++ post) w text)
    as (w1 & Hsteps & Hat1 & Hstack1 & Hsame); try done.
  { rewrite Hir. by rewrite <- !app_assoc. }
  destruct Hsame as (V & _ & _ & L & C & _).
  destruct (runs_ShowDialogue (pre ++ body) post enclosed w1 (stack (vm w))
              text bytes)
    as (w' & Hstep & C' & S' & V' & L' & _);
    [by rewrite Hir, <- !app_assoc|done|done|by rewrite L|by rewrite L|].
  exists w'. rewrite length_app. change (length [_]) with 1%nat.
  rewrite (run_steps _ 1 _ _ Hsteps). cbn [run]. rewrite Hstep.
  split; [done|]. split; [congruence|]. split; [congruence|].
  split; congruence.
Qed.

(** *** A line with a speaker, as [compileDialogue] writes it *)

Lemma runs_SetCharacter (pre post : list IR) (id : Z) (speaker : string)
    (w : World) :
  ir = pre ++ SetCharacterOp id :: post ->
  In (speaker, id) (Compiler.characters state) ->
  standsAt pre w ->
  exists w' rest,
    step decode evaluate w = Ok None w'
    /\ standsAt (pre ++ [SetCharacterOp id]) w'
    /\ 0 <= character (vm w')
    /\ drop (Z.to_nat (character (vm w'))) image
       = encode speaker ++ x00 :: rest
    /\ stack (vm w') = stack (vm w)
    /\ variableValues (vm w') = variableValues (vm w)
    /\ variableFromName (vm w') = variableFromName (vm w)
    /\ console w' = console w /\ replies w' = replies w.
Proof.
  intros Hir Hspeaker [Hview Hpc].
  pose proof (current_nonneg pre) as Hc0.
  set (c0 := Compiler.current (Compiler.layout encode pre state)) in *.
  apply list_elem_of_In, list_elem_of_lookup in Hspeaker as [i Hi].
  pose proof (Images.image_opcode encode ir state image Himage pre _ _
                SetCharacter Hir eq_refl) as Hop.
  destruct (Images.image_operand encode ir state image Hwf Himage pre _ _
              Compiler.CharacterSym i (speaker, id) Hir eq_refl Hi)
    as (addr & rest & Hoperand & Hrange & Hdrop).
  fold c0 in Hop, Hoperand. rewrite Z.mod_small in Hoperand by lia.
  unfold Images.nameBytes, Compiler.stringData in Hdrop.
  rewrite <- app_assoc in Hdrop. cbn [fst app] in Hdrop.
  rewrite <- Hview in Hop, Hoperand.
  pose proof (step_SetCharacter decode evaluate w c0 addr Hpc Hc0 Hop
                Hoperand) as Hstep.
  eexists. exists rest. split; [exact Hstep|].
  split; [|split; [cbn; lia|split; [exact Hdrop|done]]].
  apply (standsAt_snoc _ _ _ 8 (Compiler.operandOp SetCharacter [id]));
    [reflexivity|reflexivity|exact Hview|].
  unfold getReg. cbn. rewrite lookup_insert_eq. simpl. f_equal.
  fold c0. lia.
Qed.


Lemma runs_line (speaker : string) (node : AST.TextNode)
    (s0 : Compiler.CompilerState) (pre post : list IR) (w : World)
    (text : string) :
  let block := fst (Compiler.compileDialogue (Some speaker) node s0) in
  speaker <> "" ->
  ir = pre ++ block ++ post ->
  within (snd (Compiler.compileDialogue (Some speaker) node s0)) state ->
  nulFree (encode speaker) -> decode (encode speaker) = speaker ->
  LoweringProps.wholeText node = true ->
  renderChildren (variableFromName (vm w)) (variableValues (vm w))
    (AST.textContents node) = Some text ->
  standsAt pre w ->
  exists w',
    run decode evaluate (length block) w = Some (Ok false w')
    /\ console w'
       = console w
         ++ [ConsoleLog ("<< " +:+ speaker
                         +:+ String "010" (text +:+ String "010" ""))]
    /\ stack (vm w') = stack (vm w)
    /\ variableValues (vm w') = variableValues (vm w)
    /\ replies w' = replies w
    /\ variableFromName (vm w') = variableFromName (vm w)
    /\ standsAt (pre ++ block) w'.
Proof.
  intros block Hspeaker Hir Hwithin Hnul Hdec Hwhole Hrender Hat.
  destruct node as [contents enclosed].
  unfold block, Compiler.compileDialogue, Compiler.truthy in *.
  destruct (decide (speaker = "")) as [|_]; [done|].
  pose proof (getCharacterId_within s0 speaker) as [H01 Hin].
  destruct (Compiler.getCharacterId s0 speaker) as [id s1].
  change (Compiler.compileTextNode (AST.mkTextNode contents enclosed) s1)
    with (Compiler.compileTextNodeChild (AST.Text contents enclosed) s1) in *.
  pose proof (rendersChild_all (AST.Text contents enclosed) s1) as Hchild.
  pose proof (compileTextNodeChild_within (AST.Text contents enclosed) s1)
    as H12.
  destruct (Compiler.compileTextNodeChild (AST.Text contents enclosed) s1)
    as [body s2].
  cbn [fst snd app AST.textEnclosed] in *.
  destruct (runs_SetCharacter pre (body ++ [ShowDialogueOp enclosed] ++ post)
              id speaker w)
    as (w1 & rest & Hstep1 & Hat1 & Hc1 & Hdrop1 & S1 & V1 & N1 & C1 & R1);
    [rewrite Hir; cbn [app]; by rewrite <- !app_assoc
    |by apply (Hwithin Compiler.CharacterSym), (H12 _)|done|].
  destruct (Hchild (pre ++ [SetCharacterOp id])
              ([ShowDialogueOp enclosed] ++ post) w1 text)
    as (w2 & Hsteps2 & Hat2 & Hstack2 & Hsame2).
  { rewrite Hir. by rewrite <- !app_assoc. }
  { done. } { done. }
  { by rewrite renderChild_Text, N1, V1. }
  { done. }
  destruct Hsame2 as (V2 & N2 & _ & L2 & C2 & R2 & _).
  destruct (runs_ShowDialogue ((pre ++ [SetCharacterOp id]) ++ body) post
              enclosed w2 (stack (vm w)) text (encode speaker))
    as (w' & Hstep3 & C3 & S3 & V3 & _ & R3 & N3 & Hat3).
  { rewrite Hir. by rewrite <- !app_assoc. }
  { done. }
  { by rewrite Hstack2, S1. }
  { by rewrite L2. }
  { rewrite L2, Hdrop1. by apply EndToEnd.readStrBytes_nulFree. }
  rewrite Hdec in C3.
  exists w'. split.
  { change (length (SetCharacterOp id :: body ++ [ShowDialogueOp enclosed]))
      with (S (length (body ++ [ShowDialogueOp enclosed]))).
    cbn [run]. rewrite Hstep1, length_app.
    rewrite (run_steps _ (length [ShowDialogueOp enclosed]) _ _ Hsteps2).
    cbn [run length]. by rewrite Hstep3. }
  split; [congruence|]. split; [done|]. split; [congruence|].
  split; [congruence|]. split; [congruence|].
  rewrite <- !app_assoc in Hat3. exact Hat3.
Qed.

(** *** A script of lines, played through *)

(** The loop of run-vm.ts, [while (!done) done = run(vm)], with every
    call of [run] cut after [fuel] instructions and the loop after
    [calls] rounds ([None]: not yet done). *)
Fixpoint runVM (calls fuel : nat) (w : World) : option (Outcome unit) :=
  match calls with
  | O => None
  | S calls' =>
      match run decode evaluate fuel w with
      | Some (Ok true w') => Some (Ok tt w')
      | Some (Ok false w') => runVM calls' fuel w'
      | Some (Throw e w') => Some (Throw e w')
      | None => None
      end
  end.

Lemma run_more (a b : nat) (w : World) (r : Outcome bool) :
  run decode evaluate a w = Some r -> run decode evaluate (a + b) w = Some r.
Proof.
  revert w. induction a as [|a IH]; intros w; [done|]. simpl.
  destruct (step decode evaluate w) as [[[]|] w'|e w']; try done. apply IH.
Qed.

Lemma runVM_more (calls fuel b : nat) (w : World) (r : Outcome unit) :
  runVM calls fuel w = Some r -> runVM calls (fuel + b) w = Some r.
Proof.
  revert w. induction calls as [|calls IH]; intros w; [done|]. simpl.
  destruct (run decode evaluate fuel w) as [o|] eqn:Erun; [|done].
  rewrite (run_more _ b _ _ Erun).
  destruct o as [[] w'|e w']; try done. apply IH.
Qed.

Lemma runVM_steps (calls a fuel : nat) (w w1 : World) (r : Outcome unit) :
  steps decode evaluate a w = Some w1 ->
  runVM calls fuel w1 = Some r -> runVM calls (a + fuel) w = Some r.
Proof.
  intros Hsteps. destruct calls as [|calls]; [done|]. simpl.
  rewrite (run_steps _ fuel _ _ Hsteps).
  destruct (run decode evaluate fuel w1) as [[[] w2|e w2]|]; try done.
  rewrite (Nat.add_comm a fuel). apply runVM_more.
Qed.

Lemma runs_EndOfScript (pre post : list IR) (w : World) :
  ir = pre ++ EndOfScriptOp :: post ->
  standsAt pre w ->
  stack (vm w) = [] ->
  exists w',
    step decode evaluate w = Ok (Some true) w'
    /\ console w' = console w /\ stack (vm w') = []
    /\ replies w' = replies w.
Proof.
  intros Hir [Hview Hpc] Hstack.
  pose proof (current_nonneg pre) as Hc0.
  set (c0 := Compiler.current (Compiler.layout encode pre state)) in *.
  pose proof (Images.image_opcode encode ir state image Himage pre _ _
                EndOfScript Hir eq_refl) as Hop.
  fold c0 in Hop. rewrite <- Hview in Hop.
  rewrite (step_at decode evaluate w c0 _ Hpc Hc0 Hop).
  unfold execute. change (OPCODE_TO_IROp _) with (Some EndOfScript).
  cbv iota. rewrite (bind_Ok _ _ _ _ _ (get_Ok _)).
  cbn [vm jumped set_reg stack]. rewrite Hstack. cbn [length Nat.ltb Nat.leb].
  eexists. split; [reflexivity|]. done.
Qed.

(** A line of a speaker, as a statement. *)
Definition lineOf (line : string * AST.TextNode) : AST.StatementNode :=
  AST.Dialogue (Some (fst line)) (snd line).

(** What the machine prints for it. *)
Definition shown (names : gmap string Z) (values : gmap Z string)
    (line : string * AST.TextNode) : option Event :=
  text ← renderChildren names values (AST.textContents (snd line));
  Some (ConsoleLog ("<< " +:+ fst line
                    +:+ String "010" (text +:+ String "010" ""))).

Lemma shown_pair (names : gmap string Z) (values : gmap Z string)
    (speaker : string) (node : AST.TextNode) :
  shown names values (speaker, node)
  = (text ← renderChildren names values (AST.textContents node);
     Some (ConsoleLog ("<< " +:+ speaker
                       +:+ String "010" (text +:+ String "010" "")))).
Proof. reflexivity. Qed.

(** A speaker with a name, of bytes that can be read back, and a text
    without an empty node. *)
Definition spoken (line : string * AST.TextNode) : Prop :=
  fst line <> ""
  /\ nulFree (encode (fst line)) /\ decode (encode (fst line)) = fst line
  /\ LoweringProps.wholeText (snd line) = true.

Lemma runs_lines (lines : list (string * AST.TextNode)) :
  forall s0 pre w events,
    ir = pre ++ fst (Compiler.compileStatements (map lineOf lines) s0)
             ++ [EndOfScriptOp] ->
    within (snd (Compiler.compileStatements (map lineOf lines) s0)) state ->
    Forall spoken lines ->
    mapM (shown (variableFromName (vm w)) (variableValues (vm w))) lines
    = Some events ->
    standsAt pre w ->
    stack (vm w) = [] ->
    exists w',
      runVM (S (length lines)) (length ir) w = Some (Ok tt w')
      /\ console w' = console w ++ events
      /\ stack (vm w') = [] /\ replies w' = replies w.
Proof.
  induction lines as [|[speaker node] lines IH];
    intros s0 pre w events Hir Hwithin Hspoken Hshown Hat Hstack.
  - cbn in Hir, Hshown. injection Hshown as <-.
    destruct (runs_EndOfScript pre [] w Hir Hat Hstack)
      as (w' & Hstep & C & St & R).
    exists w'. rewrite app_nil_r. split; [|done].
    assert (length ir = S (length pre)) as ->
      by (rewrite Hir, length_app; simpl; lia).
    cbn [runVM run length]. by rewrite Hstep.
  - apply Forall_cons in Hspoken as [(Hname & Hnul & Hdec & Hwhole) Hspoken].
    cbn [fst snd] in *.
    cbn [mapM] in Hshown. rewrite shown_pair in Hshown.
    destruct (renderChildren (variableFromName (vm w)) (variableValues (vm w))
                (AST.textContents node)) as [text|] eqn:Etext; [|done].
    cbn [mbind option_bind] in Hshown.
    destruct (mapM (shown (variableFromName (vm w)) (variableValues (vm w)))
                lines) as [events'|] eqn:Erest; [|done].
    cbn [mbind option_bind mret option_ret] in Hshown.
    injection Hshown as <-.
    change (map lineOf ((speaker, node) :: lines))
      with (AST.Dialogue (Some speaker) node :: map lineOf lines) in *.
    rewrite Interning.compileStatements_cons in Hir, Hwithin.
    cbn [fst snd Compiler.compileStatement] in Hir, Hwithin.
    set (block := fst (Compiler.compileDialogue (Some speaker) node s0)) in *.
    set (s1 := snd (Compiler.compileDialogue (Some speaker) node s0)) in *.
    pose proof (compileStatements_within (map lineOf lines) s1) as H1.
    destruct (runs_line speaker node s0 pre
                (fst (Compiler.compileStatements (map lineOf lines) s1)
                   ++ [EndOfScriptOp]) w text)
      as (w1 & Hrun & C1 & St1 & V1 & R1 & N1 & Hat1); try done.
    { rewrite Hir. by rewrite <- !app_assoc. }
    { by apply (within_trans _ _ _ H1). }
    fold block in Hrun, Hat1.
    destruct (IH s1 (pre ++ block) w1 events')
      as (w' & Hplay & C & St & R); try done.
    { rewrite Hir. by rewrite <- !app_assoc. }
    { by rewrite N1, V1. }
    { by rewrite St1. }
    exists w'. split; [|split; [|split; [done|congruence]]].
    + change (length ((speaker, node) :: lines)) with (S (length lines)).
      cbn [runVM].
      assert (length ir = (length block + (length ir - length block))%nat)
        as Hfuel.
      { rewrite Hir, !length_app. lia. }
      rewrite Hfuel at 1. rewrite (run_more _ _ _ _ Hrun).
      exact Hplay.
    + rewrite C, C1, <- app_assoc. reflexivity.
Qed.

End Code.

(** *** From the script to its first line *)

(** X26. From the script to its first line. For a document that starts
    with a line of a speaker, whose text is whole (it has a child, and so
    has every text and script nested in it) and renders with every
    variable empty (every script in it has a source that is not empty and
    that the evaluator returns a value for), the machine made by
    [createVM] of the image that [compileIR] and [compileBytecode] make of
    it runs the header and the code of the line in its first call of
    [run]: it prints the name of the speaker and the text, returns
    [false], and has an empty stack and all the replies left. The names
    of the speaker, the variables and the strings are encoded without a
    zero byte and decoded as they were encoded, and the image is shorter
    than 4 GiB. *)
Theorem first_line_is_shown (decode : list byte -> string)
    (evaluate : string -> (string -> string) -> option string)
    (encode : string -> list byte) (speaker : string) (node : AST.TextNode)
    (others : list AST.StatementNode) (image : list byte)
    (answers : list (option string)) (text : string) :
  let document := AST.Document (AST.Dialogue (Some speaker) node :: others) in
  let ir := fst (Compiler.compileIR document Compiler.createCompiler) in
  let state := snd (Compiler.compileIR document Compiler.createCompiler) in
  let block :=
    fst (Compiler.compileDialogue (Some speaker) node Compiler.createCompiler) in
  Compiler.compileBytecode encode ir state = Compiler.Encoded image ->
  Z.of_nat (length image) < 4294967296 ->
  (forall name,
     In name (speaker :: map fst (Compiler.variables state)
                ++ map fst (Compiler.strings state)) ->
     nulFree (encode name) /\ decode (encode name) = name) ->
  speaker <> "" ->
  LoweringProps.wholeText node = true ->
  renderChildren evaluate state
    (ImageRuns.bound (Compiler.variables state) ∅) ∅ (AST.textContents node)
  = Some text ->
  exists w',
    run decode evaluate (S (length (Compiler.variables state)) + length block)
      (mkWorld (createVM image) answers []) = Some (Ok false w')
    /\ console w'
       = [ConsoleLog ("<< " +:+ speaker
                      +:+ String "010" (text +:+ String "010" ""))]
    /\ stack (vm w') = [] /\ replies w' = answers.
Proof.
  intros document ir state block Himage Hsize Hcodec Hspeaker Hwhole Hrender.
  destruct (Images.compileIR_image encode document) as (Hwf & _).
  fold state in Hwf.
  destruct (ImageRuns.boots decode evaluate encode document image answers
              Himage Hsize)
    as (w1 & Hsteps & Hview & Hpc & _ & Hnames & Hstack & Hvalues & _ & _
        & Hconsole & Hreplies).
  { intros name Hin. apply Hcodec. right. apply in_or_app. by left. }
  fold state in Hsteps, Hpc, Hnames.
  set (s1 := snd (Compiler.compileDialogue (Some speaker) node
                    Compiler.createCompiler)).
  assert (Compiler.compileIR document Compiler.createCompiler
          = ([LabelIR 0] ++ block
               ++ fst (Compiler.compileStatements others s1)
               ++ [EndOfScriptOp],
             snd (Compiler.compileStatements others s1))) as Hall.
  { unfold document, Compiler.compileIR.
    rewrite Interning.compileStatements_cons.
    cbn [fst snd Compiler.compileStatement]. fold block s1.
    by rewrite <- !app_assoc. }
  assert (ir = [LabelIR 0] ++ block
                 ++ fst (Compiler.compileStatements others s1)
                 ++ [EndOfScriptOp]) as Hir
    by (unfold ir; by rewrite Hall).
  assert (state = snd (Compiler.compileStatements others s1)) as Hstate
    by (unfold state; by rewrite Hall).
  destruct (Hcodec speaker ltac:(by left)) as [Hnul Hdec].
  destruct (runs_line decode evaluate encode ir state image Hwf Himage Hsize)
    with (speaker := speaker) (node := node) (s0 := Compiler.createCompiler)
         (pre := [LabelIR 0])
         (post := fst (Compiler.compileStatements others s1)
                    ++ [EndOfScriptOp])
         (w := w1) (text := text)
    as (w' & Hrun & C & St & _ & R & _); try done.
  - intros name id Hin. apply Hcodec. right. apply in_or_app. right.
    apply in_map_iff. by exists (name, id).
  - fold s1. rewrite Hstate. apply compileStatements_within.
  - by rewrite Hnames, Hvalues.
  - exists w'. fold block in Hrun.
    rewrite (run_steps decode evaluate _ (length block) _ _ Hsteps).
    split; [done|]. rewrite C, St, R, Hconsole, Hstack, Hreplies. done.
Qed.

(** X27. A script of lines is played through. For a document of lines
    that all have a speaker and a whole text (it has a child, and so has
    every text and script nested in it), all of which render with every
    variable empty (every script in them has a source that is not empty
    and that the evaluator returns a value for), the loop of run-vm.ts on
    the machine made by [createVM] of its compiled image ends: [run]
    returns [false] once for each line and then [true], nothing is raised,
    and the console holds the lines in the order of the script, each under
    the name of its speaker; the stack is empty and no reply was used.
    The names of the speakers, the variables and the strings are encoded
    without a zero byte and decoded as they were encoded, and the image is
    shorter than 4 GiB. *)
Theorem lines_are_played (decode : list byte -> string)
    (evaluate : string -> (string -> string) -> option string)
    (encode : string -> list byte) (lines : list (string * AST.TextNode))
    (image : list byte) (answers : list (option string))
    (events : list Event) :
  let document := AST.Document (map lineOf lines) in
  let ir := fst (Compiler.compileIR document Compiler.createCompiler) in
  let state := snd (Compiler.compileIR document Compiler.createCompiler) in
  Compiler.compileBytecode encode ir state = Compiler.Encoded image ->
  Z.of_nat (length image) < 4294967296 ->
  (forall name,
     In name (map fst (Compiler.variables state)
                ++ map fst (Compiler.strings state)) ->
     nulFree (encode name) /\ decode (encode name) = name) ->
  Forall (spoken decode encode) lines ->
  mapM (shown evaluate state (ImageRuns.bound (Compiler.variables state) ∅) ∅)
    lines = Some events ->
  exists w',
    runVM decode evaluate (S (length lines))
      (S (length (Compiler.variables state)) + length ir)
      (mkWorld (createVM image) answers []) = Some (Ok tt w')
    /\ console w' = events /\ stack (vm w') = [] /\ replies w' = answers.
Proof.
  intros document ir state Himage Hsize Hcodec Hspoken Hshown.
  destruct (Images.compileIR_image encode document) as (Hwf & _).
  fold state in Hwf.
  destruct (ImageRuns.boots decode evaluate encode document image answers
              Himage Hsize)
    as (w1 & Hsteps & Hview & Hpc & _ & Hnames & Hstack & Hvalues & _ & _
        & Hconsole & Hreplies).
  { intros name Hin. apply Hcodec. apply in_or_app. by left. }
  fold state in Hsteps, Hpc, Hnames.
  assert (Compiler.compileIR document Compiler.createCompiler
          = ([LabelIR 0]
               ++ fst (Compiler.compileStatements (map lineOf lines)
                         Compiler.createCompiler)
               ++ [EndOfScriptOp],
             snd (Compiler.compileStatements (map lineOf lines)
                    Compiler.createCompiler))) as Hall.
  { unfold document, Compiler.compileIR.
    by destruct (Compiler.compileStatements _ _). }
  destruct (runs_lines decode evaluate encode ir state image Hwf Himage Hsize)
    with (lines := lines) (s0 := Compiler.createCompiler) (pre := [LabelIR 0])
         (w := w1) (events := events)
    as (w' & Hplay & C & St & R); try done.
  - intros name id Hin. apply Hcodec. apply in_or_app. right.
    apply in_map_iff. by exists (name, id).
  - unfold ir. by rewrite Hall.
  - unfold state. rewrite Hall. apply within_refl.
  - by rewrite Hnames, Hvalues.
  - exists w'. split; [|by rewrite C, Hconsole, R, Hreplies].
    exact (runVM_steps decode evaluate _ _ _ _ _ _ Hsteps Hplay).
Qed.

(** The script [Bob: Hi $x], with [you] as the value of [x]. *)
Definition hiYou : AST.DocumentNode :=
  AST.Document
    [AST.Dialogue (Some "Bob")
       (AST.mkTextNode [AST.String_ "Hi "; AST.Expression "x"] None)].

Definition hiYouIR : list IR :=
  fst (Compiler.compileIR hiYou Compiler.createCompiler).

Definition hiYouState : Compiler.CompilerState :=
  snd (Compiler.compileIR hiYou Compiler.createCompiler).

(** The machine with [you] as the value of the variable 0, in front of
    the operation at [pc]. *)
Definition youAt (image : list byte) (pc : Z) : World :=
  jumped pc
    (mkWorld
       (set_variableValues {[0 := "you"]} (set_variableName "x" (createVM image)))
       [] []).

Lemma hiYou_image :
  exists image,
    Compiler.compileBytecode Utf8.encode hiYouIR hiYouState
    = Compiler.Encoded image
    /\ Z.of_nat (length image) < 4294967296
    /\ SymbolTables.wfState hiYouState
    /\ (forall text id, In (text, id) (Compiler.strings hiYouState) ->
          nulFree (Utf8.encode text) /\ Utf8.decode (Utf8.encode text) = text).
Proof.
  destruct (Images.compileIR_image Utf8.encode hiYou) as (Hwf & image & Himage).
  exists image. split; [done|]. split; [|split; [done|]].
  - vm_compute in Himage. injection Himage as <-. vm_compute. reflexivity.
  - intros text id [[= <- <-]|[]].
    split; [repeat constructor; discriminate|reflexivity].
Qed.


Lemma dialogue_prints_witness :
  exists image w',
    Compiler.compileBytecode Utf8.encode hiYouIR hiYouState
    = Compiler.Encoded image
    /\ run Utf8.decode noScript 5 (youAt image 26) = Some (Ok false w')
    /\ console w'
       = [ConsoleLog ("<< " +:+ "Bob"
                      +:+ String "010" ("Hi you" +:+ String "010" ""))].
Proof.
  destruct hiYou_image as (image & Himage & Hsize & Hwf & Hcodec).
  destruct (dialogue_prints Utf8.decode noScript Utf8.encode hiYouIR hiYouState
              image Hwf Himage Hsize Hcodec
              (AST.mkTextNode [AST.String_ "Hi "; AST.Expression "x"] None)
              (snd (Compiler.getCharacterId Compiler.createCompiler "Bob"))
              [LabelIR 0] [EndOfScriptOp] 0 None "Bob" "Hi you"
              (youAt image 26))
    as (w' & Hrun & Hconsole & _).
  - reflexivity.
  - intros kind entry Hin. exact Hin.
  - by left.
  - repeat constructor; discriminate.
  - reflexivity.
  - reflexivity.
  - vm_compute. reflexivity.
  - reflexivity.
  - vm_compute. reflexivity.
  - exists image, w'. done.
Defined.



















(** The script of the one line [Hi], of nobody. *)
Definition hiOfNobody : AST.DocumentNode :=
  AST.Document
    [AST.Dialogue None (AST.mkTextNode [AST.String_ "Hi"] None)].

Definition hiOfNobodyIR : list IR :=
  fst (Compiler.compileIR hiOfNobody Compiler.createCompiler).

Definition hiOfNobodyState : Compiler.CompilerState :=
  snd (Compiler.compileIR hiOfNobody Compiler.createCompiler).

Lemma hiOfNobody_image :
  exists image,
    Compiler.compileBytecode Utf8.encode hiOfNobodyIR hiOfNobodyState
    = Compiler.Encoded image
    /\ Z.of_nat (length image) < 4294967296
    /\ SymbolTables.wfState hiOfNobodyState
    /\ (forall text id, In (text, id) (Compiler.strings hiOfNobodyState) ->
          nulFree (Utf8.encode text) /\ Utf8.decode (Utf8.encode text) = text)
    /\ readStrBytes image = Some [x07].
Proof.
  destruct (Images.compileIR_image Utf8.encode hiOfNobody)
    as (Hwf & image & Himage).
  exists image. split; [done|]. split; [|split; [done|split]].
  - vm_compute in Himage. injection Himage as <-. vm_compute. reflexivity.
  - intros text id [[= <- <-]|[]].
    split; [repeat constructor; discriminate|reflexivity].
  - vm_compute in Himage. injection Himage as <-. reflexivity.
Qed.

(** On a new machine the line is shown under the first byte of the
    image, the opcode of the [Jump] over the names, read as a name. *)
Lemma line_without_speaker_witness :
  exists image w',
    Compiler.compileBytecode Utf8.encode hiOfNobodyIR hiOfNobodyState
    = Compiler.Encoded image
    /\ run Utf8.decode noScript 2
         (jumped 11 (mkWorld (createVM image) [] [])) = Some (Ok false w')
    /\ console w'
       = [ConsoleLog ("<< " +:+ Utf8.decode [x07]
                      +:+ String "010" ("Hi" +:+ String "010" ""))].
Proof.
  destruct hiOfNobody_image as (image & Himage & Hsize & Hwf & Hcodec & Hname).
  destruct (line_without_speaker Utf8.decode noScript Utf8.encode hiOfNobodyIR
              hiOfNobodyState image Hwf Himage Hsize Hcodec None
              (AST.mkTextNode [AST.String_ "Hi"] None)
              Compiler.createCompiler [LabelIR 0] [EndOfScriptOp]
              (jumped 11 (mkWorld (createVM image) [] [])) "Hi" [x07])
    as (w' & Hrun & Hconsole & _).
  - reflexivity.
  - reflexivity.
  - intros kind entry Hin. exact Hin.
  - reflexivity.
  - reflexivity.
  - simpl. lia.
  - exact Hname.
  - reflexivity.
  - vm_compute. reflexivity.
  - exists image, w'. done.
Defined.

(** The script of the one line [Bob:], a speaker and no text. *)
Definition bobAlone : AST.DocumentNode :=
  AST.Document [AST.Dialogue (Some "Bob") (AST.mkTextNode [] None)].



Lemma bobAlone_parsed :
  exists l, Parser.parse 8 (Lexer.lex "Bob:") = Parser.Parsed bobAlone l.
Proof. eexists. vm_compute. reflexivity. Qed.



(** On a new machine [x] has no value yet: the line of [hiYou] is shown
    without it, in seven rounds from the start of the image. *)
Lemma first_line_is_shown_witness :
  exists image w',
    Compiler.compileBytecode Utf8.encode hiYouIR hiYouState
    = Compiler.Encoded image
    /\ run Utf8.decode noScript 7 (mkWorld (createVM image) [] [])
       = Some (Ok false w')
    /\ console w'
       = [ConsoleLog ("<< " +:+ "Bob"
                      +:+ String "010" ("Hi " +:+ String "010" ""))].
Proof.
  destruct hiYou_image as (image & Himage & Hsize & _).
  destruct (first_line_is_shown Utf8.decode noScript Utf8.encode "Bob"
              (AST.mkTextNode [AST.String_ "Hi "; AST.Expression "x"] None)
              [] image [] "Hi " Himage Hsize)
    as (w' & Hrun & Hconsole & _).
  - intros name [<-|[<-|[<-|[]]]];
      (split; [repeat constructor; discriminate|reflexivity]).
  - discriminate.
  - reflexivity.
  - reflexivity.
  - exists image, w'. done.
Defined.

(** The script of the two lines [Bob: Hi] and [Ann: Yo]. *)
Definition twoLines : list (string * AST.TextNode) :=
  [("Bob", AST.mkTextNode [AST.String_ "Hi"] None);
   ("Ann", AST.mkTextNode [AST.String_ "Yo"] None)].

Definition twoLinesIR : list IR :=
  fst (Compiler.compileIR (AST.Document (map lineOf twoLines))
         Compiler.createCompiler).

Definition twoLinesState : Compiler.CompilerState :=
  snd (Compiler.compileIR (AST.Document (map lineOf twoLines))
         Compiler.createCompiler).

Lemma twoLines_image :
  exists image,
    Compiler.compileBytecode Utf8.encode twoLinesIR twoLinesState
    = Compiler.Encoded image
    /\ Z.of_nat (length image) < 4294967296.
Proof.
  destruct (Images.compileIR_image Utf8.encode
              (AST.Document (map lineOf twoLines))) as (_ & image & Himage).
  exists image. split; [done|].
  vm_compute in Himage. injection Himage as <-. vm_compute. reflexivity.
Qed.

Lemma lines_are_played_witness :
  exists image w',
    Compiler.compileBytecode Utf8.encode twoLinesIR twoLinesState
    = Compiler.Encoded image
    /\ runVM Utf8.decode noScript 3 9 (mkWorld (createVM image) [] [])
       = Some (Ok tt w')
    /\ console w'
       = [ConsoleLog ("<< " +:+ "Bob"
                      +:+ String "010" ("Hi" +:+ String "010" ""));
          ConsoleLog ("<< " +:+ "Ann"
                      +:+ String "010" ("Yo" +:+ String "010" ""))].
Proof.
  destruct twoLines_image as (image & Himage & Hsize).
  destruct (lines_are_played Utf8.decode noScript Utf8.encode twoLines image []
              [ConsoleLog ("<< " +:+ "Bob"
                           +:+ String "010" ("Hi" +:+ String "010" ""));
               ConsoleLog ("<< " +:+ "Ann"
                           +:+ String "010" ("Yo" +:+ String "010" ""))]
              Himage Hsize)
    as (w' & Hplay & Hconsole & _).
  - intros name [<-|[<-|[]]];
      (split; [repeat constructor; discriminate|reflexivity]).
  - repeat constructor; discriminate.
  - reflexivity.
  - exists image, w'. done.
Defined.

End TextRuns.

Module Selects.
Import AST Compiler VM VMProps LoweringProps.

(** The script of one select with an empty prompt, [$x ? a ""] and a line
    end, and the one of two, [$x ? a "" ? b ""]. *)
Definition emptyOption : string :=
  "$x ? a " +:+ String "034" (String "034" (String "010" "")).

Definition emptyOptions : string :=
  "$x ? a " +:+ String "034" (String "034"
    (" ? b " +:+ String "034" (String "034" (String "010" "")))).

(** [compile.ts] and [run-vm.ts] in a row: the script is parsed, lowered
    and encoded, and the image is run on a new machine with the replies
    that the user will give. *)
Definition play (fuel : nat) (script : string) (answers : list (option string))
    : option (Outcome bool) :=
  match Parser.parse fuel (Lexer.lex script) with
  | Parser.Parsed document _ =>
      let '(ir, state) := compileIR document createCompiler in
      match compileBytecode Utf8.encode ir state with
      | Encoded image =>
          run Utf8.decode noScript fuel (mkWorld (createVM image) answers [])
      | _ => None
      end
  | _ => None
  end.

(** What a run left behind: how it ended, the stack, register 3, the
    console and the value of the variable 0. *)
Definition leftBehind (o : option (Outcome bool))
    : option ((bool + Error) * list (option string) * jsnum * list Event
              * option string) :=
  match o with
  | Some (Ok b w) =>
      Some (inl b, stack (vm w), getReg 3 (vm w), console w,
            variableValues (vm w) !! 0)
  | Some (Throw e w) =>
      Some (inr e, stack (vm w), getReg 3 (vm w), console w,
            variableValues (vm w) !! 0)
  | None => None
  end.

Definition selectOf (options : list AssignmentChoiceNode) : DocumentNode :=
  Document [AssignmentSelect "x" options].

Definition emptyPromptOf (key : string) : AssignmentChoiceNode :=
  AssignmentChoice (ChoiceValue (mkTextNode [] (Some "034"%char)) key).

(** C6, at the script [$x ? a ""]: the parser returns the select with the
    one option [a] whose prompt has no child; [compileChoiceValue] lowers
    the option to the [ReadStr] of its key alone, one value where the
    comments of [compileAssignmentSelect] count two; the [SubRegReg] then
    leaves 1 in register 3 and [PickOption] raises the odd option length,
    with the key still on the stack.  With a second such option,
    [$x ? a "" ? b ""], the count is 2 and nothing is raised: the key [a]
    is taken for the prompt of [b], the one option shown, and the reply [a]
    is refused as no option. *)
Theorem empty_prompt_breaks_the_count :
  (exists rest,
     Parser.parse 80 (Lexer.lex emptyOption)
     = Parser.Parsed (selectOf [emptyPromptOf "a"]) rest)
  /\ fst (compileChoiceValue (ChoiceValue (mkTextNode [] (Some "034"%char)) "a")
            createCompiler)
     = [ReadStrOp 0]
  /\ fst (compileIR (selectOf [emptyPromptOf "a"]) createCompiler)
     = [LabelIR 0; MoveRegRegOp 1 3; ReadStrOp 0; SubRegRegOp 3 1 3;
        PickOptionOp 3; SetVariableOp 0; EndOfScriptOp]
  /\ leftBehind (play 80 emptyOption [Some "a"])
     = Some (inr OddOptionLength, [Some "a"], Num 1, [], None)
  /\ (exists rest,
        Parser.parse 80 (Lexer.lex emptyOptions)
        = Parser.Parsed (selectOf [emptyPromptOf "a"; emptyPromptOf "b"]) rest)
  /\ fst (compileIR (selectOf [emptyPromptOf "a"; emptyPromptOf "b"])
            createCompiler)
     = [LabelIR 0; MoveRegRegOp 1 3; ReadStrOp 0; ReadStrOp 1;
        SubRegRegOp 3 1 3; PickOptionOp 3; SetVariableOp 0; EndOfScriptOp]
  /\ leftBehind (play 80 emptyOptions [Some "b"])
     = Some (inl true, [], Num 2,
             [ConsoleLogOptions [("b", "a")];
              PromptMessage ">> Pick an option: b:"; ConsoleLog ""],
             Some "b")
  /\ leftBehind (play 80 emptyOptions [Some "a"])
     = Some (inr InvalidOption, [], Num 2,
             [ConsoleLogOptions [("b", "a")];
              PromptMessage ">> Pick an option: b:"],
             None).
Proof.
  split; [eexists; vm_compute; reflexivity|].
  split; [reflexivity|]. split; [reflexivity|].
  split; [vm_compute; reflexivity|].
  split; [eexists; vm_compute; reflexivity|].
  split; [reflexivity|].
  split; vm_compute; reflexivity.
Qed.

(** X29. The options that count. An option whose prompt is whole (it has
    a child, and so has every text and script nested in it) lowers to the
    code of the prompt, which leaves one value, and the [ReadStr] of the
    id that the string table has for its key, which leaves a second;
    between the [MoveRegReg] and the [SubRegReg] of a select whose options
    are all such the stack grows by twice the number of options. *)
Theorem whole_option_pushes_two (key : string)
    (options : list AssignmentChoiceNode) (state : CompilerState) :
  forallb wholeOption options = true ->
  (forall prompt optionKey state' h,
     In (AssignmentChoice (ChoiceValue prompt optionKey)) options ->
     let ir := fst (compileTextNode prompt state') in
     let state1 := snd (compileTextNode prompt state') in
     let id := fst (getStringId state1 optionKey) in
     compileChoiceValue (ChoiceValue prompt optionKey) state'
     = (ir ++ [ReadStrOp id], snd (getStringId state1 optionKey))
     /\ In (optionKey, id) (strings (snd (getStringId state1 optionKey)))
     /\ heightAfter ir h = Some (S h)
     /\ heightAfter (ir ++ [ReadStrOp id]) h = Some (S (S h)))
  /\ exists body state1,
       compileOptions options state = (body, state1)
       /\ fst (compileAssignmentSelect key options state)
          = [MoveRegRegOp 1 3] ++ body
              ++ [SubRegRegOp 3 1 3; PickOptionOp 3;
                  SetVariableOp (fst (getVariableId state1 key))]
       /\ forall h, heightAfter body h = Some (h + 2 * length options)%nat.
Proof.
  intros Hw. split.
  - intros prompt optionKey state' h Hin ir state1 id.
    assert (wholeText prompt = true) as Hp.
    { rewrite forallb_forall in Hw. exact (Hw _ Hin). }
    pose proof (compileTextNode_height prompt state' h Hp) as H.
    fold ir in H.
    split.
    { unfold compileChoiceValue, ir, id, state1.
      destruct (compileTextNode prompt state') as [ir0 s1]. cbn [fst snd].
      by destruct (getStringId s1 optionKey). }
    split; [exact (proj2 (Interning.getStringId_within state1 optionKey))|].
    split; [exact H|].
    rewrite (heightAfter_app _ _ _ _ H). reflexivity.
  - unfold compileAssignmentSelect.
    pose proof (fun h => compileOptions_height options state h Hw) as H.
    destruct (compileOptions options state) as [body state1].
    exists body, state1. split; [reflexivity|].
    destruct (getVariableId state1 key) as [id state2]. by cbn [fst] in *.
Qed.

(** The select of the options [a "A"] and [b "B"]. *)
Definition twoOptions : list AssignmentChoiceNode :=
  [AssignmentChoice (ChoiceValue (mkTextNode [String_ "A"] (Some "034"%char)) "a");
   AssignmentChoice (ChoiceValue (mkTextNode [String_ "B"] (Some "034"%char)) "b")].

Lemma whole_option_pushes_two_witness :
  forallb wholeOption twoOptions = true
  /\ fst (compileAssignmentSelect "x" twoOptions createCompiler)
     = [MoveRegRegOp 1 3; ReadStrOp 0; ReadStrOp 1; ReadStrOp 2; ReadStrOp 3;
        SubRegRegOp 3 1 3; PickOptionOp 3; SetVariableOp 0]
  /\ exists body state1,
       compileOptions twoOptions createCompiler = (body, state1)
       /\ fst (compileAssignmentSelect "x" twoOptions createCompiler)
          = [MoveRegRegOp 1 3] ++ body
              ++ [SubRegRegOp 3 1 3; PickOptionOp 3;
                  SetVariableOp (fst (getVariableId state1 "x"))]
       /\ forall h, heightAfter body h = Some (h + 2 * length twoOptions)%nat.
Proof.
  split; [reflexivity|]. split; [reflexivity|].
  exact (proj2 (whole_option_pushes_two "x" twoOptions createCompiler eq_refl)).
Defined.

End Selects.
